(** * GPBFT core of go-f3: a shallow embedding and its checked properties

    The development follows the layout of the Go sources:
    - [Int64], [Uint64]: Go's fixed-width arithmetic (wrap-around, truncated
      division);
    - quorum arithmetic ([divCeil], [IsStrongQuorum], [hasWeakQuorum]) from
      gpbft/gpbft.go;
    - the chain model of gpbft/chain.go ([TipSet], [ECChain]);
    - the quorum accumulator ([quorumState]) and the CONVERGE collector
      ([convergeState]) of gpbft/gpbft.go;
    - the instance state machine of gpbft/gpbft.go;
    - the codec adapter of internal/encoding/encoding.go, with the CBOR of
      the messages and the Zstandard frame it is used with.

    Part I holds the embedding, Part II the lemmas and theorems.

    Conventions of the embedding.  Go's [int64] and [uint64] values are
    integers of [Z] with the wrap-around written out.  A byte is a [Z] in
    [0, 256).  A nil-able pointer or slice is an [option].  A Go [panic] is
    the [Panic] outcome; a returned [error] is an [option error].  Calls that
    only log or record metrics do not touch the modelled state and are left
    out. *)

From Stdlib Require Import ZArith Lia List Bool.
From stdpp Require Import base option list gmap sets fin_maps sorting strings.

Local Open Scope Z_scope.

(** * Part I: the embedding *)

(** ** Fixed-width integers *)

Module Int64.

Definition min_int : Z := - 2 ^ 63.
Definition max_int : Z := 2 ^ 63 - 1.

Definition in_range (z : Z) : Prop := min_int <= z <= max_int.

(** Two's complement wrap-around of an exact result. *)
Definition wrap (z : Z) : Z := (z + 2 ^ 63) mod 2 ^ 64 - 2 ^ 63.

Definition add (a b : Z) : Z := wrap (a + b).
Definition sub (a b : Z) : Z := wrap (a - b).
Definition mul (a b : Z) : Z := wrap (a * b).
(** Go's [/] and [%] truncate towards zero. *)
Definition quo (a b : Z) : Z := wrap (Z.quot a b).
Definition rem (a b : Z) : Z := Z.rem a b.

End Int64.

Module Uint64.

Definition wrap (z : Z) : Z := z mod 2 ^ 64.
Definition add (a b : Z) : Z := wrap (a + b).
Definition sub (a b : Z) : Z := wrap (a - b).

End Uint64.

(** ** Quorum arithmetic (gpbft.go, general helpers) *)

(** [divCeil]; its only callers pass the constant divisor 3. *)
Definition divCeil (a b : Z) : Z :=
  let quo := Int64.quo a b in
  let rem := Int64.rem a b in
  if negb (rem =? 0) then Int64.add quo 1 else quo.

(** Check whether a portion of storage power is a strong quorum of the total. *)
Definition IsStrongQuorum (part whole : Z) : bool :=
  divCeil (Int64.mul 2 whole) 3 <=? part.

(** Check whether a portion of storage power is a weak quorum of the total. *)
Definition hasWeakQuorum (part whole : Z) : bool :=
  divCeil whole 3 <? part.

(** Integer ceiling division as the specification means it: for a positive
    divisor, the least [q] with [a <= q * b]. *)
Definition ceilDiv (a b : Z) : Z := - ((- a) / b).

(** ** Errors and outcomes *)

(** Go error values: [errors.New], and [fmt.Errorf] with a wrapped cause
    ([%w]).  Formatted arguments other than the cause are not kept. *)
Inductive error : Type :=
| errors_New (msg : string)
| fmt_Errorf (msg : string) (cause : error).

(** A call either returns or panics. *)
Inductive outcome (A : Type) : Type :=
| Return (a : A)
| Panic (msg : string).
Arguments Return {A} a.
Arguments Panic {A} msg.

(** ** Chain model (gpbft/chain.go) *)

Abbreviation byte := Z (only parsing).
Abbreviation bytes := (list Z) (only parsing).

(** Big-endian encoding on [n] bytes, as [binary.Write(_, binary.BigEndian, _)]
    produces for a fixed-width integer. *)
Fixpoint be_bytes (n : nat) (z : Z) : bytes :=
  match n with
  | O => []
  | S n' => be_bytes n' (Z.shiftr z 8) ++ [Z.land z 255]
  end.

Definition CidMaxLen : nat := 38.
Definition ChainMaxLen : nat := 128.
Definition ChainDefaultLen : nat := 100.
Definition TipsetKeyMaxLen : nat := 20 * CidMaxLen.

(** A [cid.Cid] of go-cid wraps its binary form: [Defined] holds when that
    string is not empty, [ByteLen] is its length and [Bytes] the string. *)
Module Cid.

Definition t : Type := bytes.
Definition Defined (c : t) : bool := negb (bool_decide (c = [])).
Definition ByteLen (c : t) : nat := length c.
Definition Bytes (c : t) : bytes := c.
Definition Equals (a b : t) : bool := bool_decide (a = b).

End Cid.

Module TipSet.

Record t : Type := mk {
  Epoch : Z;
  Key : bytes;
  PowerTable : Cid.t;
  Commitments : bytes
}.

#[global] Instance eq_dec : EqDecision t.
Proof. solve_decision. Defined.

(** [Validate] on a non-nil tipset; the nil case is [Validate_ptr]. *)
Definition Validate (ts : t) : option error :=
  if (length (Key ts) =? 0)%nat then
    Some (errors_New "tipset key must not be empty")
  else if (TipsetKeyMaxLen <? length (Key ts))%nat then
    Some (errors_New "tipset key too long")
  else if negb (Cid.Defined (PowerTable ts)) then
    Some (errors_New "power table CID must not be empty")
  else if (CidMaxLen <? Cid.ByteLen (PowerTable ts))%nat then
    Some (errors_New "power table CID too long")
  else None.

Definition Validate_ptr (ts : option t) : option error :=
  match ts with
  | None => Some (errors_New "tipset must not be nil")
  | Some ts => Validate ts
  end.

Definition Equal_val (a b : t) : bool :=
  (Epoch a =? Epoch b)
  && bool_decide (Key a = Key b)
  && Cid.Equals (PowerTable a) (PowerTable b)
  && bool_decide (Commitments a = Commitments b).

(** [Equal] on pointers: two nils are equal, a nil and a tipset are not. *)
Definition Equal (a b : option t) : bool :=
  match a, b with
  | Some a, Some b => Equal_val a b
  | None, None => true
  | _, _ => false
  end.

End TipSet.

(** A map key for a chain; the zero value (the empty string) means bottom. *)
Abbreviation ChainKey := (list Z) (only parsing).

Module ECChain.

(** A chain is a slice of tipsets; the nil and the empty slice are both the
    zero chain, bottom. *)
Definition t : Type := list TipSet.t.

Definition IsZero (c : t) : bool := (length c =? 0)%nat.

Definition Len (c : t) : nat := length c.

Definition HasSuffix (c : t) : bool := (1 <? length c)%nat.

Definition Base (c : t) : option TipSet.t :=
  if IsZero c then None else head c.

Definition Suffix (c : t) : list TipSet.t :=
  if IsZero c then [] else drop 1 c.

Definition Head (c : t) : option TipSet.t :=
  if IsZero c then None else last c.

Definition BaseChain (c : t) : t :=
  match c with
  | [] => []
  | b :: _ => [b]
  end.

(** [Prefix]: every caller in the sources passes a length that is not
    negative, hence the [nat] argument. *)
Definition Prefix (c : t) (to : nat) : t :=
  if IsZero c then []
  else
    let length := Nat.min (to + 1) (length c) in
    take length c.

(** The loop of [Eq]; it runs once the lengths are known to agree. *)
Fixpoint Eq_from (c other : t) : bool :=
  match c, other with
  | x :: c', y :: other' =>
      if negb (TipSet.Equal (Some x) (Some y)) then false else Eq_from c' other'
  | _, _ => true
  end.

Definition Eq (c other : t) : bool :=
  if negb (length c =? length other)%nat then false else Eq_from c other.

Definition HasBase (c : t) (ts : option TipSet.t) : bool :=
  negb (bool_decide (ts = None)) && negb (IsZero c) && TipSet.Equal (Base c) ts.

(** The loop of [Validate] over the tipsets from position [i], with the last
    epoch seen so far. *)
Fixpoint Validate_from (i : nat) (lastEpoch : Z) (c : t) : option error :=
  match c with
  | [] => None
  | ts :: rest =>
      match TipSet.Validate ts with
      | Some err => Some (fmt_Errorf "tipset %d: %w" err)
      | None =>
          if TipSet.Epoch ts <=? lastEpoch then
            Some (errors_New "chain must have increasing epochs %d <= %d")
          else Validate_from (S i) (TipSet.Epoch ts) rest
      end
  end.

Definition Validate (c : t) : option error :=
  if IsZero c then None
  else if (ChainMaxLen <? length c)%nat then Some (errors_New "chain too long")
  else Validate_from 0 (-1) c.

(** The bytes [Key] writes for one tipset. *)
Definition Key_tipset (ts : TipSet.t) : bytes :=
  be_bytes 8 (TipSet.Epoch ts)
  ++ TipSet.Commitments ts
  ++ be_bytes 4 (Z.of_nat (length (TipSet.Key ts)))
  ++ TipSet.Key ts
  ++ Cid.Bytes (TipSet.PowerTable ts).

Definition Key (c : t) : ChainKey := concat (map Key_tipset c).

(** Creates a new chain: the base followed by the suffix, if it validates. *)
Definition NewChain (base : TipSet.t) (suffix : list TipSet.t)
    : t * option error :=
  let chain := base :: suffix in
  match Validate chain with
  | Some err => ([], Some err)
  | None => (chain, None)
  end.

(** The loop of [Extend]: the tipset for the key at position [i] takes the
    epoch [offset + i], the given power table and zero commitments. *)
Fixpoint Extend_from (i : nat) (offset : Z) (pt : Cid.t) (tips : list bytes)
    (c : t) : t :=
  match tips with
  | [] => c
  | tip :: tips' =>
      Extend_from (S i) offset pt tips'
        (c ++ [TipSet.mk (Int64.add offset (Z.of_nat i)) tip pt (replicate 32 0)])
  end.

(** Extends the chain with the given tipset keys; the head of a zero chain
    is nil, and dereferencing it panics. *)
Definition Extend (c : t) (tips : list bytes) : outcome t :=
  match Head c with
  | None => Panic "nil pointer dereference"
  | Some head =>
      let offset := Int64.add (TipSet.Epoch head) 1 in
      let pt := TipSet.PowerTable head in
      Return (Extend_from 0 offset pt tips c)
  end.

End ECChain.

(** go-cid's [cid.CidFromBytes]: reads one CID from the front of the bytes;
    returns the number of bytes read, the CID and an error. *)
Class CidReader : Type := {
  CidFromBytes : bytes → nat * Cid.t * option error
}.

(** [tipSetKeyFromCids]: the concatenation of the bytes of the CIDs.  (A
    write to a [bytes.Buffer] returns no error.) *)
Definition tipSetKeyFromCids (cids : list Cid.t) : bytes * option error :=
  (concat (Cid.Bytes <$> cids), None).

(** The loop of [cidsFromTipSetKey].  It ends when [nextIdx] reaches the end
    of the bytes; a read of zero bytes would repeat forever, which is the
    result [None] once the [fuel], one more than the number of bytes, is
    used up. *)
Fixpoint cidsFromTipSetKey_loop `{CidReader} (fuel : nat) (encoded : bytes)
    (nextIdx : nat) (cids : list Cid.t) : option (list Cid.t * option error) :=
  match fuel with
  | O => None
  | S fuel' =>
      if (nextIdx <? length encoded)%nat then
        let '(nr, c, err) := CidFromBytes (drop nextIdx encoded) in
        match err with
        | Some err => Some ([], Some err)
        | None => cidsFromTipSetKey_loop fuel' encoded (nextIdx + nr) (cids ++ [c])
        end
      else Some (cids, None)
  end.

Definition cidsFromTipSetKey `{CidReader} (encoded : bytes)
    : option (list Cid.t * option error) :=
  cidsFromTipSetKey_loop (S (length encoded)) encoded 0 [].

(** [ECChainKey.IsZero] as gpbft.go uses it: the key of bottom. *)
Definition ChainKey_IsZero (key : ChainKey) : bool := bool_decide (key = []).

Definition bottomECChain : ECChain.t := [].

(** ** Monadic plumbing for panics *)

#[global] Instance outcome_ret : MRet outcome := λ A a, Return a.
#[global] Instance outcome_bind : MBind outcome := λ A B f m,
  match m with
  | Return a => f a
  | Panic msg => Panic msg
  end.

(** ** Message types

    gpbft.go uses these types; their declarations live in gpbft/types.go.
    The fields are the ones the sources read and the specification lists. *)

(** [ActorID] is a [uint64]. *)
Abbreviation ActorID := Z (only parsing).

Inductive Phase : Type :=
| INITIAL_PHASE
| QUALITY_PHASE
| CONVERGE_PHASE
| PREPARE_PHASE
| COMMIT_PHASE
| DECIDE_PHASE
| TERMINATED_PHASE.

#[global] Instance Phase_eq_dec : EqDecision Phase.
Proof. solve_decision. Defined.

Module SupplementalData.

Record t : Type := mk {
  Commitments : bytes;
  PowerTable : Cid.t
}.

#[global] Instance eq_dec : EqDecision t.
Proof. solve_decision. Defined.

Definition Eq (a b : t) : bool := bool_decide (a = b).

End SupplementalData.

Module Payload.

Record t : Type := mk {
  Instance_ : Z;
  Round : Z;
  Phase_ : Phase;
  SupplementalData_ : SupplementalData.t;
  Value : ECChain.t
}.

#[global] Instance eq_dec : EqDecision t.
Proof. solve_decision. Defined.

End Payload.

Module Justification.

Record t : Type := mk {
  Vote : Payload.t;
  (** A bit field over power-table indices, kept as the list it is built from. *)
  Signers : list nat;
  Signature : bytes
}.

#[global] Instance eq_dec : EqDecision t.
Proof. solve_decision. Defined.

End Justification.

Module GMessage.

Record t : Type := mk {
  Sender : ActorID;
  Vote : Payload.t;
  Signature : option bytes;
  Ticket : bytes;
  Justification_ : option Justification.t
}.

End GMessage.

(** ** Power table *)

Module PowerEntry.

Record t : Type := mk {
  ID : ActorID;
  Power : Z;
  PubKey : bytes
}.

End PowerEntry.

Module PowerTable.

(** Modelled from the spec: the power table of gpbft/powertable.go, which is
    not among the sources: an ordered list of entries with the pre-computed
    scaled powers, their total and the lookup from an actor to its index. *)
Record t : Type := mk {
  Entries : list PowerEntry.t;
  ScaledPower : list Z;
  Lookup : gmap Z nat;
  Total : Z;
  ScaledTotal : Z
}.

(** Modelled from the spec: [Get] returns the scaled power and the public key
    of an actor of the table, and zero and nil for any other actor. *)
Definition Get (p : t) (id : ActorID) : Z * option bytes :=
  match Lookup p !! id with
  | Some index =>
      (default 0 (ScaledPower p !! index), PowerEntry.PubKey <$> Entries p !! index)
  | None => (0, None)
  end.

End PowerTable.

(** ** Iteration over Go maps

    Go does not specify the order in which [range] visits a map.  The
    embedding takes that order from the run time: any enumeration of the
    entries of the map. *)
Class MapRange : Type := {
  map_range : ∀ {K} `{Countable K} {A}, gmap K A → list (K * A);
  map_range_perm : ∀ {K} `{Countable K} {A} (m : gmap K A),
    map_range m ≡ₚ map_to_list m
}.

(** The enumeration stdpp's maps come with is one such order. *)
Definition MapRange_default : MapRange :=
  {| map_range := λ K _ _ A m, map_to_list m;
     map_range_perm := λ K _ _ A m, reflexivity (map_to_list m) |}.

(** ** Quorum accumulator (gpbft.go, incremental quorum-calculation helper) *)

Module chainSupport.

(** A chain value and the total power supporting it. *)
Record t : Type := mk {
  chain : ECChain.t;
  power : Z;
  signatures : gmap Z (option bytes);
  hasStrongQuorum : bool
}.

End chainSupport.

Module QuorumResult.

Record t : Type := mk {
  (** Indexes into the power table, in increasing order. *)
  Signers : list nat;
  Signatures : list (option bytes)
}.

Definition zero : t := mk [] [].

(** [SignersBitfield]: the bit field holding exactly the signers. *)
Definition SignersBitfield (q : t) : list nat := Signers q.

End QuorumResult.

Module quorumState.

Record t : Type := mk {
  (** Set of senders from which a message has been received. *)
  senders : gset Z;
  (** Total power of all distinct senders received from so far. *)
  sendersTotalPower : Z;
  (** The power supporting each chain so far. *)
  chainSupport_ : gmap (list Z) chainSupport.t;
  (** Table of senders' power. *)
  powerTable : PowerTable.t;
  (** Stores justifications received for some value. *)
  receivedJustification : gmap (list Z) Justification.t
}.

Definition newQuorumState (powerTable : PowerTable.t) : t :=
  mk ∅ 0 ∅ powerTable ∅.

(** Adds sender's power to the total the first time a value is received
    from them; returns the power and whether this was the first time. *)
Definition receiveSender (q : t) (sender : ActorID) : t * (Z * bool) :=
  if bool_decide (sender ∈ senders q) then (q, (0, false))
  else
    let senderPower := (PowerTable.Get (powerTable q) sender).1 in
    (mk ({[sender]} ∪ senders q)
        (Int64.add (sendersTotalPower q) senderPower)
        (chainSupport_ q) (powerTable q) (receivedJustification q),
     (senderPower, true)).

Definition receiveInner (q : t) (sender : ActorID) (value : ECChain.t)
    (power : Z) (signature : option bytes) : outcome t :=
  let key := ECChain.Key value in
  let candidate :=
    match chainSupport_ q !! key with
    | Some candidate => candidate
    | None => chainSupport.mk value 0 ∅ false
    end in
  let power' := Int64.add (chainSupport.power candidate) power in
  if bool_decide (is_Some (mjoin (chainSupport.signatures candidate !! sender))) then
    Panic "duplicate message should have been dropped"
  else
    let candidate' :=
      chainSupport.mk (chainSupport.chain candidate) power'
        (<[sender := signature]> (chainSupport.signatures candidate))
        (IsStrongQuorum power' (PowerTable.ScaledTotal (powerTable q))) in
    Return (mk (senders q) (sendersTotalPower q)
               (<[key := candidate']> (chainSupport_ q))
               (powerTable q) (receivedJustification q)).

(** Receives a chain from a sender; any later value of that sender is ignored. *)
Definition Receive (q : t) (sender : ActorID) (value : ECChain.t)
    (signature : option bytes) : outcome t :=
  let '(q, (senderPower, ok)) := receiveSender q sender in
  if negb ok then Return q
  else receiveInner q sender value senderPower signature.

(** The loop of [ReceiveEachPrefix] over the indexes [js] of the suffix. *)
Fixpoint ReceiveEachPrefix_loop (q : t) (sender : ActorID) (values : ECChain.t)
    (senderPower : Z) (js : list nat) : outcome t :=
  match js with
  | [] => Return q
  | j :: js' =>
      let prefix := ECChain.Prefix values (j + 1) in
      q' ← receiveInner q sender prefix senderPower None;
      ReceiveEachPrefix_loop q' sender values senderPower js'
  end.

(** Receives each prefix of a chain as a distinct value from a sender. *)
Definition ReceiveEachPrefix (q : t) (sender : ActorID) (values : ECChain.t)
    : outcome t :=
  let '(q, (senderPower, ok)) := receiveSender q sender in
  if negb ok then Return q
  else
    ReceiveEachPrefix_loop q sender values senderPower
      (seq 0 (length (ECChain.Suffix values))).

(** Receives and stores a justification for a value; keeps the first one. *)
Definition ReceiveJustification (q : t) (value : ECChain.t)
    (justification : option Justification.t) : outcome t :=
  match justification with
  | None => Panic "nil justification"
  | Some justification =>
      let key := ECChain.Key value in
      match receivedJustification q !! key with
      | Some _ => Return q
      | None =>
          Return (mk (senders q) (sendersTotalPower q) (chainSupport_ q)
                     (powerTable q)
                     (<[key := justification]> (receivedJustification q)))
      end
  end.

Definition ListAllValues `{MapRange} (q : t) : list ECChain.t :=
  (λ kv, chainSupport.chain kv.2) <$> map_range (chainSupport_ q).

Definition ReceivedFromStrongQuorum (q : t) : bool :=
  IsStrongQuorum (sendersTotalPower q) (PowerTable.ScaledTotal (powerTable q)).

Definition ReceivedFromWeakQuorum (q : t) : bool :=
  hasWeakQuorum (sendersTotalPower q) (PowerTable.ScaledTotal (powerTable q)).

Definition HasStrongQuorumFor (q : t) (key : ChainKey) : bool :=
  match chainSupport_ q !! key with
  | Some supportForChain => chainSupport.hasStrongQuorum supportForChain
  | None => false
  end.

Definition GetJustificationOf `{MapRange} (q : t) (phase : Phase)
    (key : ChainKey) : option Justification.t :=
  if ChainKey_IsZero key then
    List.find
      (λ justification,
         ECChain.IsZero (Payload.Value (Justification.Vote justification))
         && bool_decide (Payload.Phase_ (Justification.Vote justification) = phase))
      (snd <$> map_range (receivedJustification q))
  else
    match receivedJustification q !! key with
    | Some justification =>
        if bool_decide (Payload.Phase_ (Justification.Vote justification) = phase)
        then Some justification else None
    | None => None
    end.

Definition HasJustificationOf `{MapRange} (q : t) (phase : Phase)
    (key : ChainKey) : bool :=
  bool_decide (is_Some (GetJustificationOf q phase key)).

(** Whether the chain can still reach a strong quorum given the messages
    received locally, with a third of the power added for an equivocating
    adversary when [withAdversary]. *)
Definition CouldReachStrongQuorumFor (q : t) (key : ChainKey)
    (withAdversary : bool) : bool :=
  let supportingPower :=
    match chainSupport_ q !! key with
    | Some supportForChain => chainSupport.power supportForChain
    | None => 0
    end in
  let ScaledTotal := PowerTable.ScaledTotal (powerTable q) in
  let unvotedPower := Int64.sub ScaledTotal (sendersTotalPower q) in
  let adversaryPower := if withAdversary then Int64.quo ScaledTotal 3 else 0 in
  let possibleSupport :=
    Z.min (Int64.add (Int64.add supportingPower unvotedPower) adversaryPower)
          ScaledTotal in
  IsStrongQuorum possibleSupport ScaledTotal.

(** First loop of [FindStrongQuorumFor]: the power-table index of each signer. *)
Fixpoint signer_indices (powerTable : PowerTable.t) (ids : list ActorID)
    : outcome (list nat) :=
  match ids with
  | [] => Return []
  | id :: ids' =>
      match PowerTable.Lookup powerTable !! id with
      | None => Panic "signer not found in power table"
      | Some entryIndex =>
          signers ← signer_indices powerTable ids';
          Return (entryIndex :: signers)
      end
  end.

(** Second loop of [FindStrongQuorumFor]: accumulate signers and signatures
    until they reach a strong quorum.  [rest] are the signers from position
    [i] on. *)
Fixpoint accumulate_quorum (powerTable : PowerTable.t) (cs : chainSupport.t)
    (signers rest : list nat) (i : nat) (justificationPower : Z)
    (signatures : list (option bytes)) : outcome (QuorumResult.t * bool) :=
  match rest with
  | [] => Panic "strong quorum exists but could not be found"
  | idx :: rest' =>
      if (length (PowerTable.Entries powerTable) <=? idx)%nat then
        Panic "invalid signer index"
      else
        match PowerTable.ScaledPower powerTable !! idx,
              PowerTable.Entries powerTable !! idx with
        | Some power, Some entry =>
            let justificationPower := Int64.add justificationPower power in
            let signatures :=
              signatures
              ++ [mjoin (chainSupport.signatures cs !! PowerEntry.ID entry)] in
            if IsStrongQuorum justificationPower (PowerTable.ScaledTotal powerTable)
            then Return (QuorumResult.mk (take (i + 1) signers) signatures, true)
            else
              accumulate_quorum powerTable cs signers rest' (S i)
                justificationPower signatures
        | _, _ => Panic "index out of range"
        end
  end.

(** Checks whether a chain has reached a strong quorum; if so returns signers
    and signatures for the value that form a strong quorum. *)
Definition FindStrongQuorumFor `{MapRange} (q : t) (key : ChainKey)
    : outcome (QuorumResult.t * bool) :=
  match chainSupport_ q !! key with
  | None => Return (QuorumResult.zero, false)
  | Some chainSupport =>
      if negb (chainSupport.hasStrongQuorum chainSupport) then
        Return (QuorumResult.zero, false)
      else
        signers ← signer_indices (powerTable q)
                    (fst <$> map_range (chainSupport.signatures chainSupport));
        let signers := merge_sort Nat.le signers in
        accumulate_quorum (powerTable q) chainSupport signers signers 0 0 []
  end.

(** The longest prefix of [preferred] which has a strong quorum, or the base
    of [preferred] if there is none. *)
Definition FindStrongQuorumValueForLongestPrefixOf (q : t)
    (preferred : ECChain.t) : ECChain.t :=
  if HasStrongQuorumFor q (ECChain.Key preferred) then preferred
  else
    match
      List.find (λ i, HasStrongQuorumFor q (ECChain.Key (ECChain.Prefix preferred i)))
        (rev (seq 0 (ECChain.Len preferred)))
    with
    | Some i => ECChain.Prefix preferred i
    | None => ECChain.BaseChain preferred
    end.

(** The loop of [FindStrongQuorumValue] over the entries of the map. *)
Fixpoint FindStrongQuorumValue_loop (entries : list (list Z * chainSupport.t))
    (quorumValue : ECChain.t) (foundQuorum : bool) : outcome (ECChain.t * bool) :=
  match entries with
  | [] => Return (quorumValue, foundQuorum)
  | (key, cp) :: entries' =>
      if chainSupport.hasStrongQuorum cp then
        if foundQuorum then Panic "multiple chains with strong quorum"
        else FindStrongQuorumValue_loop entries' (chainSupport.chain cp) true
      else FindStrongQuorumValue_loop entries' quorumValue foundQuorum
  end.

(** Returns the chain with a strong quorum of support, if there is one. *)
Definition FindStrongQuorumValue `{MapRange} (q : t) : outcome (ECChain.t * bool) :=
  FindStrongQuorumValue_loop (map_range (chainSupport_ q)) [] false.

End quorumState.

(** ** CONVERGE phase helper (gpbft.go) *)

(** Go's [float64], of which the sources use the constants 0, 1 and +Inf, the
    comparison [<], and the synchrony delay
    [time.Duration(float64(delta) * multi * math.Pow(exponent, float64(round)))],
    kept here as an operation of its four inputs. *)
Class Float64 : Type := {
  float64 : Type;
  float64_eq_dec :: EqDecision float64;
  f64_zero : float64;
  f64_one : float64;
  f64_inf : float64;
  f64_lt : float64 → float64 → bool;
  f64_delay : Z → float64 → float64 → Z → Z
}.

(** [ComputeTicketRank] of gpbft/ticket_rank.go, which is not among the
    sources: the rank of a ticket for a sender of the given scaled power. *)
Class TicketRank `{Float64} : Type := {
  ComputeTicketRank : bytes → Z → float64
}.

Module ConvergeValue.

Section with_float.
Context `{Float64}.

Record t : Type := mk {
  Chain : ECChain.t;
  Justification_ : option Justification.t;
  Rank : float64
}.

(** The zero value of the struct. *)
Definition zero : t := mk [] None f64_zero.

Definition IsValid (cv : t) : bool :=
  negb (ECChain.IsZero (Chain cv)) && bool_decide (is_Some (Justification_ cv)).

(** Returns true if the argument is better than self. *)
Definition IsOtherBetter (cv other : t) : bool :=
  negb (IsValid cv) || f64_lt (Rank other) (Rank cv).

End with_float.

End ConvergeValue.

Module convergeState.

Section with_float.
Context `{TicketRank}.

Record t : Type := mk {
  (** Participants from which a message has been received. *)
  senders : gset Z;
  (** Chains indexed by key. *)
  values : gmap (list Z) ConvergeValue.t;
  (** Only used for metrics reporting. *)
  sendersTotalPower : Z
}.

Definition newConvergeState : t := mk ∅ ∅ 0.

(** Sets the participant's locally-proposed converge value. *)
Definition SetSelfValue (c : t) (value : ECChain.t)
    (justification : option Justification.t) : t :=
  let key := ECChain.Key value in
  match values c !! key with
  | Some _ => c
  | None =>
      mk (senders c)
         (<[key := ConvergeValue.mk value justification f64_inf]> (values c))
         (sendersTotalPower c)
  end.

(** Receives a new CONVERGE value from a sender; any later value of that
    sender is ignored. *)
Definition Receive (c : t) (sender : ActorID) (table : PowerTable.t)
    (value : ECChain.t) (ticket : bytes)
    (justification : option Justification.t) : t * option error :=
  if ECChain.IsZero value then
    (c, Some (errors_New "bottom cannot be justified for CONVERGE"))
  else if bool_decide (justification = None) then
    (c, Some (errors_New "converge message cannot carry nil-justification"))
  else if bool_decide (sender ∈ senders c) then (c, None)
  else
    let senders' := {[sender]} ∪ senders c in
    let senderPower := (PowerTable.Get table sender).1 in
    let sendersTotalPower' := Int64.add (sendersTotalPower c) senderPower in
    let key := ECChain.Key value in
    match values c !! key with
    | None =>
        (mk senders'
            (<[key := ConvergeValue.mk value justification
                        (ComputeTicketRank ticket senderPower)]> (values c))
            sendersTotalPower',
         None)
    | Some v =>
        let rank := ComputeTicketRank ticket senderPower in
        if f64_lt rank (ConvergeValue.Rank v) then
          (mk senders'
              (<[key := ConvergeValue.mk (ConvergeValue.Chain v)
                          (ConvergeValue.Justification_ v) rank]> (values c))
              sendersTotalPower',
           None)
        else (mk senders' (values c) sendersTotalPower', None)
    end.

(** The loop of [FindBestTicketProposal]; the filter may dereference a nil
    justification, which panics. *)
Fixpoint FindBestTicketProposal_loop
    (filter : option (ConvergeValue.t → outcome bool))
    (vs : list ConvergeValue.t) (bestValue : ConvergeValue.t)
    : outcome ConvergeValue.t :=
  match vs with
  | [] => Return bestValue
  | value :: vs' =>
      if ConvergeValue.IsOtherBetter bestValue value then
        pass ← match filter with
               | None => Return true
               | Some filter => filter value
               end;
        FindBestTicketProposal_loop filter vs' (if pass : bool then value else bestValue)
      else FindBestTicketProposal_loop filter vs' bestValue
  end.

(** Finds the value with the best ticket among those the filter accepts; a
    nil filter accepts all.  Returns the zero value if there is none. *)
Definition FindBestTicketProposal `{MapRange} (c : t)
    (filter : option (ConvergeValue.t → outcome bool)) : outcome ConvergeValue.t :=
  FindBestTicketProposal_loop filter (snd <$> map_range (values c))
    ConvergeValue.zero.

Definition FindProposalFor `{MapRange} (c : t) (chain : ECChain.t)
    : ConvergeValue.t :=
  default ConvergeValue.zero
    (List.find (λ value, ECChain.Eq (ConvergeValue.Chain value) chain)
       (snd <$> map_range (values c))).

(** The loop of [GetJustificationOf] for the zero key; a value without
    justification makes the dereference panic. *)
Fixpoint GetJustificationOf_loop (phase : Phase) (vs : list ConvergeValue.t)
    : outcome (option Justification.t) :=
  match vs with
  | [] => Return None
  | value :: vs' =>
      match ConvergeValue.Justification_ value with
      | None => Panic "nil pointer dereference"
      | Some justification =>
          if ECChain.IsZero (Payload.Value (Justification.Vote justification))
             && bool_decide (Payload.Phase_ (Justification.Vote justification) = phase)
          then Return (Some justification)
          else GetJustificationOf_loop phase vs'
      end
  end.

Definition GetJustificationOf `{MapRange} (c : t) (phase : Phase)
    (key : ChainKey) : outcome (option Justification.t) :=
  if ChainKey_IsZero key then
    GetJustificationOf_loop phase (snd <$> map_range (values c))
  else
    match values c !! key with
    | Some value =>
        match ConvergeValue.Justification_ value with
        | None => Panic "nil pointer dereference"
        | Some justification =>
            if bool_decide (Payload.Phase_ (Justification.Vote justification) = phase)
            then Return (Some justification) else Return None
        end
    | None => Return None
    end.

Definition HasJustificationOf `{MapRange} (c : t) (phase : Phase)
    (key : ChainKey) : outcome bool :=
  j ← GetJustificationOf c phase key;
  Return (bool_decide (is_Some j)).

End with_float.

End convergeState.

(** ** Collaborators of the instance

    The instance reaches its host, its signature aggregator and its
    configuration through the participant.  Their declarations are not among
    the sources; the embedding keeps what the instance reads and calls. *)

Module Instant.

Record t : Type := mk {
  ID : Z;
  Round : Z;
  Phase_ : Phase
}.

End Instant.

Module InstanceProgress.

Record t : Type := mk {
  Instant_ : Instant.t;
  Input : ECChain.t
}.

End InstanceProgress.

Module MessageBuilder.

Record t : Type := mk {
  NetworkName : string;
  PowerTable_ : PowerTable.t;
  Payload_ : Payload.t;
  Justification_ : option Justification.t;
  BeaconForTicket : option bytes
}.

End MessageBuilder.

(** The aggregate signature scheme: [Aggregate] returns the aggregate of the
    signatures of the signers, or an error. *)
Class Aggregate : Type := {
  Aggregate_ : list nat → list (option bytes) → bytes * option error
}.

Definition QuorumResult_Aggregate `{Aggregate} (q : QuorumResult.t)
    : bytes * option error :=
  Aggregate_ (QuorumResult.Signers q) (QuorumResult.Signatures q).

(** What the instance asks of its host, in the order it asks. *)
Inductive HostEvent : Type :=
| SetAlarm (at_ : Z)
| RequestBroadcast (mb : MessageBuilder.t)
| RequestRebroadcast (instant : Instant.t)
| NotifyProgress (progress : InstanceProgress.t).

Module Host.

(** The host as the instance sees it: the clock, which stands still while a
    handler runs, and the requests made so far, latest first.  Instants are
    nanoseconds since the zero [time.Time]. *)
Record t : Type := mk {
  Time : Z;
  events : list HostEvent
}.

End Host.

Module Participant.

Section with_float.
Context `{Float64}.

(** The configuration the instance reads from its participant. *)
Record t : Type := mk {
  delta : Z;
  deltaBackOffExponent : float64;
  qualityDeltaMulti : float64;
  maxLookaheadRounds : Z;
  rebroadcastImmediatelyAfterRound : Z;
  rebroadcastAfter : Z → Z;
  NetworkName : string
}.

End with_float.

End Participant.

Definition ErrReceivedWrongInstance : error :=
  errors_New "received message for wrong instance".
Definition ErrReceivedAfterTermination : error :=
  errors_New "received message after terminating".
Definition ErrValidationWrongBase : error :=
  errors_New "unexpected base chain".
Definition ErrValidationWrongSupplement : error :=
  errors_New "unexpected supplemental data".

#[global] Instance error_eq_dec : EqDecision error.
Proof. solve_decision. Defined.

(** [errors.Is]: the error or one of its wrapped causes is the target. *)
Fixpoint errors_Is (err target : error) : bool :=
  bool_decide (err = target)
  || match err with
     | errors_New _ => false
     | fmt_Errorf _ cause => errors_Is cause target
     end.

(** Modelled from the spec: the test [errors.As(err, &ValidationError{})] of
    gpbft/errors.go, which is not among the sources.  The validation errors
    of the instance are the wrong instance, the wrong supplement and the
    wrong base. *)
Definition is_ValidationError (err : error) : bool :=
  errors_Is err ErrReceivedWrongInstance
  || errors_Is err ErrValidationWrongSupplement
  || errors_Is err ErrValidationWrongBase.

(** Tests whether lhs is equal to or greater than rhs. *)
Definition atOrAfter (lhs rhs : Z) : bool := (rhs <? lhs) || (lhs =? rhs).

Module roundState.

Section with_float.
Context `{TicketRank}.

Record t : Type := mk {
  converged : convergeState.t;
  prepared : quorumState.t;
  committed : quorumState.t
}.

Definition newRoundState (powerTable : PowerTable.t) : t :=
  mk convergeState.newConvergeState
     (quorumState.newQuorumState powerTable)
     (quorumState.newQuorumState powerTable).

Definition set_converged (c : convergeState.t) (r : t) : t :=
  mk c (prepared r) (committed r).
Definition set_prepared (q : quorumState.t) (r : t) : t :=
  mk (converged r) q (committed r).
Definition set_committed (q : quorumState.t) (r : t) : t :=
  mk (converged r) (prepared r) q.

End with_float.

End roundState.

(** ** The instance (gpbft.go) *)

Module instance.

Section with_collaborators.
Context `{TicketRank} `{MapRange} `{Aggregate}.

(** A single Granite consensus instance. *)
Record t : Type := mk {
  participant : Participant.t;
  (** The EC chain input to this instance. *)
  input : ECChain.t;
  (** The power table for the base chain. *)
  powerTable : PowerTable.t;
  (** The beacon value from the base chain, used for tickets. *)
  beacon : bytes;
  (** Instance ID, round and phase. *)
  current : InstanceProgress.t;
  (** Time at which the current phase can or must end. *)
  phaseTimeout : Z;
  rebroadcastTimeout : Z;
  rebroadcastAttempts : Z;
  supplementalData : SupplementalData.t;
  (** This instance's proposal for the current round. *)
  proposal : ECChain.t;
  (** The value to be transmitted at the next phase, which may be bottom. *)
  value : ECChain.t;
  (** The values that are acceptable candidates to this instance. *)
  candidates : gset (list Z);
  (** The final termination value of the instance. *)
  terminationValue : option Justification.t;
  (** Quality phase state (only for round 0). *)
  quality : quorumState.t;
  (** State for each round of phases. *)
  rounds : gmap Z roundState.t;
  (** Decision state. *)
  decision : quorumState.t
}.

Definition ID (i : t) : Z := Instant.ID (InstanceProgress.Instant_ (current i)).
Definition Round (i : t) : Z := Instant.Round (InstanceProgress.Instant_ (current i)).
Definition Phase_ (i : t) : Phase := Instant.Phase_ (InstanceProgress.Instant_ (current i)).

(** *** Field assignments *)

Definition set_current (x : InstanceProgress.t) (i : t) : t :=
  mk (participant i) (input i) (powerTable i) (beacon i) x (phaseTimeout i)
     (rebroadcastTimeout i) (rebroadcastAttempts i) (supplementalData i)
     (proposal i) (value i) (candidates i) (terminationValue i) (quality i)
     (rounds i) (decision i).

Definition set_Phase (x : Phase) (i : t) : t :=
  set_current
    (InstanceProgress.mk (Instant.mk (ID i) (Round i) x)
       (InstanceProgress.Input (current i))) i.

Definition set_Round (x : Z) (i : t) : t :=
  set_current
    (InstanceProgress.mk (Instant.mk (ID i) x (Phase_ i))
       (InstanceProgress.Input (current i))) i.

Definition set_phaseTimeout (x : Z) (i : t) : t :=
  mk (participant i) (input i) (powerTable i) (beacon i) (current i) x
     (rebroadcastTimeout i) (rebroadcastAttempts i) (supplementalData i)
     (proposal i) (value i) (candidates i) (terminationValue i) (quality i)
     (rounds i) (decision i).

Definition set_rebroadcastTimeout (x : Z) (i : t) : t :=
  mk (participant i) (input i) (powerTable i) (beacon i) (current i)
     (phaseTimeout i) x (rebroadcastAttempts i) (supplementalData i)
     (proposal i) (value i) (candidates i) (terminationValue i) (quality i)
     (rounds i) (decision i).

Definition set_rebroadcastAttempts (x : Z) (i : t) : t :=
  mk (participant i) (input i) (powerTable i) (beacon i) (current i)
     (phaseTimeout i) (rebroadcastTimeout i) x (supplementalData i)
     (proposal i) (value i) (candidates i) (terminationValue i) (quality i)
     (rounds i) (decision i).

Definition set_proposal (x : ECChain.t) (i : t) : t :=
  mk (participant i) (input i) (powerTable i) (beacon i) (current i)
     (phaseTimeout i) (rebroadcastTimeout i) (rebroadcastAttempts i)
     (supplementalData i) x (value i) (candidates i) (terminationValue i)
     (quality i) (rounds i) (decision i).

Definition set_value (x : ECChain.t) (i : t) : t :=
  mk (participant i) (input i) (powerTable i) (beacon i) (current i)
     (phaseTimeout i) (rebroadcastTimeout i) (rebroadcastAttempts i)
     (supplementalData i) (proposal i) x (candidates i) (terminationValue i)
     (quality i) (rounds i) (decision i).

Definition set_candidates (x : gset (list Z)) (i : t) : t :=
  mk (participant i) (input i) (powerTable i) (beacon i) (current i)
     (phaseTimeout i) (rebroadcastTimeout i) (rebroadcastAttempts i)
     (supplementalData i) (proposal i) (value i) x (terminationValue i)
     (quality i) (rounds i) (decision i).

Definition set_terminationValue (x : option Justification.t) (i : t) : t :=
  mk (participant i) (input i) (powerTable i) (beacon i) (current i)
     (phaseTimeout i) (rebroadcastTimeout i) (rebroadcastAttempts i)
     (supplementalData i) (proposal i) (value i) (candidates i) x
     (quality i) (rounds i) (decision i).

Definition set_quality (x : quorumState.t) (i : t) : t :=
  mk (participant i) (input i) (powerTable i) (beacon i) (current i)
     (phaseTimeout i) (rebroadcastTimeout i) (rebroadcastAttempts i)
     (supplementalData i) (proposal i) (value i) (candidates i)
     (terminationValue i) x (rounds i) (decision i).

Definition set_rounds (x : gmap Z roundState.t) (i : t) : t :=
  mk (participant i) (input i) (powerTable i) (beacon i) (current i)
     (phaseTimeout i) (rebroadcastTimeout i) (rebroadcastAttempts i)
     (supplementalData i) (proposal i) (value i) (candidates i)
     (terminationValue i) (quality i) x (decision i).

Definition set_decision (x : quorumState.t) (i : t) : t :=
  mk (participant i) (input i) (powerTable i) (beacon i) (current i)
     (phaseTimeout i) (rebroadcastTimeout i) (rebroadcastAttempts i)
     (supplementalData i) (proposal i) (value i) (candidates i)
     (terminationValue i) (quality i) (rounds i) x.

(** *** The monad of the methods

    A method runs on the instance and its host; it returns or panics, and
    what it changed before a panic stays changed. *)

Record state : Type := mkState {
  self : t;
  host : Host.t
}.

Definition M (A : Type) : Type := state → outcome A * state.

#[local] Instance M_ret : MRet M := λ A a s, (Return a, s).
#[local] Instance M_bind : MBind M := λ A B f m s,
  match m s with
  | (Return a, s') => f a s'
  | (Panic msg, s') => (Panic msg, s')
  end.

Definition get : M t := λ s, (Return (self s), s).
Definition modify (f : t → t) : M unit :=
  λ s, (Return tt, mkState (f (self s)) (host s)).
Definition panic {A} (msg : string) : M A := λ s, (Panic msg, s).
Definition lift {A} (o : outcome A) : M A := λ s, (o, s).
Definition host_Time : M Z := λ s, (Return (Host.Time (host s)), s).
Definition emit (e : HostEvent) : M unit :=
  λ s, (Return tt,
        mkState (self s) (Host.mk (Host.Time (host s)) (e :: Host.events (host s)))).

Definition skip : M unit := mret tt.

(** *** Creation *)

Definition newInstance (participant : Participant.t) (instanceID : Z)
    (input : ECChain.t) (data : SupplementalData.t)
    (powerTable : PowerTable.t) (beacon : bytes) : option t * option error :=
  if ECChain.IsZero input then (None, Some (errors_New "input is empty"))
  else
    (Some
       (mk participant input powerTable beacon
          (InstanceProgress.mk (Instant.mk instanceID 0 INITIAL_PHASE) input)
          0 0 0 data input []
          {[ ECChain.Key (ECChain.BaseChain input) ]}
          None
          (quorumState.newQuorumState powerTable)
          {[ 0 := roundState.newRoundState powerTable ]}
          (quorumState.newQuorumState powerTable)),
     None).

(** *** Small helpers *)

Definition getRound (r : Z) : M roundState.t :=
  i ← get;
  match rounds i !! r with
  | Some round => mret round
  | None =>
      let round := roundState.newRoundState (powerTable i) in
      modify (λ i, set_rounds (<[r := round]> (rounds i)) i);;
      mret round
  end.

(** A write through the pointer [getRound] returned. *)
Definition store_round (r : Z) (round : roundState.t) : M unit :=
  modify (λ i, set_rounds (<[r := round]> (rounds i)) i).

Definition terminated : M bool :=
  i ← get; mret (bool_decide (Phase_ i = TERMINATED_PHASE)).

Definition isCandidate (c : ECChain.t) : M bool :=
  i ← get; mret (bool_decide (ECChain.Key c ∈ candidates i)).

Definition addCandidate (c : ECChain.t) : M bool :=
  i ← get;
  let key := ECChain.Key c in
  if negb (bool_decide (key ∈ candidates i)) then
    modify (set_candidates ({[key]} ∪ candidates i));;
    mret true
  else mret false.

(** The loop of [addCandidatePrefixes], from length [l] downwards; it stops
    at the first prefix it adds. *)
Fixpoint addCandidatePrefixes_from (c : ECChain.t) (l : nat) : M bool :=
  match l with
  | O => mret false
  | S l' =>
      addedAny ← addCandidate (ECChain.Prefix c l);
      if addedAny : bool then mret true else addCandidatePrefixes_from c l'
  end.

Definition addCandidatePrefixes (c : ECChain.t) : M bool :=
  addCandidatePrefixes_from c (ECChain.Len c - 1)%nat.

Definition resetRebroadcastParams : M unit :=
  modify (set_rebroadcastAttempts 0);;
  modify (set_rebroadcastTimeout 0).

Definition phaseTimeoutElapsed : M bool :=
  now ← host_Time; i ← get; mret (atOrAfter now (phaseTimeout i)).

Definition rebroadcastTimeoutElapsed : M bool :=
  now ← host_Time; i ← get; mret (atOrAfter now (rebroadcastTimeout i)).

Definition shouldRebroadcast : M bool :=
  elapsed ← phaseTimeoutElapsed;
  i ← get;
  mret (elapsed
        || (Participant.rebroadcastImmediatelyAfterRound (participant i) <? Round i)).

(** Sets an alarm to be delivered after a synchrony delay including a
    multiplier on the duration; returns the time at which it will fire. *)
Definition alarmAfterSynchronyWithMulti (multi : float64) : M Z :=
  i ← get;
  let delta :=
    f64_delay (Participant.delta (participant i)) multi
      (Participant.deltaBackOffExponent (participant i)) (Round i) in
  now ← host_Time;
  let timeout := now + Int64.mul 2 delta in
  emit (SetAlarm timeout);;
  mret timeout.

Definition alarmAfterSynchrony : M Z := alarmAfterSynchronyWithMulti f64_one.

Definition broadcast (round : Z) (phase : Phase) (value : ECChain.t)
    (createTicket : bool) (justification : option Justification.t) : M unit :=
  i ← get;
  let p := Payload.mk (ID i) round phase (supplementalData i) value in
  let mb :=
    MessageBuilder.mk (Participant.NetworkName (participant i)) (powerTable i)
      p justification (if createTicket then Some (beacon i) else None) in
  emit (RequestBroadcast mb).

Definition notifyProgress : M unit :=
  i ← get; emit (NotifyProgress (current i)).

Definition rebroadcastQuietly (round : Z) (phase : Phase) : M unit :=
  i ← get; emit (RequestRebroadcast (Instant.mk (ID i) round phase)).

Definition rebroadcast : M unit :=
  i ← get;
  match Phase_ i with
  | QUALITY_PHASE | CONVERGE_PHASE | PREPARE_PHASE | COMMIT_PHASE =>
      rebroadcastQuietly 0 QUALITY_PHASE;;
      rebroadcastQuietly (Round i) COMMIT_PHASE;;
      rebroadcastQuietly (Round i) PREPARE_PHASE;;
      rebroadcastQuietly (Round i) CONVERGE_PHASE;;
      if 0 <? Round i then
        rebroadcastQuietly (Uint64.sub (Round i) 1) COMMIT_PHASE;;
        rebroadcastQuietly (Uint64.sub (Round i) 1) PREPARE_PHASE;;
        rebroadcastQuietly (Uint64.sub (Round i) 1) CONVERGE_PHASE
      else skip
  | DECIDE_PHASE => rebroadcastQuietly 0 DECIDE_PHASE
  | _ => skip
  end.

(** The alarm arbitration shared by the two active cases of
    [tryRebroadcast]; [otherwise] is what the last branch does. *)
Definition arbitrate_alarm (otherwise : M unit) : M unit :=
  elapsed ← phaseTimeoutElapsed;
  i ← get;
  if elapsed : bool then emit (SetAlarm (rebroadcastTimeout i))
  else if rebroadcastTimeout i <? phaseTimeout i then
    emit (SetAlarm (rebroadcastTimeout i))
  else otherwise.

Definition tryRebroadcast : M unit :=
  i ← get;
  if (rebroadcastAttempts i =? 0) && (rebroadcastTimeout i =? 0) then
    now ← host_Time;
    let rebroadcastTimeoutOffset :=
      if bool_decide (Phase_ i = DECIDE_PHASE)
         || (Participant.rebroadcastImmediatelyAfterRound (participant i) <? Round i)
      then now else phaseTimeout i in
    modify (set_rebroadcastTimeout
              (rebroadcastTimeoutOffset
               + Participant.rebroadcastAfter (participant i) 0));;
    arbitrate_alarm resetRebroadcastParams
  else
    elapsed ← rebroadcastTimeoutElapsed;
    if elapsed : bool then
      rebroadcast;;
      modify (λ i, set_rebroadcastAttempts (Int64.add (rebroadcastAttempts i) 1) i);;
      now ← host_Time;
      modify (λ i, set_rebroadcastTimeout
                     (now + Participant.rebroadcastAfter (participant i)
                              (rebroadcastAttempts i)) i);;
      arbitrate_alarm (i ← get; emit (SetAlarm (phaseTimeout i)))
    else skip.

(** Builds a justification for a value from a quorum result. *)
Definition buildJustification (quorum : QuorumResult.t) (round : Z)
    (phase : Phase) (value : ECChain.t) : M Justification.t :=
  match QuorumResult_Aggregate quorum with
  | (_, Some err) => panic "aggregating for phase"
  | (aggSignature, None) =>
      i ← get;
      mret (Justification.mk
              (Payload.mk (ID i) round phase (supplementalData i) value)
              (QuorumResult.SignersBitfield quorum) aggSignature)
  end.

(** *** Phase transitions *)

(** Sends this node's QUALITY message and begins the QUALITY phase. *)
Definition beginQuality : M (option error) :=
  i ← get;
  if negb (bool_decide (Phase_ i = INITIAL_PHASE)) then
    mret (Some (errors_New "cannot transition from %s to %s"))
  else
    modify (set_Phase QUALITY_PHASE);;
    notifyProgress;;
    timeout ← alarmAfterSynchronyWithMulti
                (Participant.qualityDeltaMulti (participant i));
    modify (set_phaseTimeout timeout);;
    resetRebroadcastParams;;
    i ← get;
    broadcast (Round i) QUALITY_PHASE (proposal i) false None;;
    mret None.

(** Sends this node's PREPARE message and begins the PREPARE phase. *)
Definition beginPrepare (justification : option Justification.t) : M unit :=
  modify (set_Phase PREPARE_PHASE);;
  notifyProgress;;
  timeout ← alarmAfterSynchrony;
  modify (set_phaseTimeout timeout);;
  resetRebroadcastParams;;
  i ← get;
  broadcast (Round i) PREPARE_PHASE (value i) false justification.

(** Attempts to end the QUALITY phase and begin PREPARE. *)
Definition tryQuality : M (option error) :=
  i ← get;
  if negb (bool_decide (Phase_ i = QUALITY_PHASE)) then
    mret (Some (errors_New "unexpected phase %s, expected %s"))
  else
    let foundQuorum :=
      quorumState.HasStrongQuorumFor (quality i) (ECChain.Key (proposal i)) in
    timeoutExpired ← phaseTimeoutElapsed;
    (if foundQuorum || timeoutExpired then
       modify (λ i, set_proposal
                      (quorumState.FindStrongQuorumValueForLongestPrefixOf
                         (quality i) (input i)) i);;
       i ← get;
       addCandidatePrefixes (proposal i);;
       modify (λ i, set_value (proposal i) i);;
       beginPrepare None
     else skip);;
    mret None.

(** Updates candidates as a result of late-arriving QUALITY messages. *)
Definition updateCandidatesFromQuality : M (option error) :=
  i ← get;
  let longestPrefix :=
    quorumState.FindStrongQuorumValueForLongestPrefixOf (quality i) (input i) in
  addCandidatePrefixes longestPrefix;;
  mret None.

(** Initiates CONVERGE justified by the given justification. *)
Definition beginConverge (justification : option Justification.t) : M unit :=
  i ← get;
  match justification with
  | None => panic "nil pointer dereference"
  | Some j =>
      if negb (Payload.Round (Justification.Vote j) =? Uint64.sub (Round i) 1) then
        panic "justification for which to begin converge does not belong to expected round"
      else
        modify (set_Phase CONVERGE_PHASE);;
        notifyProgress;;
        timeout ← alarmAfterSynchrony;
        modify (set_phaseTimeout timeout);;
        resetRebroadcastParams;;
        i ← get;
        round ← getRound (Round i);
        store_round (Round i)
          (roundState.set_converged
             (convergeState.SetSelfValue (roundState.converged round)
                (proposal i) justification) round);;
        broadcast (Round i) CONVERGE_PHASE (proposal i) true justification
  end.

(** Attempts to end the CONVERGE phase and begin PREPARE. *)
Definition tryConverge : M (option error) :=
  i ← get;
  if negb (bool_decide (Phase_ i = CONVERGE_PHASE)) then
    mret (Some (errors_New "unexpected phase %s, expected %s"))
  else
    timeoutExpired ← phaseTimeoutElapsed;
    if negb timeoutExpired then
      should ← shouldRebroadcast;
      (if should : bool then tryRebroadcast else skip);;
      mret None
    else
      previous ← getRound (Uint64.sub (Round i) 1);
      let commitRoundState := roundState.committed previous in
      let isValidConvergeValue (cv : ConvergeValue.t) : outcome bool :=
        if bool_decide (ECChain.Key (ConvergeValue.Chain cv) ∈ candidates i) then
          Return true
        else
          match ConvergeValue.Justification_ cv with
          | None => Panic "nil pointer dereference"
          | Some j =>
              if negb (bool_decide (Payload.Phase_ (Justification.Vote j) = PREPARE_PHASE))
              then Return false
              else
                Return (quorumState.CouldReachStrongQuorumFor commitRoundState
                          (ECChain.Key (ConvergeValue.Chain cv)) true)
          end in
      round ← getRound (Round i);
      winner ← lift (convergeState.FindBestTicketProposal
                       (roundState.converged round) (Some isValidConvergeValue));
      if negb (ConvergeValue.IsValid winner) then
        mret (Some (errors_New "no values at CONVERGE"))
      else
        isCand ← isCandidate (ConvergeValue.Chain winner);
        (if negb isCand then
           addCandidate (ConvergeValue.Chain winner);; skip
         else skip);;
        modify (set_proposal (ConvergeValue.Chain winner));;
        modify (set_value (ConvergeValue.Chain winner));;
        beginPrepare (ConvergeValue.Justification_ winner);;
        mret None.

Definition beginCommit : M unit :=
  modify (set_Phase COMMIT_PHASE);;
  notifyProgress;;
  timeout ← alarmAfterSynchrony;
  modify (set_phaseTimeout timeout);;
  resetRebroadcastParams;;
  i ← get;
  justification ←
    (if negb (ECChain.IsZero (value i)) then
       let valueKey := ECChain.Key (value i) in
       currentRound ← getRound (Round i);
       nextRound ← getRound (Uint64.add (Round i) 1);
       found ← lift (quorumState.FindStrongQuorumFor
                       (roundState.prepared currentRound) valueKey);
       if found.2 : bool then
         j ← buildJustification found.1 (Round i) PREPARE_PHASE (value i);
         mret (Some j)
       else
         match quorumState.GetJustificationOf (roundState.committed currentRound)
                 PREPARE_PHASE valueKey with
         | Some justifiedByCommit => mret (Some justifiedByCommit)
         | None =>
             match quorumState.GetJustificationOf (roundState.prepared nextRound)
                     PREPARE_PHASE valueKey with
             | Some justifiedByNextPrepare => mret (Some justifiedByNextPrepare)
             | None =>
                 byConverge ← lift (convergeState.GetJustificationOf
                                      (roundState.converged nextRound)
                                      PREPARE_PHASE valueKey);
                 match byConverge with
                 | Some justifiedByNextConverge => mret (Some justifiedByNextConverge)
                 | None => panic "beginCommit with no strong quorum for non-bottom value"
                 end
             end
         end
     else mret None);
  i ← get;
  broadcast (Round i) COMMIT_PHASE (value i) false justification.

(** Attempts to end the PREPARE phase and begin COMMIT. *)
Definition tryPrepare : M (option error) :=
  i ← get;
  if negb (bool_decide (Phase_ i = PREPARE_PHASE)) then
    mret (Some (errors_New "unexpected phase %s, expected %s"))
  else
    currentRound ← getRound (Round i);
    let prepared := roundState.prepared currentRound in
    let proposalKey := ECChain.Key (proposal i) in
    let foundQuorum := quorumState.HasStrongQuorumFor prepared proposalKey in
    let quorumNotPossible :=
      negb (quorumState.CouldReachStrongQuorumFor prepared proposalKey false) in
    elapsed ← phaseTimeoutElapsed;
    let phaseComplete := elapsed && quorumState.ReceivedFromStrongQuorum prepared in
    nextRound ← getRound (Uint64.add (Round i) 1);
    foundJustification ←
      (if quorumState.HasJustificationOf (roundState.committed currentRound)
            PREPARE_PHASE proposalKey then mret true
       else if quorumState.HasJustificationOf (roundState.prepared nextRound)
                 PREPARE_PHASE proposalKey then mret true
       else lift (convergeState.HasJustificationOf (roundState.converged nextRound)
                    PREPARE_PHASE proposalKey));
    (if foundQuorum || foundJustification then
       modify (λ i, set_value (proposal i) i)
     else if quorumNotPossible || phaseComplete then
       modify (set_value [])
     else skip);;
    (if foundQuorum || foundJustification || quorumNotPossible || phaseComplete then
       beginCommit
     else
       should ← shouldRebroadcast;
       if should : bool then tryRebroadcast else skip);;
    mret None.

Definition beginDecide (round : Z) : M unit :=
  modify (set_Phase DECIDE_PHASE);;
  notifyProgress;;
  resetRebroadcastParams;;
  i ← get;
  decided ← getRound round;
  found ← lift (quorumState.FindStrongQuorumFor (roundState.committed decided)
                  (ECChain.Key (value i)));
  justification ←
    (if found.2 : bool then
       buildJustification found.1 round COMMIT_PHASE (value i)
     else panic "beginDecide with no strong quorum for value");
  i ← get;
  broadcast 0 DECIDE_PHASE (value i) false (Some justification).

(** Skips immediately to the DECIDE phase and sends a DECIDE message. *)
Definition skipToDecide (value_ : ECChain.t)
    (justification : option Justification.t) : M unit :=
  modify (set_Phase DECIDE_PHASE);;
  notifyProgress;;
  modify (set_proposal value_);;
  modify (λ i, set_value (proposal i) i);;
  resetRebroadcastParams;;
  i ← get;
  broadcast 0 DECIDE_PHASE (value i) false justification.

Definition terminate (decision : Justification.t) : M unit :=
  modify (set_Phase TERMINATED_PHASE);;
  notifyProgress;;
  modify (set_value (Payload.Value (Justification.Vote decision)));;
  modify (set_terminationValue (Some decision));;
  resetRebroadcastParams.

Definition tryDecide : M (option error) :=
  i ← get;
  '(quorumValue, ok) ← lift (quorumState.FindStrongQuorumValue (decision i));
  (if ok : bool then
     found ← lift (quorumState.FindStrongQuorumFor (decision i)
                     (ECChain.Key quorumValue));
     if found.2 : bool then
       decision ← buildJustification found.1 0 DECIDE_PHASE quorumValue;
       terminate decision
     else panic "tryDecide with no strong quorum for value"
   else tryRebroadcast);;
  mret None.

Definition beginNextRound : M unit :=
  modify (λ i, set_Round (Uint64.add (Round i) 1) i);;
  i ← get;
  currentRound ← getRound (Round i);
  previousRound ← getRound (Uint64.sub (Round i) 1);
  let bottomKey := ECChain.Key bottomECChain in
  found ← lift (quorumState.FindStrongQuorumFor
                  (roundState.committed previousRound) bottomKey);
  justification ←
    (if found.2 : bool then
       j ← buildJustification found.1 (Uint64.sub (Round i) 1) COMMIT_PHASE [];
       mret (Some j)
     else
       match quorumState.GetJustificationOf (roundState.prepared currentRound)
               COMMIT_PHASE bottomKey with
       | Some bottomJustifiedByPrepare => mret (Some bottomJustifiedByPrepare)
       | None =>
           byConverge ← lift (convergeState.GetJustificationOf
                                (roundState.converged currentRound)
                                COMMIT_PHASE bottomKey);
           match byConverge with
           | Some bottomJustifiedByConverge => mret (Some bottomJustifiedByConverge)
           | None =>
               match quorumState.receivedJustification
                       (roundState.committed previousRound)
                     !! ECChain.Key (proposal i) with
               | Some j => mret (Some j)
               | None => panic "beginConverge called but no justification for proposal"
               end
           end
       end);
  beginConverge justification.

(** Jumps ahead to the given round by initiating CONVERGE. *)
Definition skipToRound (round : Z) (chain : ECChain.t)
    (justification : option Justification.t) : M unit :=
  modify (set_Round round);;
  match justification with
  | None => panic "nil pointer dereference"
  | Some j =>
      (if bool_decide (Payload.Phase_ (Justification.Vote j) = PREPARE_PHASE) then
         addCandidate chain;;
         modify (set_proposal chain)
       else skip);;
      beginConverge justification
  end.

(** The body of the loop of [tryCommit] at the end of the phase: the first
    value that is not bottom becomes a candidate and the proposal. *)
Definition sway_to_committed (values : list ECChain.t) : M unit :=
  match List.find (λ v, negb (ECChain.IsZero v)) values with
  | Some v =>
      isCand ← isCandidate v;
      (if negb isCand then addCandidate v;; skip else skip);;
      i ← get;
      if negb (ECChain.Eq v (proposal i)) then modify (set_proposal v) else skip
  | None => skip
  end.

Definition tryCommit (round : Z) : M (option error) :=
  r ← getRound round;
  let committed := roundState.committed r in
  '(quorumValue, foundStrongQuorum) ← lift (quorumState.FindStrongQuorumValue committed);
  elapsed ← phaseTimeoutElapsed;
  let phaseComplete := elapsed && quorumState.ReceivedFromStrongQuorum committed in
  nextRound ← getRound (Uint64.add round 1);
  let bottomKey := ECChain.Key bottomECChain in
  foundJustificationForBottom ←
    (if quorumState.HasJustificationOf (roundState.prepared nextRound)
          COMMIT_PHASE bottomKey then mret true
     else lift (convergeState.HasJustificationOf (roundState.converged nextRound)
                  COMMIT_PHASE bottomKey));
  i ← get;
  (if foundStrongQuorum && negb (ECChain.IsZero quorumValue) then
     modify (set_value quorumValue);;
     beginDecide round
   else if negb (Round i =? round) || negb (bool_decide (Phase_ i = COMMIT_PHASE)) then
     skip
   else if foundStrongQuorum || foundJustificationForBottom then
     beginNextRound
   else if phaseComplete then
     sway_to_committed (quorumState.ListAllValues committed);;
     beginNextRound
   else
     should ← shouldRebroadcast;
     if should : bool then tryRebroadcast else skip);;
  mret None.

(** Attempts to complete the current phase and round. *)
Definition tryCurrentPhase : M (option error) :=
  i ← get;
  match Phase_ i with
  | QUALITY_PHASE => tryQuality
  | CONVERGE_PHASE => tryConverge
  | PREPARE_PHASE => tryPrepare
  | COMMIT_PHASE => tryCommit (Round i)
  | DECIDE_PHASE => tryDecide
  | TERMINATED_PHASE => mret None
  | _ => mret (Some (errors_New "unexpected phase %s"))
  end.

(** *** Message ingestion *)

Definition isSpammable (msg : GMessage.t) : bool :=
  bool_decide (GMessage.Justification_ msg = None)
  && (0 <? Payload.Round (GMessage.Vote msg)).

(** Determines whether to skip to round, and the justification to do so with. *)
Definition shouldSkipToRound (round : Z)
    : M (ECChain.t * option Justification.t * bool) :=
  state ← getRound round;
  i ← get;
  if (round <=? Round i) || bool_decide (Phase_ i = DECIDE_PHASE) then
    mret ([], None, false)
  else if negb (quorumState.ReceivedFromWeakQuorum (roundState.prepared state)) then
    mret ([], None, false)
  else
    proposal ← lift (convergeState.FindBestTicketProposal
                       (roundState.converged state) None);
    if negb (ConvergeValue.IsValid proposal) then mret ([], None, false)
    else
      mret (ConvergeValue.Chain proposal, ConvergeValue.Justification_ proposal, true).

(** The loop of [postReceive] over the rounds, already reversed. *)
Fixpoint postReceive_loop (roundsReceived : list Z) : M unit :=
  match roundsReceived with
  | [] => skip
  | r :: rest =>
      '(chain, justification, skip_) ← shouldSkipToRound r;
      if skip_ : bool then skipToRound r chain justification
      else postReceive_loop rest
  end.

Definition postReceive (roundsReceived : list Z) : M unit :=
  postReceive_loop (rev roundsReceived).

(** Processes a single message; returns true if the message might have
    caused a change in state. *)
Definition receiveOne (msg : GMessage.t) : M (bool * option error) :=
  let vote := GMessage.Vote msg in
  i ← get;
  if negb (Payload.Instance_ vote =? ID i) then
    mret (false, Some (fmt_Errorf "%w: message for instance %d, expected %d"
                         ErrReceivedWrongInstance))
  else if negb (SupplementalData.Eq (Payload.SupplementalData_ vote)
                  (supplementalData i)) then
    mret (false, Some (fmt_Errorf "%w: message supplement %s, expected %s"
                         ErrValidationWrongSupplement))
  else if negb (ECChain.IsZero (Payload.Value vote)
                || ECChain.HasBase (Payload.Value vote) (ECChain.Base (input i))) then
    mret (false, Some (fmt_Errorf "%w: message base %s, expected %s"
                         ErrValidationWrongBase))
  else if bool_decide (Phase_ i = TERMINATED_PHASE) then mret (false, None)
  else
    let forPriorRound := Payload.Round vote <? Round i in
    if (forPriorRound && bool_decide (Payload.Phase_ vote = CONVERGE_PHASE))
       || (forPriorRound && bool_decide (Payload.Phase_ vote = PREPARE_PHASE))
    then mret (false, None)
    else
      let beyondMaxLookaheadRounds :=
        Uint64.add (Round i) (Participant.maxLookaheadRounds (participant i))
        <? Payload.Round vote in
      if beyondMaxLookaheadRounds && isSpammable msg then mret (false, None)
      else
        msgRound ← getRound (Payload.Round vote);
        match Payload.Phase_ vote with
        | QUALITY_PHASE =>
            q ← lift (quorumState.ReceiveEachPrefix (quality i)
                        (GMessage.Sender msg) (Payload.Value vote));
            modify (set_quality q);;
            if negb (bool_decide (Phase_ i = QUALITY_PHASE)) then
              err ← updateCandidatesFromQuality;
              mret (true, err)
            else
              err ← tryCurrentPhase;
              mret (true, err)
        | CONVERGE_PHASE =>
            let '(c, err) :=
              convergeState.Receive (roundState.converged msgRound)
                (GMessage.Sender msg) (powerTable i) (Payload.Value vote)
                (GMessage.Ticket msg) (GMessage.Justification_ msg) in
            store_round (Payload.Round vote) (roundState.set_converged c msgRound);;
            match err with
            | Some err =>
                mret (false, Some (fmt_Errorf "failed processing CONVERGE message: %w" err))
            | None =>
                err ← tryCurrentPhase;
                mret (true, err)
            end
        | PREPARE_PHASE =>
            q ← lift (quorumState.Receive (roundState.prepared msgRound)
                        (GMessage.Sender msg) (Payload.Value vote)
                        (GMessage.Signature msg));
            store_round (Payload.Round vote) (roundState.set_prepared q msgRound);;
            (match GMessage.Justification_ msg with
             | Some _ =>
                 q' ← lift (quorumState.ReceiveJustification q (Payload.Value vote)
                              (GMessage.Justification_ msg));
                 store_round (Payload.Round vote) (roundState.set_prepared q' msgRound)
             | None => skip
             end);;
            err ← tryCurrentPhase;
            mret (true, err)
        | COMMIT_PHASE =>
            q ← lift (quorumState.Receive (roundState.committed msgRound)
                        (GMessage.Sender msg) (Payload.Value vote)
                        (GMessage.Signature msg));
            store_round (Payload.Round vote) (roundState.set_committed q msgRound);;
            (if negb (ECChain.IsZero (Payload.Value vote)) then
               q' ← lift (quorumState.ReceiveJustification q (Payload.Value vote)
                            (GMessage.Justification_ msg));
               store_round (Payload.Round vote) (roundState.set_committed q' msgRound)
             else skip);;
            if negb (bool_decide (Phase_ i = DECIDE_PHASE)) then
              err ← tryCommit (Payload.Round vote);
              i ← get;
              let tryToCompleteCurrentPhase :=
                bool_decide (err = None)
                && bool_decide (Phase_ i = PREPARE_PHASE)
                && (Round i =? Payload.Round vote)
                && negb (ECChain.IsZero (Payload.Value vote)) in
              if negb tryToCompleteCurrentPhase then mret (true, err)
              else
                err ← tryCurrentPhase;
                mret (true, err)
            else
              err ← tryCurrentPhase;
              mret (true, err)
        | DECIDE_PHASE =>
            q ← lift (quorumState.Receive (decision i) (GMessage.Sender msg)
                        (Payload.Value vote) (GMessage.Signature msg));
            modify (set_decision q);;
            (if negb (bool_decide (Phase_ i = DECIDE_PHASE)) then
               skipToDecide (Payload.Value vote) (GMessage.Justification_ msg)
             else skip);;
            err ← tryCurrentPhase;
            mret (true, err)
        | _ => mret (false, Some (errors_New "unexpected message phase %s"))
        end.

Definition Start : M (option error) := beginQuality.

(** Receives and processes a message. *)
Definition Receive (msg : GMessage.t) : M (option error) :=
  isTerminated ← terminated;
  if isTerminated : bool then mret (Some ErrReceivedAfterTermination)
  else
    '(stateChanged, err) ← receiveOne msg;
    match err with
    | Some err => mret (Some err)
    | None =>
        (if stateChanged : bool
         then postReceive [Payload.Round (GMessage.Vote msg)] else skip);;
        mret None
    end.

(** The loop of [ReceiveMany]: receives each message and remembers which
    rounds were received; stops on an error that is not a validation error. *)
Fixpoint ReceiveMany_loop (msgs : list GMessage.t) (roundsReceived : gset Z)
    : M (gset Z * option error) :=
  match msgs with
  | [] => mret (roundsReceived, None)
  | msg :: msgs' =>
      '(stateChanged, err) ← receiveOne msg;
      match err with
      | Some err =>
          if is_ValidationError err then
            ReceiveMany_loop msgs'
              (if stateChanged : bool
               then {[Payload.Round (GMessage.Vote msg)]} ∪ roundsReceived
               else roundsReceived)
          else mret (roundsReceived, Some err)
      | None =>
          ReceiveMany_loop msgs'
            (if stateChanged : bool
             then {[Payload.Round (GMessage.Vote msg)]} ∪ roundsReceived
             else roundsReceived)
      end
  end.

(** Receives and processes a batch of queued messages. *)
Definition ReceiveMany (msgs : list GMessage.t) : M (option error) :=
  isTerminated ← terminated;
  if isTerminated : bool then mret (Some ErrReceivedAfterTermination)
  else
    '(roundsReceived, err) ← ReceiveMany_loop msgs ∅;
    match err with
    | Some err => mret (Some err)
    | None =>
        let rounds := merge_sort Z.le (elements roundsReceived) in
        postReceive rounds;;
        mret None
    end.

Definition ReceiveAlarm : M (option error) :=
  err ← tryCurrentPhase;
  match err with
  | Some err => mret (Some (fmt_Errorf "failed completing protocol phase: %w" err))
  | None => mret None
  end.

End with_collaborators.

End instance.

(** ** Codec adapter (internal/encoding/encoding.go) *)

Module encoding.

(** The maximum amount of memory allocated by the zstd decoder: 1 MiB. *)
Definition maxDecompressedSize : Z := Z.shiftl 1 20.

(** The interface [CBORMarshalUnmarshaler].  [MarshalCBOR] gives the bytes
    written and an error; [UnmarshalCBOR] fills the receiver from the bytes. *)
Class CBORMarshalUnmarshaler (T : Type) : Type := {
  MarshalCBOR : T → bytes * option error;
  UnmarshalCBOR : T → bytes → T * option error
}.

(** The zstd encoder and decoder of klauspost/compress.  [EncodeAll src dst]
    appends the frame for [src] to [dst]; [DecodeAll limit input dst] appends
    the content of the frame to [dst], or fails, where [limit] is the memory
    limit the decoder was made with and also the capacity of [dst]. *)
Class Zstd : Type := {
  EncodeAll : bytes → bytes → bytes;
  DecodeAll : Z → bytes → bytes → bytes * option error
}.

Section codecs.
Context {T : Type} `{CBORMarshalUnmarshaler T} `{Zstd}.

Definition CBOR_Encode (m : T) : bytes * option error :=
  match MarshalCBOR m with
  | (_, Some err) => ([], Some err)
  | (out, None) => (out, None)
  end.

(** [Decode] fills [t] and returns the error; the result carries both. *)
Definition CBOR_Decode (v : bytes) (t : T) : T * option error :=
  UnmarshalCBOR t v.

Definition ZSTD_Encode (m : T) : bytes * option error :=
  let '(cborEncoded, err) := CBOR_Encode m in
  if maxDecompressedSize <? Z.of_nat (length cborEncoded) then
    ([], Some (errors_New "encoded value cannot exceed maximum size: %d > %d"))
  else
    match err with
    | Some err => ([], Some err)
    | None => (EncodeAll cborEncoded [], None)
    end.

Definition ZSTD_Decode (v : bytes) (t : T) : T * option error :=
  match DecodeAll maxDecompressedSize v [] with
  | (_, Some err) => (t, Some err)
  | (cborEncoded, None) => CBOR_Decode cborEncoded t
  end.

End codecs.

End encoding.

(** ** The CBOR of the messages

    The generated [MarshalCBOR] and [UnmarshalCBOR] of the message types
    (cbor_gen.go) and the cbor-gen library they call are not among the
    sources; chain.go shows the tag [cborgen:"maxlen=760"] of the key of a
    tipset and that a chain is a slice of tipsets.  The spec says the codec
    is length-prefixed CBOR. *)

Module cbor.

(** Modelled from the spec: a reader of CBOR, absent with cbor-gen.  It takes
    an item from the front of the input and returns it with the rest of the
    input, or fails. *)
Definition reader (A : Type) : Type := list Z → option (A * list Z).

#[local] Instance reader_ret : MRet reader := λ A a input, Some (a, input).
#[local] Instance reader_bind : MBind reader := λ A B f r input,
  match r input with
  | Some (a, rest) => f a rest
  | None => None
  end.

Definition fail {A} : reader A := λ _, None.

(** Modelled from the spec: the major types of CBOR (RFC 8949, 3.1), absent
    with cbor-gen. *)
Definition MajUnsignedInt : Z := 0.
Definition MajNegativeInt : Z := 1.
Definition MajByteString : Z := 2.
Definition MajArray : Z := 4.
Definition MajTag : Z := 6.

(** Modelled from the spec: the encoding of null, major type 7 with value 22. *)
Definition CborNull : Z := 246.

(** Modelled from the spec: the head of an item, absent with cbor-gen: the
    major type in the three high bits of the first byte and the argument,
    which is the length of a string or an array, in the five low bits or in
    the 1, 2, 4 or 8 bytes that follow, big-endian, in the shortest form. *)
Definition WriteMajorTypeHeader (t l : Z) : list Z :=
  if l <? 24 then [32 * t + l]
  else if l <? 2 ^ 8 then (32 * t + 24) :: be_bytes 1 l
  else if l <? 2 ^ 16 then (32 * t + 25) :: be_bytes 2 l
  else if l <? 2 ^ 32 then (32 * t + 26) :: be_bytes 4 l
  else (32 * t + 27) :: be_bytes 8 l.

(** Modelled from the spec: the number the bytes are, big-endian. *)
Definition from_be (bs : list Z) : Z := foldl (λ acc b, 256 * acc + b) 0 bs.

(** Modelled from the spec: reads an argument of [n] bytes; one that a
    shorter form holds, below [least], is refused. *)
Definition read_arg (n : nat) (least : Z) : reader Z := λ input,
  if (length input <? n)%nat then None
  else
    let v := from_be (take n input) in
    if v <? least then None else Some (v, drop n input).

(** Modelled from the spec: the reader of a head, absent with cbor-gen; it
    returns the major type and the argument. *)
Definition CborReadHeader : reader (Z * Z) := λ input,
  match input with
  | [] => None
  | first :: rest =>
      let maj := first `div` 32 in
      let low := first `mod` 32 in
      if low <? 24 then Some ((maj, low), rest)
      else if low =? 24 then (v ← read_arg 1 24; mret (maj, v)) rest
      else if low =? 25 then (v ← read_arg 2 (2 ^ 8); mret (maj, v)) rest
      else if low =? 26 then (v ← read_arg 4 (2 ^ 16); mret (maj, v)) rest
      else if low =? 27 then (v ← read_arg 8 (2 ^ 32); mret (maj, v)) rest
      else None
  end.

(** Modelled from the spec: reads a head of the major type [t] and returns
    its argument. *)
Definition read_header_of (t : Z) : reader Z :=
  '(maj, l) ← CborReadHeader; if maj =? t then mret l else fail.

(** Modelled from the spec: an unsigned integer field. *)
Definition WriteUint64 (v : Z) : list Z := WriteMajorTypeHeader MajUnsignedInt v.
Definition ReadUint64 : reader Z := read_header_of MajUnsignedInt.

(** Modelled from the spec: a signed integer field; a negative [v] is
    written as the unsigned [-1 - v] under the major type of negative
    integers. *)
Definition WriteInt64 (v : Z) : list Z :=
  if 0 <=? v then WriteMajorTypeHeader MajUnsignedInt v
  else WriteMajorTypeHeader MajNegativeInt (- v - 1).

Definition ReadInt64 : reader Z :=
  '(maj, l) ← CborReadHeader;
  if maj =? MajUnsignedInt then
    if Int64.max_int <? l then fail else mret l
  else if maj =? MajNegativeInt then
    if Int64.max_int <? l then fail else mret (- 1 - l)
  else fail.

(** Modelled from the spec: a byte string, its length and then its bytes. *)
Definition WriteByteArray (b : list Z) : list Z :=
  WriteMajorTypeHeader MajByteString (Z.of_nat (length b)) ++ b.

(** Modelled from the spec: reads a byte string of at most [maxlen] bytes. *)
Definition ReadByteArray (maxlen : Z) : reader (list Z) :=
  l ← read_header_of MajByteString;
  if maxlen <? l then fail
  else λ input,
    if (length input <? Z.to_nat l)%nat then None
    else Some (take (Z.to_nat l) input, drop (Z.to_nat l) input).

(** Modelled from the spec: a CID, tag 42 on a byte string that holds a zero
    byte and the binary form of the CID. *)
Definition WriteCid (c : Cid.t) : list Z :=
  WriteMajorTypeHeader MajTag 42 ++ WriteByteArray (0 :: Cid.Bytes c).

Definition ReadCid : reader Cid.t :=
  tag ← read_header_of MajTag;
  if negb (tag =? 42) then fail
  else
    b ← ReadByteArray (Z.of_nat CidMaxLen + 1);
    match b with
    | 0 :: c => if Cid.Defined c then mret c else fail
    | _ => fail
    end.

(** Modelled from the spec: a slice, its length and then its items. *)
Definition WriteSlice {A} (write : A → list Z) (l : list A) : list Z :=
  WriteMajorTypeHeader MajArray (Z.of_nat (length l)) ++ concat (write <$> l).

Fixpoint ReadItems {A} (read : reader A) (n : nat) : reader (list A) :=
  match n with
  | O => mret []
  | S n' => a ← read; l ← ReadItems read n'; mret (a :: l)
  end.

(** Modelled from the spec: reads a slice of at most [maxlen] items. *)
Definition ReadSlice {A} (maxlen : Z) (read : reader A) : reader (list A) :=
  n ← read_header_of MajArray;
  if maxlen <? n then fail else ReadItems read (Z.to_nat n).

(** Modelled from the spec: a struct is the array of its fields; the reader
    checks their number. *)
Definition WriteStruct (fields : Z) : list Z := WriteMajorTypeHeader MajArray fields.

Definition ReadStruct (fields : Z) : reader unit :=
  n ← read_header_of MajArray; if n =? fields then mret tt else fail.

(** Modelled from the spec: a pointer, null when it is nil and what it points
    to otherwise. *)
Definition WritePointer {A} (write : A → list Z) (p : option A) : list Z :=
  match p with
  | None => [CborNull]
  | Some a => write a
  end.

Definition ReadPointer {A} (read : reader A) : reader (option A) := λ input,
  match input with
  | first :: rest =>
      if first =? CborNull then Some (None, rest)
      else (a ← read; mret (Some a)) input
  | [] => None
  end.

(** Modelled from the spec: the phases are numbered in the order the spec
    lists them. *)
Definition Phase_number (p : Phase) : Z :=
  match p with
  | INITIAL_PHASE => 0
  | QUALITY_PHASE => 1
  | CONVERGE_PHASE => 2
  | PREPARE_PHASE => 3
  | COMMIT_PHASE => 4
  | DECIDE_PHASE => 5
  | TERMINATED_PHASE => 6
  end.

Definition Phase_of_number (n : Z) : option Phase :=
  if n =? 0 then Some INITIAL_PHASE
  else if n =? 1 then Some QUALITY_PHASE
  else if n =? 2 then Some CONVERGE_PHASE
  else if n =? 3 then Some PREPARE_PHASE
  else if n =? 4 then Some COMMIT_PHASE
  else if n =? 5 then Some DECIDE_PHASE
  else if n =? 6 then Some TERMINATED_PHASE
  else None.

(** *** The message types *)

(** Modelled from the spec: a tipset, the array of its epoch, key,
    power-table CID and commitments; the key has at most 760 bytes, as its
    tag in chain.go says, and the commitments are 32 bytes. *)
Definition WriteTipSet (ts : TipSet.t) : list Z :=
  WriteStruct 4
  ++ WriteInt64 (TipSet.Epoch ts)
  ++ WriteByteArray (TipSet.Key ts)
  ++ WriteCid (TipSet.PowerTable ts)
  ++ WriteByteArray (TipSet.Commitments ts).

Definition ReadTipSet : reader TipSet.t :=
  ReadStruct 4;;
  epoch ← ReadInt64;
  key ← ReadByteArray (Z.of_nat TipsetKeyMaxLen);
  powerTable ← ReadCid;
  commitments ← ReadByteArray 32;
  if negb (length commitments =? 32)%nat then fail
  else mret (TipSet.mk epoch key powerTable commitments).

(** Modelled from the spec: the supplemental data, commitments and
    power-table CID. *)
Definition WriteSupplementalData (d : SupplementalData.t) : list Z :=
  WriteStruct 2
  ++ WriteByteArray (SupplementalData.Commitments d)
  ++ WriteCid (SupplementalData.PowerTable d).

Definition ReadSupplementalData : reader SupplementalData.t :=
  ReadStruct 2;;
  commitments ← ReadByteArray 32;
  powerTable ← ReadCid;
  if negb (length commitments =? 32)%nat then fail
  else mret (SupplementalData.mk commitments powerTable).

(** Modelled from the spec: a payload; a chain has at most [ChainMaxLen]
    tipsets. *)
Definition WritePayload (p : Payload.t) : list Z :=
  WriteStruct 5
  ++ WriteUint64 (Payload.Instance_ p)
  ++ WriteUint64 (Payload.Round p)
  ++ WriteUint64 (Phase_number (Payload.Phase_ p))
  ++ WriteSupplementalData (Payload.SupplementalData_ p)
  ++ WriteSlice WriteTipSet (Payload.Value p).

Definition ReadPayload : reader Payload.t :=
  ReadStruct 5;;
  instance_ ← ReadUint64;
  round ← ReadUint64;
  number ← ReadUint64;
  match Phase_of_number number with
  | None => fail
  | Some phase =>
      data ← ReadSupplementalData;
      value ← ReadSlice (Z.of_nat ChainMaxLen) ReadTipSet;
      mret (Payload.mk instance_ round phase data value)
  end.

(** Modelled from the spec: a justification; the signers, a bit field over
    the indices of the power table whose byte form is that of go-bitfield,
    absent as well, are written as the slice of the indices. *)
Definition WriteJustification (j : Justification.t) : list Z :=
  WriteStruct 3
  ++ WritePayload (Justification.Vote j)
  ++ WriteSlice (λ i : nat, WriteUint64 (Z.of_nat i)) (Justification.Signers j)
  ++ WriteByteArray (Justification.Signature j).

Definition ReadJustification : reader Justification.t :=
  ReadStruct 3;;
  vote ← ReadPayload;
  signers ← ReadSlice (2 ^ 64) ReadUint64;
  signature ← ReadByteArray (2 ^ 64);
  mret (Justification.mk vote (Z.to_nat <$> signers) signature).

(** Modelled from the spec: a message; its signature is a slice that may be
    nil: a nil slice is written as the empty string, and the empty string is
    read as nil. *)
Definition WriteGMessage (m : GMessage.t) : list Z :=
  WriteStruct 5
  ++ WriteUint64 (GMessage.Sender m)
  ++ WritePayload (GMessage.Vote m)
  ++ WriteByteArray (default [] (GMessage.Signature m))
  ++ WriteByteArray (GMessage.Ticket m)
  ++ WritePointer WriteJustification (GMessage.Justification_ m).

Definition ReadGMessage : reader GMessage.t :=
  ReadStruct 5;;
  sender ← ReadUint64;
  vote ← ReadPayload;
  signature ← ReadByteArray (2 ^ 64);
  ticket ← ReadByteArray (2 ^ 64);
  justification ← ReadPointer ReadJustification;
  mret (GMessage.mk sender vote
          (if bool_decide (signature = []) then None else Some signature)
          ticket justification).

(** *** What the writers refuse *)

(** Modelled from the spec: a CID is defined and of at most [CidMaxLen]
    bytes, a key of at most 760 bytes, a chain of at most 128 tipsets. *)
Definition Cid_fits (c : Cid.t) : bool :=
  Cid.Defined c && (Cid.ByteLen c <=? CidMaxLen)%nat.

Definition TipSet_fits (ts : TipSet.t) : bool :=
  (length (TipSet.Key ts) <=? TipsetKeyMaxLen)%nat && Cid_fits (TipSet.PowerTable ts).

Definition Payload_fits (p : Payload.t) : bool :=
  Cid_fits (SupplementalData.PowerTable (Payload.SupplementalData_ p))
  && (length (Payload.Value p) <=? ChainMaxLen)%nat
  && forallb TipSet_fits (Payload.Value p).

Definition GMessage_fits (m : GMessage.t) : bool :=
  Payload_fits (GMessage.Vote m)
  && match GMessage.Justification_ m with
     | None => true
     | Some j => Payload_fits (Justification.Vote j)
     end.

(** The zero value of a message. *)
Definition GMessage_zero : GMessage.t :=
  GMessage.mk 0
    (Payload.mk 0 0 INITIAL_PHASE (SupplementalData.mk (replicate 32 0) []) [])
    None [] None.

(** Modelled from the spec: [MarshalCBOR] and [UnmarshalCBOR] of the
    message, absent with cbor_gen.go.  [MarshalCBOR] refuses a key, a chain
    or a CID longer than the data model allows and an undefined CID;
    [UnmarshalCBOR] reads one message from the front of the input; what it
    had filled before an error is not kept. *)
#[global] Instance GMessage_cbor : encoding.CBORMarshalUnmarshaler GMessage.t :=
  {| encoding.MarshalCBOR := λ m,
       if GMessage_fits m then (WriteGMessage m, None)
       else ([], Some (errors_New "field was too long"));
     encoding.UnmarshalCBOR := λ _ v,
       match ReadGMessage v with
       | Some (m, _) => (m, None)
       | None => (GMessage_zero, Some (errors_New "cbor input is not a message"))
       end |}.

End cbor.

(** The values of the fields of a message that its Go types allow. *)
Definition TipSet_typed (ts : TipSet.t) : Prop :=
  Int64.in_range (TipSet.Epoch ts) ∧ length (TipSet.Commitments ts) = 32%nat.

Definition Payload_typed (p : Payload.t) : Prop :=
  0 <= Payload.Instance_ p < 2 ^ 64
  ∧ 0 <= Payload.Round p < 2 ^ 64
  ∧ length (SupplementalData.Commitments (Payload.SupplementalData_ p)) = 32%nat
  ∧ Forall TipSet_typed (Payload.Value p).

Definition Justification_typed (j : Justification.t) : Prop :=
  Payload_typed (Justification.Vote j)
  ∧ Forall (λ i : nat, Z.of_nat i < 2 ^ 64) (Justification.Signers j)
  ∧ Z.of_nat (length (Justification.Signers j)) < 2 ^ 64
  ∧ Z.of_nat (length (Justification.Signature j)) < 2 ^ 64.

(** A signature that is not nil is not empty: an empty slice is read back
    as nil. *)
Definition GMessage_typed (m : GMessage.t) : Prop :=
  0 <= GMessage.Sender m < 2 ^ 64
  ∧ Payload_typed (GMessage.Vote m)
  ∧ GMessage.Signature m ≠ Some []
  ∧ Z.of_nat (length (default [] (GMessage.Signature m))) < 2 ^ 64
  ∧ Z.of_nat (length (GMessage.Ticket m)) < 2 ^ 64
  ∧ match GMessage.Justification_ m with
    | None => True
    | Some j => Justification_typed j
    end.

(** A valid message: its fields have values of their types and the writers
    accept it. *)
Definition GMessage_valid (m : GMessage.t) : Prop :=
  GMessage_typed m ∧ cbor.GMessage_fits m = true.
(** ** The Zstandard frame

    The zstd library (klauspost/compress) is not among the sources.  The spec
    says the CBOR is wrapped in a Zstandard frame with a 1 MiB maximum
    decompressed size. *)

Module zstd.

(** Modelled from the spec: the magic number of a frame, 0xFD2FB528,
    little-endian (RFC 8878, 3.1.1). *)
Definition magic : list Z := [40; 181; 47; 253].

(** Modelled from the spec: the largest content of a block, 128 KiB. *)
Definition BlockMaxSize : nat := Z.to_nat 131072.

(** Modelled from the spec: little-endian numbers. *)
Definition le_bytes (n : nat) (v : Z) : list Z := rev (be_bytes n v).
Definition from_le (bs : list Z) : Z := cbor.from_be (rev bs).

(** Modelled from the spec: the header of a block, three bytes
    little-endian: the bit of the last block, two bits of block type (0 raw,
    1 run-length, 2 compressed) and 21 bits of size. *)
Definition block_header (last : bool) (type size : Z) : list Z :=
  le_bytes 3 (8 * size + 2 * type + (if last then 1 else 0)).

(** Modelled from the spec: the content stored in raw blocks; [fuel] bounds
    the number of blocks after the first. *)
Fixpoint raw_blocks (fuel : nat) (src : list Z) : list Z :=
  match fuel with
  | O => block_header true 0 (Z.of_nat (length src)) ++ src
  | S fuel' =>
      if (length src <=? BlockMaxSize)%nat then
        block_header true 0 (Z.of_nat (length src)) ++ src
      else
        block_header false 0 (Z.of_nat BlockMaxSize)
        ++ take BlockMaxSize src ++ raw_blocks fuel' (drop BlockMaxSize src)
  end.

(** Modelled from the spec: the descriptor of the frames written, a single
    segment with its content size on eight bytes, no dictionary and no
    checksum. *)
Definition descriptor : Z := 224.

(** Modelled from the spec: [EncodeAll] of the encoder, absent with the zstd
    library.  It appends to [dst] one frame that holds [src]: the magic
    number, the descriptor, the size of the content and the content in raw
    blocks, a frame every Zstandard decoder reads.  The library compresses
    the blocks; what its frames decode to is the same. *)
Definition EncodeAll (src dst : list Z) : list Z :=
  dst ++ magic ++ [descriptor] ++ le_bytes 8 (Z.of_nat (length src))
  ++ raw_blocks (length src) src.

(** Modelled from the spec: reads the blocks of a frame up to the last one,
    appending what they hold to [content]; fails when the content passes
    [limit]. *)
Fixpoint read_blocks (fuel : nat) (limit : Z) (content input : list Z)
    : option (list Z * list Z) :=
  match fuel with
  | O => None
  | S fuel' =>
      if (length input <? 3)%nat then None
      else
        let header := from_le (take 3 input) in
        let body := drop 3 input in
        let last := header `mod` 2 in
        let type := (header `div` 2) `mod` 4 in
        let size := Z.to_nat (header `div` 8) in
        let block :=
          if (BlockMaxSize <? size)%nat then None
          else if type =? 0 then
            if (length body <? size)%nat then None
            else Some (take size body, drop size body)
          else if type =? 1 then
            match body with
            | b :: body' => Some (replicate size b, body')
            | [] => None
            end
          else None in
        match block with
        | None => None
        | Some (data, rest) =>
            let content' := content ++ data in
            if limit <? Z.of_nat (length content') then None
            else if last =? 1 then Some (content', rest)
            else read_blocks fuel' limit content' rest
        end
  end.

(** Modelled from the spec: reads one frame, the magic number, the descriptor
    and the fields it announces, then the blocks.  A content size above
    [limit] is refused before any block is read, and the content must have
    the size announced. *)
Definition read_frame (limit : Z) (input : list Z) : option (list Z) :=
  if negb (bool_decide (take 4 input = magic)) then None
  else
    match drop 4 input with
    | [] => None
    | d :: rest =>
        let fcs_flag := d `div` 64 in
        let single := (d `div` 32) `mod` 2 in
        let reserved := (d `div` 8) `mod` 2 in
        let checksum := (d `div` 4) `mod` 2 in
        let did_flag := d `mod` 4 in
        let window := if single =? 1 then 0%nat else 1%nat in
        let did := if did_flag =? 3 then 4%nat else Z.to_nat did_flag in
        let fcs :=
          if fcs_flag =? 0 then (if single =? 1 then 1%nat else 0%nat)
          else if fcs_flag =? 1 then 2%nat
          else if fcs_flag =? 2 then 4%nat
          else 8%nat in
        if negb (reserved =? 0) || negb (checksum =? 0) then None
        else if (length rest <? window + did + fcs)%nat then None
        else
          let size :=
            from_le (take fcs (drop (window + did) rest))
            + (if fcs_flag =? 1 then 256 else 0) in
          let blocks := drop (window + did + fcs) rest in
          if negb (fcs =? 0)%nat && (limit <? size) then None
          else
            match read_blocks (length blocks) limit [] blocks with
            | Some (content, []) =>
                if negb (fcs =? 0)%nat && negb (Z.of_nat (length content) =? size)
                then None
                else Some content
            | _ => None
            end
    end.

(** Modelled from the spec: [DecodeAll] of the decoder, absent with the zstd
    library, made with the memory limit [limit], which is also the capacity
    of [dst].  It appends the content of the frame to [dst].  The frames
    read are those whose blocks are raw or run-length; a compressed block, a
    checksum and a second frame are refused. *)
Definition DecodeAll (limit : Z) (input dst : list Z) : list Z * option error :=
  match input with
  | [] => (dst, None)
  | _ =>
      match read_frame limit input with
      | None =>
          (dst, Some (errors_New "invalid input or decompressed size exceeds limit"))
      | Some content =>
          if limit <? Z.of_nat (length (dst ++ content)) then
            (dst, Some (errors_New "decompressed size exceeds configured limit"))
          else (dst ++ content, None)
      end
  end.

#[global] Instance codec : encoding.Zstd :=
  {| encoding.EncodeAll := EncodeAll; encoding.DecodeAll := DecodeAll |}.

End zstd.

(** ** Test harness

    Concrete collaborators and data on which the embedding runs: a float
    stand-in, a ticket rank, the default map order, a signature aggregator,
    and a power table of one or three participants. *)

Module harness.

#[local] Instance float : Float64 :=
  {| float64 := Z;
     f64_zero := 0;
     f64_one := 1;
     f64_inf := 2 ^ 64;
     f64_lt := Z.ltb;
     f64_delay := λ delta multi exponent round, delta * multi |}.

#[local] Instance ticketRank : TicketRank :=
  {| ComputeTicketRank := λ ticket power, Z.of_nat (length ticket) |}.

#[local] Instance mapRange : MapRange := MapRange_default.

#[local] Instance aggregate : Aggregate :=
  {| Aggregate_ := λ signers signatures, (concat (default [] <$> signatures), None) |}.

Definition cid (n : Z) : Cid.t := [1; 113; n].

Definition tipset (epoch : Z) : TipSet.t :=
  TipSet.mk epoch [epoch] (cid 0) (replicate 32 0).

(** A base and two more tipsets. *)
Definition chain3 : ECChain.t := [tipset 950; tipset 951; tipset 952].

(** A base and one more tipset. *)
Definition chain2 : ECChain.t := [tipset 950; tipset 951].

Definition supplement : SupplementalData.t := SupplementalData.mk [] (cid 1).

(** One participant holding all the power. *)
Definition table1 : PowerTable.t :=
  PowerTable.mk [PowerEntry.mk 1 10 [9]] [65535] {[ 1 := 0%nat ]} 10 65535.

(** Three participants of powers 5, 3 and 2, scaled to 0xffff. *)
Definition table3 : PowerTable.t :=
  PowerTable.mk
    [PowerEntry.mk 7 5 [1]; PowerEntry.mk 4 3 [2]; PowerEntry.mk 9 2 [3]]
    [32767; 19660; 13107]
    {[ 7 := 0%nat; 4 := 1%nat; 9 := 2%nat ]} 10 65534.

Definition participant : Participant.t :=
  Participant.mk 1000 2 2 5 3 (λ attempts, 100 * (attempts + 1)) "harness".

Definition vote (phase : Phase) (value : ECChain.t) : Payload.t :=
  Payload.mk 0 0 phase supplement value.

Definition message (sender : Z) (phase : Phase) (value : ECChain.t)
    (justification : option Justification.t) : GMessage.t :=
  GMessage.mk sender (vote phase value) (Some [sender]) [] justification.

Definition justification (phase : Phase) (value : ECChain.t) : Justification.t :=
  Justification.mk (vote phase value) [0%nat] [1].

(** The instance of the single participant on [chain3], before [Start]. *)
Definition created : instance.t :=
  instance.mk participant chain3 table1 [5]
    (InstanceProgress.mk (Instant.mk 0 0 INITIAL_PHASE) chain3)
    0 0 0 supplement chain3 []
    {[ ECChain.Key (ECChain.BaseChain chain3) ]}
    None
    (quorumState.newQuorumState table1)
    {[ 0 := roundState.newRoundState table1 ]}
    (quorumState.newQuorumState table1).

(** Runs a method and keeps the state it leaves. *)
Definition after {A} (m : instance.M A) (s : instance.state) : instance.state :=
  (m s).2.

Definition at_time (now : Z) (s : instance.state) : instance.state :=
  instance.mkState (instance.self s) (Host.mk now (Host.events (instance.host s))).

(** The instance started at time 50: in QUALITY, its alarm set. *)
Definition started : instance.state :=
  after instance.Start (instance.mkState created (Host.mk 50 [])).

(** The happy path of a single participant: its own QUALITY, PREPARE, COMMIT
    and DECIDE messages come back and the instance terminates. *)
Definition in_prepare : instance.state :=
  after (instance.Receive (message 1 QUALITY_PHASE chain3 None)) started.
Definition in_commit : instance.state :=
  after (instance.Receive (message 1 PREPARE_PHASE chain3 None)) in_prepare.
Definition in_decide : instance.state :=
  after (instance.Receive
           (message 1 COMMIT_PHASE chain3
              (Some (justification PREPARE_PHASE chain3)))) in_commit.
Definition decided : instance.state :=
  after (instance.Receive
           (message 1 DECIDE_PHASE chain3
              (Some (justification COMMIT_PHASE chain3)))) in_decide.

(** Feeds votes, each a sender and a value signed by the sender, to a quorum
    accumulator; a vote that panics is dropped. *)
Definition receive_all (q : quorumState.t) (votes : list (Z * ECChain.t))
    : quorumState.t :=
  foldl (λ q vote,
           match quorumState.Receive q vote.1 vote.2 (Some [vote.1]) with
           | Return q' => q'
           | Panic _ => q
           end) q votes.

(** The three participants of [table3] all vote for [chain2], the weakest
    first. *)
Definition voted3 : quorumState.t :=
  receive_all (quorumState.newQuorumState table3)
    [(9, chain2); (4, chain2); (7, chain2)].

(** The participant of [table1] and an actor that is not in the table vote
    for [chain2]. *)
Definition voted_unknown : quorumState.t :=
  receive_all (quorumState.newQuorumState table1) [(1, chain2); (2, chain2)].

(** The started instance some time after its phase timeout, the alarm not
    yet delivered. *)
Definition late : instance.state := at_time 5000 started.

(** The base chain of [chain3]. *)
Definition base_chain : ECChain.t := [tipset 950].

(** A toy CID reader: a CID is a length byte and that many bytes. *)
#[local] Instance cid_reader : CidReader :=
  {| CidFromBytes := λ data,
       match data with
       | n :: rest =>
           if (Z.to_nat n <=? length rest)%nat
           then (S (Z.to_nat n), n :: take (Z.to_nat n) rest, None)
           else (0%nat, [], Some (errors_New "unexpected end of data"))
       | [] => (0%nat, [], Some (errors_New "unexpected end of data"))
       end |}.

End harness.

(** ** Specification-level vocabulary

    Definitions that follow the words of the specification, to be compared
    with the definitions taken from the sources. *)

(** A tipset that [TipSet::validate] accepts: a key that is neither empty nor
    oversize, a power-table CID that is neither missing nor oversize. *)
Definition tipset_well_formed (ts : TipSet.t) : Prop :=
  (0 < length (TipSet.Key ts) ≤ TipsetKeyMaxLen)%nat
  ∧ (0 < length (TipSet.PowerTable ts) ≤ CidMaxLen)%nat.

(** The epochs of the tipsets of a chain are strictly increasing. *)
Definition epochs_strictly_increasing (c : ECChain.t) : Prop :=
  ∀ (i : nat) (ti tj : TipSet.t),
    c !! i = Some ti → c !! S i = Some tj → TipSet.Epoch ti < TipSet.Epoch tj.

(** Exact sum of a list of integers. *)
Definition sumZ (l : list Z) : Z := foldr Z.add 0 l.

(** The scaled power the table gives to each actor of a list, added up. *)
Definition power_of (p : PowerTable.t) (ids : list Z) : Z :=
  sumZ ((λ id, (PowerTable.Get p id).1) <$> ids).

(** A power table as the specification describes it: one scaled power per
    entry, none negative; the lookup maps exactly the actors of the entries
    to their index; the scaled total is the sum of the scaled powers, and
    twice that total still fits a signed 64-bit integer. *)
Record PowerTable_wf (p : PowerTable.t) : Prop := {
  wf_lengths : length (PowerTable.ScaledPower p) = length (PowerTable.Entries p);
  wf_lookup : ∀ (id : Z) (i : nat),
    PowerTable.Lookup p !! id = Some i
    ↔ ∃ e, PowerTable.Entries p !! i = Some e ∧ PowerEntry.ID e = id;
  wf_nonneg : Forall (λ x, 0 <= x) (PowerTable.ScaledPower p);
  wf_total : PowerTable.ScaledTotal p = sumZ (PowerTable.ScaledPower p);
  wf_bound : 2 * PowerTable.ScaledTotal p <= Int64.max_int
}.

(** The table is ordered descending by power, ties broken by ascending
    ActorID. *)
Definition PowerTable_ordered (p : PowerTable.t) : Prop :=
  ∀ (i j : nat) (ei ej : PowerEntry.t),
    (i < j)%nat →
    PowerTable.Entries p !! i = Some ei →
    PowerTable.Entries p !! j = Some ej →
    PowerEntry.Power ej < PowerEntry.Power ei
    ∨ (PowerEntry.Power ej = PowerEntry.Power ei
       ∧ PowerEntry.ID ei < PowerEntry.ID ej).

(** The rescaling keeps the order of the powers. *)
Definition PowerTable_scaling_monotone (p : PowerTable.t) : Prop :=
  ∀ (i j : nat) (ei ej : PowerEntry.t) (si sj : Z),
    PowerTable.Entries p !! i = Some ei →
    PowerTable.Entries p !! j = Some ej →
    PowerTable.ScaledPower p !! i = Some si →
    PowerTable.ScaledPower p !! j = Some sj →
    PowerEntry.Power ej <= PowerEntry.Power ei → sj <= si.

(** The quorum states a program can build: a new accumulator, and whatever
    the receiving methods make of one without panicking. *)
Inductive quorum_reachable (p : PowerTable.t) : quorumState.t → Prop :=
| reachable_new :
    quorum_reachable p (quorumState.newQuorumState p)
| reachable_Receive q sender value signature q' :
    quorum_reachable p q →
    quorumState.Receive q sender value signature = Return q' →
    quorum_reachable p q'
| reachable_ReceiveEachPrefix q sender values q' :
    quorum_reachable p q →
    quorumState.ReceiveEachPrefix q sender values = Return q' →
    quorum_reachable p q'
| reachable_ReceiveJustification q value justification q' :
    quorum_reachable p q →
    quorumState.ReceiveJustification q value justification = Return q' →
    quorum_reachable p q'.

(** The recorded power for a key, zero if the key is absent. *)
Definition support (q : quorumState.t) (key : ChainKey) : Z :=
  match quorumState.chainSupport_ q !! key with
  | Some s => chainSupport.power s
  | None => 0
  end.

(** The senders whose support is recorded for a key. *)
Definition signers_of (q : quorumState.t) (key : ChainKey) : gset Z :=
  match quorumState.chainSupport_ q !! key with
  | Some s => dom (chainSupport.signatures s)
  | None => ∅
  end.

(** A strict prefix of a list: a prefix other than the list itself. *)
Definition strict_prefix_of {A} (p l : list A) : Prop := p `prefix_of` l ∧ p ≠ l.

(** What every reachable quorum state keeps true over a well-formed table:
    the total and each support are the exact powers of the senders counted,
    the signers of a value are senders, and the quorum flag is up to date. *)
Record quorum_inv (p : PowerTable.t) (q : quorumState.t) : Prop := {
  inv_table : quorumState.powerTable q = p;
  inv_total :
    quorumState.sendersTotalPower q = power_of p (elements (quorumState.senders q));
  inv_signers : ∀ key cs,
    quorumState.chainSupport_ q !! key = Some cs →
    dom (chainSupport.signatures cs) ⊆ quorumState.senders q;
  inv_power : ∀ key cs,
    quorumState.chainSupport_ q !! key = Some cs →
    chainSupport.power cs = power_of p (elements (dom (chainSupport.signatures cs)));
  inv_quorum : ∀ key cs,
    quorumState.chainSupport_ q !! key = Some cs →
    chainSupport.hasStrongQuorum cs
    = IsStrongQuorum (chainSupport.power cs) (PowerTable.ScaledTotal p)
}.

(** The signatures recorded for a key, none if the key is absent. *)
Definition signatures_of (q : quorumState.t) (key : ChainKey) : gmap Z (option bytes) :=
  match quorumState.chainSupport_ q !! key with
  | Some s => chainSupport.signatures s
  | None => ∅
  end.

(** The entry [receiveInner] stores for the key of [value]. *)
Definition record_support (q : quorumState.t) (sender : Z) (value : ECChain.t)
    (power : Z) (signature : option bytes) : chainSupport.t :=
  let key := ECChain.Key value in
  chainSupport.mk
    (from_option chainSupport.chain value (quorumState.chainSupport_ q !! key))
    (Int64.add (support q key) power)
    (<[sender := signature]> (signatures_of q key))
    (IsStrongQuorum (Int64.add (support q key) power)
       (PowerTable.ScaledTotal (quorumState.powerTable q))).

Definition set_chainSupport (m : gmap (list Z) chainSupport.t) (q : quorumState.t)
    : quorumState.t :=
  quorumState.mk (quorumState.senders q) (quorumState.sendersTotalPower q) m
    (quorumState.powerTable q) (quorumState.receivedJustification q).

(** The keys under which [ReceiveEachPrefix] is to record support, in the
    words of the specification as amended: the base followed by a prefix of
    the suffix that is not empty. *)
Definition prefix_keys (c : ECChain.t) (key : ChainKey) : Prop :=
  ∃ (b : TipSet.t) (pre : list TipSet.t),
    ECChain.Base c = Some b
    ∧ pre `prefix_of` ECChain.Suffix c ∧ pre ≠ []
    ∧ key = ECChain.Key (b :: pre).

(** The same with the strict prefixes of the suffix, as the specification
    words it. *)
Definition strict_prefix_keys (c : ECChain.t) (key : ChainKey) : Prop :=
  ∃ (b : TipSet.t) (pre : list TipSet.t),
    ECChain.Base c = Some b
    ∧ strict_prefix_of pre (ECChain.Suffix c)
    ∧ key = ECChain.Key (b :: pre).

(** The scaled power at an index of the table, zero outside the table. *)
Definition index_power (p : PowerTable.t) (i : nat) : Z :=
  default 0 (PowerTable.ScaledPower p !! i).

(** The cumulative scaled power of a list of indexes. *)
Definition indices_power (p : PowerTable.t) (l : list nat) : Z :=
  sumZ (index_power p <$> l).

(** The signature recorded in [cs] for the actor at an index of the table. *)
Definition signature_at (p : PowerTable.t) (cs : chainSupport.t) (i : nat)
    : option bytes :=
  e ← PowerTable.Entries p !! i;
  mjoin (chainSupport.signatures cs !! PowerEntry.ID e).

(** ** Vocabulary for the instance *)

Section instance_vocabulary.
Context `{TicketRank} `{MapRange} `{Aggregate}.

(** The key of the base chain of the input of an instance. *)
Definition base_key (i : instance.t) : list Z :=
  ECChain.Key (ECChain.BaseChain (instance.input i)).

(** From one state to a later one the input is kept and the candidates only
    grow. *)
Definition candidates_grow (s s' : instance.state) : Prop :=
  instance.input (instance.self s') = instance.input (instance.self s)
  ∧ instance.candidates (instance.self s) ⊆ instance.candidates (instance.self s').

(** A method takes every state to a state related to it by [R], whatever
    it returns, and also when it panics. *)
Definition preserves {A} (R : relation instance.state) (m : instance.M A) : Prop :=
  ∀ s : instance.state, R s (m s).2.

(** The states of an instance a host can bring about: it creates the
    instance, starts it, delivers messages and alarms, and lets time pass. *)
Inductive instance_reachable : instance.state → Prop :=
| reachable_created participant instanceID input data powerTable beacon i host :
    instance.newInstance participant instanceID input data powerTable beacon
    = (Some i, None) →
    instance_reachable (instance.mkState i host)
| reachable_Start s :
    instance_reachable s → instance_reachable (instance.Start s).2
| reachable_Receive_msg s msg :
    instance_reachable s → instance_reachable (instance.Receive msg s).2
| reachable_ReceiveMany s msgs :
    instance_reachable s → instance_reachable (instance.ReceiveMany msgs s).2
| reachable_ReceiveAlarm s :
    instance_reachable s → instance_reachable (instance.ReceiveAlarm s).2
| reachable_time s now events :
    instance_reachable s →
    instance_reachable (instance.mkState (instance.self s) (Host.mk now events)).

(** The state of round [r] as [getRound] returns it: the one stored, or a
    new one. *)
Definition round_view (i : instance.t) (r : Z) : roundState.t :=
  default (roundState.newRoundState (instance.powerTable i))
    (instance.rounds i !! r).

(** The state with the state of round [r] written. *)
Definition with_round (r : Z) (round : roundState.t) (s : instance.state)
    : instance.state :=
  instance.mkState
    (instance.set_rounds (<[r := round]> (instance.rounds (instance.self s)))
       (instance.self s))
    (instance.host s).

(** Two round states hold the same votes: the same PREPARE and COMMIT
    accumulators and the same senders of CONVERGE. *)
Definition same_votes (x y : roundState.t) : Prop :=
  roundState.prepared x = roundState.prepared y
  ∧ roundState.committed x = roundState.committed y
  ∧ convergeState.senders (roundState.converged x)
    = convergeState.senders (roundState.converged y).

(** From one state to another every tally of votes is kept: the QUALITY and
    DECIDE accumulators and, in every round, the votes of the round. *)
Definition tallies_kept (s s' : instance.state) : Prop :=
  instance.powerTable (instance.self s') = instance.powerTable (instance.self s)
  ∧ instance.quality (instance.self s') = instance.quality (instance.self s)
  ∧ instance.decision (instance.self s') = instance.decision (instance.self s)
  ∧ ∀ r, same_votes (round_view (instance.self s') r) (round_view (instance.self s) r).

(** The vote of a message is counted in a state: its sender is recorded in
    the accumulator the message is for, with the justification where one is
    kept; a CONVERGE message that is refused counts as well. *)
Definition counted (msg : GMessage.t) (i : instance.t) : Prop :=
  let vote := GMessage.Vote msg in
  let round := round_view i (Payload.Round vote) in
  let key := ECChain.Key (Payload.Value vote) in
  match Payload.Phase_ vote with
  | QUALITY_PHASE => GMessage.Sender msg ∈ quorumState.senders (instance.quality i)
  | CONVERGE_PHASE =>
      ECChain.IsZero (Payload.Value vote) = true
      ∨ GMessage.Justification_ msg = None
      ∨ GMessage.Sender msg ∈ convergeState.senders (roundState.converged round)
  | PREPARE_PHASE =>
      GMessage.Sender msg ∈ quorumState.senders (roundState.prepared round)
      ∧ (is_Some (GMessage.Justification_ msg) →
         is_Some (quorumState.receivedJustification (roundState.prepared round) !! key))
  | COMMIT_PHASE =>
      GMessage.Sender msg ∈ quorumState.senders (roundState.committed round)
      ∧ (ECChain.IsZero (Payload.Value vote) = false →
         is_Some (quorumState.receivedJustification (roundState.committed round) !! key))
  | DECIDE_PHASE => GMessage.Sender msg ∈ quorumState.senders (instance.decision i)
  | _ => True
  end.

(** What holds of the result and the state when a run returns; a run that
    panics is not constrained. *)
Definition on_return {A} (run : outcome A * instance.state)
    (Q : A → instance.state → Prop) : Prop :=
  match run with
  | (Return a, s') => Q a s'
  | (Panic _, _) => True
  end.

End instance_vocabulary.

(** A tipset as [Key] takes it to be: an [int64] epoch, commitments of 32
    bytes, a key whose length fits 32 bits, and a power-table CID of [n]
    bytes. *)
Definition tipset_fixed_width (n : nat) (ts : TipSet.t) : Prop :=
  Int64.in_range (TipSet.Epoch ts)
  ∧ length (TipSet.Commitments ts) = 32%nat
  ∧ Z.of_nat (length (TipSet.Key ts)) < 2 ^ 32
  ∧ Cid.ByteLen (TipSet.PowerTable ts) = n.

(** The tipsets [Extend] appends for the keys [tips], the first at position
    [i]. *)
Definition extension (i : nat) (offset : Z) (pt : Cid.t) (tips : list (list Z))
    : list TipSet.t :=
  imap (λ j tip, TipSet.mk (Int64.add offset (Z.of_nat (i + j))) tip pt
                   (replicate 32 0)) tips.

(** A later state of a quorum accumulator: what the receiving methods make
    of it, in any number of calls that return. *)
Inductive quorum_extends : quorumState.t → quorumState.t → Prop :=
| extends_refl q : quorum_extends q q
| extends_Receive q q1 sender value signature q' :
    quorum_extends q q1 →
    quorumState.Receive q1 sender value signature = Return q' →
    quorum_extends q q'
| extends_ReceiveEachPrefix q q1 sender values q' :
    quorum_extends q q1 →
    quorumState.ReceiveEachPrefix q1 sender values = Return q' →
    quorum_extends q q'
| extends_ReceiveJustification q q1 value justification q' :
    quorum_extends q q1 →
    quorumState.ReceiveJustification q1 value justification = Return q' →
    quorum_extends q q'.

(** From one state of a quorum accumulator to another nothing recorded is
    lost, and whoever is a new signer of a value is a new sender. *)
Record votes_grow (q q' : quorumState.t) : Prop := {
  grow_senders : quorumState.senders q ⊆ quorumState.senders q';
  grow_signers : ∀ key, signers_of q key ⊆ signers_of q' key;
  grow_new : ∀ key,
    signers_of q' key ∖ signers_of q key
    ⊆ quorumState.senders q' ∖ quorumState.senders q;
  grow_keys : ∀ key,
    is_Some (quorumState.chainSupport_ q !! key) →
    is_Some (quorumState.chainSupport_ q' !! key);
  grow_justification : ∀ key j,
    quorumState.receivedJustification q !! key = Some j →
    quorumState.receivedJustification q' !! key = Some j
}.

(** The states of an accumulator of single votes, as the PREPARE, COMMIT and
    DECIDE accumulators are: each message goes through [Receive], with or
    without [ReceiveJustification]. *)
Inductive single_vote_reachable (p : PowerTable.t) : quorumState.t → Prop :=
| single_new :
    single_vote_reachable p (quorumState.newQuorumState p)
| single_Receive q sender value signature q' :
    single_vote_reachable p q →
    quorumState.Receive q sender value signature = Return q' →
    single_vote_reachable p q'
| single_ReceiveJustification q value justification q' :
    single_vote_reachable p q →
    quorumState.ReceiveJustification q value justification = Return q' →
    single_vote_reachable p q'.

(** The states of a CONVERGE collector a program can build: a new collector,
    and whatever [SetSelfValue] and [Receive] make of one. *)
Inductive converge_reachable `{TicketRank} : convergeState.t → Prop :=
| converge_new : converge_reachable convergeState.newConvergeState
| converge_SetSelfValue c value justification :
    converge_reachable c →
    converge_reachable (convergeState.SetSelfValue c value justification)
| converge_Receive c sender table value ticket justification :
    converge_reachable c →
    converge_reachable
      (convergeState.Receive c sender table value ticket justification).1.

(** A CONVERGE collector of the harness: one value received. *)
Definition harness_converged : @convergeState.t harness.float :=
  (@convergeState.Receive _ harness.ticketRank convergeState.newConvergeState 1
     harness.table1 harness.chain2 [1; 2]
     (Some (harness.justification PREPARE_PHASE harness.chain2))).1.

Section instance_requests.
Context `{TicketRank} `{MapRange} `{Aggregate}.

(** What is given to an instance at creation. *)
Definition given (i : instance.t) :=
  (instance.participant i, instance.input i, instance.powerTable i,
   instance.beacon i, instance.supplementalData i, instance.ID i,
   InstanceProgress.Input (instance.current i)).

(** A request to the host made on behalf of the instance [i]: a message to
    broadcast is for the network, the power table, the instance number and
    the supplemental data of [i]; it carries a ticket beacon, the one of
    [i], exactly when it is a CONVERGE message, which also carries a
    justification from the round before its own; a DECIDE message is for
    round 0.  A rebroadcast and a progress notification are for the
    instance number of [i]. *)
Definition requested_by (i : instance.t) (e : HostEvent) : Prop :=
  match e with
  | SetAlarm _ => True
  | RequestBroadcast mb =>
      MessageBuilder.NetworkName mb = Participant.NetworkName (instance.participant i)
      ∧ MessageBuilder.PowerTable_ mb = instance.powerTable i
      ∧ Payload.Instance_ (MessageBuilder.Payload_ mb) = instance.ID i
      ∧ Payload.SupplementalData_ (MessageBuilder.Payload_ mb)
        = instance.supplementalData i
      ∧ match Payload.Phase_ (MessageBuilder.Payload_ mb) with
        | CONVERGE_PHASE =>
            MessageBuilder.BeaconForTicket mb = Some (instance.beacon i)
            ∧ ∃ j, MessageBuilder.Justification_ mb = Some j
                   ∧ Payload.Round (Justification.Vote j)
                     = Uint64.sub (Payload.Round (MessageBuilder.Payload_ mb)) 1
        | DECIDE_PHASE =>
            MessageBuilder.BeaconForTicket mb = None
            ∧ Payload.Round (MessageBuilder.Payload_ mb) = 0
        | _ => MessageBuilder.BeaconForTicket mb = None
        end
  | RequestRebroadcast instant => Instant.ID instant = instance.ID i
  | NotifyProgress progress =>
      Instant.ID (InstanceProgress.Instant_ progress) = instance.ID i
      ∧ InstanceProgress.Input progress = InstanceProgress.Input (instance.current i)
  end.

(** From a state to a later one: what was given to the instance is kept, no
    round is forgotten, a decision reached is not withdrawn, an instance that
    has left the initial phase does not return to it, the clock of the host
    is not touched, and the requests to the host are kept, the new ones made
    on behalf of the instance. *)
Definition instance_steps (s s' : instance.state) : Prop :=
  given (instance.self s') = given (instance.self s)
  ∧ dom (instance.rounds (instance.self s)) ⊆ dom (instance.rounds (instance.self s'))
  ∧ (is_Some (instance.terminationValue (instance.self s)) →
     is_Some (instance.terminationValue (instance.self s')))
  ∧ (instance.Phase_ (instance.self s) ≠ INITIAL_PHASE →
     instance.Phase_ (instance.self s') ≠ INITIAL_PHASE)
  ∧ Host.Time (instance.host s') = Host.Time (instance.host s)
  ∧ ∃ requests,
      Host.events (instance.host s') = requests ++ Host.events (instance.host s)
      ∧ Forall (requested_by (instance.self s)) requests.

(** What [broadcast] is called with, by phase. *)
Definition broadcast_shape (round : Z) (phase : Phase) (createTicket : bool)
    (justification : option Justification.t) : Prop :=
  match phase with
  | CONVERGE_PHASE =>
      createTicket = true
      ∧ ∃ j, justification = Some j
             ∧ Payload.Round (Justification.Vote j) = Uint64.sub round 1
  | DECIDE_PHASE => createTicket = false ∧ round = 0
  | _ => createTicket = false
  end.

End instance_requests.

(** The states of a CONVERGE collector as the instance builds them: its own
    value is set with a justification, as [beginConverge] does. *)
Inductive converge_justified `{TicketRank} : convergeState.t → Prop :=
| justified_new : converge_justified convergeState.newConvergeState
| justified_SetSelfValue c value j :
    converge_justified c →
    converge_justified (convergeState.SetSelfValue c value (Some j))
| justified_Receive c sender table value ticket justification :
    converge_justified c →
    converge_justified
      (convergeState.Receive c sender table value ticket justification).1.

(** A CONVERGE message of round 1 with its ticket and a justification from
    round 0, as it goes on the wire. *)
Definition wire_message : GMessage.t :=
  let data := SupplementalData.mk (replicate 32 7) [1; 113; 160; 228; 2; 32; 5] in
  let tipset epoch :=
    TipSet.mk epoch [1; 113; 18; 32; 200; 201] [1; 113; 160; 228; 2; 32; 6]
      (replicate 32 9) in
  let chain := [tipset 950; tipset 951; tipset 70000] in
  GMessage.mk 4096
    (Payload.mk 300 1 CONVERGE_PHASE data chain)
    (Some [11; 12; 13])
    [21; 22]
    (Some (Justification.mk (Payload.mk 300 0 PREPARE_PHASE data chain)
             [0%nat; 2%nat; 700%nat] [31; 32; 33; 34])).

(** * Part II: properties *)

(** ** Fixed-width arithmetic *)

Lemma Int64_wrap_in_range z : Int64.in_range (Int64.wrap z).
Proof.
  unfold Int64.in_range, Int64.wrap, Int64.min_int, Int64.max_int.
  pose proof (Z.mod_pos_bound (z + 2 ^ 63) (2 ^ 64) ltac:(lia)). lia.
Qed.

Lemma Int64_wrap_small z : Int64.in_range z → Int64.wrap z = z.
Proof.
  unfold Int64.in_range, Int64.wrap, Int64.min_int, Int64.max_int. intros Hz.
  rewrite Z.mod_small by lia. lia.
Qed.

Lemma Int64_add_exact a b : Int64.in_range (a + b) → Int64.add a b = a + b.
Proof. apply Int64_wrap_small. Qed.

Lemma Int64_sub_exact a b : Int64.in_range (a - b) → Int64.sub a b = a - b.
Proof. apply Int64_wrap_small. Qed.

Lemma Int64_mul_exact a b : Int64.in_range (a * b) → Int64.mul a b = a * b.
Proof. apply Int64_wrap_small. Qed.

Lemma Int64_quo3_exact a : Int64.in_range a → Int64.quo a 3 = Z.quot a 3.
Proof.
  intros Ha. apply Int64_wrap_small.
  unfold Int64.in_range, Int64.min_int, Int64.max_int in *.
  destruct (Z_le_gt_dec 0 a) as [Hpos|Hneg].
  - pose proof (Z.quot_pos a 3 Hpos ltac:(lia)).
    pose proof (Z.quot_le_upper_bound a 3 a ltac:(lia) ltac:(lia)). lia.
  - rewrite <- (Z.opp_involutive a), Z.quot_opp_l by lia.
    pose proof (Z.quot_pos (- a) 3 ltac:(lia) ltac:(lia)).
    pose proof (Z.quot_le_upper_bound (- a) 3 (- a) ltac:(lia) ltac:(lia)). lia.
Qed.

(** ** Quorum arithmetic *)

Lemma ceilDiv_spec a b : 0 < b → b * (ceilDiv a b - 1) < a <= b * ceilDiv a b.
Proof.
  intros Hb. unfold ceilDiv.
  pose proof (Z.div_mod (- a) b ltac:(lia)).
  pose proof (Z.mod_pos_bound (- a) b Hb). nia.
Qed.

Lemma ceilDiv_least a b q : 0 < b → a <= b * q → ceilDiv a b <= q.
Proof.
  intros Hb Hq. pose proof (ceilDiv_spec a b Hb). nia.
Qed.

(** On a dividend that is not negative the code's [divCeil _ 3] is the
    ceiling. *)
Lemma divCeil_3_nonneg a :
  0 <= a → a <= Int64.max_int → divCeil a 3 = ceilDiv a 3.
Proof.
  intros Ha Hr. unfold divCeil, Int64.rem.
  assert (Int64.in_range a) as Hin
    by (unfold Int64.in_range, Int64.min_int, Int64.max_int in *; lia).
  rewrite Int64_quo3_exact by done.
  rewrite Z.quot_div_nonneg, Z.rem_mod_nonneg by lia.
  pose proof (Z.div_mod a 3 ltac:(lia)) as Hdm.
  pose proof (Z.mod_pos_bound a 3 ltac:(lia)) as Hm.
  pose proof (ceilDiv_spec a 3 ltac:(lia)) as Hc.
  unfold Int64.max_int in Hr.
  destruct (Z.eqb_spec (a mod 3) 0) as [H0|H0]; simpl.
  - lia.
  - rewrite Int64_add_exact
      by (unfold Int64.in_range, Int64.min_int, Int64.max_int; lia).
    lia.
Qed.

(** On a negative dividend that 3 does not divide, [divCeil] is one above the
    ceiling: the truncated quotient is the ceiling already. *)
Lemma divCeil_3_neg a :
  a < 0 → Int64.min_int <= a → Z.rem a 3 ≠ 0 → divCeil a 3 = ceilDiv a 3 + 1.
Proof.
  intros Ha Hr Hrem. unfold divCeil, Int64.rem.
  assert (Int64.in_range a) as Hin
    by (unfold Int64.in_range, Int64.min_int, Int64.max_int in *; lia).
  rewrite Int64_quo3_exact by done.
  destruct (Z.eqb_spec (Z.rem a 3) 0) as [H0|H0]; [done|]. simpl.
  pose proof (Z.quot_rem' a 3) as Hqr.
  assert (-3 < Z.rem a 3 <= 0) as Hb.
  { rewrite <- (Z.opp_involutive a), Z.rem_opp_l by lia.
    pose proof (Z.rem_bound_pos (- a) 3 ltac:(lia) ltac:(lia)). lia. }
  pose proof (ceilDiv_spec a 3 ltac:(lia)) as Hc.
  unfold Int64.min_int in Hr.
  rewrite Int64_add_exact
    by (unfold Int64.in_range, Int64.min_int, Int64.max_int; lia).
  lia.
Qed.

(** [IsStrongQuorum] compares the part with a threshold that depends on the
    whole only; it is therefore monotone in the part. *)
Lemma IsStrongQuorum_mono p p' n :
  p <= p' → IsStrongQuorum p n = true → IsStrongQuorum p' n = true.
Proof. unfold IsStrongQuorum. intros Hle Hp. apply Z.leb_le in Hp. apply Z.leb_le. lia. Qed.

(** C1, as amended.  For every part [p] and every whole [n] that is not
    negative: [hasWeakQuorum p n] holds exactly when [p > ceil(n/3)], and, as
    long as [2 * n] does not exceed the largest [int64],
    [IsStrongQuorum p n] holds exactly when [p >= ceil(2n/3)]. *)
Theorem quorum_arithmetic_nonneg (p n : Z) :
  0 <= n → n <= Int64.max_int →
  (2 * n <= Int64.max_int → (IsStrongQuorum p n = true ↔ p >= ceilDiv (2 * n) 3))
  ∧ (hasWeakQuorum p n = true ↔ p > ceilDiv n 3).
Proof.
  intros Hn Hmax. split.
  - intros H2. unfold IsStrongQuorum.
    rewrite Int64_mul_exact
      by (unfold Int64.in_range, Int64.min_int, Int64.max_int in *; lia).
    rewrite divCeil_3_nonneg by lia.
    rewrite Z.leb_le. lia.
  - unfold hasWeakQuorum. rewrite divCeil_3_nonneg by lia.
    rewrite Z.ltb_lt. lia.
Qed.

Lemma quorum_arithmetic_nonneg_witness :
  (IsStrongQuorum 2 3 = true ↔ 2 >= ceilDiv (2 * 3) 3)
  ∧ (hasWeakQuorum 2 3 = true ↔ 2 > ceilDiv 3 3).
Proof.
  destruct (quorum_arithmetic_nonneg 2 3) as [Hs Hw]; [lia | done |].
  split; [apply Hs; done | exact Hw].
Defined.

(** C1 as stated fails on a negative whole, where truncation makes [divCeil]
    overshoot, and on a whole whose double wraps around. *)
Lemma quorum_arithmetic_int64_counterexample :
  Int64.in_range (-1) ∧ Int64.in_range (2 ^ 62) ∧
  ¬ (hasWeakQuorum 1 (-1) = true ↔ 1 > ceilDiv (-1) 3) ∧
  ¬ (IsStrongQuorum 0 (2 ^ 62) = true ↔ 0 >= ceilDiv (2 * 2 ^ 62) 3).
Proof.
  split; [done|]. split; [done|]. split.
  - intros [_ Hc]. assert (hasWeakQuorum 1 (-1) = false) as Hf by reflexivity.
    rewrite Hf in Hc. discriminate Hc. reflexivity.
  - intros [Hc _]. assert (0 >= ceilDiv (2 * 2 ^ 62) 3 → False) as Hn
      by (vm_compute; congruence).
    apply Hn, Hc. reflexivity.
Qed.

(** ** Chain validation *)

Lemma TipSet_Validate_None ts :
  TipSet.Validate ts = None ↔ tipset_well_formed ts.
Proof.
  unfold TipSet.Validate, tipset_well_formed, Cid.Defined, Cid.ByteLen.
  destruct (Nat.eqb_spec (length (TipSet.Key ts)) 0) as [Hk|Hk];
    [split; [done | lia]|].
  destruct (Nat.ltb_spec TipsetKeyMaxLen (length (TipSet.Key ts))) as [Hm|Hm];
    [split; [done | lia]|].
  destruct (TipSet.PowerTable ts) as [|b cid] eqn:Hcid.
  { rewrite bool_decide_eq_true_2 by done. simpl. split; [done | lia]. }
  rewrite bool_decide_eq_false_2 by done. cbn [negb length].
  destruct (Nat.ltb_spec CidMaxLen (S (length cid))) as [Hc|Hc];
    [split; [done | lia]|].
  split; [lia | done].
Qed.

(** The loop of [Validate] succeeds exactly when every tipset is well formed
    and each epoch exceeds the one before, starting from [lastEpoch]. *)
Lemma Validate_from_None c : ∀ i lastEpoch,
  ECChain.Validate_from i lastEpoch c = None
  ↔ Forall tipset_well_formed c
    ∧ (∀ ts, head c = Some ts → lastEpoch < TipSet.Epoch ts)
    ∧ epochs_strictly_increasing c.
Proof.
  induction c as [|ts c IH]; intros i lastEpoch; simpl.
  - split; [|done]. intros _. split; [constructor|]. split; [done|].
    intros j ti tj Hi. done.
  - destruct (TipSet.Validate ts) as [err|] eqn:Hts.
    { split; [done|]. intros (Hall & _ & _). apply Forall_cons in Hall as [Hwf _].
      apply TipSet_Validate_None in Hwf. congruence. }
    apply TipSet_Validate_None in Hts.
    destruct (Z.leb_spec (TipSet.Epoch ts) lastEpoch) as [Hle|Hlt].
    { split; [done|]. intros (_ & Hhd & _). specialize (Hhd ts eq_refl). lia. }
    rewrite IH. split.
    + intros (Hall & Hhd & Hinc). split; [by constructor|]. split.
      * intros ts' [= <-]. done.
      * intros [|j] ti tj Hi Hj; simpl in *.
        -- injection Hi as <-. apply Hhd. by destruct c; simplify_eq/=.
        -- by eapply Hinc.
    + intros (Hall & Hhd & Hinc). apply Forall_cons in Hall as [_ Hall].
      split; [done|]. split.
      * intros ts' Hts'. apply (Hinc 0%nat ts ts'); [done|].
        by destruct c; simplify_eq/=.
      * intros j ti tj Hi Hj. by apply (Hinc (S j) ti tj).
Qed.

(** C7, as amended.  [ECChain.Validate] succeeds on bottom; on any other
    chain it succeeds exactly when the chain has at most 128 tipsets, every
    tipset is valid, the first epoch is not negative and the epochs are
    strictly increasing. *)
Theorem ECChain_Validate_success (c : ECChain.t) :
  ECChain.Validate [] = None
  ∧ (c ≠ [] →
     ECChain.Validate c = None
     ↔ (length c ≤ ChainMaxLen)%nat
       ∧ Forall tipset_well_formed c
       ∧ (∀ ts, head c = Some ts → 0 <= TipSet.Epoch ts)
       ∧ epochs_strictly_increasing c).
Proof.
  split; [done|]. intros Hc. unfold ECChain.Validate, ECChain.IsZero.
  destruct c as [|ts c]; [done|]. cbn [length Nat.eqb].
  destruct (Nat.ltb_spec ChainMaxLen (S (length c))) as [Hlen|Hlen].
  { split; [done | lia]. }
  rewrite Validate_from_None. split.
  - intros (Hall & Hhd & Hinc). split; [lia|]. split; [done|]. split; [|done].
    intros ts' Hts'. specialize (Hhd ts' Hts'). lia.
  - intros (_ & Hall & Hhd & Hinc). split; [done|]. split; [|done].
    intros ts' Hts'. specialize (Hhd ts' Hts'). lia.
Qed.

Lemma ECChain_Validate_success_witness :
  ECChain.Validate harness.chain3 = None
  ↔ (length harness.chain3 ≤ ChainMaxLen)%nat
    ∧ Forall tipset_well_formed harness.chain3
    ∧ (∀ ts, head harness.chain3 = Some ts → 0 <= TipSet.Epoch ts)
    ∧ epochs_strictly_increasing harness.chain3.
Proof.
  apply (ECChain_Validate_success harness.chain3). done.
Defined.

(** C7 as stated fails: a chain of one tipset whose key is empty is short
    enough and its epochs increase, yet [Validate] rejects it; so it does a
    chain that starts at a negative epoch. *)
Lemma ECChain_Validate_counterexample :
  let empty_key := [TipSet.mk 5 [] (harness.cid 0) (replicate 32 0)] in
  let negative_epoch := [harness.tipset (-5)] in
  ¬ (ECChain.Validate empty_key = None
     ↔ (length empty_key ≤ ChainMaxLen)%nat ∧ epochs_strictly_increasing empty_key)
  ∧ ¬ (ECChain.Validate negative_epoch = None
       ↔ (length negative_epoch ≤ ChainMaxLen)%nat
         ∧ epochs_strictly_increasing negative_epoch).
Proof.
  assert (∀ ts, epochs_strictly_increasing [ts]) as Hone.
  { intros ts [|i] ti tj Hi Hj; simpl in *; done. }
  split; intros [_ Hc].
  - assert (ECChain.Validate [TipSet.mk 5 [] (harness.cid 0) (replicate 32 0)] ≠ None)
      as Hv by (vm_compute; congruence).
    apply Hv, Hc. split; [simpl; unfold ChainMaxLen; lia | apply Hone].
  - assert (ECChain.Validate [harness.tipset (-5)] ≠ None)
      as Hv by (vm_compute; congruence).
    apply Hv, Hc. split; [simpl; unfold ChainMaxLen; lia | apply Hone].
Qed.

(** ** Sums and the power of sets of actors *)

Lemma sumZ_app l1 l2 : sumZ (l1 ++ l2) = sumZ l1 + sumZ l2.
Proof. induction l1 as [|x l1 IH]; simpl; lia. Qed.

#[global] Instance sumZ_perm : Proper ((≡ₚ) ==> (=)) sumZ.
Proof. intros l1 l2 Hp. induction Hp; simpl; lia. Qed.

Lemma sumZ_nonneg l : Forall (λ x, 0 <= x) l → 0 <= sumZ l.
Proof. induction 1; simpl; lia. Qed.

Lemma sumZ_submseteq l1 l2 :
  l1 ⊆+ l2 → Forall (λ x, 0 <= x) l2 → sumZ l1 <= sumZ l2.
Proof.
  intros Hsub Hpos. apply submseteq_sublist_l in Hsub as (l & Hsl & Hp).
  rewrite <- Hp in Hpos |- *. clear Hp l2.
  induction Hsl as [|x l1 l Hsl IH|x l1 l Hsl IH]; simpl.
  - done.
  - apply Forall_cons in Hpos as [_ Hpos]. specialize (IH Hpos). lia.
  - apply Forall_cons in Hpos as [Hx Hpos]. specialize (IH Hpos). lia.
Qed.

Lemma fmap_lookup_seq (l : list Z) :
  (λ i, default 0 (l !! i)) <$> seq 0 (length l) = l.
Proof.
  apply list_eq. intros i. rewrite list_lookup_fmap.
  destruct (decide (i < length l)%nat) as [Hi|Hi].
  - rewrite lookup_seq_lt by done. simpl.
    destruct (lookup_lt_is_Some_2 l i Hi) as [x Hx]. by rewrite Hx.
  - rewrite lookup_seq_ge by lia. simpl. symmetry. apply lookup_ge_None. lia.
Qed.

Section table.
Context (p : PowerTable.t) (Hwf : PowerTable_wf p).

Lemma Lookup_lt id i :
  PowerTable.Lookup p !! id = Some i → (i < length (PowerTable.ScaledPower p))%nat.
Proof.
  intros Hl. apply (wf_lookup p Hwf) in Hl as (e & He & _).
  rewrite (wf_lengths p Hwf). by eapply lookup_lt_Some.
Qed.

Lemma Lookup_inj a b i :
  PowerTable.Lookup p !! a = Some i → PowerTable.Lookup p !! b = Some i → a = b.
Proof.
  intros Ha Hb. apply (wf_lookup p Hwf) in Ha as (e & He & <-).
  apply (wf_lookup p Hwf) in Hb as (e' & He' & <-). congruence.
Qed.

Lemma Get_nonneg id : 0 <= (PowerTable.Get p id).1.
Proof.
  unfold PowerTable.Get. destruct (PowerTable.Lookup p !! id) as [i|]; simpl; [|lia].
  destruct (PowerTable.ScaledPower p !! i) as [x|] eqn:Hx; simpl; [|lia].
  pose proof (wf_nonneg p Hwf) as Hall. rewrite Forall_lookup in Hall. by eapply Hall.
Qed.

Lemma power_of_nonneg ids : 0 <= power_of p ids.
Proof.
  unfold power_of. apply sumZ_nonneg, Forall_fmap, Forall_forall.
  intros id _. apply Get_nonneg.
Qed.

Lemma power_of_cons id ids :
  power_of p (id :: ids) = (PowerTable.Get p id).1 + power_of p ids.
Proof. done. Qed.

Lemma power_of_app ids1 ids2 :
  power_of p (ids1 ++ ids2) = power_of p ids1 + power_of p ids2.
Proof. unfold power_of. by rewrite fmap_app, sumZ_app. Qed.

Lemma power_of_perm ids1 ids2 : ids1 ≡ₚ ids2 → power_of p ids1 = power_of p ids2.
Proof. intros Hp. unfold power_of. by rewrite Hp. Qed.

Lemma power_of_submseteq ids1 ids2 :
  ids1 ⊆+ ids2 → power_of p ids1 <= power_of p ids2.
Proof.
  intros Hsub. unfold power_of. apply sumZ_submseteq.
  - by apply fmap_submseteq.
  - apply Forall_fmap, Forall_forall. intros id _. apply Get_nonneg.
Qed.

(** The power of the actors of a table that are in [ids], through their
    indexes. *)
Lemma power_of_indices ids :
  power_of p ids
  = sumZ ((λ i, default 0 (PowerTable.ScaledPower p !! i))
            <$> omap (λ id, PowerTable.Lookup p !! id) ids).
Proof.
  induction ids as [|id ids IH]; [done|].
  rewrite power_of_cons, IH. unfold PowerTable.Get. cbn [omap list_omap].
  destruct (PowerTable.Lookup p !! id) as [i|]; [|simpl; lia].
  rewrite fmap_cons. simpl. lia.
Qed.

Lemma NoDup_indices ids :
  NoDup ids → NoDup (omap (λ id, PowerTable.Lookup p !! id) ids).
Proof.
  induction 1 as [|id ids Hid Hnd IH]; simpl; [constructor|].
  destruct (PowerTable.Lookup p !! id) as [i|] eqn:Hi; [|done].
  constructor; [|done]. intros Hin. apply list_elem_of_omap in Hin as (id' & Hin & Hi').
  assert (id' = id) as -> by (by eapply Lookup_inj). done.
Qed.

Lemma power_of_le_total ids : NoDup ids → power_of p ids <= PowerTable.ScaledTotal p.
Proof.
  intros Hnd. rewrite power_of_indices, (wf_total p Hwf).
  pose proof (fmap_lookup_seq (PowerTable.ScaledPower p)) as Hseq.
  etransitivity; [|rewrite <- Hseq; reflexivity].
  apply sumZ_submseteq.
  - apply fmap_submseteq, NoDup_submseteq; [by apply NoDup_indices|].
    intros i Hin. apply list_elem_of_omap in Hin as (id & _ & Hi).
    apply elem_of_seq. split; [lia|]. simpl. by eapply Lookup_lt.
  - rewrite Hseq. apply (wf_nonneg p Hwf).
Qed.

End table.

(** ** Quorum accumulator: what receiving does *)

Lemma receiveSender_known q sender :
  sender ∈ quorumState.senders q →
  quorumState.receiveSender q sender = (q, (0, false)).
Proof. intros Hin. unfold quorumState.receiveSender. by rewrite bool_decide_eq_true_2. Qed.

Lemma receiveSender_new q sender :
  sender ∉ quorumState.senders q →
  quorumState.receiveSender q sender
  = (quorumState.mk ({[sender]} ∪ quorumState.senders q)
       (Int64.add (quorumState.sendersTotalPower q)
          (PowerTable.Get (quorumState.powerTable q) sender).1)
       (quorumState.chainSupport_ q) (quorumState.powerTable q)
       (quorumState.receivedJustification q),
     ((PowerTable.Get (quorumState.powerTable q) sender).1, true)).
Proof. intros Hin. unfold quorumState.receiveSender. by rewrite bool_decide_eq_false_2. Qed.

Lemma signers_of_dom q key : signers_of q key = dom (signatures_of q key).
Proof.
  unfold signers_of, signatures_of.
  destruct (quorumState.chainSupport_ q !! key); [done|]. by rewrite dom_empty_L.
Qed.

Lemma receiveInner_Return q sender value power signature :
  sender ∉ signers_of q (ECChain.Key value) →
  quorumState.receiveInner q sender value power signature
  = Return (set_chainSupport
              (<[ECChain.Key value := record_support q sender value power signature]>
                 (quorumState.chainSupport_ q)) q).
Proof.
  intros Hnew. unfold quorumState.receiveInner, record_support, support, signatures_of.
  unfold signers_of in Hnew.
  destruct (quorumState.chainSupport_ q !! ECChain.Key value) as [cs|] eqn:Hcs; simpl.
  - apply not_elem_of_dom in Hnew. rewrite Hnew. done.
  - rewrite lookup_empty. done.
Qed.

(** A second signature of the same sender for the same value is the one
    case in which [receiveInner] panics; a nil signature never triggers it. *)
Lemma receiveInner_nil_Return q sender value power :
  signatures_of q (ECChain.Key value) !! sender = None
  ∨ signatures_of q (ECChain.Key value) !! sender = Some None →
  ∃ q', quorumState.receiveInner q sender value power None = Return q'.
Proof.
  intros Hsig. unfold quorumState.receiveInner. unfold signatures_of in Hsig.
  destruct (quorumState.chainSupport_ q !! ECChain.Key value) as [cs|] eqn:Hcs; simpl.
  - destruct Hsig as [-> | ->]; simpl; eauto.
  - rewrite lookup_empty. simpl. eauto.
Qed.

(** ** Chain keys *)

Lemma Prefix_take c to : ECChain.Prefix c to = take (to + 1) c.
Proof.
  unfold ECChain.Prefix, ECChain.IsZero.
  destruct c as [|b c]; [by rewrite !take_nil|].
  cbn [length Nat.eqb]. cbv zeta.
  destruct (Nat.min_spec (to + 1) (S (length c))) as [[_ ->]|[Hle ->]]; [done|].
  rewrite (take_ge (b :: c) (S (length c))) by done.
  rewrite (take_ge (b :: c) (to + 1)); [done | simpl; lia].
Qed.

Lemma Key_app c1 c2 : ECChain.Key (c1 ++ c2) = ECChain.Key c1 ++ ECChain.Key c2.
Proof. unfold ECChain.Key. by rewrite map_app, concat_app. Qed.

Lemma length_be_bytes n z : length (be_bytes n z) = n.
Proof.
  revert z. induction n as [|n IH]; intros z; simpl; [done|].
  rewrite length_app, IH. simpl. lia.
Qed.

Lemma Key_tipset_length ts : (8 ≤ length (ECChain.Key_tipset ts))%nat.
Proof.
  unfold ECChain.Key_tipset. rewrite length_app, length_be_bytes. lia.
Qed.

Lemma Key_length_ge c : (length c ≤ length (ECChain.Key c))%nat.
Proof.
  induction c as [|ts c IH]; [done|].
  change (ECChain.Key (ts :: c)) with (ECChain.Key_tipset ts ++ ECChain.Key c).
  rewrite length_app. pose proof (Key_tipset_length ts). simpl. lia.
Qed.

(** Prefixes of different lengths of one chain have different keys. *)
Lemma Key_take_lt c j1 j2 :
  (j1 < j2 ≤ length c)%nat →
  (length (ECChain.Key (take j1 c)) < length (ECChain.Key (take j2 c)))%nat.
Proof.
  intros Hj. rewrite <- (take_drop j1 (take j2 c)).
  rewrite take_take, Nat.min_l by lia.
  rewrite Key_app, length_app.
  pose proof (Key_length_ge (drop j1 (take j2 c))) as Hlen.
  rewrite length_drop, length_take in Hlen. lia.
Qed.

Lemma Key_take_inj c j1 j2 :
  (j1 ≤ length c)%nat → (j2 ≤ length c)%nat →
  ECChain.Key (take j1 c) = ECChain.Key (take j2 c) → j1 = j2.
Proof.
  intros H1 H2 Heq.
  destruct (Nat.lt_trichotomy j1 j2) as [Hlt|[Heq'|Hgt]]; [|done|].
  - pose proof (Key_take_lt c j1 j2 ltac:(lia)). rewrite Heq in *. lia.
  - pose proof (Key_take_lt c j2 j1 ltac:(lia)). rewrite Heq in *. lia.
Qed.

Lemma Key_nil_iff c : ECChain.Key c = [] ↔ c = [].
Proof.
  split; [|by intros ->]. intros Hk. pose proof (Key_length_ge c) as Hl.
  rewrite Hk in Hl. simpl in Hl. destruct c; [done | simpl in Hl; lia].
Qed.

(** ** The loop of [ReceiveEachPrefix] *)

Lemma record_support_ext q1 q2 sender value power signature :
  quorumState.chainSupport_ q1 !! ECChain.Key value
  = quorumState.chainSupport_ q2 !! ECChain.Key value →
  quorumState.powerTable q1 = quorumState.powerTable q2 →
  record_support q1 sender value power signature
  = record_support q2 sender value power signature.
Proof.
  intros Hl Hp. unfold record_support, support, signatures_of. by rewrite Hl, Hp.
Qed.

Lemma ReceiveEachPrefix_loop_Return sender values power : ∀ js q,
  NoDup ((λ j, ECChain.Key (ECChain.Prefix values (j + 1))) <$> js) →
  (∀ j, j ∈ js → sender ∉ signers_of q (ECChain.Key (ECChain.Prefix values (j + 1)))) →
  ∃ q',
    quorumState.ReceiveEachPrefix_loop q sender values power js = Return q'
    ∧ quorumState.senders q' = quorumState.senders q
    ∧ quorumState.sendersTotalPower q' = quorumState.sendersTotalPower q
    ∧ quorumState.powerTable q' = quorumState.powerTable q
    ∧ quorumState.receivedJustification q' = quorumState.receivedJustification q
    ∧ (∀ j, j ∈ js →
         quorumState.chainSupport_ q' !! ECChain.Key (ECChain.Prefix values (j + 1))
         = Some (record_support q sender (ECChain.Prefix values (j + 1)) power None))
    ∧ (∀ key,
         key ∉ (λ j, ECChain.Key (ECChain.Prefix values (j + 1))) <$> js →
         quorumState.chainSupport_ q' !! key = quorumState.chainSupport_ q !! key).
Proof.
  induction js as [|j0 js IH]; intros q Hnd Hnew.
  { exists q. repeat split; try done. intros j Hj. by apply elem_of_nil in Hj. }
  rewrite fmap_cons in Hnd. apply NoDup_cons in Hnd as [Hj0 Hnd].
  cbn [quorumState.ReceiveEachPrefix_loop].
  rewrite receiveInner_Return by (apply Hnew; left).
  set (k0 := ECChain.Key (ECChain.Prefix values (j0 + 1))) in *.
  set (q1 := set_chainSupport _ q).
  assert (∀ key, key ≠ k0 →
            quorumState.chainSupport_ q1 !! key = quorumState.chainSupport_ q !! key)
    as Hother by (intros key Hne; unfold q1; simpl; by rewrite lookup_insert_ne).
  destruct (IH q1 Hnd) as (q' & Hrun & Hs & Ht & Hp & Hj & Hin & Hout).
  { intros j Hjin. unfold signers_of. rewrite Hother.
    - apply Hnew. by right.
    - intros Heq. apply Hj0. rewrite <- Heq. apply list_elem_of_fmap. eauto. }
  exists q'. simpl. split; [exact Hrun|]. repeat split; try done.
  - intros j Hjin. apply elem_of_cons in Hjin as [->|Hjin].
    + rewrite Hout by done. unfold q1. simpl. fold k0. by rewrite lookup_insert_eq.
    + rewrite Hin by done. f_equal. apply record_support_ext; [|done].
      apply Hother. intros Heq. apply Hj0. rewrite <- Heq.
      apply list_elem_of_fmap. eauto.
  - intros key Hkey. apply not_elem_of_cons in Hkey as [Hne Hkey].
    rewrite Hout by done. by apply Hother.
Qed.

Lemma Suffix_length c : length (ECChain.Suffix c) = (length c - 1)%nat.
Proof.
  unfold ECChain.Suffix, ECChain.IsZero. destruct c as [|b c]; [done|].
  simpl. rewrite drop_0. lia.
Qed.

Lemma NoDup_prefix_keys c :
  NoDup ((λ j, ECChain.Key (ECChain.Prefix c (j + 1)))
           <$> seq 0 (length (ECChain.Suffix c))).
Proof.
  apply NoDup_fmap_2_strong; [|apply NoDup_seq].
  intros j1 j2 Hj1 Hj2 Heq. apply elem_of_seq in Hj1, Hj2.
  rewrite Suffix_length in Hj1, Hj2. rewrite !Prefix_take in Heq.
  apply Key_take_inj in Heq; lia.
Qed.

Lemma signers_of_set_chainSupport q key cs key' :
  signers_of (set_chainSupport (<[key := cs]> (quorumState.chainSupport_ q)) q) key'
  = if decide (key = key') then dom (chainSupport.signatures cs) else signers_of q key'.
Proof.
  unfold signers_of, set_chainSupport. simpl. rewrite lookup_insert.
  by destruct (decide (key = key')).
Qed.

Lemma record_support_signers q sender value power signature :
  dom (chainSupport.signatures (record_support q sender value power signature))
  = {[sender]} ∪ signers_of q (ECChain.Key value).
Proof. unfold record_support. simpl. by rewrite dom_insert_L, signers_of_dom. Qed.

(** What [Receive] does for a sender not recorded before, in a state in
    which only recorded senders have signed. *)
Lemma Receive_new q sender value signature :
  sender ∉ quorumState.senders q →
  (∀ key, signers_of q key ⊆ quorumState.senders q) →
  let q1 := (quorumState.receiveSender q sender).1 in
  quorumState.Receive q sender value signature
  = Return (set_chainSupport
              (<[ECChain.Key value :=
                   record_support q1 sender value
                     (PowerTable.Get (quorumState.powerTable q) sender).1 signature]>
                 (quorumState.chainSupport_ q1)) q1).
Proof.
  intros Hnew Hsig. unfold quorumState.Receive.
  rewrite receiveSender_new by done. cbv zeta. simpl.
  rewrite receiveInner_Return; [done|].
  intros Hin. apply Hnew. apply (Hsig (ECChain.Key value)). exact Hin.
Qed.

Lemma Receive_known q sender value signature :
  sender ∈ quorumState.senders q →
  quorumState.Receive q sender value signature = Return q.
Proof. intros Hin. unfold quorumState.Receive. by rewrite receiveSender_known. Qed.

Lemma ReceiveEachPrefix_known q sender values :
  sender ∈ quorumState.senders q →
  quorumState.ReceiveEachPrefix q sender values = Return q.
Proof. intros Hin. unfold quorumState.ReceiveEachPrefix. by rewrite receiveSender_known. Qed.

(** What [ReceiveEachPrefix] does for a sender not recorded before. *)
Lemma ReceiveEachPrefix_new q sender values :
  sender ∉ quorumState.senders q →
  (∀ key, signers_of q key ⊆ quorumState.senders q) →
  let power := (PowerTable.Get (quorumState.powerTable q) sender).1 in
  let keyof := λ j, ECChain.Key (ECChain.Prefix values (j + 1)) in
  let js := seq 0 (length (ECChain.Suffix values)) in
  ∃ q',
    quorumState.ReceiveEachPrefix q sender values = Return q'
    ∧ quorumState.senders q' = {[sender]} ∪ quorumState.senders q
    ∧ quorumState.sendersTotalPower q'
      = Int64.add (quorumState.sendersTotalPower q) power
    ∧ quorumState.powerTable q' = quorumState.powerTable q
    ∧ quorumState.receivedJustification q' = quorumState.receivedJustification q
    ∧ (∀ j, j ∈ js →
         quorumState.chainSupport_ q' !! keyof j
         = Some (record_support q sender (ECChain.Prefix values (j + 1)) power None))
    ∧ (∀ key, key ∉ keyof <$> js →
         quorumState.chainSupport_ q' !! key = quorumState.chainSupport_ q !! key).
Proof.
  intros Hnew Hsig power keyof js. unfold quorumState.ReceiveEachPrefix.
  rewrite receiveSender_new by done. cbv zeta. simpl. fold power.
  set (q1 := quorumState.mk _ _ _ _ _).
  destruct (ReceiveEachPrefix_loop_Return sender values power js q1)
    as (q' & Hrun & Hs & Ht & Hp & Hj & Hin & Hout).
  { apply NoDup_prefix_keys. }
  { intros j _ Hin. apply Hnew. apply (Hsig (keyof j)). exact Hin. }
  exists q'. split; [exact Hrun|]. repeat split; try done.
Qed.

(** In every reachable state the signers of a value are recorded senders,
    and the table is the one the accumulator was made with. *)
Lemma reachable_signers p q :
  quorum_reachable p q →
  quorumState.powerTable q = p
  ∧ ∀ key, signers_of q key ⊆ quorumState.senders q.
Proof.
  induction 1 as [|q sender value signature q' Hq [IHp IH] Hrun
                  |q sender values q' Hq [IHp IH] Hrun
                  |q value justification q' Hq [IHp IH] Hrun].
  - split; [done|]. intros key. unfold signers_of. simpl. by rewrite lookup_empty.
  - destruct (decide (sender ∈ quorumState.senders q)) as [Hin|Hnew].
    + rewrite Receive_known in Hrun by done. by injection Hrun as <-.
    + rewrite Receive_new in Hrun by done. injection Hrun as <-. cbv zeta.
      set (q1 := (quorumState.receiveSender q sender).1).
      assert (quorumState.senders q1 = {[sender]} ∪ quorumState.senders q
              ∧ quorumState.chainSupport_ q1 = quorumState.chainSupport_ q
              ∧ quorumState.powerTable q1 = quorumState.powerTable q)
        as (Hs1 & Hc1 & Hp1) by (unfold q1; by rewrite receiveSender_new).
      split; [by rewrite <- IHp, <- Hp1|].
      intros key. rewrite signers_of_set_chainSupport.
      change (quorumState.senders (set_chainSupport _ q1))
        with (quorumState.senders q1).
      assert (∀ k, signers_of q1 k = signers_of q k) as Hsame
        by (intros k; unfold signers_of; by rewrite Hc1).
      rewrite Hs1. destruct (decide _) as [<-|Hne].
      * rewrite record_support_signers, Hsame. apply union_mono_l, IH.
      * rewrite Hsame. etrans; [apply IH | apply union_subseteq_r].
  - destruct (decide (sender ∈ quorumState.senders q)) as [Hin|Hnew].
    + rewrite ReceiveEachPrefix_known in Hrun by done. by injection Hrun as <-.
    + destruct (ReceiveEachPrefix_new q sender values Hnew IH)
        as (q'' & Hrun' & Hs & _ & Hp & _ & Hin & Hout).
      rewrite Hrun' in Hrun. injection Hrun as <-. split; [congruence|].
      intros key. rewrite Hs.
      destruct (decide (key ∈ (λ j, ECChain.Key (ECChain.Prefix values (j + 1)))
                          <$> seq 0 (length (ECChain.Suffix values)))) as [Hk|Hk].
      * apply list_elem_of_fmap in Hk as (j & -> & Hj).
        unfold signers_of at 1. rewrite (Hin j Hj), record_support_signers.
        apply union_mono_l, IH.
      * unfold signers_of at 1. rewrite (Hout key Hk).
        etrans; [apply (IH key) | apply union_subseteq_r].
  - unfold quorumState.ReceiveJustification in Hrun.
    destruct justification as [j|]; [|done].
    destruct (quorumState.receivedJustification q !! ECChain.Key value);
      injection Hrun as <-; done.
Qed.

(** The keys the loop of [ReceiveEachPrefix] visits are the keys of the base
    followed by a non-empty prefix of the suffix. *)
Lemma prefix_keys_loop c key :
  prefix_keys c key
  ↔ key ∈ (λ j, ECChain.Key (ECChain.Prefix c (j + 1)))
            <$> seq 0 (length (ECChain.Suffix c)).
Proof.
  unfold prefix_keys, ECChain.Base, ECChain.Suffix, ECChain.IsZero.
  destruct c as [|b suffix].
  { simpl. split; [by intros (? & ? & ? & _) | by intros ?%elem_of_nil]. }
  cbn [length Nat.eqb head]. change (drop 1 (b :: suffix)) with suffix.
  setoid_rewrite Prefix_take. split.
  - intros (b' & pre & [= <-] & [k Hk] & Hne & ->). subst suffix.
    apply list_elem_of_fmap. exists (length pre - 1)%nat. split.
    + destruct pre as [|t pre]; [done|].
      replace (length (t :: pre) - 1 + 1 + 1)%nat with (S (length (t :: pre)))
        by (simpl; lia).
      change (b :: (t :: pre) ++ k) with ((b :: t :: pre) ++ k).
      change (S (length (t :: pre))) with (length (b :: t :: pre)).
      by rewrite take_app_length.
    + apply elem_of_seq. rewrite length_app.
      destruct pre; [done | simpl; lia].
  - intros (j & -> & Hj)%list_elem_of_fmap. apply elem_of_seq in Hj.
    exists b, (take (j + 1) suffix). split; [done|]. split.
    { exists (drop (j + 1) suffix). by rewrite take_drop. }
    split.
    + destruct suffix; [simpl in Hj; lia|]. by rewrite Nat.add_1_r.
    + by rewrite (Nat.add_1_r (j + 1)).
Qed.

(** C3, as amended.  For a reachable quorum state and a sender not recorded
    before, [ReceiveEachPrefix] returns; it records the sender and adds its
    power to the total; it records the sender's support, with a nil
    signature, exactly under the keys of the base followed by each non-empty
    prefix of the suffix, the whole suffix included, and leaves every other
    entry as it was.  For a sender already recorded it changes nothing. *)
Theorem ReceiveEachPrefix_records (p : PowerTable.t) (q : quorumState.t)
    (sender : Z) (c : ECChain.t) :
  quorum_reachable p q →
  (sender ∈ quorumState.senders q →
   quorumState.ReceiveEachPrefix q sender c = Return q)
  ∧ (sender ∉ quorumState.senders q →
     ∃ q',
       quorumState.ReceiveEachPrefix q sender c = Return q'
       ∧ quorumState.senders q' = {[sender]} ∪ quorumState.senders q
       ∧ quorumState.sendersTotalPower q'
         = Int64.add (quorumState.sendersTotalPower q) (PowerTable.Get p sender).1
       ∧ quorumState.receivedJustification q' = quorumState.receivedJustification q
       ∧ (∀ key, sender ∈ signers_of q' key ↔ prefix_keys c key)
       ∧ (∀ key, prefix_keys c key →
            signatures_of q' key = <[sender := None]> (signatures_of q key)
            ∧ support q' key = Int64.add (support q key) (PowerTable.Get p sender).1)
       ∧ (∀ key, ¬ prefix_keys c key →
            quorumState.chainSupport_ q' !! key = quorumState.chainSupport_ q !! key)).
Proof.
  intros Hreach. destruct (reachable_signers p q Hreach) as [Hp Hsig].
  split; [apply ReceiveEachPrefix_known|]. intros Hnew.
  destruct (ReceiveEachPrefix_new q sender c Hnew Hsig)
    as (q' & Hrun & Hs & Ht & _ & Hj & Hin & Hout).
  rewrite Hp in *. exists q'. split; [exact Hrun|].
  split; [exact Hs|]. split; [exact Ht|]. split; [exact Hj|].
  assert (∀ key, prefix_keys c key →
            ∃ v, quorumState.chainSupport_ q' !! key
                 = Some (record_support q sender v (PowerTable.Get p sender).1 None)
                 ∧ ECChain.Key v = key) as Hrec.
  { intros key (j & -> & Hjs)%prefix_keys_loop%list_elem_of_fmap.
    eexists. split; [by apply Hin | done]. }
  split; [|split].
  - intros key. split.
    + intros Hsigned. destruct (decide (key ∈ (λ j, ECChain.Key (ECChain.Prefix c (j + 1)))
                          <$> seq 0 (length (ECChain.Suffix c)))) as [Hk|Hk].
      * by apply prefix_keys_loop.
      * exfalso. apply Hnew, (Hsig key). unfold signers_of in *.
        by rewrite (Hout key Hk) in Hsigned.
    + intros (v & Hv & <-)%Hrec. unfold signers_of. rewrite Hv.
      rewrite record_support_signers. apply elem_of_union_l, elem_of_singleton. done.
  - intros key (v & Hv & <-)%Hrec. unfold signatures_of at 1, support at 1.
    rewrite Hv. done.
  - intros key Hk. apply Hout. by rewrite <- prefix_keys_loop.
Qed.

Lemma ReceiveEachPrefix_records_witness :
  ∃ q',
    quorumState.ReceiveEachPrefix (quorumState.newQuorumState harness.table1) 1
      harness.chain3 = Return q'
    ∧ (∀ key, 1 ∈ signers_of q' key ↔ prefix_keys harness.chain3 key).
Proof.
  destruct (ReceiveEachPrefix_records harness.table1
              (quorumState.newQuorumState harness.table1) 1 harness.chain3)
    as [_ Hnew]; [constructor|].
  destruct Hnew as (q' & Hrun & _ & _ & _ & Hkeys & _).
  - simpl. apply not_elem_of_empty.
  - exists q'. split; [exact Hrun | exact Hkeys].
Defined.

(** C3 as stated fails.  On a base followed by one tipset the support is
    recorded under the key of the whole chain, whose suffix is not a strict
    prefix of itself (and nothing is recorded for the base alone, the empty
    strict prefix). *)
Lemma ReceiveEachPrefix_strict_prefix_counterexample :
  ∃ q',
    quorumState.ReceiveEachPrefix (quorumState.newQuorumState harness.table1) 1
      harness.chain2 = Return q'
    ∧ ¬ (∀ key, 1 ∈ signers_of q' key ↔ strict_prefix_keys harness.chain2 key).
Proof.
  destruct (ReceiveEachPrefix_records harness.table1
              (quorumState.newQuorumState harness.table1) 1 harness.chain2)
    as [_ Hnew]; [constructor|].
  destruct Hnew as (q' & Hrun & _ & _ & _ & Hkeys & _).
  { simpl. apply not_elem_of_empty. }
  exists q'. split; [exact Hrun|]. intros Hclaim.
  assert (prefix_keys harness.chain2 (ECChain.Key harness.chain2)) as Hwhole.
  { exists (harness.tipset 950), [harness.tipset 951]. done. }
  apply Hkeys, Hclaim in Hwhole as (b & pre & [= <-] & [[k Hk] Hne] & Heq).
  change (ECChain.Suffix harness.chain2) with [harness.tipset 951] in Hk, Hne.
  destruct pre as [|t pre]; [|destruct pre; simplify_eq/=].
  by apply (f_equal length) in Heq.
Qed.

(** ** The invariant of the quorum accumulator *)

Lemma power_of_set_range p (S : gset Z) :
  PowerTable_wf p →
  0 <= power_of p (elements S) <= PowerTable.ScaledTotal p.
Proof.
  intros Hwf. split; [by apply power_of_nonneg|].
  apply power_of_le_total; [done | apply NoDup_elements].
Qed.

Lemma ScaledTotal_in_range p x :
  PowerTable_wf p → 0 <= x <= PowerTable.ScaledTotal p → Int64.in_range x.
Proof.
  intros Hwf Hx. pose proof (wf_bound p Hwf) as Hb.
  unfold Int64.in_range, Int64.min_int, Int64.max_int in *. lia.
Qed.

(** Counting one more sender adds its power, exactly. *)
Lemma power_of_add_sender p (S : gset Z) sender :
  PowerTable_wf p → sender ∉ S →
  Int64.add (power_of p (elements S)) (PowerTable.Get p sender).1
  = power_of p (elements ({[sender]} ∪ S)).
Proof.
  intros Hwf Hnew.
  rewrite (power_of_perm p _ _ (elements_union_singleton S sender Hnew)).
  rewrite power_of_cons. rewrite Int64_add_exact; [lia|].
  apply (ScaledTotal_in_range p); [done|].
  pose proof (power_of_set_range p ({[sender]} ∪ S) Hwf) as Hr.
  rewrite (power_of_perm p _ _ (elements_union_singleton S sender Hnew)) in Hr.
  rewrite power_of_cons in Hr. lia.
Qed.

Lemma support_power_of p q key :
  quorum_inv p q → support q key = power_of p (elements (signers_of q key)).
Proof.
  intros Hinv. unfold support, signers_of.
  destruct (quorumState.chainSupport_ q !! key) as [cs|] eqn:Hcs.
  - by apply (inv_power p q Hinv key).
  - by rewrite elements_empty.
Qed.

Lemma record_support_inv p q sender value signature :
  PowerTable_wf p → quorum_inv p q →
  sender ∉ signers_of q (ECChain.Key value) →
  let rs := record_support q sender value (PowerTable.Get p sender).1 signature in
  chainSupport.power rs = power_of p (elements (dom (chainSupport.signatures rs)))
  ∧ chainSupport.hasStrongQuorum rs
    = IsStrongQuorum (chainSupport.power rs) (PowerTable.ScaledTotal p).
Proof.
  intros Hwf Hinv Hnew rs. split.
  - unfold rs. rewrite record_support_signers. unfold record_support. simpl.
    rewrite (support_power_of p) by done. by apply power_of_add_sender.
  - unfold rs, record_support. simpl. by rewrite (inv_table p q Hinv).
Qed.

Lemma quorum_inv_new p : quorum_inv p (quorumState.newQuorumState p).
Proof.
  split; simpl;
    first [ done
          | by rewrite elements_empty
          | intros key cs Hcs; by rewrite lookup_empty in Hcs ].
Qed.

(** Every reachable quorum state over a well-formed table satisfies the
    invariant. *)
Lemma reachable_inv p q :
  PowerTable_wf p → quorum_reachable p q → quorum_inv p q.
Proof.
  intros Hwf Hreach.
  induction Hreach as [|q sender value signature q' Hq IH Hrun
                       |q sender values q' Hq IH Hrun
                       |q value justification q' Hq IH Hrun].
  - apply quorum_inv_new.
  - destruct (reachable_signers p q Hq) as [Hp Hsig].
    destruct (decide (sender ∈ quorumState.senders q)) as [Hin|Hnew].
    { rewrite Receive_known in Hrun by done. by injection Hrun as <-. }
    assert (quorum_reachable p q') as Hq' by (by eapply reachable_Receive).
    destruct (reachable_signers p q' Hq') as [Hp' Hsig'].
    rewrite Receive_new in Hrun by done. injection Hrun as <-. cbv zeta in *.
    rewrite receiveSender_new in * by done. cbn [fst] in *.
    set (q1 := quorumState.mk _ _ _ _ _) in *.
    assert (quorum_inv p q1) as Hinv1.
    { destruct IH as [It Itot Isig Ipow Iq]. split; try done.
      - unfold q1. cbn [quorumState.sendersTotalPower quorumState.senders].
        rewrite Itot, Hp. by apply power_of_add_sender.
      - intros key cs Hcs. etrans; [by eapply Isig|]. apply union_subseteq_r. }
    assert (sender ∉ signers_of q1 (ECChain.Key value)) as Hnew1.
    { intros Hin. apply Hnew, (Hsig (ECChain.Key value)), Hin. }
    rewrite Hp in *.
    destruct (record_support_inv p q1 sender value signature Hwf Hinv1 Hnew1)
      as [Hpow Hquo].
    split.
    + done.
    + apply (inv_total p q1 Hinv1).
    + intros key cs Hcs. specialize (Hsig' key). unfold signers_of in Hsig'.
      by rewrite Hcs in Hsig'.
    + intros key cs Hcs. cbn in Hcs. rewrite lookup_insert in Hcs.
      destruct (decide (ECChain.Key value = key)) as [<-|Hne].
      * by injection Hcs as <-.
      * by apply (inv_power p q1 Hinv1 key).
    + intros key cs Hcs. cbn in Hcs. rewrite lookup_insert in Hcs.
      destruct (decide (ECChain.Key value = key)) as [<-|Hne].
      * by injection Hcs as <-.
      * by apply (inv_quorum p q1 Hinv1 key).
  - destruct (reachable_signers p q Hq) as [Hp Hsig].
    destruct (decide (sender ∈ quorumState.senders q)) as [Hin|Hnew].
    { rewrite ReceiveEachPrefix_known in Hrun by done. by injection Hrun as <-. }
    assert (quorum_reachable p q') as Hq' by (by eapply reachable_ReceiveEachPrefix).
    destruct (reachable_signers p q' Hq') as [Hp' Hsig'].
    destruct (ReceiveEachPrefix_new q sender values Hnew Hsig)
      as (q'' & Hrun' & Hs & Ht & _ & Hj & Hin & Hout).
    rewrite Hrun' in Hrun. injection Hrun as ->. rewrite Hp in *.
    assert (∀ key cs, quorumState.chainSupport_ q' !! key = Some cs →
              quorumState.chainSupport_ q !! key = Some cs
              ∨ ∃ v, cs = record_support q sender v (PowerTable.Get p sender).1 None
                     ∧ sender ∉ signers_of q (ECChain.Key v)) as Hcases.
    { intros key cs Hcs.
      destruct (decide (key ∈ (λ j, ECChain.Key (ECChain.Prefix values (j + 1)))
                          <$> seq 0 (length (ECChain.Suffix values)))) as [Hk|Hk].
      - apply list_elem_of_fmap in Hk as (j & -> & Hjs). right.
        rewrite (Hin j Hjs) in Hcs. injection Hcs as <-.
        eexists. split; [done|]. intros Hc.
        apply Hnew, (Hsig (ECChain.Key (ECChain.Prefix values (j + 1)))), Hc.
      - left. by rewrite <- (Hout key Hk). }
    split.
    + done.
    + rewrite Ht, Hs, (inv_total p q IH). by apply power_of_add_sender.
    + intros key cs Hcs. specialize (Hsig' key). unfold signers_of in Hsig'.
      by rewrite Hcs in Hsig'.
    + intros key cs Hcs. destruct (Hcases key cs Hcs) as [Hold|(v & -> & Hv)].
      * by apply (inv_power p q IH key).
      * by apply (record_support_inv p q sender v None).
    + intros key cs Hcs. destruct (Hcases key cs Hcs) as [Hold|(v & -> & Hv)].
      * by apply (inv_quorum p q IH key).
      * by apply (record_support_inv p q sender v None).
  - unfold quorumState.ReceiveJustification in Hrun.
    destruct justification as [j|]; [|done].
    destruct (quorumState.receivedJustification q !! ECChain.Key value);
      injection Hrun as <-; [done|].
    destruct IH. by split.
Qed.

(** In a reachable state over a well-formed table the support of a value
    is at most the power received, which is at most the scaled total. *)
Lemma reachable_power_bounds p q key :
  PowerTable_wf p → quorum_reachable p q →
  0 <= support q key <= quorumState.sendersTotalPower q
  ∧ quorumState.sendersTotalPower q <= PowerTable.ScaledTotal p.
Proof.
  intros Hwf Hreach. pose proof (reachable_inv p q Hwf Hreach) as Hinv.
  destruct (reachable_signers p q Hreach) as [_ Hsig].
  rewrite (support_power_of p q key Hinv), (inv_total p q Hinv).
  split; [split|].
  - by apply power_of_nonneg.
  - apply power_of_submseteq; [done|].
    apply NoDup_submseteq; [apply NoDup_elements|].
    intros x Hx. apply elem_of_elements. apply elem_of_elements in Hx.
    by apply (Hsig key).
  - by apply power_of_set_range.
Qed.

Lemma ScaledTotal_nonneg p : PowerTable_wf p → 0 <= PowerTable.ScaledTotal p.
Proof. intros Hwf. rewrite (wf_total p Hwf). apply sumZ_nonneg, (wf_nonneg p Hwf). Qed.

(** On the totals of a well-formed table [IsStrongQuorum] is the
    specification's comparison with the ceiling of two thirds. *)
Lemma IsStrongQuorum_wf p x :
  PowerTable_wf p →
  IsStrongQuorum x (PowerTable.ScaledTotal p) = true
  ↔ ceilDiv (2 * PowerTable.ScaledTotal p) 3 <= x.
Proof.
  intros Hwf. pose proof (ScaledTotal_nonneg p Hwf) as H0.
  pose proof (wf_bound p Hwf) as Hb.
  destruct (quorum_arithmetic_nonneg x (PowerTable.ScaledTotal p)) as [Hs _];
    [lia | lia |]. rewrite Hs by done. lia.
Qed.

(** C4.  [CouldReachStrongQuorumFor] holds exactly when the capped possible
    support is a strong quorum of the scaled total: the recorded power for
    the key (zero if absent), plus the power that has not voted, plus a
    third of the total when an adversary is counted, capped at the total,
    in signed 64-bit arithmetic.  In a reachable state over a well-formed
    table none of these operations wraps around, and the test is the
    comparison of the exact sum with the ceiling of two thirds of the
    total. *)
Theorem CouldReachStrongQuorumFor_spec (p : PowerTable.t) (q : quorumState.t)
    (key : list Z) (withAdversary : bool) :
  let total := PowerTable.ScaledTotal (quorumState.powerTable q) in
  (quorumState.CouldReachStrongQuorumFor q key withAdversary = true
   ↔ IsStrongQuorum
       (Z.min
          (Int64.add
             (Int64.add (support q key)
                (Int64.sub total (quorumState.sendersTotalPower q)))
             (if withAdversary then Int64.quo total 3 else 0))
          total)
       total = true)
  ∧ (PowerTable_wf p → quorum_reachable p q →
     quorumState.CouldReachStrongQuorumFor q key withAdversary = true
     ↔ ceilDiv (2 * total) 3
       <= Z.min
            (support q key + (total - quorumState.sendersTotalPower q)
             + (if withAdversary then total / 3 else 0))
            total).
Proof.
  intros total.
  assert (quorumState.CouldReachStrongQuorumFor q key withAdversary
          = IsStrongQuorum
              (Z.min
                 (Int64.add
                    (Int64.add (support q key)
                       (Int64.sub total (quorumState.sendersTotalPower q)))
                    (if withAdversary then Int64.quo total 3 else 0))
                 total)
              total) as Hcode.
  { unfold quorumState.CouldReachStrongQuorumFor, support, total.
    by destruct (quorumState.chainSupport_ q !! key). }
  split; [by rewrite Hcode|]. intros Hwf Hreach. rewrite Hcode.
  destruct (reachable_signers p q Hreach) as [Hp _].
  destruct (reachable_power_bounds p q key Hwf Hreach) as [[Hs0 Hsp] Hpt].
  unfold total in *. rewrite Hp in *.
  pose proof (wf_bound p Hwf) as Hb.
  pose proof (ScaledTotal_nonneg p Hwf) as H0.
  set (T := PowerTable.ScaledTotal p) in *.
  assert (0 <= T / 3 <= T) as Hthird.
  { split; [apply Z.div_pos; lia|]. apply Z.div_le_upper_bound; lia. }
  assert (∀ x, 0 <= x <= 2 * T → Int64.in_range x) as Hin.
  { intros x Hx. unfold Int64.in_range, Int64.min_int, Int64.max_int in *. lia. }
  rewrite (Int64_sub_exact T) by (apply Hin; lia).
  rewrite (Int64_add_exact (support q key)) by (apply Hin; lia).
  assert ((if withAdversary then Int64.quo T 3 else 0)
          = (if withAdversary then T / 3 else 0)) as ->.
  { destruct withAdversary; [|done].
    rewrite Int64_quo3_exact by (apply Hin; lia). apply Z.quot_div_nonneg; lia. }
  rewrite Int64_add_exact by (apply Hin; destruct withAdversary; lia).
  by apply IsStrongQuorum_wf.
Qed.

Lemma table1_wf : PowerTable_wf harness.table1.
Proof.
  split.
  - done.
  - intros id i. simpl. rewrite lookup_singleton_Some. split.
    + intros [<- <-]. by eexists.
    + intros (e & He & <-). destruct i as [|i]; simplify_eq/=. done.
  - simpl. repeat constructor. lia.
  - done.
  - done.
Qed.

Lemma CouldReachStrongQuorumFor_spec_witness :
  quorumState.CouldReachStrongQuorumFor
    (quorumState.newQuorumState harness.table1) (ECChain.Key harness.chain3) false
  = true
  ↔ ceilDiv (2 * 65535) 3 <= Z.min (0 + (65535 - 0) + 0) 65535.
Proof.
  apply (CouldReachStrongQuorumFor_spec harness.table1
           (quorumState.newQuorumState harness.table1)
           (ECChain.Key harness.chain3) false).
  - exact table1_wf.
  - constructor.
Defined.

(** ** Finding the smallest strong quorum *)

Lemma map_range_keys `{MapRange} {A} (m : gmap Z A) :
  (map_range m).*1 ≡ₚ elements (dom m).
Proof.
  apply NoDup_Permutation.
  - rewrite (map_range_perm m). apply NoDup_fst_map_to_list.
  - apply NoDup_elements.
  - intros x. rewrite (map_range_perm m), elem_of_elements, elem_of_dom.
    rewrite list_elem_of_fmap. split.
    + intros ([k a] & -> & Hin). apply elem_of_map_to_list in Hin. by exists a.
    + intros [a Ha]. exists (x, a). split; [done|]. by apply elem_of_map_to_list.
Qed.

(** The first loop returns the indexes of the signers, in the order given,
    when every signer is in the table, and panics otherwise. *)
Lemma signer_indices_Return p ids :
  (∀ id, id ∈ ids → is_Some (PowerTable.Lookup p !! id)) →
  quorumState.signer_indices p ids
  = Return (omap (λ id, PowerTable.Lookup p !! id) ids)
  ∧ length (omap (λ id, PowerTable.Lookup p !! id) ids) = length ids.
Proof.
  induction ids as [|id ids IH]; intros Hall; [done|].
  destruct (Hall id) as [i Hi]; [left|].
  destruct IH as [Hrun Hlen]; [intros id' Hin; apply Hall; by right|].
  cbn [quorumState.signer_indices omap list_omap]. rewrite Hi, Hrun.
  split; [done|]. simpl. by rewrite Hlen.
Qed.

Lemma signer_indices_Panic p ids :
  ¬ (∀ id, id ∈ ids → is_Some (PowerTable.Lookup p !! id)) →
  quorumState.signer_indices p ids = Panic "signer not found in power table".
Proof.
  induction ids as [|id ids IH]; intros Hnot.
  { exfalso. apply Hnot. intros id Hin. by apply elem_of_nil in Hin. }
  simpl. destruct (PowerTable.Lookup p !! id) as [i|] eqn:Hi; [|done].
  rewrite IH; [done|]. intros Hall. apply Hnot. intros id' Hin.
  apply elem_of_cons in Hin as [->|Hin]; [by eexists | by apply Hall].
Qed.

Lemma indices_power_app p l1 l2 :
  indices_power p (l1 ++ l2) = indices_power p l1 + indices_power p l2.
Proof. unfold indices_power. by rewrite fmap_app, sumZ_app. Qed.

Lemma indices_power_perm p l1 l2 : l1 ≡ₚ l2 → indices_power p l1 = indices_power p l2.
Proof. intros Hp. unfold indices_power. by rewrite Hp. Qed.

Lemma index_power_nonneg p i : PowerTable_wf p → 0 <= index_power p i.
Proof.
  intros Hwf. unfold index_power.
  destruct (PowerTable.ScaledPower p !! i) as [x|] eqn:Hx; simpl; [|lia].
  pose proof (wf_nonneg p Hwf) as Hall. rewrite Forall_lookup in Hall. by eapply Hall.
Qed.

Lemma indices_power_nonneg p l : PowerTable_wf p → 0 <= indices_power p l.
Proof.
  intros Hwf. apply sumZ_nonneg, Forall_fmap, Forall_forall.
  intros i _. by apply index_power_nonneg.
Qed.

Lemma take_S_snoc {A} (l : list A) n x :
  l !! n = Some x → take (S n) l = take n l ++ [x].
Proof. intros Hx. by apply take_S_r. Qed.

(** The second loop.  Started after the signers [pre], none of whose
    non-empty prefixes is a quorum, with the power and the signatures of
    [pre] accumulated, and with a quorum among all the signers, it returns
    the first prefix of the signers that is a quorum. *)
Lemma accumulate_quorum_first p cs signers : ∀ rest pre,
  PowerTable_wf p →
  signers = pre ++ rest →
  (∀ i, i ∈ signers → (i < length (PowerTable.Entries p))%nat) →
  indices_power p signers <= Int64.max_int →
  (pre = [] → rest ≠ []) →
  (pre ≠ [] → IsStrongQuorum (indices_power p pre) (PowerTable.ScaledTotal p) = false) →
  IsStrongQuorum (indices_power p signers) (PowerTable.ScaledTotal p) = true →
  ∃ n : nat,
    (length pre < n ≤ length signers)%nat
    ∧ quorumState.accumulate_quorum p cs signers rest (length pre)
        (indices_power p pre) (signature_at p cs <$> pre)
      = Return (QuorumResult.mk (take n signers)
                  (signature_at p cs <$> take n signers), true)
    ∧ IsStrongQuorum (indices_power p (take n signers)) (PowerTable.ScaledTotal p) = true
    ∧ ∀ m : nat, (length pre < m < n)%nat →
        IsStrongQuorum (indices_power p (take m signers)) (PowerTable.ScaledTotal p) = false.
Proof.
  induction rest as [|idx rest IH]; intros pre Hwf Hsplit Hidx Hmax Hne Hpre Hall.
  { rewrite app_nil_r in Hsplit. subst signers.
    destruct pre as [|i pre]; [by destruct Hne|]. rewrite Hpre in Hall; done. }
  assert (idx < length (PowerTable.Entries p))%nat as Hlt.
  { apply Hidx. subst signers. apply elem_of_app. right. left. }
  destruct (lookup_lt_is_Some_2 (PowerTable.Entries p) idx Hlt) as [entry Hentry].
  destruct (lookup_lt_is_Some_2 (PowerTable.ScaledPower p) idx) as [power Hpower];
    [by rewrite (wf_lengths p Hwf)|].
  assert (index_power p idx = power) as Hip by (unfold index_power; by rewrite Hpower).
  assert (signature_at p cs idx
          = mjoin (chainSupport.signatures cs !! PowerEntry.ID entry)) as Hsg
    by (unfold signature_at; by rewrite Hentry).
  assert (take (S (length pre)) signers = pre ++ [idx]) as Htake.
  { subst signers. rewrite (take_S_snoc _ _ idx).
    - by rewrite take_app_length.
    - by rewrite lookup_app_r, Nat.sub_diag by lia. }
  assert (Int64.add (indices_power p pre) power = indices_power p (pre ++ [idx])) as Hacc.
  { rewrite indices_power_app. unfold indices_power at 3. simpl. rewrite Hip.
    rewrite Int64_add_exact; [lia|].
    assert (indices_power p (pre ++ [idx]) <= indices_power p signers) as Hle.
    { subst signers. change (idx :: rest) with ([idx] ++ rest).
      rewrite app_assoc, (indices_power_app p (pre ++ [idx])).
      pose proof (indices_power_nonneg p rest Hwf). lia. }
    rewrite indices_power_app in Hle. unfold indices_power at 2 in Hle.
    simpl in Hle. rewrite Hip in Hle.
    pose proof (indices_power_nonneg p pre Hwf).
    pose proof (index_power_nonneg p idx Hwf).
    unfold Int64.in_range, Int64.min_int, Int64.max_int in *. lia. }
  cbn [quorumState.accumulate_quorum].
  destruct (Nat.leb_spec (length (PowerTable.Entries p)) idx) as [Hge|_]; [lia|].
  rewrite Hpower, Hentry, Hacc, <- Hsg.
  replace ((signature_at p cs <$> pre) ++ [signature_at p cs idx])
    with (signature_at p cs <$> (pre ++ [idx])) by (by rewrite fmap_app).
  destruct (IsStrongQuorum (indices_power p (pre ++ [idx])) (PowerTable.ScaledTotal p))
    eqn:Hq.
  - exists (S (length pre)). rewrite Nat.add_1_r, Htake.
    split; [subst signers; rewrite length_app; simpl; lia|].
    split; [done|]. split; [done|]. intros m Hm. lia.
  - destruct (IH (pre ++ [idx]) Hwf) as (n & Hn & Hrun & Hqn & Hmin).
    + by rewrite <- app_assoc.
    + done.
    + done.
    + intros Hnil. by destruct pre.
    + done.
    + done.
    + rewrite length_app in Hn, Hrun, Hmin. simpl in Hn, Hrun, Hmin.
      rewrite Nat.add_1_r in Hrun.
      exists n. split; [lia|]. split; [exact Hrun|]. split; [done|].
      intros m Hm. destruct (decide (m = S (length pre))) as [->|Hne'].
      * by rewrite Htake.
      * apply Hmin. lia.
Qed.

(** Every entry of a reachable accumulator has a signer. *)
Lemma reachable_signers_nonempty p q key cs :
  quorum_reachable p q →
  quorumState.chainSupport_ q !! key = Some cs →
  chainSupport.signatures cs ≠ ∅.
Proof.
  intros Hreach. revert key cs.
  induction Hreach as [|q sender value signature q' Hq IH Hrun
                       |q sender values q' Hq IH Hrun
                       |q value justification q' Hq IH Hrun]; intros key cs Hcs.
  - simpl in Hcs. by rewrite lookup_empty in Hcs.
  - destruct (reachable_signers p q Hq) as [_ Hsig].
    destruct (decide (sender ∈ quorumState.senders q)) as [Hin|Hnew].
    { rewrite Receive_known in Hrun by done. injection Hrun as <-. by eapply IH. }
    rewrite Receive_new in Hrun by done. injection Hrun as <-. cbv zeta in Hcs.
    rewrite receiveSender_new in Hcs by done. cbn in Hcs.
    rewrite lookup_insert in Hcs. destruct (decide (ECChain.Key value = key)).
    + injection Hcs as <-. unfold record_support. simpl. apply insert_non_empty.
    + by eapply IH.
  - destruct (reachable_signers p q Hq) as [_ Hsig].
    destruct (decide (sender ∈ quorumState.senders q)) as [Hin|Hnew].
    { rewrite ReceiveEachPrefix_known in Hrun by done. injection Hrun as <-. by eapply IH. }
    destruct (ReceiveEachPrefix_new q sender values Hnew Hsig)
      as (q'' & Hrun' & _ & _ & _ & _ & Hin & Hout).
    rewrite Hrun' in Hrun. injection Hrun as ->.
    destruct (decide (key ∈ (λ j, ECChain.Key (ECChain.Prefix values (j + 1)))
                        <$> seq 0 (length (ECChain.Suffix values)))) as [Hk|Hk].
    + apply list_elem_of_fmap in Hk as (j & -> & Hjs).
      rewrite (Hin j Hjs) in Hcs. injection Hcs as <-.
      unfold record_support. simpl. apply insert_non_empty.
    + rewrite (Hout key Hk) in Hcs. by eapply IH.
  - unfold quorumState.ReceiveJustification in Hrun.
    destruct justification as [j|]; [|done].
    destruct (quorumState.receivedJustification q !! ECChain.Key value);
      injection Hrun as <-; by eapply IH.
Qed.

(** Among the sublists of a list in descending order, none weighs more than
    the prefix of the same length. *)
Lemma sumZ_take_le (l : list Z) x k :
  Forall (λ y, y <= x) l → (k < length l)%nat →
  sumZ (take (S k) l) <= x + sumZ (take k l).
Proof.
  intros Hall Hk. destruct (lookup_lt_is_Some_2 l k Hk) as [y Hy].
  rewrite (take_S_r l k y Hy), sumZ_app. simpl.
  rewrite Forall_lookup in Hall. specialize (Hall k y Hy). simpl in Hall. lia.
Qed.

Lemma sumZ_sublist_take (s l : list Z) :
  s `sublist_of` l → StronglySorted (λ x y, y <= x) l →
  sumZ s <= sumZ (take (length s) l).
Proof.
  induction 1 as [|x s l Hsub IH|x s l Hsub IH]; intros Hsorted.
  - done.
  - apply StronglySorted_inv in Hsorted as [Hsorted _].
    specialize (IH Hsorted).
    change (x + sumZ s <= x + sumZ (take (length s) l)). lia.
  - apply StronglySorted_inv in Hsorted as [Hsorted Hall].
    specialize (IH Hsorted). destruct s as [|y s]; [done|].
    pose proof (sublist_length _ _ Hsub) as Hlen. cbn [length] in Hlen, IH.
    pose proof (sumZ_take_le l x (length s) Hall ltac:(lia)) as Hle.
    change (sumZ (y :: s) <= x + sumZ (take (length s) l)). lia.
Qed.

(** Over an ordered table whose rescaling keeps the order, the scaled power
    does not increase with the index. *)
Lemma index_power_antitone p i j :
  PowerTable_wf p → PowerTable_ordered p → PowerTable_scaling_monotone p →
  (i < j)%nat → index_power p j <= index_power p i.
Proof.
  intros Hwf Hord Hmono Hij. unfold index_power.
  destruct (PowerTable.ScaledPower p !! j) as [sj|] eqn:Hsj; simpl.
  - pose proof (lookup_lt_Some _ _ _ Hsj) as Hj.
    destruct (lookup_lt_is_Some_2 (PowerTable.ScaledPower p) i ltac:(lia)) as [si Hsi].
    rewrite Hsi. simpl. rewrite (wf_lengths p Hwf) in Hj.
    destruct (lookup_lt_is_Some_2 (PowerTable.Entries p) j Hj) as [ej Hej].
    destruct (lookup_lt_is_Some_2 (PowerTable.Entries p) i ltac:(lia)) as [ei Hei].
    apply (Hmono i j ei ej si sj); try done.
    destruct (Hord i j ei ej Hij Hei Hej) as [Hlt|[Heq _]]; lia.
  - by apply (index_power_nonneg p i).
Qed.

Lemma index_power_sorted p l :
  PowerTable_wf p → PowerTable_ordered p → PowerTable_scaling_monotone p →
  StronglySorted lt l →
  StronglySorted (λ x y, y <= x) (index_power p <$> l).
Proof.
  intros Hwf Hord Hmono. induction 1 as [|i l Hsorted IH Hall]; [constructor|].
  rewrite fmap_cons. constructor; [done|].
  apply Forall_fmap, Forall_forall. intros j Hj. simpl.
  rewrite Forall_forall in Hall. by apply index_power_antitone, Hall.
Qed.

Lemma StronglySorted_le_lt (l : list nat) :
  StronglySorted le l → NoDup l → StronglySorted lt l.
Proof.
  induction 1 as [|i l Hsorted IH Hall]; intros Hnd; [constructor|].
  apply NoDup_cons in Hnd as [Hi Hnd]. constructor; [by apply IH|].
  rewrite Forall_forall in Hall |- *. intros j Hj.
  specialize (Hall j Hj). assert (i ≠ j) by (intros ->; done). lia.
Qed.

Lemma StronglySorted_take {A} (R : relation A) (l : list A) n :
  StronglySorted R l → StronglySorted R (take n l).
Proof.
  intros Hsorted. rewrite <- (take_drop n l) in Hsorted.
  by apply StronglySorted_app_1_l in Hsorted.
Qed.

Lemma power_of_indices_power p ids :
  power_of p ids = indices_power p (omap (λ id, PowerTable.Lookup p !! id) ids).
Proof. exact (power_of_indices p ids). Qed.

(** [sort.Ints] makes the result independent of the order in which the
    signatures are visited. *)
Lemma FindStrongQuorumFor_deterministic (R1 R2 : MapRange) q key :
  @quorumState.FindStrongQuorumFor R1 q key = @quorumState.FindStrongQuorumFor R2 q key.
Proof.
  unfold quorumState.FindStrongQuorumFor.
  destruct (quorumState.chainSupport_ q !! key) as [cs|]; [|done].
  destruct (chainSupport.hasStrongQuorum cs); [|done]. cbn [negb].
  set (ids1 := (@map_range R1 _ _ _ _ (chainSupport.signatures cs)).*1).
  set (ids2 := (@map_range R2 _ _ _ _ (chainSupport.signatures cs)).*1).
  assert (ids1 ≡ₚ ids2) as Hperm.
  { unfold ids1, ids2. by rewrite !map_range_perm. }
  destruct (decide (Forall (λ id, is_Some (PowerTable.Lookup (quorumState.powerTable q) !! id))
                      ids1)) as [Hall|Hnot].
  - assert (Forall (λ id, is_Some (PowerTable.Lookup (quorumState.powerTable q) !! id))
              ids2) as Hall2 by (by rewrite <- Hperm).
    rewrite Forall_forall in Hall, Hall2.
    destruct (signer_indices_Return _ ids1 Hall) as [-> _].
    destruct (signer_indices_Return _ ids2 Hall2) as [-> _].
    cbn [mbind outcome_bind].
    assert (merge_sort Nat.le (omap (λ id, PowerTable.Lookup (quorumState.powerTable q) !! id) ids1)
            = merge_sort Nat.le (omap (λ id, PowerTable.Lookup (quorumState.powerTable q) !! id) ids2))
      as ->; [|done].
    apply (StronglySorted_unique Nat.le).
    + apply StronglySorted_merge_sort; apply _.
    + apply StronglySorted_merge_sort; apply _.
    + rewrite !merge_sort_Permutation. by rewrite Hperm.
  - assert (¬ Forall (λ id, is_Some (PowerTable.Lookup (quorumState.powerTable q) !! id))
              ids2) as Hnot2 by (by rewrite <- Hperm).
    rewrite Forall_forall in Hnot, Hnot2.
    by rewrite !signer_indices_Panic.
Qed.

Section find_quorum.
Context `{MapRange}.

(** Without a strong quorum for the key the search reports none. *)
Lemma FindStrongQuorumFor_none q key :
  quorumState.HasStrongQuorumFor q key = false →
  quorumState.FindStrongQuorumFor q key = Return (QuorumResult.zero, false).
Proof.
  unfold quorumState.HasStrongQuorumFor, quorumState.FindStrongQuorumFor.
  destruct (quorumState.chainSupport_ q !! key) as [cs|]; [|done]. by intros ->.
Qed.

(** C2, as amended.  Over a well-formed power table, in a reachable quorum
    state all of whose senders are participants of the table:
    without a strong quorum for the key the search returns ok=false; with
    one it returns ok=true and signers that are recorded signers of the key,
    in strictly ascending order of power-table index, with the signature
    recorded for each, whose cumulative scaled power is a strong quorum;
    when the table is ordered by descending power (ties by ascending actor)
    and the rescaling keeps that order, no non-empty set of recorded signers
    that is a strong quorum has fewer members (and no set at all when the
    scaled total is positive); and the result does not depend on the order
    in which the map of signatures is visited. *)
Theorem FindStrongQuorumFor_smallest (p : PowerTable.t) (q : quorumState.t)
    (key : list Z) :
  PowerTable_wf p →
  quorum_reachable p q →
  quorumState.senders q ⊆ dom (PowerTable.Lookup p) →
  (quorumState.HasStrongQuorumFor q key = false →
   quorumState.FindStrongQuorumFor q key = Return (QuorumResult.zero, false))
  ∧ (quorumState.HasStrongQuorumFor q key = true →
     ∃ (result : QuorumResult.t) (cs : chainSupport.t),
       quorumState.FindStrongQuorumFor q key = Return (result, true)
       ∧ quorumState.chainSupport_ q !! key = Some cs
       ∧ StronglySorted lt (QuorumResult.Signers result)
       ∧ (∀ i, i ∈ QuorumResult.Signers result →
            ∃ id, id ∈ signers_of q key ∧ PowerTable.Lookup p !! id = Some i)
       ∧ QuorumResult.Signatures result
         = signature_at p cs <$> QuorumResult.Signers result
       ∧ IsStrongQuorum (indices_power p (QuorumResult.Signers result))
           (PowerTable.ScaledTotal p) = true
       ∧ (PowerTable_ordered p → PowerTable_scaling_monotone p →
          ∀ ids : list Z,
            NoDup ids → (∀ id, id ∈ ids → id ∈ signers_of q key) →
            ids ≠ [] ∨ 0 < PowerTable.ScaledTotal p →
            IsStrongQuorum (power_of p ids) (PowerTable.ScaledTotal p) = true →
            (length (QuorumResult.Signers result) ≤ length ids)%nat))
  ∧ (∀ R : MapRange,
       @quorumState.FindStrongQuorumFor R q key = quorumState.FindStrongQuorumFor q key).
Proof.
  intros Hwf Hreach Hknown.
  split; [apply FindStrongQuorumFor_none|].
  split; [|intros R; apply FindStrongQuorumFor_deterministic].
  intros Hhas. unfold quorumState.HasStrongQuorumFor in Hhas.
  destruct (quorumState.chainSupport_ q !! key) as [cs|] eqn:Hcs; [|done].
  pose proof (reachable_inv p q Hwf Hreach) as Hinv.
  destruct (reachable_signers p q Hreach) as [Hp Hsig].
  unfold quorumState.FindStrongQuorumFor. rewrite Hcs, Hhas, Hp. cbn [negb].
  set (ids := (map_range (chainSupport.signatures cs)).*1).
  assert (ids ≡ₚ elements (dom (chainSupport.signatures cs))) as Hids
    by apply map_range_keys.
  assert (∀ id, id ∈ ids → id ∈ signers_of q key) as Hsigner.
  { intros id Hid. unfold signers_of. rewrite Hcs. apply elem_of_elements.
    by rewrite <- Hids. }
  assert (∀ id, id ∈ signers_of q key → is_Some (PowerTable.Lookup p !! id)) as Hlook.
  { intros id Hid. apply elem_of_dom, Hknown, (Hsig key), Hid. }
  destruct (signer_indices_Return p ids) as [-> Hlen];
    [intros id Hid; by apply Hlook, Hsigner|].
  cbn [mbind outcome_bind].
  set (idxs := omap (λ id, PowerTable.Lookup p !! id) ids) in *.
  set (sorted := merge_sort Nat.le idxs).
  assert (sorted ≡ₚ idxs) as Hsorted by apply merge_sort_Permutation.
  assert (NoDup ids) as Hnd by (rewrite Hids; apply NoDup_elements).
  assert (NoDup sorted) as Hnds by (rewrite Hsorted; by apply NoDup_indices).
  assert (∀ i, i ∈ sorted → ∃ id, id ∈ signers_of q key ∧ PowerTable.Lookup p !! id = Some i)
    as Hfrom.
  { intros i Hi. rewrite Hsorted in Hi.
    apply list_elem_of_omap in Hi as (id & Hid & Hi). eauto. }
  assert (indices_power p sorted = chainSupport.power cs) as Hpow.
  { rewrite (indices_power_perm p _ _ Hsorted). unfold idxs.
    rewrite <- power_of_indices_power.
    rewrite (power_of_perm p _ _ Hids).
    symmetry. by apply (inv_power p q Hinv key). }
  assert (IsStrongQuorum (indices_power p sorted) (PowerTable.ScaledTotal p) = true)
    as Hquorum by (by rewrite Hpow, <- (inv_quorum p q Hinv key cs Hcs)).
  assert (sorted ≠ []) as Hne.
  { intros Hnil. rewrite Hnil in Hsorted. apply Permutation_nil_l in Hsorted.
    assert (ids = []) as Hnil' by (apply length_zero_iff_nil; rewrite <- Hlen;
                                   by rewrite <- Hsorted).
    rewrite Hnil' in Hids. apply Permutation_nil_l in Hids. symmetry in Hids.
    apply elements_empty_inv in Hids.
    apply (reachable_signers_nonempty p q key cs Hreach Hcs).
    by apply dom_empty_inv_L, leibniz_equiv. }
  destruct (accumulate_quorum_first p cs sorted sorted [] Hwf) as (n & Hn & Hrun & Hqn & Hmin).
  { done. }
  { intros i Hi. destruct (Hfrom i Hi) as (id & _ & Hid).
    rewrite <- (wf_lengths p Hwf). by eapply Lookup_lt. }
  { rewrite Hpow, (inv_power p q Hinv key cs Hcs).
    pose proof (power_of_set_range p (dom (chainSupport.signatures cs)) Hwf).
    pose proof (wf_bound p Hwf). pose proof (ScaledTotal_nonneg p Hwf). lia. }
  { done. }
  { done. }
  { done. }
  simpl in Hrun, Hn. exists (QuorumResult.mk (take n sorted) (signature_at p cs <$> take n sorted)), cs.
  split; [exact Hrun|]. split; [done|]. cbn [QuorumResult.Signers QuorumResult.Signatures].
  split; [|split; [|split; [done|split; [done|]]]].
  - apply StronglySorted_take, StronglySorted_le_lt; [|done].
    apply StronglySorted_merge_sort; apply _.
  - intros i Hi. apply Hfrom. by apply (subseteq_take n sorted).
  - intros Hord Hmono S HndS HS Hnonempty HqS.
    rewrite length_take, Nat.min_l by lia.
    destruct (decide (n ≤ length S)%nat) as [|Hlt]; [done|]. exfalso.
    destruct (signer_indices_Return p S) as [_ HlenS];
      [intros id Hid; by apply Hlook, HS|].
    set (idxS := omap (λ id, PowerTable.Lookup p !! id) S) in *.
    assert (idxS ⊆+ sorted) as Hsub.
    { apply NoDup_submseteq; [by apply NoDup_indices|].
      intros i (id & Hid & Hi)%list_elem_of_omap. rewrite Hsorted.
      apply list_elem_of_omap. exists id. split; [|done].
      apply HS in Hid. unfold signers_of in Hid. rewrite Hcs in Hid.
      rewrite Hids. by apply elem_of_elements. }
    apply submseteq_sublist_r in Hsub as (L2 & Hperm & Hsl).
    assert (power_of p S <= indices_power p (take (length S) sorted)) as Hle.
    { rewrite power_of_indices_power. fold idxS.
      rewrite (indices_power_perm p _ _ Hperm). unfold indices_power.
      rewrite fmap_take.
      replace (length S) with (length (index_power p <$> L2))
        by (by rewrite length_fmap, <- Hperm, HlenS).
      apply sumZ_sublist_take; [by apply fmap_sublist|].
      apply index_power_sorted; try done.
      apply StronglySorted_le_lt; [|done].
      apply StronglySorted_merge_sort; apply _. }
    pose proof (IsStrongQuorum_mono _ _ _ Hle HqS) as Hqtake.
    destruct (decide (length S = 0)%nat) as [Hzero|Hpos].
    + apply length_zero_iff_nil in Hzero. subst S.
      destruct Hnonempty as [|Htot]; [done|].
      apply (IsStrongQuorum_wf p) in HqS; [|done].
      change (power_of p []) with 0 in HqS.
      pose proof (ceilDiv_spec (2 * PowerTable.ScaledTotal p) 3 ltac:(lia)). lia.
    + rewrite (Hmin (length S)) in Hqtake; [done | simpl; lia].
Qed.

End find_quorum.

Lemma receive_all_reachable p votes : ∀ q,
  quorum_reachable p q → quorum_reachable p (harness.receive_all q votes).
Proof.
  induction votes as [|vote votes IH]; intros q Hq; [done|].
  simpl. apply IH.
  destruct (quorumState.Receive q vote.1 vote.2 (Some [vote.1])) as [q'|msg] eqn:Hrun;
    [by eapply reachable_Receive | done].
Qed.

Lemma table3_wf : PowerTable_wf harness.table3.
Proof.
  split.
  - done.
  - intros id i. simpl. split.
    + intros Hl. apply lookup_insert_Some in Hl as [[<- <-]|[_ Hl]]; [by eexists|].
      apply lookup_insert_Some in Hl as [[<- <-]|[_ Hl]]; [by eexists|].
      apply lookup_singleton_Some in Hl as [<- <-]. by eexists.
    + intros (e & He & <-).
      destruct i as [|[|[|i]]]; simplify_eq/=; done.
  - simpl. repeat constructor; lia.
  - done.
  - done.
Qed.

Lemma table3_ordered : PowerTable_ordered harness.table3.
Proof.
  intros i j ei ej Hij Hi Hj.
  destruct i as [|[|[|i]]]; destruct j as [|[|[|j]]]; simplify_eq/=; lia.
Qed.

Lemma table3_scaling_monotone : PowerTable_scaling_monotone harness.table3.
Proof.
  intros i j ei ej si sj Hi Hj Hsi Hsj Hle.
  destruct i as [|[|[|i]]]; destruct j as [|[|[|j]]]; simplify_eq/=; lia.
Qed.

Lemma FindStrongQuorumFor_smallest_witness :
  ∃ result : QuorumResult.t,
    @quorumState.FindStrongQuorumFor harness.mapRange harness.voted3
      (ECChain.Key harness.chain2) = Return (result, true)
    ∧ StronglySorted lt (QuorumResult.Signers result)
    ∧ IsStrongQuorum (indices_power harness.table3 (QuorumResult.Signers result))
        (PowerTable.ScaledTotal harness.table3) = true
    ∧ ∀ ids : list Z,
        NoDup ids →
        (∀ id, id ∈ ids → id ∈ signers_of harness.voted3 (ECChain.Key harness.chain2)) →
        ids ≠ [] ∨ 0 < PowerTable.ScaledTotal harness.table3 →
        IsStrongQuorum (power_of harness.table3 ids)
          (PowerTable.ScaledTotal harness.table3) = true →
        (length (QuorumResult.Signers result) ≤ length ids)%nat.
Proof.
  destruct (@FindStrongQuorumFor_smallest harness.mapRange harness.table3
              harness.voted3 (ECChain.Key harness.chain2))
    as (_ & Hfound & _).
  - exact table3_wf.
  - apply receive_all_reachable. constructor.
  - apply (bool_decide_unpack
             (quorumState.senders harness.voted3
              ⊆ dom (PowerTable.Lookup harness.table3))).
    vm_compute. exact I.
  - destruct Hfound as (result & cs & Hrun & _ & Hsorted & _ & _ & Hq & Hmin).
    + vm_compute. reflexivity.
    + exists result. split; [exact Hrun|]. split; [exact Hsorted|].
      split; [exact Hq|]. apply Hmin.
      * exact table3_ordered.
      * exact table3_scaling_monotone.
Defined.

Example voted3_smallest_quorum :
  @quorumState.FindStrongQuorumFor harness.mapRange harness.voted3
    (ECChain.Key harness.chain2)
  = Return (QuorumResult.mk [0; 1]%nat [Some [7]; Some [4]], true).
Proof. vm_compute. reflexivity. Qed.

(** C2 as stated fails: a quorum state can hold the support of an actor that
    is not in the power table; the key then has a strong quorum, but the
    search panics instead of returning one. *)
Lemma FindStrongQuorumFor_unknown_signer_counterexample :
  quorum_reachable harness.table1 harness.voted_unknown
  ∧ quorumState.HasStrongQuorumFor harness.voted_unknown (ECChain.Key harness.chain2)
    = true
  ∧ @quorumState.FindStrongQuorumFor harness.mapRange harness.voted_unknown
      (ECChain.Key harness.chain2)
    = Panic "signer not found in power table".
Proof.
  split; [|split].
  - apply receive_all_reachable. constructor.
  - vm_compute. reflexivity.
  - vm_compute. reflexivity.
Qed.

(** ** The CONVERGE collector *)

Section converge.
Context `{TicketRank}.

(** After a successful [Receive] the sender is recorded. *)
Lemma convergeState_Receive_records c sender table value ticket justification c' :
  convergeState.Receive c sender table value ticket justification = (c', None) →
  sender ∈ convergeState.senders c'.
Proof.
  unfold convergeState.Receive.
  destruct (ECChain.IsZero value); [done|].
  destruct (bool_decide (justification = None)); [done|].
  destruct (bool_decide (sender ∈ convergeState.senders c)) eqn:Hin.
  { intros [= <-]. by apply bool_decide_eq_true in Hin. }
  destruct (convergeState.values c !! ECChain.Key value) as [v|].
  - destruct (f64_lt _ _); intros [= <-]; simpl;
      apply elem_of_union_l, elem_of_singleton; done.
  - intros [= <-]. simpl. apply elem_of_union_l, elem_of_singleton. done.
Qed.

(** C10.  [convergeState.Receive] returns an error, and leaves the state as
    it was, for a value that is bottom and for a nil justification; for any
    other message of a sender already received from it returns nil and
    leaves the state, so the stored values and their ranks, as it was. *)
Theorem convergeState_Receive_rejects (c : convergeState.t) (sender : Z)
    (table : PowerTable.t) (value : ECChain.t) (ticket : list Z)
    (justification : option Justification.t) :
  (ECChain.IsZero value = true →
   ∃ err, convergeState.Receive c sender table value ticket justification
          = (c, Some err))
  ∧ (justification = None →
     ∃ err, convergeState.Receive c sender table value ticket justification
            = (c, Some err))
  ∧ (ECChain.IsZero value = false → justification ≠ None →
     sender ∈ convergeState.senders c →
     convergeState.Receive c sender table value ticket justification = (c, None)).
Proof.
  unfold convergeState.Receive. split; [|split].
  - intros ->. eauto.
  - intros ->. destruct (ECChain.IsZero value); eauto.
  - intros -> Hj Hin.
    rewrite bool_decide_eq_false_2 by done. by rewrite bool_decide_eq_true_2.
Qed.

(** A second [Receive] of the same message changes nothing more. *)
Lemma convergeState_Receive_idempotent c sender table value ticket justification :
  let r := convergeState.Receive c sender table value ticket justification in
  convergeState.Receive r.1 sender table value ticket justification = (r.1, r.2).
Proof.
  intros r. destruct r as [c' [err|]] eqn:Hr; unfold r in *; simpl.
  - unfold convergeState.Receive in *.
    destruct (ECChain.IsZero value); [by injection Hr as <- <-|].
    destruct (bool_decide (justification = None)); [by injection Hr as <- <-|].
    destruct (bool_decide (sender ∈ convergeState.senders c)); [done|].
    destruct (convergeState.values c !! ECChain.Key value) as [v|]; [|done].
    by destruct (f64_lt _ _).
  - pose proof (convergeState_Receive_records _ _ _ _ _ _ _ Hr) as Hin.
    unfold convergeState.Receive in *.
    destruct (ECChain.IsZero value); [done|].
    destruct (bool_decide (justification = None)); [done|].
    by rewrite (bool_decide_eq_true_2 _ Hin).
Qed.

End converge.

Lemma convergeState_Receive_rejects_witness :
  let received :=
    (@convergeState.Receive _ harness.ticketRank convergeState.newConvergeState 1
       harness.table1 harness.chain2 []
       (Some (harness.justification PREPARE_PHASE harness.chain2))).1 in
  @convergeState.Receive _ harness.ticketRank received 1 harness.table1
    harness.chain3 [1; 2] (Some (harness.justification PREPARE_PHASE harness.chain3))
  = (received, None).
Proof.
  intros received.
  apply (@convergeState_Receive_rejects _ harness.ticketRank received 1
           harness.table1 harness.chain3 [1; 2]
           (Some (harness.justification PREPARE_PHASE harness.chain3))).
  - reflexivity.
  - discriminate.
  - apply (bool_decide_unpack (1 ∈ convergeState.senders received)).
    vm_compute. exact I.
Defined.

(** ** The codec of the messages *)

Section cbor_round_trip.
#[local] Existing Instances cbor.reader_ret cbor.reader_bind.

Lemma reader_bind_run {A B} (r : cbor.reader A) (f : A → cbor.reader B) input :
  (r ≫= f) input
  = match r input with
    | Some (a, rest) => f a rest
    | None => None
    end.
Proof. done. Qed.

Lemma from_be_snoc bs b : cbor.from_be (bs ++ [b]) = 256 * cbor.from_be bs + b.
Proof. unfold cbor.from_be. by rewrite foldl_app. Qed.

Lemma from_be_be_bytes n : ∀ v,
  cbor.from_be (be_bytes n v) = v `mod` 2 ^ (8 * Z.of_nat n).
Proof.
  induction n as [|n IH]; intros v; simpl be_bytes.
  - change (2 ^ (8 * Z.of_nat 0)) with 1. by rewrite Z.mod_1_r.
  - rewrite from_be_snoc, IH.
    change 255 with (Z.ones 8). rewrite Z.land_ones by lia.
    rewrite Z.shiftr_div_pow2 by lia.
    replace (8 * Z.of_nat (S n)) with (8 + 8 * Z.of_nat n) by lia.
    rewrite Z.pow_add_r by lia. rewrite (Z.rem_mul_r v (2 ^ 8)) by lia.
    change (2 ^ 8) with 256. lia.
Qed.

Lemma read_arg_be_bytes n least v rest :
  least <= v < 2 ^ (8 * Z.of_nat n) → 0 <= v →
  cbor.read_arg n least (be_bytes n v ++ rest) = Some (v, rest).
Proof.
  intros Hv Hpos. unfold cbor.read_arg.
  rewrite length_app, length_be_bytes.
  destruct (Nat.ltb_spec (n + length rest) n) as [?|_]; [lia|].
  rewrite take_app_length' by (by rewrite length_be_bytes).
  rewrite drop_app_length' by (by rewrite length_be_bytes).
  rewrite from_be_be_bytes, Z.mod_small by lia.
  by destruct (Z.ltb_spec v least); [lia|].
Qed.

Lemma CborReadHeader_write t l rest :
  0 <= l < 2 ^ 64 →
  cbor.CborReadHeader (cbor.WriteMajorTypeHeader t l ++ rest) = Some ((t, l), rest).
Proof.
  intros Hl. unfold cbor.WriteMajorTypeHeader.
  assert (∀ low, 0 <= low < 32 →
            (32 * t + low) `div` 32 = t ∧ (32 * t + low) `mod` 32 = low) as Hfirst.
  { intros low Hlow. split.
    - rewrite Z.mul_comm, Z.div_add_l by lia. rewrite Z.div_small by lia. lia.
    - rewrite Z.mul_comm, Z.add_comm, Z.mod_add by lia. by apply Z.mod_small. }
  destruct (Z.ltb_spec l 24) as [H24|H24].
  { simpl. destruct (Hfirst l) as [-> ->]; [lia|].
    by destruct (Z.ltb_spec l 24); [|lia]. }
  destruct (Z.ltb_spec l (2 ^ 8)) as [H8|H8].
  { cbn [app cbor.CborReadHeader]. destruct (Hfirst 24) as [-> ->]; [lia|].
    cbn [Z.ltb Z.eqb Z.compare Pos.compare Pos.compare_cont Pos.eqb].
    rewrite reader_bind_run, read_arg_be_bytes; [done| |lia].
    change (2 ^ (8 * Z.of_nat 1)) with (2 ^ 8). lia. }
  destruct (Z.ltb_spec l (2 ^ 16)) as [H16|H16].
  { cbn [app cbor.CborReadHeader]. destruct (Hfirst 25) as [-> ->]; [lia|].
    cbn [Z.ltb Z.eqb Z.compare Pos.compare Pos.compare_cont Pos.eqb].
    rewrite reader_bind_run, read_arg_be_bytes; [done| |lia].
    change (2 ^ (8 * Z.of_nat 2)) with (2 ^ 16). lia. }
  destruct (Z.ltb_spec l (2 ^ 32)) as [H32|H32].
  { cbn [app cbor.CborReadHeader]. destruct (Hfirst 26) as [-> ->]; [lia|].
    cbn [Z.ltb Z.eqb Z.compare Pos.compare Pos.compare_cont Pos.eqb].
    rewrite reader_bind_run, read_arg_be_bytes; [done| |lia].
    change (2 ^ (8 * Z.of_nat 4)) with (2 ^ 32). lia. }
  cbn [app cbor.CborReadHeader]. destruct (Hfirst 27) as [-> ->]; [lia|].
  cbn [Z.ltb Z.eqb Z.compare Pos.compare Pos.compare_cont Pos.eqb].
  rewrite reader_bind_run, read_arg_be_bytes; [done| |lia].
  change (2 ^ (8 * Z.of_nat 8)) with (2 ^ 64). lia.
Qed.

Lemma read_header_of_write t l rest :
  0 <= l < 2 ^ 64 →
  cbor.read_header_of t (cbor.WriteMajorTypeHeader t l ++ rest) = Some (l, rest).
Proof.
  intros Hl. unfold cbor.read_header_of.
  rewrite reader_bind_run, CborReadHeader_write by done. by rewrite Z.eqb_refl.
Qed.

Lemma ReadUint64_write v rest :
  0 <= v < 2 ^ 64 →
  cbor.ReadUint64 (cbor.WriteUint64 v ++ rest) = Some (v, rest).
Proof. apply read_header_of_write. Qed.

Lemma ReadInt64_write v rest :
  Int64.in_range v →
  cbor.ReadInt64 (cbor.WriteInt64 v ++ rest) = Some (v, rest).
Proof.
  unfold Int64.in_range, Int64.min_int, Int64.max_int. intros Hv.
  unfold cbor.ReadInt64, cbor.WriteInt64. rewrite reader_bind_run.
  destruct (Z.leb_spec 0 v) as [Hpos|Hneg].
  - rewrite CborReadHeader_write by lia. cbn [Z.eqb cbor.MajUnsignedInt].
    unfold Int64.max_int. by destruct (Z.ltb_spec (2 ^ 63 - 1) v); [lia|].
  - rewrite CborReadHeader_write by lia.
    change (cbor.MajNegativeInt =? cbor.MajUnsignedInt) with false.
    change (cbor.MajNegativeInt =? cbor.MajNegativeInt) with true. cbn iota.
    unfold Int64.max_int.
    destruct (Z.ltb_spec (2 ^ 63 - 1) (- v - 1)); [lia|].
    unfold mret, cbor.reader_ret. do 2 f_equal. lia.
Qed.

Lemma ReadByteArray_write maxlen b rest :
  Z.of_nat (length b) <= maxlen → Z.of_nat (length b) < 2 ^ 64 →
  cbor.ReadByteArray maxlen (cbor.WriteByteArray b ++ rest) = Some (b, rest).
Proof.
  intros Hmax Hlen. unfold cbor.ReadByteArray, cbor.WriteByteArray.
  rewrite <- (assoc_L (++)). rewrite reader_bind_run, read_header_of_write by lia.
  destruct (Z.ltb_spec maxlen (Z.of_nat (length b))); [lia|].
  rewrite Nat2Z.id, length_app.
  destruct (Nat.ltb_spec (length b + length rest) (length b)); [lia|].
  by rewrite take_app_length, drop_app_length.
Qed.

Lemma ReadCid_write c rest :
  cbor.Cid_fits c = true →
  cbor.ReadCid (cbor.WriteCid c ++ rest) = Some (c, rest).
Proof.
  unfold cbor.Cid_fits, Cid.ByteLen, CidMaxLen.
  intros [Hdefined Hlen%Nat.leb_le]%andb_true_iff.
  unfold cbor.ReadCid, cbor.WriteCid. rewrite <- (assoc_L (++)).
  rewrite reader_bind_run, read_header_of_write by lia. cbn [Z.eqb negb Pos.eqb].
  rewrite reader_bind_run, ReadByteArray_write.
  - unfold Cid.Bytes. by rewrite Hdefined.
  - unfold Cid.Bytes, CidMaxLen. simpl length. lia.
  - unfold Cid.Bytes. simpl length. lia.
Qed.

Lemma ReadItems_write {A} (read : cbor.reader A) (write : A → list Z)
    (fits : A → Prop) (l : list A) rest :
  (∀ a rest, fits a → read (write a ++ rest) = Some (a, rest)) →
  Forall fits l →
  cbor.ReadItems read (length l) (concat (write <$> l) ++ rest) = Some (l, rest).
Proof.
  intros Hread Hl. induction Hl as [|a l Ha Hl IH]; [done|].
  cbn [length cbor.ReadItems fmap list_fmap concat].
  rewrite <- (assoc_L (++)). rewrite reader_bind_run, Hread by done.
  by rewrite reader_bind_run, IH.
Qed.

Lemma ReadSlice_write {A} maxlen (read : cbor.reader A) (write : A → list Z)
    (fits : A → Prop) (l : list A) rest :
  (∀ a rest, fits a → read (write a ++ rest) = Some (a, rest)) →
  Forall fits l →
  Z.of_nat (length l) <= maxlen → Z.of_nat (length l) < 2 ^ 64 →
  cbor.ReadSlice maxlen read (cbor.WriteSlice write l ++ rest) = Some (l, rest).
Proof.
  intros Hread Hl Hmax Hlen. unfold cbor.ReadSlice, cbor.WriteSlice.
  rewrite <- (assoc_L (++)). rewrite reader_bind_run, read_header_of_write by lia.
  destruct (Z.ltb_spec maxlen (Z.of_nat (length l))); [lia|].
  rewrite Nat2Z.id. by eapply ReadItems_write.
Qed.

Lemma ReadStruct_write fields rest :
  0 <= fields < 2 ^ 64 →
  cbor.ReadStruct fields (cbor.WriteStruct fields ++ rest) = Some (tt, rest).
Proof.
  intros Hfields. unfold cbor.ReadStruct, cbor.WriteStruct.
  rewrite reader_bind_run, read_header_of_write by done. by rewrite Z.eqb_refl.
Qed.

Lemma Phase_of_number_number p : cbor.Phase_of_number (cbor.Phase_number p) = Some p.
Proof. by destruct p. Qed.

(** One field of a struct read back: the bytes of the field are at the
    front of the input. *)
Ltac read_field lemma :=
  rewrite <- ?(assoc_L (++)); rewrite reader_bind_run, lemma; cbn iota beta.

Lemma ReadTipSet_write ts rest :
  TipSet_typed ts → cbor.TipSet_fits ts = true →
  cbor.ReadTipSet (cbor.WriteTipSet ts ++ rest) = Some (ts, rest).
Proof.
  intros [Hepoch Hcommit] [Hkey%Nat.leb_le Hcid]%andb_true_iff.
  unfold cbor.ReadTipSet, cbor.WriteTipSet.
  read_field ReadStruct_write; [|lia].
  read_field ReadInt64_write; [|done].
  read_field ReadByteArray_write; [|lia|unfold TipsetKeyMaxLen, CidMaxLen in Hkey; lia].
  read_field ReadCid_write; [|done].
  read_field ReadByteArray_write; [|lia..].
  rewrite Hcommit. simpl. by destruct ts.
Qed.

Lemma ReadSupplementalData_write d rest :
  length (SupplementalData.Commitments d) = 32%nat →
  cbor.Cid_fits (SupplementalData.PowerTable d) = true →
  cbor.ReadSupplementalData (cbor.WriteSupplementalData d ++ rest) = Some (d, rest).
Proof.
  intros Hcommit Hcid.
  unfold cbor.ReadSupplementalData, cbor.WriteSupplementalData.
  read_field ReadStruct_write; [|lia].
  read_field ReadByteArray_write; [|lia..].
  read_field ReadCid_write; [|done].
  rewrite Hcommit. simpl. by destruct d.
Qed.

Lemma ReadPayload_write p rest :
  Payload_typed p → cbor.Payload_fits p = true →
  cbor.ReadPayload (cbor.WritePayload p ++ rest) = Some (p, rest).
Proof.
  intros (Hinstance & Hround & Hcommit & Htyped).
  unfold cbor.Payload_fits.
  intros [[Hcid Hlen%Nat.leb_le]%andb_true_iff Hfits]%andb_true_iff.
  unfold cbor.ReadPayload, cbor.WritePayload.
  read_field ReadStruct_write; [|lia].
  read_field ReadUint64_write; [|done].
  read_field ReadUint64_write; [|done].
  read_field ReadUint64_write; [|by destruct (Payload.Phase_ p)].
  rewrite Phase_of_number_number.
  read_field ReadSupplementalData_write; [|done..].
  rewrite reader_bind_run.
  rewrite (ReadSlice_write _ _ _
             (λ ts, TipSet_typed ts ∧ cbor.TipSet_fits ts = true)).
  - simpl. by destruct p.
  - intros ts rest' [? ?]. by apply ReadTipSet_write.
  - apply Forall_forall. intros ts Hts. split.
    + by eapply Forall_forall in Htyped.
    + rewrite forallb_forall in Hfits. by apply Hfits, list_elem_of_In.
  - lia.
  - unfold ChainMaxLen in Hlen. lia.
Qed.

Lemma ReadJustification_write j rest :
  Justification_typed j → cbor.Payload_fits (Justification.Vote j) = true →
  cbor.ReadJustification (cbor.WriteJustification j ++ rest) = Some (j, rest).
Proof.
  intros (Hvote & Hsigners & Hcount & Hsignature) Hfits.
  unfold cbor.ReadJustification, cbor.WriteJustification.
  read_field ReadStruct_write; [|lia].
  read_field ReadPayload_write; [|done..].
  rewrite reader_bind_run.
  assert (cbor.WriteSlice (λ i : nat, cbor.WriteUint64 (Z.of_nat i))
            (Justification.Signers j)
          = cbor.WriteSlice cbor.WriteUint64 (Z.of_nat <$> Justification.Signers j))
    as ->.
  { unfold cbor.WriteSlice. rewrite length_fmap. f_equal.
    by rewrite <- list_fmap_compose. }
  rewrite <- ?(assoc_L (++)).
  rewrite (ReadSlice_write _ _ _ (λ v, 0 <= v < 2 ^ 64)).
  - read_field ReadByteArray_write; [|lia..].
    simpl. rewrite <- list_fmap_compose.
    rewrite (list_fmap_ext _ id (Justification.Signers j)), list_fmap_id;
      [by destruct j|].
    intros i x _. simpl. apply Nat2Z.id.
  - intros v rest'. apply ReadUint64_write.
  - apply Forall_fmap. eapply Forall_impl; [exact Hsigners|]. simpl. lia.
  - rewrite length_fmap. lia.
  - by rewrite length_fmap.
Qed.

Lemma ReadPointer_write {A} (read : cbor.reader A) (write : A → list Z)
    (p : option A) rest :
  (∀ a, p = Some a →
     read (write a ++ rest) = Some (a, rest)
     ∧ ∃ first tail, write a = first :: tail ∧ first ≠ cbor.CborNull) →
  cbor.ReadPointer read (cbor.WritePointer write p ++ rest) = Some (p, rest).
Proof.
  intros Hp. destruct p as [a|]; [|done].
  destruct (Hp a eq_refl) as (Hread & first & tail & Hwrite & Hfirst).
  unfold cbor.ReadPointer, cbor.WritePointer. rewrite Hwrite. cbn [app].
  destruct (Z.eqb_spec first cbor.CborNull) as [?|_]; [done|].
  change (first :: tail ++ rest) with ((first :: tail) ++ rest).
  rewrite <- Hwrite. by rewrite reader_bind_run, Hread.
Qed.

Lemma ReadGMessage_write m rest :
  GMessage_valid m →
  cbor.ReadGMessage (cbor.WriteGMessage m ++ rest) = Some (m, rest).
Proof.
  intros [(Hsender & Hvote & Hsig & Hsiglen & Hticket & Hjust) Hfits].
  unfold cbor.GMessage_fits in Hfits.
  apply andb_true_iff in Hfits as [Hvotefits Hjustfits].
  unfold cbor.ReadGMessage, cbor.WriteGMessage.
  read_field ReadStruct_write; [|lia].
  read_field ReadUint64_write; [|done].
  read_field ReadPayload_write; [|done..].
  read_field ReadByteArray_write; [|lia..].
  read_field ReadByteArray_write; [|lia..].
  rewrite reader_bind_run, ReadPointer_write.
  - simpl. destruct m as [sender vote [signature|] ticket justification];
      simpl in *; [|done].
    rewrite bool_decide_eq_false_2; [done|]. by intros ->.
  - intros j Hj. rewrite Hj in Hjust, Hjustfits. split.
    + by apply ReadJustification_write.
    + by eexists _, _.
Qed.

End cbor_round_trip.

(** ** The Zstandard frame read back *)

Lemma from_le_le_bytes n v :
  0 <= v < 2 ^ (8 * Z.of_nat n) → zstd.from_le (zstd.le_bytes n v) = v.
Proof.
  intros Hv. unfold zstd.from_le, zstd.le_bytes.
  rewrite rev_involutive, from_be_be_bytes. by apply Z.mod_small.
Qed.

Lemma length_le_bytes n v : length (zstd.le_bytes n v) = n.
Proof. unfold zstd.le_bytes. by rewrite length_rev, length_be_bytes. Qed.

Lemma BlockMaxSize_eq : Z.of_nat zstd.BlockMaxSize = 131072.
Proof. unfold zstd.BlockMaxSize. by rewrite Z2Nat.id. Qed.

Lemma length_raw_blocks fuel : ∀ src,
  (length src + 3 ≤ length (zstd.raw_blocks fuel src))%nat.
Proof.
  induction fuel as [|fuel IH]; intros src; cbn [zstd.raw_blocks].
  - rewrite length_app. unfold zstd.block_header. rewrite length_le_bytes. lia.
  - destruct (Nat.leb_spec (length src) zstd.BlockMaxSize) as [Hfits|Hmore].
    + rewrite length_app. unfold zstd.block_header. rewrite length_le_bytes. lia.
    + rewrite !length_app. unfold zstd.block_header. rewrite length_le_bytes.
      specialize (IH (drop zstd.BlockMaxSize src)).
      rewrite length_drop in IH. rewrite length_take. lia.
Qed.

(** One raw block read back. *)
Lemma read_blocks_raw fuel limit content last data rest :
  (length data ≤ zstd.BlockMaxSize)%nat →
  Z.of_nat (length (content ++ data)) <= limit →
  zstd.read_blocks (S fuel) limit content
    (zstd.block_header last 0 (Z.of_nat (length data)) ++ data ++ rest)
  = if last then Some (content ++ data, rest)
    else zstd.read_blocks fuel limit (content ++ data) rest.
Proof.
  intros Hsize Hlimit. cbn [zstd.read_blocks]. unfold zstd.block_header.
  rewrite length_app, length_le_bytes.
  destruct (Nat.ltb_spec (3 + length (data ++ rest)) 3) as [?|_]; [lia|].
  rewrite take_app_length' by (by rewrite length_le_bytes).
  rewrite drop_app_length' by (by rewrite length_le_bytes).
  set (bit := if last then 1 else 0).
  assert (0 <= bit <= 1) as Hbit by (unfold bit; destruct last; lia).
  pose proof BlockMaxSize_eq as Hmax.
  rewrite from_le_le_bytes
    by (change (2 ^ (8 * Z.of_nat 3)) with 16777216; lia).
  assert ((8 * Z.of_nat (length data) + 2 * 0 + bit) `mod` 2 = bit) as ->.
  { replace (8 * Z.of_nat (length data) + 2 * 0 + bit)
      with (bit + 4 * Z.of_nat (length data) * 2) by lia.
    rewrite Z.mod_add by lia. apply Z.mod_small. lia. }
  assert ((8 * Z.of_nat (length data) + 2 * 0 + bit) `div` 2
          = 4 * Z.of_nat (length data)) as ->.
  { replace (8 * Z.of_nat (length data) + 2 * 0 + bit)
      with (bit + 4 * Z.of_nat (length data) * 2) by lia.
    rewrite Z.div_add by lia. rewrite Z.div_small by lia. lia. }
  assert ((4 * Z.of_nat (length data)) `mod` 4 = 0) as ->.
  { rewrite Z.mul_comm. apply Z.mod_mul. lia. }
  assert ((8 * Z.of_nat (length data) + 2 * 0 + bit) `div` 8
          = Z.of_nat (length data)) as ->.
  { replace (8 * Z.of_nat (length data) + 2 * 0 + bit)
      with (bit + Z.of_nat (length data) * 8) by lia.
    rewrite Z.div_add by lia. rewrite Z.div_small by lia. lia. }
  rewrite Nat2Z.id. cbn [Z.eqb].
  destruct (Nat.ltb_spec zstd.BlockMaxSize (length data)) as [?|_]; [lia|].
  rewrite length_app.
  destruct (Nat.ltb_spec (length data + length rest) (length data)) as [?|_]; [lia|].
  rewrite take_app_length, drop_app_length.
  destruct (Z.ltb_spec limit (Z.of_nat (length (content ++ data)))) as [?|_]; [lia|].
  unfold bit. by destruct last.
Qed.

Lemma read_blocks_raw_blocks fuel : ∀ more limit content src rest,
  (length src ≤ fuel)%nat →
  Z.of_nat (length (content ++ src)) <= limit →
  zstd.read_blocks (S (fuel + more)) limit content (zstd.raw_blocks fuel src ++ rest)
  = Some (content ++ src, rest).
Proof.
  induction fuel as [|fuel IH]; intros more limit content src rest Hfuel Hlimit;
    cbn [zstd.raw_blocks].
  - rewrite <- (assoc_L (++)). rewrite read_blocks_raw; [done| |done].
    lia.
  - destruct (Nat.leb_spec (length src) zstd.BlockMaxSize) as [Hfits|Hmore].
    + rewrite <- (assoc_L (++)). by rewrite read_blocks_raw.
    + rewrite <- !(assoc_L (++)).
      assert (length (take zstd.BlockMaxSize src) = zstd.BlockMaxSize) as Htake
        by (rewrite length_take; lia).
      rewrite <- Htake at 1.
      rewrite read_blocks_raw.
      * change (S fuel + more)%nat with (S (fuel + more)).
        rewrite IH.
        -- by rewrite <- (assoc_L (++)), take_drop.
        -- rewrite length_drop. pose proof BlockMaxSize_eq. lia.
        -- by rewrite <- (assoc_L (++)), take_drop.
      * lia.
      * rewrite length_app in *. lia.
Qed.

(** A frame written by [EncodeAll] is read back by [DecodeAll] when its
    content is within the limit. *)
Lemma zstd_DecodeAll_EncodeAll limit src :
  Z.of_nat (length src) <= limit →
  Z.of_nat (length src) < 2 ^ 64 →
  zstd.DecodeAll limit (zstd.EncodeAll src []) [] = (src, None).
Proof.
  intros Hlimit Hsize. unfold zstd.EncodeAll, zstd.DecodeAll.
  cbn [app zstd.magic]. unfold zstd.read_frame.
  cbn [take drop zstd.magic]. rewrite bool_decide_eq_true_2 by done.
  cbn [negb]. unfold zstd.descriptor.
  change (224 `div` 64) with 3. change ((224 `div` 32) `mod` 2) with 1.
  change ((224 `div` 8) `mod` 2) with 0. change ((224 `div` 4) `mod` 2) with 0.
  change (224 `mod` 4) with 0. cbn [Z.eqb Pos.eqb negb orb].
  change (Z.to_nat 0) with 0%nat. cbn [Nat.add drop].
  rewrite length_app, length_le_bytes.
  destruct (Nat.ltb_spec (8 + length (zstd.raw_blocks (length src) src)) 8)
    as [?|_]; [lia|].
  rewrite drop_0. rewrite take_app_length' by (by rewrite length_le_bytes).
  rewrite drop_app_length' by (by rewrite length_le_bytes).
  rewrite from_le_le_bytes by (change (2 ^ (8 * Z.of_nat 8)) with (2 ^ 64); lia).
  rewrite Z.add_0_r. cbn [Nat.eqb negb andb].
  destruct (Z.ltb_spec limit (Z.of_nat (length src))) as [?|_]; [lia|].
  pose proof (length_raw_blocks (length src) src) as Hlen.
  destruct (length (zstd.raw_blocks (length src) src)) as [|n] eqn:Hn; [lia|].
  replace n with (length src + (n - length src))%nat by lia.
  rewrite <- (app_nil_r (zstd.raw_blocks (length src) src)).
  rewrite read_blocks_raw_blocks by (simpl; lia). cbn [app].
  rewrite Z.eqb_refl. cbn [negb].
  by destruct (Z.ltb_spec limit (Z.of_nat (length src))) as [?|_]; [lia|].
Qed.

(** ** The codecs on the messages *)

Section codec_contracts.
Context {T : Type} `{encoding.CBORMarshalUnmarshaler T} `{encoding.Zstd}.

(** The zstd codec decodes what it encoded when the CBOR codec does, the CBOR
    is within the limit of the decoder, and the decoder reads back the frame
    of the encoder. *)
Lemma ZSTD_Decode_Encode (m t0 : T) (out : list Z) :
  encoding.MarshalCBOR m = (out, None) →
  encoding.UnmarshalCBOR t0 out = (m, None) →
  Z.of_nat (length out) <= encoding.maxDecompressedSize →
  encoding.DecodeAll encoding.maxDecompressedSize (encoding.EncodeAll out []) []
  = (out, None) →
  encoding.ZSTD_Encode m = (encoding.EncodeAll out [], None)
  ∧ encoding.ZSTD_Decode (encoding.EncodeAll out []) t0 = (m, None).
Proof.
  intros Hout Hback Hsize Hframe.
  unfold encoding.ZSTD_Encode, encoding.ZSTD_Decode, encoding.CBOR_Encode,
    encoding.CBOR_Decode.
  rewrite Hout.
  destruct (Z.ltb_spec encoding.maxDecompressedSize (Z.of_nat (length out)));
    [lia|].
  split; [done|]. by rewrite Hframe.
Qed.

(** An encoding above 1 MiB is refused by the zstd codec. *)
Lemma ZSTD_Encode_too_large (m : T) :
  encoding.maxDecompressedSize < Z.of_nat (length (encoding.CBOR_Encode m).1) →
  ∃ err, encoding.ZSTD_Encode m = ([], Some err).
Proof.
  intros Hbig. unfold encoding.ZSTD_Encode.
  destruct (encoding.CBOR_Encode m) as [out err]. simpl in Hbig.
  destruct (Z.ltb_spec encoding.maxDecompressedSize (Z.of_nat (length out)));
    [eauto | lia].
Qed.

End codec_contracts.

Lemma MarshalCBOR_valid m :
  GMessage_valid m → encoding.MarshalCBOR m = (cbor.WriteGMessage m, None).
Proof. intros [_ Hfits]. simpl. by rewrite Hfits. Qed.

Lemma UnmarshalCBOR_valid m t0 :
  GMessage_valid m → encoding.UnmarshalCBOR t0 (cbor.WriteGMessage m) = (m, None).
Proof.
  intros Hvalid. simpl.
  rewrite <- (app_nil_r (cbor.WriteGMessage m)). by rewrite ReadGMessage_write.
Qed.

(** C9.  For every valid message: the CBOR codec encodes it and decodes the
    bytes to the message; when the CBOR is at most 1 MiB the zstd codec
    encodes it and decodes the frame to the message, with the frame as
    modelled and with any encoder and decoder where the decoder, made with
    the limit of 1 MiB, reads back the frames of the encoder whose content is
    within that limit; and when the CBOR is above 1 MiB the zstd codec
    refuses to encode. *)
Theorem message_codec_round_trip (m t0 : GMessage.t) :
  GMessage_valid m →
  (∃ v, encoding.CBOR_Encode m = (v, None)
        ∧ encoding.CBOR_Decode v t0 = (m, None))
  ∧ (Z.of_nat (length (encoding.CBOR_Encode m).1) <= encoding.maxDecompressedSize →
     (∃ v, @encoding.ZSTD_Encode _ cbor.GMessage_cbor zstd.codec m = (v, None)
           ∧ @encoding.ZSTD_Decode _ cbor.GMessage_cbor zstd.codec v t0 = (m, None))
     ∧ ∀ library : encoding.Zstd,
         (∀ src, Z.of_nat (length src) <= encoding.maxDecompressedSize →
            @encoding.DecodeAll library encoding.maxDecompressedSize
              (@encoding.EncodeAll library src []) []
            = (src, None)) →
         ∃ v, @encoding.ZSTD_Encode _ cbor.GMessage_cbor library m = (v, None)
              ∧ @encoding.ZSTD_Decode _ cbor.GMessage_cbor library v t0 = (m, None))
  ∧ (encoding.maxDecompressedSize < Z.of_nat (length (encoding.CBOR_Encode m).1) →
     ∃ err, @encoding.ZSTD_Encode _ cbor.GMessage_cbor zstd.codec m
            = ([], Some err)).
Proof.
  intros Hvalid.
  pose proof (MarshalCBOR_valid m Hvalid) as Hout.
  pose proof (UnmarshalCBOR_valid m t0 Hvalid) as Hback.
  assert (encoding.CBOR_Encode m = (cbor.WriteGMessage m, None)) as Hencode
    by (unfold encoding.CBOR_Encode; by rewrite Hout).
  split; [by exists (cbor.WriteGMessage m)|].
  split; [|apply ZSTD_Encode_too_large].
  rewrite Hencode. cbn [fst]. intros Hsize. split.
  - eexists. apply (ZSTD_Decode_Encode m t0 _ Hout Hback Hsize).
    apply zstd_DecodeAll_EncodeAll; [done|].
    unfold encoding.maxDecompressedSize in Hsize.
    change (Z.shiftl 1 20) with 1048576 in Hsize. lia.
  - intros library Hframe. eexists.
    apply (ZSTD_Decode_Encode m t0 _ Hout Hback Hsize). by apply Hframe.
Qed.

Lemma message_codec_round_trip_witness :
  (∃ v, encoding.CBOR_Encode wire_message = (v, None)
        ∧ encoding.CBOR_Decode v cbor.GMessage_zero = (wire_message, None))
  ∧ (∃ v, @encoding.ZSTD_Encode _ cbor.GMessage_cbor zstd.codec wire_message
          = (v, None)
          ∧ @encoding.ZSTD_Decode _ cbor.GMessage_cbor zstd.codec v
              cbor.GMessage_zero
            = (wire_message, None)).
Proof.
  destruct (message_codec_round_trip wire_message cbor.GMessage_zero)
    as (Hcbor & Hzstd & _).
  - split; [|reflexivity].
    unfold GMessage_typed, Justification_typed, Payload_typed, TipSet_typed,
      Int64.in_range, Int64.min_int, Int64.max_int.
    simpl. repeat (split || constructor); try lia; done.
  - split; [exact Hcbor|].
    assert (Z.of_nat (length (encoding.CBOR_Encode wire_message).1)
            <= encoding.maxDecompressedSize) as Hsize
      by (vm_compute; discriminate).
    destruct (Hzstd Hsize) as [Hframe _]. exact Hframe.
Defined.

(** ** The instance after termination *)

Section terminated.
Context `{TicketRank} `{MapRange} `{Aggregate}.

(** C8, as amended.  Once the phase is TERMINATED, a message delivered by
    [Receive] or [ReceiveMany] is answered with the error
    ErrReceivedAfterTermination and an alarm delivered by [ReceiveAlarm] is
    a no-op that returns nil; all three leave the instance and its host as
    they were. *)
Theorem after_termination (s : instance.state) (msg : GMessage.t)
    (msgs : list GMessage.t) :
  instance.Phase_ (instance.self s) = TERMINATED_PHASE →
  instance.Receive msg s = (Return (Some ErrReceivedAfterTermination), s)
  ∧ instance.ReceiveMany msgs s = (Return (Some ErrReceivedAfterTermination), s)
  ∧ instance.ReceiveAlarm s = (Return None, s).
Proof.
  intros Hphase. split; [|split].
  - unfold instance.Receive, instance.terminated, instance.get.
    unfold mbind, instance.M_bind, mret, instance.M_ret. by rewrite Hphase.
  - unfold instance.ReceiveMany, instance.terminated, instance.get.
    unfold mbind, instance.M_bind, mret, instance.M_ret. by rewrite Hphase.
  - unfold instance.ReceiveAlarm, instance.tryCurrentPhase, instance.get.
    unfold mbind, instance.M_bind, mret, instance.M_ret. by rewrite Hphase.
Qed.

End terminated.

Section after_termination_examples.
#[local] Existing Instances harness.float harness.ticketRank harness.mapRange
  harness.aggregate.

Lemma after_termination_witness :
  instance.Receive (harness.message 1 DECIDE_PHASE harness.chain3 None)
    harness.decided
  = (Return (Some ErrReceivedAfterTermination), harness.decided)
  ∧ instance.ReceiveMany [harness.message 1 DECIDE_PHASE harness.chain3 None]
      harness.decided
    = (Return (Some ErrReceivedAfterTermination), harness.decided)
  ∧ instance.ReceiveAlarm harness.decided = (Return None, harness.decided).
Proof.
  apply (after_termination harness.decided). vm_compute. reflexivity.
Defined.

(** C8 as stated fails for alarms: on the terminated instance of the happy
    path [ReceiveAlarm] returns nil, not an error. *)
Lemma ReceiveAlarm_after_termination_counterexample :
  instance.Phase_ (instance.self harness.decided) = TERMINATED_PHASE
  ∧ ¬ ∃ err : error,
        (instance.ReceiveAlarm harness.decided).1 = Return (Some err).
Proof.
  split; [vm_compute; reflexivity|]. intros [err Herr].
  assert ((instance.ReceiveAlarm harness.decided).1 = Return None) as Hnil
    by (vm_compute; reflexivity).
  rewrite Hnil in Herr. discriminate Herr.
Qed.

End after_termination_examples.

(** ** Relations every method of the instance preserves *)

Section preserves.
Context `{TicketRank} `{MapRange} `{Aggregate}.
Context (R : relation instance.state) `{!PreOrder R}.

(** The relation does not look at the host. *)
Hypothesis R_host : ∀ s h, R s (instance.mkState (instance.self s) h).

Lemma run_bind {A B} (m : instance.M A) (f : A → instance.M B) s :
  (@mbind _ instance.M_bind _ _ f m) s
  = match m s with
    | (Return a, s') => f a s'
    | (Panic msg, s') => (Panic msg, s')
    end.
Proof. done. Qed.

Lemma preserves_ret {A} (a : A) : preserves R (@mret _ instance.M_ret _ a).
Proof. intros s. simpl. reflexivity. Qed.

Lemma preserves_bind {A B} (m : instance.M A) (f : A → instance.M B) :
  preserves R m → (∀ a, preserves R (f a)) →
  preserves R (@mbind _ instance.M_bind _ _ f m).
Proof.
  intros Hm Hf s. rewrite run_bind. specialize (Hm s).
  destruct (m s) as [[a|msg] s']; simpl in *; [|done].
  etrans; [exact Hm | apply Hf].
Qed.

Lemma preserves_get : preserves R instance.get.
Proof. intros s. simpl. reflexivity. Qed.

Lemma preserves_panic {A} msg : preserves R (@instance.panic _ A msg).
Proof. intros s. simpl. reflexivity. Qed.

Lemma preserves_lift {A} (o : outcome A) : preserves R (instance.lift o).
Proof. intros s. simpl. reflexivity. Qed.

Lemma preserves_host_Time : preserves R instance.host_Time.
Proof. intros s. simpl. reflexivity. Qed.

Lemma preserves_emit e : preserves R (instance.emit e).
Proof. intros s. simpl. apply R_host. Qed.

Lemma preserves_skip : preserves R instance.skip.
Proof. apply preserves_ret. Qed.

Lemma preserves_modify f :
  (∀ s, R s (instance.mkState (f (instance.self s)) (instance.host s))) →
  preserves R (instance.modify f).
Proof. intros Hf s. apply Hf. Qed.

End preserves.

(** ** Monotonic candidates *)

Create HintDb grows discriminated.

Section candidates.
Context `{TicketRank} `{MapRange} `{Aggregate}.

#[local] Instance candidates_grow_preorder : PreOrder candidates_grow.
Proof.
  split.
  - intros s. by split.
  - intros s1 s2 s3 [Hi1 Hc1] [Hi2 Hc2]. split; [congruence | by etrans].
Qed.

Lemma candidates_grow_host s h :
  candidates_grow s (instance.mkState (instance.self s) h).
Proof. by split. Qed.

(** An assignment that keeps the input and only adds candidates. *)
Lemma grows_modify f :
  (∀ i, instance.input (f i) = instance.input i
        ∧ instance.candidates i ⊆ instance.candidates (f i)) →
  preserves candidates_grow (instance.modify f).
Proof. intros Hf. apply preserves_modify. intros s. apply Hf. Qed.

(** One step of the proof that a method only adds candidates: through the
    sequencing, the branches and the primitive operations, and to the
    lemmas already proved for the methods it calls. *)
Ltac grows_step :=
  match goal with
  | |- preserves _ _ => assumption
  | |- preserves _ _ => solve [auto with grows]
  | |- preserves _ (mret _) => apply (preserves_ret candidates_grow)
  | |- preserves _ (mbind _ _) => apply (preserves_bind candidates_grow); [|intros]
  | |- preserves _ instance.get => apply (preserves_get candidates_grow)
  | |- preserves _ (instance.panic _) => apply (preserves_panic candidates_grow)
  | |- preserves _ (instance.lift _) => apply (preserves_lift candidates_grow)
  | |- preserves _ instance.host_Time => apply (preserves_host_Time candidates_grow)
  | |- preserves _ (instance.emit _) =>
      apply (preserves_emit candidates_grow candidates_grow_host)
  | |- preserves _ instance.skip => apply (preserves_skip candidates_grow)
  | |- preserves _ (instance.modify _) =>
      apply grows_modify; intros; split; [reflexivity | simpl; set_solver]
  | |- preserves _ (match ?x with _ => _ end) => destruct x
  | |- preserves _ (let _ := _ in _) => cbv zeta
  end.

Ltac grows := repeat grows_step.

Lemma getRound_grows r :
  preserves candidates_grow (instance.getRound r).
Proof. unfold instance.getRound. grows. Qed.
#[local] Hint Resolve getRound_grows : grows.

Lemma store_round_grows r round :
  preserves candidates_grow (instance.store_round r round).
Proof. unfold instance.store_round. grows. Qed.
#[local] Hint Resolve store_round_grows : grows.

Lemma terminated_grows :
  preserves candidates_grow (instance.terminated).
Proof. unfold instance.terminated. grows. Qed.
#[local] Hint Resolve terminated_grows : grows.

Lemma isCandidate_grows c :
  preserves candidates_grow (instance.isCandidate c).
Proof. unfold instance.isCandidate. grows. Qed.
#[local] Hint Resolve isCandidate_grows : grows.

(** The one assignment to the candidates: it adds a key to those present. *)
Lemma addCandidate_grows c : preserves candidates_grow (instance.addCandidate c).
Proof.
  intros s. unfold instance.addCandidate, instance.get, instance.modify.
  unfold mbind, instance.M_bind, mret, instance.M_ret.
  destruct (negb _); simpl; [|done]. split; [done|]. simpl. set_solver.
Qed.
#[local] Hint Resolve addCandidate_grows : grows.

Lemma addCandidatePrefixes_from_grows c l :
  preserves candidates_grow (instance.addCandidatePrefixes_from c l).
Proof.
  induction l as [|l IH]; cbn [instance.addCandidatePrefixes_from]; grows.
Qed.
#[local] Hint Resolve addCandidatePrefixes_from_grows : grows.

Lemma addCandidatePrefixes_grows c :
  preserves candidates_grow (instance.addCandidatePrefixes c).
Proof. unfold instance.addCandidatePrefixes. grows. Qed.
#[local] Hint Resolve addCandidatePrefixes_grows : grows.

Lemma resetRebroadcastParams_grows :
  preserves candidates_grow (instance.resetRebroadcastParams).
Proof. unfold instance.resetRebroadcastParams. grows. Qed.
#[local] Hint Resolve resetRebroadcastParams_grows : grows.

Lemma phaseTimeoutElapsed_grows :
  preserves candidates_grow (instance.phaseTimeoutElapsed).
Proof. unfold instance.phaseTimeoutElapsed. grows. Qed.
#[local] Hint Resolve phaseTimeoutElapsed_grows : grows.

Lemma rebroadcastTimeoutElapsed_grows :
  preserves candidates_grow (instance.rebroadcastTimeoutElapsed).
Proof. unfold instance.rebroadcastTimeoutElapsed. grows. Qed.
#[local] Hint Resolve rebroadcastTimeoutElapsed_grows : grows.

Lemma shouldRebroadcast_grows :
  preserves candidates_grow (instance.shouldRebroadcast).
Proof. unfold instance.shouldRebroadcast. grows. Qed.
#[local] Hint Resolve shouldRebroadcast_grows : grows.

Lemma alarmAfterSynchronyWithMulti_grows multi :
  preserves candidates_grow (instance.alarmAfterSynchronyWithMulti multi).
Proof. unfold instance.alarmAfterSynchronyWithMulti. grows. Qed.
#[local] Hint Resolve alarmAfterSynchronyWithMulti_grows : grows.

Lemma alarmAfterSynchrony_grows :
  preserves candidates_grow (instance.alarmAfterSynchrony).
Proof. unfold instance.alarmAfterSynchrony. grows. Qed.
#[local] Hint Resolve alarmAfterSynchrony_grows : grows.

Lemma broadcast_grows round phase value createTicket justification :
  preserves candidates_grow (instance.broadcast round phase value createTicket justification).
Proof. unfold instance.broadcast. grows. Qed.
#[local] Hint Resolve broadcast_grows : grows.

Lemma notifyProgress_grows :
  preserves candidates_grow (instance.notifyProgress).
Proof. unfold instance.notifyProgress. grows. Qed.
#[local] Hint Resolve notifyProgress_grows : grows.

Lemma rebroadcastQuietly_grows round phase :
  preserves candidates_grow (instance.rebroadcastQuietly round phase).
Proof. unfold instance.rebroadcastQuietly. grows. Qed.
#[local] Hint Resolve rebroadcastQuietly_grows : grows.

Lemma rebroadcast_grows :
  preserves candidates_grow (instance.rebroadcast).
Proof. unfold instance.rebroadcast. grows. Qed.
#[local] Hint Resolve rebroadcast_grows : grows.

Lemma arbitrate_alarm_grows otherwise :
  preserves candidates_grow otherwise →
  preserves candidates_grow (instance.arbitrate_alarm otherwise).
Proof. intros Hother. unfold instance.arbitrate_alarm. grows. Qed.
#[local] Hint Resolve arbitrate_alarm_grows : grows.

Lemma tryRebroadcast_grows :
  preserves candidates_grow (instance.tryRebroadcast).
Proof. unfold instance.tryRebroadcast. grows. Qed.
#[local] Hint Resolve tryRebroadcast_grows : grows.

Lemma buildJustification_grows quorum round phase value :
  preserves candidates_grow (instance.buildJustification quorum round phase value).
Proof. unfold instance.buildJustification. grows. Qed.
#[local] Hint Resolve buildJustification_grows : grows.

Lemma beginQuality_grows :
  preserves candidates_grow (instance.beginQuality).
Proof. unfold instance.beginQuality. grows. Qed.
#[local] Hint Resolve beginQuality_grows : grows.

Lemma beginPrepare_grows justification :
  preserves candidates_grow (instance.beginPrepare justification).
Proof. unfold instance.beginPrepare. grows. Qed.
#[local] Hint Resolve beginPrepare_grows : grows.

Lemma tryQuality_grows :
  preserves candidates_grow (instance.tryQuality).
Proof. unfold instance.tryQuality. grows. Qed.
#[local] Hint Resolve tryQuality_grows : grows.

Lemma updateCandidatesFromQuality_grows :
  preserves candidates_grow (instance.updateCandidatesFromQuality).
Proof. unfold instance.updateCandidatesFromQuality. grows. Qed.
#[local] Hint Resolve updateCandidatesFromQuality_grows : grows.

Lemma beginConverge_grows justification :
  preserves candidates_grow (instance.beginConverge justification).
Proof. unfold instance.beginConverge. grows. Qed.
#[local] Hint Resolve beginConverge_grows : grows.

Lemma tryConverge_grows :
  preserves candidates_grow (instance.tryConverge).
Proof. unfold instance.tryConverge. grows. Qed.
#[local] Hint Resolve tryConverge_grows : grows.

Lemma beginCommit_grows :
  preserves candidates_grow (instance.beginCommit).
Proof. unfold instance.beginCommit. grows. Qed.
#[local] Hint Resolve beginCommit_grows : grows.

Lemma tryPrepare_grows :
  preserves candidates_grow (instance.tryPrepare).
Proof. unfold instance.tryPrepare. grows. Qed.
#[local] Hint Resolve tryPrepare_grows : grows.

Lemma beginDecide_grows round :
  preserves candidates_grow (instance.beginDecide round).
Proof. unfold instance.beginDecide. grows. Qed.
#[local] Hint Resolve beginDecide_grows : grows.

Lemma skipToDecide_grows value justification :
  preserves candidates_grow (instance.skipToDecide value justification).
Proof. unfold instance.skipToDecide. grows. Qed.
#[local] Hint Resolve skipToDecide_grows : grows.

Lemma terminate_grows decision :
  preserves candidates_grow (instance.terminate decision).
Proof. unfold instance.terminate. grows. Qed.
#[local] Hint Resolve terminate_grows : grows.

Lemma tryDecide_grows :
  preserves candidates_grow (instance.tryDecide).
Proof. unfold instance.tryDecide. grows. Qed.
#[local] Hint Resolve tryDecide_grows : grows.

Lemma beginNextRound_grows :
  preserves candidates_grow (instance.beginNextRound).
Proof. unfold instance.beginNextRound. grows. Qed.
#[local] Hint Resolve beginNextRound_grows : grows.

Lemma skipToRound_grows round chain justification :
  preserves candidates_grow (instance.skipToRound round chain justification).
Proof. unfold instance.skipToRound. grows. Qed.
#[local] Hint Resolve skipToRound_grows : grows.

Lemma sway_to_committed_grows values :
  preserves candidates_grow (instance.sway_to_committed values).
Proof. unfold instance.sway_to_committed. grows. Qed.
#[local] Hint Resolve sway_to_committed_grows : grows.

Lemma tryCommit_grows round :
  preserves candidates_grow (instance.tryCommit round).
Proof. unfold instance.tryCommit. grows. Qed.
#[local] Hint Resolve tryCommit_grows : grows.

Lemma tryCurrentPhase_grows :
  preserves candidates_grow (instance.tryCurrentPhase).
Proof. unfold instance.tryCurrentPhase. grows. Qed.
#[local] Hint Resolve tryCurrentPhase_grows : grows.

Lemma shouldSkipToRound_grows round :
  preserves candidates_grow (instance.shouldSkipToRound round).
Proof. unfold instance.shouldSkipToRound. grows. Qed.
#[local] Hint Resolve shouldSkipToRound_grows : grows.

Lemma postReceive_loop_grows roundsReceived :
  preserves candidates_grow (instance.postReceive_loop roundsReceived).
Proof.
  induction roundsReceived as [|r rest IH]; cbn [instance.postReceive_loop]; grows.
Qed.
#[local] Hint Resolve postReceive_loop_grows : grows.

Lemma postReceive_grows roundsReceived :
  preserves candidates_grow (instance.postReceive roundsReceived).
Proof. unfold instance.postReceive. grows. Qed.
#[local] Hint Resolve postReceive_grows : grows.

Lemma receiveOne_grows msg :
  preserves candidates_grow (instance.receiveOne msg).
Proof. unfold instance.receiveOne. grows. Qed.
#[local] Hint Resolve receiveOne_grows : grows.

Lemma Start_grows :
  preserves candidates_grow (instance.Start).
Proof. unfold instance.Start. grows. Qed.
#[local] Hint Resolve Start_grows : grows.

Lemma Receive_grows msg :
  preserves candidates_grow (instance.Receive msg).
Proof. unfold instance.Receive. grows. Qed.
#[local] Hint Resolve Receive_grows : grows.

Lemma ReceiveMany_loop_grows msgs : ∀ roundsReceived,
  preserves candidates_grow (instance.ReceiveMany_loop msgs roundsReceived).
Proof.
  induction msgs as [|msg msgs IH]; intros roundsReceived;
    cbn [instance.ReceiveMany_loop]; grows.
Qed.
#[local] Hint Resolve ReceiveMany_loop_grows : grows.

Lemma ReceiveMany_grows msgs :
  preserves candidates_grow (instance.ReceiveMany msgs).
Proof. unfold instance.ReceiveMany. grows. Qed.
#[local] Hint Resolve ReceiveMany_grows : grows.

Lemma ReceiveAlarm_grows :
  preserves candidates_grow (instance.ReceiveAlarm).
Proof. unfold instance.ReceiveAlarm. grows. Qed.
#[local] Hint Resolve ReceiveAlarm_grows : grows.

(** C5.  A new instance has exactly the key of the base chain of its input
    as candidate; [Start], [Receive], [ReceiveMany] and [ReceiveAlarm], with
    every phase transition they trigger, keep the candidates present and at
    most add some, also when they return an error or panic; so the key of
    the base chain is a candidate in every reachable state. *)
Theorem candidates_monotone :
  (∀ participant instanceID input data powerTable beacon i,
     instance.newInstance participant instanceID input data powerTable beacon
     = (Some i, None) →
     instance.candidates i = {[ base_key i ]})
  ∧ (∀ s msg,
       instance.candidates (instance.self s)
       ⊆ instance.candidates (instance.self (instance.Receive msg s).2))
  ∧ (∀ s msgs,
       instance.candidates (instance.self s)
       ⊆ instance.candidates (instance.self (instance.ReceiveMany msgs s).2))
  ∧ (∀ s,
       instance.candidates (instance.self s)
       ⊆ instance.candidates (instance.self (instance.ReceiveAlarm s).2))
  ∧ (∀ s,
       instance.candidates (instance.self s)
       ⊆ instance.candidates (instance.self (instance.Start s).2))
  ∧ (∀ s, instance_reachable s →
       base_key (instance.self s) ∈ instance.candidates (instance.self s)).
Proof.
  assert (∀ participant instanceID input data powerTable beacon i,
            instance.newInstance participant instanceID input data powerTable beacon
            = (Some i, None) →
            instance.candidates i = {[ base_key i ]}) as Hnew.
  { intros participant instanceID input data powerTable beacon i.
    unfold instance.newInstance. destruct (ECChain.IsZero input); [done|].
    by intros [= <-]. }
  split; [exact Hnew|].
  split; [intros s msg; apply (Receive_grows msg s)|].
  split; [intros s msgs; apply (ReceiveMany_grows msgs s)|].
  split; [intros s; apply (ReceiveAlarm_grows s)|].
  split; [intros s; apply (Start_grows s)|].
  assert (∀ s s', candidates_grow s s' →
            base_key (instance.self s) ∈ instance.candidates (instance.self s) →
            base_key (instance.self s') ∈ instance.candidates (instance.self s'))
    as Hstep.
  { intros s s' [Hinput Hsub] Hin. unfold base_key in *. rewrite Hinput.
    by apply Hsub. }
  induction 1 as [participant instanceID input data powerTable beacon i host Hi
                 |s Hs IH|s msg Hs IH|s msgs Hs IH|s Hs IH|s now events Hs IH].
  - simpl. rewrite (Hnew _ _ _ _ _ _ _ Hi). by apply elem_of_singleton.
  - apply (Hstep s); [apply Start_grows | exact IH].
  - apply (Hstep s); [apply Receive_grows | exact IH].
  - apply (Hstep s); [apply ReceiveMany_grows | exact IH].
  - apply (Hstep s); [apply ReceiveAlarm_grows | exact IH].
  - exact IH.
Qed.

End candidates.

Section candidates_examples.
#[local] Existing Instances harness.float harness.ticketRank harness.mapRange
  harness.aggregate.

Lemma harness_decided_reachable : instance_reachable harness.decided.
Proof.
  do 4 apply reachable_Receive_msg. apply reachable_Start.
  apply (reachable_created harness.participant 0 harness.chain3
           harness.supplement harness.table1 [5]).
  reflexivity.
Qed.

Lemma candidates_monotone_witness :
  instance.candidates harness.created = {[ base_key harness.created ]}
  ∧ base_key (instance.self harness.decided)
    ∈ instance.candidates (instance.self harness.decided).
Proof.
  destruct candidates_monotone as (Hnew & _ & _ & _ & _ & Hbase). split.
  - apply (Hnew harness.participant 0 harness.chain3 harness.supplement
             harness.table1 [5]). reflexivity.
  - apply Hbase. exact harness_decided_reachable.
Defined.

End candidates_examples.

(** ** Receiving a message twice *)

Lemma receiveInner_senders q sender value power signature q' :
  quorumState.receiveInner q sender value power signature = Return q' →
  quorumState.senders q' = quorumState.senders q.
Proof.
  unfold quorumState.receiveInner. cbv zeta.
  destruct (bool_decide _); [done|]. by intros [= <-].
Qed.

(** After a [Receive] that returned, the sender is recorded. *)
Lemma quorumState_Receive_records q sender value signature q' :
  quorumState.Receive q sender value signature = Return q' →
  sender ∈ quorumState.senders q'.
Proof.
  destruct (decide (sender ∈ quorumState.senders q)) as [Hin|Hnew].
  - rewrite Receive_known by done. by intros [= <-].
  - unfold quorumState.Receive. rewrite receiveSender_new by done.
    cbn [negb]. intros Hrun%receiveInner_senders. rewrite Hrun. simpl.
    apply elem_of_union_l, elem_of_singleton. done.
Qed.

Lemma ReceiveEachPrefix_loop_senders sender values power : ∀ js q q',
  quorumState.ReceiveEachPrefix_loop q sender values power js = Return q' →
  quorumState.senders q' = quorumState.senders q.
Proof.
  induction js as [|j js IH]; intros q q'; cbn [quorumState.ReceiveEachPrefix_loop].
  - by intros [= <-].
  - destruct (quorumState.receiveInner q sender _ power None) as [q1|msg] eqn:H1;
      [|done].
    cbn [mbind outcome_bind]. intros Hrun.
    rewrite (IH _ _ Hrun). by eapply receiveInner_senders.
Qed.

Lemma quorumState_ReceiveEachPrefix_records q sender values q' :
  quorumState.ReceiveEachPrefix q sender values = Return q' →
  sender ∈ quorumState.senders q'.
Proof.
  destruct (decide (sender ∈ quorumState.senders q)) as [Hin|Hnew].
  - rewrite ReceiveEachPrefix_known by done. by intros [= <-].
  - unfold quorumState.ReceiveEachPrefix. rewrite receiveSender_new by done.
    cbn [negb]. intros Hrun%ReceiveEachPrefix_loop_senders. rewrite Hrun. simpl.
    apply elem_of_union_l, elem_of_singleton. done.
Qed.

Section receive_twice.
Context `{TicketRank}.

(** Duplicate-sender suppression makes each accumulator idempotent: a
    [Receive] or [ReceiveEachPrefix] of a quorum state, or a [Receive] of a
    converge state, that is repeated with the same arguments on the state
    the first call left returns that state again, with the same result. *)
Lemma accumulators_idempotent :
  (∀ q sender value signature q',
     quorumState.Receive q sender value signature = Return q' →
     quorumState.Receive q' sender value signature = Return q')
  ∧ (∀ q sender values q',
       quorumState.ReceiveEachPrefix q sender values = Return q' →
       quorumState.ReceiveEachPrefix q' sender values = Return q')
  ∧ (∀ c sender table value ticket justification c' err,
       convergeState.Receive c sender table value ticket justification = (c', err) →
       convergeState.Receive c' sender table value ticket justification = (c', err)).
Proof.
  split; [|split].
  - intros q sender value signature q' Hrun.
    apply Receive_known. by eapply quorumState_Receive_records.
  - intros q sender values q' Hrun.
    apply ReceiveEachPrefix_known. by eapply quorumState_ReceiveEachPrefix_records.
  - intros c sender table value ticket justification c' err Hrun.
    pose proof (convergeState_Receive_idempotent c sender table value ticket
                  justification) as Hidem.
    cbv zeta in Hidem. by rewrite Hrun in Hidem.
Qed.

End receive_twice.

(** *** The tallies of votes of the instance *)

Create HintDb keeps discriminated.

Section tallies.
Context `{TicketRank} `{MapRange} `{Aggregate}.
#[local] Existing Instances instance.M_ret instance.M_bind.

#[local] Instance same_votes_equiv : Equivalence same_votes.
Proof.
  split.
  - intros x. unfold same_votes. done.
  - intros x y (? & ? & ?). unfold same_votes. done.
  - intros x y z (? & ? & ?) (? & ? & ?). unfold same_votes.
    split; [congruence|]. split; congruence.
Qed.

#[local] Instance tallies_kept_preorder : PreOrder tallies_kept.
Proof.
  split.
  - intros s. unfold tallies_kept. done.
  - intros s1 s2 s3 (Hp1 & Hq1 & Hd1 & Hr1) (Hp2 & Hq2 & Hd2 & Hr2).
    split; [congruence|]. split; [congruence|]. split; [congruence|].
    intros r. etrans; [apply Hr2 | apply Hr1].
Qed.

Lemma tallies_kept_host s h :
  tallies_kept s (instance.mkState (instance.self s) h).
Proof. unfold tallies_kept. done. Qed.

Lemma round_view_with_round r round s r' :
  round_view (instance.self (with_round r round s)) r'
  = if decide (r = r') then round else round_view (instance.self s) r'.
Proof.
  unfold round_view, with_round. simpl. destruct (decide (r = r')) as [->|Hne].
  - by rewrite lookup_insert_eq.
  - by rewrite lookup_insert_ne.
Qed.

Lemma with_round_kept r round s :
  same_votes round (round_view (instance.self s) r) →
  tallies_kept s (with_round r round s).
Proof.
  intros Hsame. do 3 (split; [done|]). intros r'.
  rewrite round_view_with_round. by destruct (decide (r = r')) as [<-|].
Qed.

Lemma getRound_run r s :
  instance.getRound r s
  = (Return (round_view (instance.self s) r),
     with_round r (round_view (instance.self s) r) s).
Proof.
  unfold instance.getRound, round_view, with_round.
  rewrite run_bind. simpl.
  destruct (instance.rounds (instance.self s) !! r) as [round|] eqn:Hr; simpl.
  - rewrite insert_id by done. by destruct s as [[] ?].
  - done.
Qed.

Lemma store_round_run r round s :
  instance.store_round r round s = (Return tt, with_round r round s).
Proof. done. Qed.


(** One step of the proof that a method keeps the tallies. *)
Ltac keeps_step :=
  match goal with
  | |- preserves _ _ => assumption
  | |- preserves _ _ => solve [auto with keeps]
  | |- preserves _ (mret _) => apply (preserves_ret tallies_kept)
  | |- preserves _ (mbind _ _) => apply (preserves_bind tallies_kept); [|intros]
  | |- preserves _ instance.get => apply (preserves_get tallies_kept)
  | |- preserves _ (instance.panic _) => apply (preserves_panic tallies_kept)
  | |- preserves _ (instance.lift _) => apply (preserves_lift tallies_kept)
  | |- preserves _ instance.host_Time => apply (preserves_host_Time tallies_kept)
  | |- preserves _ (instance.emit _) =>
      apply (preserves_emit tallies_kept tallies_kept_host)
  | |- preserves _ instance.skip => apply (preserves_skip tallies_kept)
  | |- preserves _ (instance.modify _) =>
      apply (preserves_modify tallies_kept); intros; unfold tallies_kept, round_view;
      simpl; done
  | |- preserves _ (match ?x with _ => _ end) => destruct x
  | |- preserves _ (let _ := _ in _) => cbv zeta
  end.

Ltac keeps := repeat keeps_step.

Lemma getRound_keeps r : preserves tallies_kept (instance.getRound r).
Proof. intros s. rewrite getRound_run. simpl. by apply with_round_kept. Qed.
#[local] Hint Resolve getRound_keeps : keeps.

Lemma addCandidate_keeps c : preserves tallies_kept (instance.addCandidate c).
Proof.
  intros s. unfold instance.addCandidate, instance.get, instance.modify.
  unfold mbind, instance.M_bind, mret, instance.M_ret.
  destruct (negb _); simpl; [|done]. unfold tallies_kept, round_view. done.
Qed.
#[local] Hint Resolve addCandidate_keeps : keeps.

Lemma terminated_keeps :
  preserves tallies_kept (instance.terminated).
Proof. unfold instance.terminated. keeps. Qed.
#[local] Hint Resolve terminated_keeps : keeps.

Lemma isCandidate_keeps c :
  preserves tallies_kept (instance.isCandidate c).
Proof. unfold instance.isCandidate. keeps. Qed.
#[local] Hint Resolve isCandidate_keeps : keeps.

Lemma addCandidatePrefixes_from_keeps c l :
  preserves tallies_kept (instance.addCandidatePrefixes_from c l).
Proof.
  induction l as [|l IH]; cbn [instance.addCandidatePrefixes_from]; keeps.
Qed.
#[local] Hint Resolve addCandidatePrefixes_from_keeps : keeps.

Lemma addCandidatePrefixes_keeps c :
  preserves tallies_kept (instance.addCandidatePrefixes c).
Proof. unfold instance.addCandidatePrefixes. keeps. Qed.
#[local] Hint Resolve addCandidatePrefixes_keeps : keeps.

Lemma resetRebroadcastParams_keeps :
  preserves tallies_kept (instance.resetRebroadcastParams).
Proof. unfold instance.resetRebroadcastParams. keeps. Qed.
#[local] Hint Resolve resetRebroadcastParams_keeps : keeps.

Lemma phaseTimeoutElapsed_keeps :
  preserves tallies_kept (instance.phaseTimeoutElapsed).
Proof. unfold instance.phaseTimeoutElapsed. keeps. Qed.
#[local] Hint Resolve phaseTimeoutElapsed_keeps : keeps.

Lemma rebroadcastTimeoutElapsed_keeps :
  preserves tallies_kept (instance.rebroadcastTimeoutElapsed).
Proof. unfold instance.rebroadcastTimeoutElapsed. keeps. Qed.
#[local] Hint Resolve rebroadcastTimeoutElapsed_keeps : keeps.

Lemma shouldRebroadcast_keeps :
  preserves tallies_kept (instance.shouldRebroadcast).
Proof. unfold instance.shouldRebroadcast. keeps. Qed.
#[local] Hint Resolve shouldRebroadcast_keeps : keeps.

Lemma alarmAfterSynchronyWithMulti_keeps multi :
  preserves tallies_kept (instance.alarmAfterSynchronyWithMulti multi).
Proof. unfold instance.alarmAfterSynchronyWithMulti. keeps. Qed.
#[local] Hint Resolve alarmAfterSynchronyWithMulti_keeps : keeps.

Lemma alarmAfterSynchrony_keeps :
  preserves tallies_kept (instance.alarmAfterSynchrony).
Proof. unfold instance.alarmAfterSynchrony. keeps. Qed.
#[local] Hint Resolve alarmAfterSynchrony_keeps : keeps.

Lemma broadcast_keeps round phase value createTicket justification :
  preserves tallies_kept (instance.broadcast round phase value createTicket justification).
Proof. unfold instance.broadcast. keeps. Qed.
#[local] Hint Resolve broadcast_keeps : keeps.

Lemma notifyProgress_keeps :
  preserves tallies_kept (instance.notifyProgress).
Proof. unfold instance.notifyProgress. keeps. Qed.
#[local] Hint Resolve notifyProgress_keeps : keeps.

Lemma rebroadcastQuietly_keeps round phase :
  preserves tallies_kept (instance.rebroadcastQuietly round phase).
Proof. unfold instance.rebroadcastQuietly. keeps. Qed.
#[local] Hint Resolve rebroadcastQuietly_keeps : keeps.

Lemma rebroadcast_keeps :
  preserves tallies_kept (instance.rebroadcast).
Proof. unfold instance.rebroadcast. keeps. Qed.
#[local] Hint Resolve rebroadcast_keeps : keeps.

Lemma arbitrate_alarm_keeps otherwise :
  preserves tallies_kept otherwise →
  preserves tallies_kept (instance.arbitrate_alarm otherwise).
Proof. intros Hother. unfold instance.arbitrate_alarm. keeps. Qed.
#[local] Hint Resolve arbitrate_alarm_keeps : keeps.

Lemma tryRebroadcast_keeps :
  preserves tallies_kept (instance.tryRebroadcast).
Proof. unfold instance.tryRebroadcast. keeps. Qed.
#[local] Hint Resolve tryRebroadcast_keeps : keeps.

Lemma buildJustification_keeps quorum round phase value :
  preserves tallies_kept (instance.buildJustification quorum round phase value).
Proof. unfold instance.buildJustification. keeps. Qed.
#[local] Hint Resolve buildJustification_keeps : keeps.

Lemma beginQuality_keeps :
  preserves tallies_kept (instance.beginQuality).
Proof. unfold instance.beginQuality. keeps. Qed.
#[local] Hint Resolve beginQuality_keeps : keeps.

Lemma beginPrepare_keeps justification :
  preserves tallies_kept (instance.beginPrepare justification).
Proof. unfold instance.beginPrepare. keeps. Qed.
#[local] Hint Resolve beginPrepare_keeps : keeps.

Lemma tryQuality_keeps :
  preserves tallies_kept (instance.tryQuality).
Proof. unfold instance.tryQuality. keeps. Qed.
#[local] Hint Resolve tryQuality_keeps : keeps.

Lemma updateCandidatesFromQuality_keeps :
  preserves tallies_kept (instance.updateCandidatesFromQuality).
Proof. unfold instance.updateCandidatesFromQuality. keeps. Qed.
#[local] Hint Resolve updateCandidatesFromQuality_keeps : keeps.

(** Writing the CONVERGE collector of a round keeps the tallies when the
    senders of the collector are kept. *)
Lemma update_converged_keeps {B} r (f : convergeState.t → convergeState.t)
    (k : instance.M B) :
  (∀ c, convergeState.senders (f c) = convergeState.senders c) →
  preserves tallies_kept k →
  preserves tallies_kept
    (round ← instance.getRound r;
     instance.store_round r
       (roundState.set_converged (f (roundState.converged round)) round);;
     k).
Proof.
  intros Hf Hk s. rewrite run_bind, getRound_run, run_bind, store_round_run.
  etrans; [|apply Hk]. etrans; [by apply with_round_kept|].
  apply with_round_kept. rewrite round_view_with_round, decide_True by done.
  split; [done|]. split; [done|]. simpl. apply Hf.
Qed.

Lemma SetSelfValue_senders c value justification :
  convergeState.senders (convergeState.SetSelfValue c value justification)
  = convergeState.senders c.
Proof. unfold convergeState.SetSelfValue. by destruct (_ !! _). Qed.

Lemma beginConverge_keeps justification :
  preserves tallies_kept (instance.beginConverge justification).
Proof.
  unfold instance.beginConverge.
  repeat lazymatch goal with
         | |- preserves _ (mbind _ (instance.getRound _)) => fail
         | |- _ => keeps_step
         end.
  match goal with
  | |- context [convergeState.SetSelfValue _ ?p ?j] =>
      apply (update_converged_keeps _ (λ c, convergeState.SetSelfValue c p j))
  end.
  - intros c. apply SetSelfValue_senders.
  - keeps.
Qed.
#[local] Hint Resolve beginConverge_keeps : keeps.

Lemma tryConverge_keeps :
  preserves tallies_kept (instance.tryConverge).
Proof. unfold instance.tryConverge. keeps. Qed.
#[local] Hint Resolve tryConverge_keeps : keeps.

Lemma beginCommit_keeps :
  preserves tallies_kept (instance.beginCommit).
Proof. unfold instance.beginCommit. keeps. Qed.
#[local] Hint Resolve beginCommit_keeps : keeps.

Lemma tryPrepare_keeps :
  preserves tallies_kept (instance.tryPrepare).
Proof. unfold instance.tryPrepare. keeps. Qed.
#[local] Hint Resolve tryPrepare_keeps : keeps.

Lemma beginDecide_keeps round :
  preserves tallies_kept (instance.beginDecide round).
Proof. unfold instance.beginDecide. keeps. Qed.
#[local] Hint Resolve beginDecide_keeps : keeps.

Lemma skipToDecide_keeps value justification :
  preserves tallies_kept (instance.skipToDecide value justification).
Proof. unfold instance.skipToDecide. keeps. Qed.
#[local] Hint Resolve skipToDecide_keeps : keeps.

Lemma terminate_keeps decision :
  preserves tallies_kept (instance.terminate decision).
Proof. unfold instance.terminate. keeps. Qed.
#[local] Hint Resolve terminate_keeps : keeps.

Lemma tryDecide_keeps :
  preserves tallies_kept (instance.tryDecide).
Proof. unfold instance.tryDecide. keeps. Qed.
#[local] Hint Resolve tryDecide_keeps : keeps.

Lemma beginNextRound_keeps :
  preserves tallies_kept (instance.beginNextRound).
Proof. unfold instance.beginNextRound. keeps. Qed.
#[local] Hint Resolve beginNextRound_keeps : keeps.

Lemma skipToRound_keeps round chain justification :
  preserves tallies_kept (instance.skipToRound round chain justification).
Proof. unfold instance.skipToRound. keeps. Qed.
#[local] Hint Resolve skipToRound_keeps : keeps.

Lemma sway_to_committed_keeps values :
  preserves tallies_kept (instance.sway_to_committed values).
Proof. unfold instance.sway_to_committed. keeps. Qed.
#[local] Hint Resolve sway_to_committed_keeps : keeps.

Lemma tryCommit_keeps round :
  preserves tallies_kept (instance.tryCommit round).
Proof. unfold instance.tryCommit. keeps. Qed.
#[local] Hint Resolve tryCommit_keeps : keeps.

Lemma tryCurrentPhase_keeps :
  preserves tallies_kept (instance.tryCurrentPhase).
Proof. unfold instance.tryCurrentPhase. keeps. Qed.
#[local] Hint Resolve tryCurrentPhase_keeps : keeps.

Lemma shouldSkipToRound_keeps round :
  preserves tallies_kept (instance.shouldSkipToRound round).
Proof. unfold instance.shouldSkipToRound. keeps. Qed.
#[local] Hint Resolve shouldSkipToRound_keeps : keeps.

Lemma postReceive_loop_keeps roundsReceived :
  preserves tallies_kept (instance.postReceive_loop roundsReceived).
Proof.
  induction roundsReceived as [|r rest IH]; cbn [instance.postReceive_loop]; keeps.
Qed.
#[local] Hint Resolve postReceive_loop_keeps : keeps.

Lemma postReceive_keeps roundsReceived :
  preserves tallies_kept (instance.postReceive roundsReceived).
Proof. unfold instance.postReceive. keeps. Qed.
#[local] Hint Resolve postReceive_keeps : keeps.


(** *** Receiving a message whose vote is counted *)

Lemma counted_kept msg s s' :
  tallies_kept s s' → counted msg (instance.self s) → counted msg (instance.self s').
Proof.
  intros (_ & Hquality & Hdecision & Hrounds). unfold counted. cbv zeta.
  destruct (Hrounds (Payload.Round (GMessage.Vote msg))) as (Hp & Hc & Hs).
  rewrite Hquality, Hdecision, Hp, Hc, Hs. done.
Qed.

Lemma kept_then {A} (k : instance.M A) s s' :
  tallies_kept s s' → preserves tallies_kept k → tallies_kept s (k s').2.
Proof. intros Hs Hk. etrans; [exact Hs | apply Hk]. Qed.

Lemma with_round_kept_after r round s0 s :
  tallies_kept s0 s →
  same_votes round (round_view (instance.self s0) r) →
  tallies_kept s0 (with_round r round s).
Proof.
  intros Hs Hsame. etrans; [exact Hs|]. apply with_round_kept.
  etrans; [exact Hsame|]. symmetry. apply Hs.
Qed.

Lemma ReceiveJustification_known q value justification :
  is_Some (quorumState.receivedJustification q !! ECChain.Key value) →
  quorumState.ReceiveJustification q value (Some justification) = Return q.
Proof. intros [j Hj]. unfold quorumState.ReceiveJustification. by rewrite Hj. Qed.

Lemma ReceiveJustification_records q value justification q' :
  quorumState.ReceiveJustification q value justification = Return q' →
  quorumState.senders q' = quorumState.senders q
  ∧ is_Some (quorumState.receivedJustification q' !! ECChain.Key value).
Proof.
  unfold quorumState.ReceiveJustification. destruct justification as [j|]; [|done].
  destruct (_ !! _) as [j'|] eqn:Hj; intros [= <-]; simpl.
  - by rewrite Hj.
  - by rewrite lookup_insert_eq.
Qed.

Lemma convergeState_Receive_known c sender table value ticket justification :
  ECChain.IsZero value = true ∨ justification = None
  ∨ sender ∈ convergeState.senders c →
  (convergeState.Receive c sender table value ticket justification).1 = c.
Proof.
  unfold convergeState.Receive. intros Hc.
  destruct (ECChain.IsZero value); [done|].
  destruct (bool_decide (justification = None)) eqn:Hj; [done|].
  apply bool_decide_eq_false_1 in Hj.
  destruct Hc as [?|[?|Hin]]; [done..|]. by rewrite bool_decide_eq_true_2.
Qed.


Lemma same_votes_set_prepared round :
  same_votes (roundState.set_prepared (roundState.prepared round) round) round.
Proof. done. Qed.

Lemma same_votes_set_committed round :
  same_votes (roundState.set_committed (roundState.committed round) round) round.
Proof. done. Qed.

Lemma same_votes_set_converged round :
  same_votes (roundState.set_converged (roundState.converged round) round) round.
Proof. done. Qed.

Lemma set_quality_kept s0 s :
  tallies_kept s0 s →
  tallies_kept s0
    (instance.mkState
       (instance.set_quality (instance.quality (instance.self s0)) (instance.self s))
       (instance.host s)).
Proof.
  intros (Hp & Hq & Hd & Hr). unfold tallies_kept, round_view in *. simpl. done.
Qed.

Lemma set_decision_kept s0 s :
  tallies_kept s0 s →
  tallies_kept s0
    (instance.mkState
       (instance.set_decision (instance.decision (instance.self s0)) (instance.self s))
       (instance.host s)).
Proof.
  intros (Hp & Hq & Hd & Hr). unfold tallies_kept, round_view in *. simpl. done.
Qed.

(** Receiving a message whose vote is counted keeps every tally. *)
Lemma receiveOne_again msg s :
  counted msg (instance.self s) →
  tallies_kept s (instance.receiveOne msg s).2.
Proof.
  intros Hc. unfold instance.receiveOne. cbv zeta.
  rewrite run_bind. cbn [instance.get].
  repeat lazymatch goal with
         | |- tallies_kept _ ((if ?c then _ else _) _).2 =>
             destruct c; [reflexivity|]
         end.
  rewrite run_bind, getRound_run.
  unfold counted in Hc. cbv zeta in Hc.
  set (r := Payload.Round (GMessage.Vote msg)) in *.
  set (round := round_view (instance.self s) r) in *.
  assert (tallies_kept s (with_round r round s)) as Hround
    by (by apply with_round_kept).
  destruct (Payload.Phase_ (GMessage.Vote msg)) eqn:Hphase.
  - exact Hround.
  - rewrite run_bind. cbn [instance.lift].
    rewrite ReceiveEachPrefix_known by exact Hc.
    rewrite run_bind. cbn [instance.modify].
    apply kept_then; [by apply set_quality_kept | keeps].
  - pose proof (convergeState_Receive_known _ _ (instance.powerTable (instance.self s))
                  _ (GMessage.Ticket msg) _ Hc) as Hsame.
    destruct (convergeState.Receive _ _ _ _ _ _) as [c err]. simpl in Hsame.
    subst c. rewrite run_bind, store_round_run.
    apply kept_then; [|keeps].
    apply with_round_kept_after; [exact Hround | apply same_votes_set_converged].
  - destruct Hc as [Hsender Hjust].
    rewrite run_bind. cbn [instance.lift].
    rewrite Receive_known by exact Hsender.
    rewrite run_bind, store_round_run, run_bind.
    assert (tallies_kept s
              (with_round r
                 (roundState.set_prepared (roundState.prepared round) round)
                 (with_round r round s))) as Hstored
      by (apply with_round_kept_after;
          [exact Hround | apply same_votes_set_prepared]).
    destruct (GMessage.Justification_ msg) as [j|] eqn:Hj.
    + rewrite run_bind. cbn [instance.lift].
      rewrite ReceiveJustification_known by (by apply Hjust).
      rewrite store_round_run.
      apply kept_then; [|keeps].
      apply with_round_kept_after; [exact Hstored | apply same_votes_set_prepared].
    + cbn [instance.skip mret instance.M_ret]. apply kept_then; [exact Hstored | keeps].
  - destruct Hc as [Hsender Hjust].
    rewrite run_bind. cbn [instance.lift].
    rewrite Receive_known by exact Hsender.
    rewrite run_bind, store_round_run, run_bind.
    assert (tallies_kept s
              (with_round r
                 (roundState.set_committed (roundState.committed round) round)
                 (with_round r round s))) as Hstored
      by (apply with_round_kept_after;
          [exact Hround | apply same_votes_set_committed]).
    destruct (ECChain.IsZero (Payload.Value (GMessage.Vote msg))) eqn:Hzero;
      cbn [negb].
    + cbn [instance.skip mret instance.M_ret]. apply kept_then; [exact Hstored | keeps].
    + rewrite run_bind. cbn [instance.lift].
      destruct (GMessage.Justification_ msg) as [j|] eqn:Hj.
      * rewrite ReceiveJustification_known by (by apply Hjust).
        rewrite store_round_run.
        apply kept_then; [|keeps].
        apply with_round_kept_after; [exact Hstored | apply same_votes_set_committed].
      * simpl. exact Hstored.
  - rewrite run_bind. cbn [instance.lift].
    rewrite Receive_known by exact Hc.
    rewrite run_bind. cbn [instance.modify].
    apply kept_then; [by apply set_decision_kept | keeps].
  - exact Hround.
Qed.


Lemma on_return_bind {A B} (m : instance.M A) (f : A → instance.M B) s Q :
  on_return (m s) (λ a s', on_return (f a s') Q) →
  on_return ((m ≫= f) s) Q.
Proof. rewrite run_bind. by destruct (m s) as [[a|msg] s']. Qed.

Lemma counted_then {A} msg (k : instance.M A) s (P : A → instance.state → Prop) :
  counted msg (instance.self s) →
  preserves tallies_kept k →
  on_return (k s) (λ a s', P a s' ∨ counted msg (instance.self s')).
Proof.
  intros Hc Hk. specialize (Hk s). destruct (k s) as [[a|?] s']; [|done].
  right. by apply (counted_kept msg s).
Qed.

Lemma round_view_stored r round s :
  round_view (instance.self (with_round r round s)) r = round.
Proof. by rewrite round_view_with_round, decide_True. Qed.

Lemma convergeState_Receive_counts c sender table value ticket justification c' err :
  convergeState.Receive c sender table value ticket justification = (c', err) →
  ECChain.IsZero value = true ∨ justification = None
  ∨ sender ∈ convergeState.senders c'.
Proof.
  destruct err as [e|].
  - unfold convergeState.Receive.
    destruct (ECChain.IsZero value); [by left|].
    destruct (bool_decide (justification = None)) eqn:Hj.
    { apply bool_decide_eq_true_1 in Hj. by right; left. }
    destruct (bool_decide (sender ∈ _)); [done|]. cbv zeta.
    destruct (_ !! _); [|done]. by destruct (f64_lt _ _).
  - intros Hrecv%convergeState_Receive_records. by right; right.
Qed.

(** Receiving a message either drops it, the state untouched, or counts its
    vote. *)
Lemma receiveOne_counts msg s :
  on_return (instance.receiveOne msg s)
    (λ r s', (s' = s ∧ r.1 = false) ∨ counted msg (instance.self s')).
Proof.
  unfold instance.receiveOne. cbv zeta.
  rewrite run_bind. cbn [instance.get].
  do 6 (match goal with
        | |- context [(if ?c then _ else _) s] => destruct c; [by left|]
        end).
  rewrite run_bind, getRound_run.
  set (r := Payload.Round (GMessage.Vote msg)) in *.
  set (round := round_view (instance.self s) r) in *.
  destruct (Payload.Phase_ (GMessage.Vote msg)) eqn:Hphase.
  - right. unfold counted. by rewrite Hphase.
  - rewrite run_bind. cbn [instance.lift].
    destruct (quorumState.ReceiveEachPrefix _ _ _) as [q|] eqn:Hq; [|exact I].
    rewrite run_bind. cbn [instance.modify].
    apply counted_then; [|keeps].
    unfold counted. rewrite Hphase. simpl.
    by apply quorumState_ReceiveEachPrefix_records in Hq.
  - destruct (convergeState.Receive _ _ _ _ _ _) as [c err] eqn:Hrecv.
    apply convergeState_Receive_counts in Hrecv.
    rewrite run_bind, store_round_run.
    assert (counted msg
              (instance.self
                 (with_round r (roundState.set_converged c round)
                    (with_round r round s)))) as Hc.
    { unfold counted. rewrite Hphase. cbv zeta. fold r.
      by rewrite round_view_stored. }
    destruct err as [e|]; [by right|].
    apply counted_then; [exact Hc | keeps].
  - rewrite run_bind. cbn [instance.lift].
    destruct (quorumState.Receive _ _ _ _) as [q|] eqn:Hq; [|exact I].
    apply quorumState_Receive_records in Hq.
    rewrite run_bind, store_round_run, run_bind.
    destruct (GMessage.Justification_ msg) as [j|] eqn:Hj.
    + rewrite run_bind. cbn [instance.lift].
      destruct (quorumState.ReceiveJustification _ _ _) as [q'|] eqn:Hq'; [|exact I].
      apply ReceiveJustification_records in Hq' as [Hsenders Hstored].
      rewrite store_round_run.
      apply counted_then; [|keeps].
      unfold counted. rewrite Hphase. cbv zeta. fold r.
      rewrite round_view_stored. simpl. by rewrite Hsenders.
    + cbn [instance.skip mret instance.M_ret].
      apply counted_then; [|keeps].
      unfold counted. rewrite Hphase. cbv zeta. fold r.
      rewrite round_view_stored, Hj. simpl. split; [done|]. by intros [? [=]].
  - rewrite run_bind. cbn [instance.lift].
    destruct (quorumState.Receive _ _ _ _) as [q|] eqn:Hq; [|exact I].
    apply quorumState_Receive_records in Hq.
    rewrite run_bind, store_round_run, run_bind.
    destruct (ECChain.IsZero (Payload.Value (GMessage.Vote msg))) eqn:Hzero;
      cbn [negb].
    + cbn [instance.skip mret instance.M_ret].
      apply counted_then; [|keeps].
      unfold counted. rewrite Hphase. cbv zeta. fold r.
      rewrite round_view_stored, Hzero. simpl. done.
    + rewrite run_bind. cbn [instance.lift].
      destruct (quorumState.ReceiveJustification _ _ _) as [q'|] eqn:Hq'; [|exact I].
      apply ReceiveJustification_records in Hq' as [Hsenders Hstored].
      rewrite store_round_run.
      apply counted_then; [|keeps].
      unfold counted. rewrite Hphase. cbv zeta. fold r.
      rewrite round_view_stored. simpl. by rewrite Hsenders.
  - rewrite run_bind. cbn [instance.lift].
    destruct (quorumState.Receive _ _ _ _) as [q|] eqn:Hq; [|exact I].
    rewrite run_bind. cbn [instance.modify].
    apply counted_then; [|keeps].
    unfold counted. rewrite Hphase. simpl.
    by apply quorumState_Receive_records in Hq.
  - right. unfold counted. by rewrite Hphase.
Qed.


Lemma Receive_again msg s :
  counted msg (instance.self s) →
  tallies_kept s (instance.Receive msg s).2.
Proof.
  intros Hc. unfold instance.Receive. rewrite run_bind.
  unfold instance.terminated at 1. rewrite run_bind. cbn [instance.get].
  cbn [mret instance.M_ret].
  destruct (bool_decide _); [reflexivity|].
  rewrite run_bind. pose proof (receiveOne_again msg s Hc) as Hone.
  destruct (instance.receiveOne msg s) as [[[stateChanged err]|panicked] s'];
    [|exact Hone].
  simpl in Hone. destruct err as [err|]; [exact Hone|].
  apply kept_then; [exact Hone | keeps].
Qed.

Lemma Receive_counts msg s :
  on_return (instance.Receive msg s)
    (λ _ s', s' = s ∨ counted msg (instance.self s')).
Proof.
  unfold instance.Receive. rewrite run_bind.
  unfold instance.terminated at 1. rewrite run_bind. cbn [instance.get].
  cbn [mret instance.M_ret].
  destruct (bool_decide _); [by left|].
  rewrite run_bind. pose proof (receiveOne_counts msg s) as Hone.
  destruct (instance.receiveOne msg s) as [[[stateChanged err]|panicked] s'];
    [|exact I].
  simpl in Hone. destruct Hone as [[-> Hdropped]|Hc].
  - simpl in Hdropped. subst stateChanged. destruct err; by left.
  - destruct err as [err|]; [by right|].
    apply counted_then; [exact Hc | keeps].
Qed.

(** C6, as amended.  Duplicate-sender suppression makes each accumulator
    idempotent, and [Receive] count a vote once: whenever [Receive] of a
    message returns, a second [Receive] of the same message keeps every
    tally of votes as the first left it. *)
Theorem Receive_counts_once :
  (∀ q sender value signature q',
     quorumState.Receive q sender value signature = Return q' →
     quorumState.Receive q' sender value signature = Return q')
  ∧ (∀ q sender values q',
       quorumState.ReceiveEachPrefix q sender values = Return q' →
       quorumState.ReceiveEachPrefix q' sender values = Return q')
  ∧ (∀ c sender table value ticket justification c' err,
       convergeState.Receive c sender table value ticket justification = (c', err) →
       convergeState.Receive c' sender table value ticket justification = (c', err))
  ∧ (∀ s msg err,
       (instance.Receive msg s).1 = Return err →
       let once := (instance.Receive msg s).2 in
       tallies_kept once (instance.Receive msg once).2).
Proof.
  destruct accumulators_idempotent as (Hreceive & Hprefix & Hconverge).
  split; [exact Hreceive|]. split; [exact Hprefix|]. split; [exact Hconverge|].
  intros s msg err Hrun once. subst once.
  pose proof (Receive_counts msg s) as Hcounts.
  destruct (instance.Receive msg s) as [[e|panicked] s1] eqn:Hfirst; [|done].
  simpl in *. destruct Hcounts as [->|Hc].
  - rewrite Hfirst. reflexivity.
  - by apply Receive_again.
Qed.

End tallies.

Section receive_twice_examples.
#[local] Existing Instances harness.float harness.ticketRank harness.mapRange
  harness.aggregate.

Lemma Receive_counts_once_witness :
  let m := harness.message 1 PREPARE_PHASE harness.base_chain None in
  let once := harness.after (instance.Receive m) harness.late in
  tallies_kept once (instance.Receive m once).2.
Proof.
  intros m once. destruct Receive_counts_once as (_ & _ & _ & Hinstance).
  apply (Hinstance harness.late m None). vm_compute. reflexivity.
Defined.

(** C6 as stated fails.  Every [Receive] runs the completion of the current
    phase again.  The started instance, its phase timeout elapsed, receives
    a PREPARE for the base chain from the holder of all the power: the first
    [Receive] ends QUALITY and begins PREPARE; the second, of the same
    message, finds the quorum of PREPARE and begins COMMIT.  Both return
    nil. *)
Lemma Receive_twice_counterexample :
  let m := harness.message 1 PREPARE_PHASE harness.base_chain None in
  let once := harness.after (instance.Receive m) harness.late in
  let twice := harness.after (instance.Receive m) once in
  instance_reachable harness.late
  ∧ (instance.Receive m harness.late).1 = Return None
  ∧ (instance.Receive m once).1 = Return None
  ∧ instance.Phase_ (instance.self once) = PREPARE_PHASE
  ∧ instance.Phase_ (instance.self twice) = COMMIT_PHASE
  ∧ instance.self twice ≠ instance.self once.
Proof.
  intros m once twice.
  assert (instance.Phase_ (instance.self once) = PREPARE_PHASE) as Honce
    by (vm_compute; reflexivity).
  assert (instance.Phase_ (instance.self twice) = COMMIT_PHASE) as Htwice
    by (vm_compute; reflexivity).
  split; [|split; [|split; [|split; [|split]]]].
  - apply reachable_time. apply reachable_Start.
    apply (reachable_created harness.participant 0 harness.chain3
             harness.supplement harness.table1 [5]).
    reflexivity.
  - vm_compute. reflexivity.
  - vm_compute. reflexivity.
  - exact Honce.
  - exact Htwice.
  - intros Heq. rewrite Heq, Honce in Htwice. discriminate Htwice.
Qed.

(** The same happens to the candidates: the QUALITY message that completes
    the quorum for the input makes the input a candidate; received again
    after the phase has ended, it makes the next shorter prefix a candidate
    as well. *)
Example Receive_twice_candidates :
  let m := harness.message 1 QUALITY_PHASE harness.chain3 None in
  let once := harness.after (instance.Receive m) harness.started in
  let twice := harness.after (instance.Receive m) once in
  size (instance.candidates (instance.self once)) = 2%nat
  ∧ size (instance.candidates (instance.self twice)) = 3%nat.
Proof. split; vm_compute; reflexivity. Qed.

End receive_twice_examples.

(** ** Prefixes, bases and suffixes of chains *)

Lemma epochs_strictly_increasing_take c n :
  epochs_strictly_increasing c → epochs_strictly_increasing (take n c).
Proof.
  intros Hinc i ti tj Hi Hj.
  apply lookup_take_Some in Hi as [Hi _]. apply lookup_take_Some in Hj as [Hj _].
  by apply (Hinc i).
Qed.

(** X1.  How [Prefix], [BaseChain], [Base] and [Suffix] fit together: a
    prefix of a prefix is the shorter prefix; [Prefix 0] is the base chain
    and the prefix up to the head is the chain itself; a prefix has the
    length asked or that of the chain, keeps the base, and is an initial
    segment of the chain; and a chain is its base chain followed by its
    suffix. *)
Theorem Prefix_laws (c : ECChain.t) (a b : nat) :
  ECChain.Prefix (ECChain.Prefix c a) b = ECChain.Prefix c (a `min` b)
  ∧ ECChain.Prefix c 0 = ECChain.BaseChain c
  ∧ ECChain.Prefix c (ECChain.Len c - 1) = c
  ∧ ECChain.Len (ECChain.Prefix c a) = (S a `min` ECChain.Len c)%nat
  ∧ ECChain.Base (ECChain.Prefix c a) = ECChain.Base c
  ∧ ECChain.Prefix c a `prefix_of` c
  ∧ ECChain.BaseChain c ++ ECChain.Suffix c = c.
Proof.
  rewrite !Prefix_take. unfold ECChain.Len.
  split; [|split; [|split; [|split; [|split; [|split]]]]].
  - rewrite take_take. f_equal. lia.
  - by destruct c as [|t [|t' c]].
  - apply take_ge. lia.
  - rewrite length_take. lia.
  - destruct c as [|t c]; [by rewrite take_nil|].
    by replace (a + 1)%nat with (S a) by lia.
  - apply prefix_take.
  - by destruct c.
Qed.

(** X2.  Every prefix of a chain that validates validates. *)
Theorem Prefix_Validate (c : ECChain.t) (to : nat) :
  ECChain.Validate c = None → ECChain.Validate (ECChain.Prefix c to) = None.
Proof.
  rewrite Prefix_take. unfold ECChain.Validate, ECChain.IsZero.
  destruct c as [|t c]; [by rewrite take_nil|].
  replace (to + 1)%nat with (S to) by lia. cbn [take length Nat.eqb].
  destruct (Nat.ltb_spec ChainMaxLen (S (length c))) as [Hlong|Hlen]; [done|].
  destruct (Nat.ltb_spec ChainMaxLen (S (length (take to c)))) as [Hlong|_].
  { rewrite length_take in Hlong. lia. }
  rewrite !Validate_from_None. intros (Hall & Hhd & Hinc).
  split; [|split].
  - change (t :: take to c) with (take (S to) (t :: c)). by apply Forall_take.
  - done.
  - change (t :: take to c) with (take (S to) (t :: c)).
    by apply epochs_strictly_increasing_take.
Qed.

Lemma Prefix_Validate_witness :
  ECChain.Validate (ECChain.Prefix harness.chain3 1) = None.
Proof. apply (Prefix_Validate harness.chain3 1). reflexivity. Defined.

(** ** Equality of tipsets and chains *)

Lemma TipSet_Equal_val_eq a b : TipSet.Equal_val a b = true ↔ a = b.
Proof.
  unfold TipSet.Equal_val, Cid.Equals. rewrite !andb_true_iff, !bool_decide_eq_true.
  rewrite Z.eqb_eq. destruct a, b; simpl. split.
  - intros [[[-> ->] ->] ->]. done.
  - intros [= -> -> -> ->]. done.
Qed.

Lemma Eq_from_eq c : ∀ other,
  length c = length other → ECChain.Eq_from c other = true ↔ c = other.
Proof.
  induction c as [|x c IH]; intros [|y other] Hlen; simpl in *; try done.
  destruct (TipSet.Equal_val x y) eqn:Hxy; simpl.
  - apply TipSet_Equal_val_eq in Hxy as ->. rewrite IH by lia.
    split; [by intros -> | by intros [= ->]].
  - split; [done|]. intros [= -> ->].
    assert (TipSet.Equal_val y y = true) by by apply TipSet_Equal_val_eq.
    congruence.
Qed.

(** X3.  [Eq] holds of two chains exactly when they are the same sequence of
    tipsets, [Equal] of two tipset pointers exactly when both are nil or
    both point to equal tipsets, and [HasBase] exactly when the chain is not
    zero and the tipset is its first. *)
Theorem ECChain_Eq_spec (c other : ECChain.t) (a b : option TipSet.t) :
  (ECChain.Eq c other = true ↔ c = other)
  ∧ (TipSet.Equal a b = true ↔ a = b)
  ∧ (ECChain.HasBase c a = true ↔ c ≠ [] ∧ a = head c).
Proof.
  assert (∀ a b, TipSet.Equal a b = true ↔ a = b) as Hequal.
  { intros [x|] [y|]; simpl; [|done..].
    rewrite TipSet_Equal_val_eq. split; [by intros -> | by intros [= ->]]. }
  split; [|split; [apply Hequal|]].
  - unfold ECChain.Eq. destruct (Nat.eqb_spec (length c) (length other)) as [Hlen|Hlen];
      simpl.
    + by apply Eq_from_eq.
    + split; [done|]. intros ->. done.
  - unfold ECChain.HasBase, ECChain.Base, ECChain.IsZero.
    destruct c as [|t c]; simpl.
    + rewrite andb_false_r. simpl. split; [done | by intros [? _]].
    + rewrite andb_true_r. destruct a as [x|]; simpl.
      * rewrite TipSet_Equal_val_eq. split; [by intros -> | by intros [_ [= ->]]].
      * split; [done | by intros [_ ?]].
Qed.

(** ** The key of a chain determines the chain *)

Lemma be_bytes_mod n : ∀ z1 z2,
  be_bytes n z1 = be_bytes n z2 →
  z1 mod 2 ^ (8 * Z.of_nat n) = z2 mod 2 ^ (8 * Z.of_nat n).
Proof.
  induction n as [|n IH]; intros z1 z2; simpl be_bytes.
  - intros _. change (2 ^ (8 * Z.of_nat 0)) with 1. by rewrite !Z.mod_1_r.
  - intros Heq. apply app_inj_2 in Heq as [Hhigh Hlow]; [|done].
    injection Hlow as Hlow. apply IH in Hhigh.
    change 255 with (Z.ones 8) in Hlow. rewrite !Z.land_ones in Hlow by lia.
    rewrite !Z.shiftr_div_pow2 in Hhigh by lia.
    replace (8 * Z.of_nat (S n)) with (8 + 8 * Z.of_nat n) by lia.
    rewrite Z.pow_add_r by lia.
    rewrite !(Z.rem_mul_r _ (2 ^ 8)) by lia. by rewrite Hhigh, Hlow.
Qed.

Lemma be_bytes_int64_inj z1 z2 :
  Int64.in_range z1 → Int64.in_range z2 → be_bytes 8 z1 = be_bytes 8 z2 → z1 = z2.
Proof.
  unfold Int64.in_range, Int64.min_int, Int64.max_int.
  intros H1 H2 Heq%be_bytes_mod. change (2 ^ (8 * Z.of_nat 8)) with (2 ^ 64) in Heq.
  assert ((z1 + 2 ^ 63) mod 2 ^ 64 = (z2 + 2 ^ 63) mod 2 ^ 64) as Hshift
    by by rewrite <- Zplus_mod_idemp_l, Heq, Zplus_mod_idemp_l.
  rewrite !Z.mod_small in Hshift by lia. lia.
Qed.

Lemma be_bytes_uint32_inj (n1 n2 : nat) :
  Z.of_nat n1 < 2 ^ 32 → Z.of_nat n2 < 2 ^ 32 →
  be_bytes 4 (Z.of_nat n1) = be_bytes 4 (Z.of_nat n2) → n1 = n2.
Proof.
  intros H1 H2 Heq%be_bytes_mod. change (2 ^ (8 * Z.of_nat 4)) with (2 ^ 32) in Heq.
  rewrite !Z.mod_small in Heq by lia. lia.
Qed.

Lemma Key_tipset_inj n t1 t2 rest1 rest2 :
  tipset_fixed_width n t1 → tipset_fixed_width n t2 →
  ECChain.Key_tipset t1 ++ rest1 = ECChain.Key_tipset t2 ++ rest2 →
  t1 = t2 ∧ rest1 = rest2.
Proof.
  intros (He1 & Hc1 & Hk1 & Hp1) (He2 & Hc2 & Hk2 & Hp2).
  unfold ECChain.Key_tipset, Cid.Bytes, Cid.ByteLen in *.
  rewrite <- !(assoc_L (++)).
  intros Heq. apply app_inj_1 in Heq as [Hepoch Heq];
    [|by rewrite !length_be_bytes].
  apply be_bytes_int64_inj in Hepoch; [|done..].
  apply app_inj_1 in Heq as [Hcommit Heq]; [|congruence].
  apply app_inj_1 in Heq as [Hlen Heq]; [|by rewrite !length_be_bytes].
  apply be_bytes_uint32_inj in Hlen; [|done..].
  apply app_inj_1 in Heq as [Hkey Heq]; [|done].
  apply app_inj_1 in Heq as [Hpt Heq]; [|congruence].
  split; [|done]. destruct t1, t2; simpl in *. congruence.
Qed.

(** X4.  [Key] completely determines the sequence of tipsets: two chains of
    tipsets of fixed width (as the tipsets of go-f3 are, their power-table
    CIDs all of one length) that have the same key are the same chain.  In
    particular only the zero chain has the zero key. *)
Theorem Key_injective (n : nat) (c1 c2 : ECChain.t) :
  Forall (tipset_fixed_width n) c1 → Forall (tipset_fixed_width n) c2 →
  ECChain.Key c1 = ECChain.Key c2 → c1 = c2.
Proof.
  revert c2. induction c1 as [|t1 c1 IH]; intros c2 H1 H2 Heq.
  - symmetry. apply Key_nil_iff. by rewrite <- Heq.
  - destruct c2 as [|t2 c2].
    { by apply Key_nil_iff in Heq. }
    apply Forall_cons in H1 as [Ht1 H1]. apply Forall_cons in H2 as [Ht2 H2].
    change (ECChain.Key_tipset t1 ++ ECChain.Key c1
            = ECChain.Key_tipset t2 ++ ECChain.Key c2) in Heq.
    apply (Key_tipset_inj n) in Heq as [-> Heq]; [|done..].
    f_equal. by apply IH.
Qed.

Lemma Key_injective_witness :
  ECChain.Prefix harness.chain3 1 = harness.chain2.
Proof.
  apply (Key_injective 3 (ECChain.Prefix harness.chain3 1) harness.chain2).
  - repeat constructor; vm_compute; (done || by intros [=]).
  - repeat constructor; vm_compute; (done || by intros [=]).
  - reflexivity.
Defined.

(** ** Extending a chain *)

Lemma Extend_from_extension offset pt tips : ∀ i c,
  ECChain.Extend_from i offset pt tips c = c ++ extension i offset pt tips.
Proof.
  induction tips as [|tip tips IH]; intros i c; cbn [ECChain.Extend_from].
  - unfold extension. simpl. by rewrite app_nil_r.
  - rewrite IH, <- (assoc_L (++)). f_equal. unfold extension.
    rewrite imap_cons. cbn [app]. f_equal.
    + by rewrite Nat.add_0_r.
    + apply imap_ext. intros j t _. unfold compose. do 3 f_equal. lia.
Qed.

Lemma extension_lookup i offset pt tips j tip :
  tips !! j = Some tip →
  extension i offset pt tips !! j
  = Some (TipSet.mk (Int64.add offset (Z.of_nat (i + j))) tip pt (replicate 32 0)).
Proof. intros Hj. unfold extension. by rewrite list_lookup_imap, Hj. Qed.

Lemma length_extension i offset pt tips :
  length (extension i offset pt tips) = length tips.
Proof. unfold extension. by rewrite length_imap. Qed.

Lemma epochs_strictly_increasing_app c ext tl :
  epochs_strictly_increasing c → epochs_strictly_increasing ext →
  last c = Some tl →
  (∀ ts, head ext = Some ts → TipSet.Epoch tl < TipSet.Epoch ts) →
  epochs_strictly_increasing (c ++ ext).
Proof.
  intros Hc Hext Hlast Hjoin i ti tj Hi Hj. unfold ECChain.t in Hi, Hj.
  destruct (decide (S i < length c)%nat) as [Hin|Hout].
  - rewrite lookup_app_l in Hi by lia. rewrite lookup_app_l in Hj by lia.
    by apply (Hc i).
  - destruct (decide (i < length c)%nat) as [Hlt|Hge].
    + assert (S i = length c) as Hi' by lia.
      rewrite lookup_app_l in Hi by lia. rewrite lookup_app_r in Hj by lia.
      rewrite Hi', Nat.sub_diag in Hj.
      rewrite last_lookup in Hlast.
      replace (pred (length c)) with i in Hlast by lia.
      assert (ti = tl) as -> by congruence.
      apply Hjoin. by destruct ext.
    + rewrite lookup_app_r in Hi by lia. rewrite lookup_app_r in Hj by lia.
      apply (Hext (i - length c)%nat); [done|].
      by replace (S (i - length c)) with (S i - length c)%nat by lia.
Qed.

(** X5.  [Extend] panics on the zero chain.  On any other chain it appends
    one tipset for each key, at consecutive epochs after the head, with the
    power table of the head and zero commitments, so the chain extended is
    the prefix of the result of its own length.  When the chain was made by
    [NewChain], the keys are neither empty nor longer than 760 bytes, the
    result has at most 128 tipsets and the epochs do not leave [int64], the
    result is the chain [NewChain] makes of the same base and the longer
    suffix: it validates. *)
Theorem Extend_spec (c : ECChain.t) (tips : list (list Z)) :
  ECChain.Extend [] tips = Panic "nil pointer dereference"
  ∧ ∀ head : TipSet.t,
      ECChain.Head c = Some head →
      let appended :=
        extension 0 (Int64.add (TipSet.Epoch head) 1) (TipSet.PowerTable head) tips in
      ECChain.Extend c tips = Return (c ++ appended)
      ∧ ECChain.Len (c ++ appended) = (ECChain.Len c + length tips)%nat
      ∧ ECChain.Prefix (c ++ appended) (ECChain.Len c - 1) = c
      ∧ (∀ base suffix,
           ECChain.NewChain base suffix = (c, None) →
           Forall (λ tip, (0 < length tip ≤ TipsetKeyMaxLen)%nat) tips →
           (ECChain.Len c + length tips ≤ ChainMaxLen)%nat →
           TipSet.Epoch head + Z.of_nat (length tips) <= Int64.max_int →
           ECChain.NewChain base (suffix ++ appended) = (c ++ appended, None)).
Proof.
  split; [done|]. intros head Hhead appended.
  unfold ECChain.Head, ECChain.IsZero in Hhead.
  destruct c as [|t c]; [done|]. cbn [length Nat.eqb] in Hhead.
  split; [|split; [|split]].
  - unfold ECChain.Extend, ECChain.Head, ECChain.IsZero. cbn [length Nat.eqb].
    rewrite Hhead. cbv zeta. by rewrite Extend_from_extension.
  - unfold ECChain.Len. rewrite length_app. unfold appended.
    by rewrite length_extension.
  - rewrite Prefix_take. unfold ECChain.Len.
    replace (length (t :: c) - 1 + 1)%nat with (length (t :: c)) by (simpl; lia).
    by rewrite take_app_length.
  - intros base suffix Hnew Htips Hlen Hepochs.
    unfold ECChain.NewChain in *. cbv zeta in *.
    destruct (ECChain.Validate (base :: suffix)) as [err|] eqn:Hvalid; [done|].
    injection Hnew as <- <-.
    change (base :: suffix ++ appended) with ((base :: suffix) ++ appended).
    assert (ECChain.Validate ((base :: suffix) ++ appended) = None) as ->; [|done].
    unfold ECChain.Validate, ECChain.IsZero in *. cbn [app length Nat.eqb] in *.
    destruct (Nat.ltb_spec ChainMaxLen (S (length suffix))) as [?|_]; [done|].
    unfold ECChain.Len in Hlen. cbn [length] in Hlen.
    assert (length appended = length tips) as Happended
      by apply length_extension.
    destruct (Nat.ltb_spec ChainMaxLen (S (length (suffix ++ appended)))) as [Hlong|_].
    { rewrite length_app in Hlong. lia. }
    apply Validate_from_None in Hvalid as (Hall & Hhd & Hinc).
    change (base :: suffix ++ appended) with ((base :: suffix) ++ appended).
    apply Validate_from_None.
    assert (head ∈ base :: suffix) as Hin.
    { rewrite last_lookup in Hhead. by eapply list_elem_of_lookup_2. }
    assert (tipset_well_formed head) as [_ Hpt]
      by (rewrite Forall_forall in Hall; by apply Hall).
    assert (∀ j : Z, 0 <= j < Z.of_nat (length tips) →
              Int64.add (Int64.add (TipSet.Epoch head) 1) j
              = TipSet.Epoch head + 1 + j) as Hexact.
    { intros j Hj.
      assert (-1 < TipSet.Epoch head) as Hpos.
      { rewrite last_lookup in Hhead. cbn [length pred] in Hhead.
        clear -Hhead Hhd Hinc.
        assert (∀ (k : nat) ts, (base :: suffix) !! k = Some ts → -1 < TipSet.Epoch ts)
          as Hall; [|by eapply Hall].
        induction k as [|k IH]; intros ts Hk.
        - apply Hhd. by simplify_eq/=.
        - destruct (lookup_lt_is_Some_2 (base :: suffix) k) as [tk Htk].
          { apply lookup_lt_Some in Hk. lia. }
          pose proof (IH tk Htk). pose proof (Hinc k tk ts Htk Hk). lia. }
      unfold Int64.max_int in Hepochs.
      rewrite (Int64_add_exact (TipSet.Epoch head) 1)
        by (unfold Int64.in_range, Int64.min_int, Int64.max_int; lia).
      rewrite Int64_add_exact
        by (unfold Int64.in_range, Int64.min_int, Int64.max_int; lia).
      lia. }
    split; [|split].
    + apply Forall_app. split; [done|]. apply Forall_forall. intros ts Hts.
      apply list_elem_of_lookup in Hts as [j Hj].
      unfold appended, extension in Hj. rewrite list_lookup_imap in Hj.
      destruct (tips !! j) as [tip|] eqn:Htip; [|done]. injection Hj as <-.
      split; simpl; [|done].
      rewrite Forall_forall in Htips. apply Htips. by eapply list_elem_of_lookup_2.
    + done.
    + apply (epochs_strictly_increasing_app _ _ head); [done| |done|].
      * intros j ti tj Hi Hj. unfold ECChain.t, appended, extension in Hi, Hj.
        rewrite list_lookup_imap in Hi, Hj.
        destruct (tips !! j) as [tipi|] eqn:Htipi; [|done].
        destruct (tips !! S j) as [tipj|] eqn:Htipj; [|done].
        injection Hi as <-. injection Hj as <-. simpl.
        apply lookup_lt_Some in Htipi, Htipj.
        rewrite !Hexact by lia. lia.
      * intros ts Hts. unfold appended, extension in Hts.
        destruct tips as [|tip tips']; [done|]. simpl in Hts. injection Hts as <-.
        simpl. rewrite Hexact by (simpl; lia). lia.
Qed.

Lemma Extend_spec_witness :
  ECChain.Extend harness.chain2 [[7]]
  = Return (harness.chain2
            ++ [TipSet.mk 952 [7] (harness.cid 0) (replicate 32 0)])
  ∧ ECChain.NewChain (harness.tipset 950)
      [harness.tipset 951; TipSet.mk 952 [7] (harness.cid 0) (replicate 32 0)]
    = (harness.chain2 ++ [TipSet.mk 952 [7] (harness.cid 0) (replicate 32 0)], None).
Proof.
  destruct (Extend_spec harness.chain2 [[7]]) as [_ Hspec].
  assert (ECChain.Head harness.chain2 = Some (harness.tipset 951)) as Hhead
    by reflexivity.
  apply Hspec in Hhead as Hchain2. cbv zeta in Hchain2.
  destruct Hchain2 as (Hextend & _ & _ & Hvalid).
  split; [exact Hextend|].
  apply (Hvalid (harness.tipset 950) [harness.tipset 951]).
  - reflexivity.
  - apply Forall_cons. split; [|constructor].
    unfold TipsetKeyMaxLen, CidMaxLen. simpl. lia.
  - unfold ChainMaxLen. simpl. lia.
  - vm_compute. by intros [=].
Defined.

(** ** Tipset keys and their CIDs *)

Section tipset_key_cids.
Context `{CidReader}.

(** The CIDs go-cid can make. *)
Variable valid : Cid.t → Prop.

(** The contract of go-cid: the bytes of a CID are not empty, and reading
    them back, whatever follows, gives the CID and its length. *)
Hypothesis CidFromBytes_Bytes : ∀ (c : Cid.t) (rest : list Z),
  valid c →
  Cid.Bytes c ≠ []
  ∧ CidFromBytes (Cid.Bytes c ++ rest) = (length (Cid.Bytes c), c, None).

Lemma cidsFromTipSetKey_loop_cids cids : ∀ fuel pre read,
  Forall valid cids →
  (length (concat (Cid.Bytes <$> cids)) < fuel)%nat →
  cidsFromTipSetKey_loop fuel (pre ++ concat (Cid.Bytes <$> cids)) (length pre) read
  = Some (read ++ cids, None).
Proof.
  induction cids as [|c cids IH]; intros fuel pre read Hvalid Hfuel.
  - destruct fuel as [|fuel]; [simpl in Hfuel; lia|]. simpl.
    rewrite !app_nil_r, Nat.ltb_irrefl. done.
  - apply Forall_cons in Hvalid as [Hc Hvalid].
    destruct (CidFromBytes_Bytes c (concat (Cid.Bytes <$> cids)) Hc) as [Hne Hread].
    cbn [fmap list_fmap concat] in *. rewrite length_app in Hfuel.
    destruct fuel as [|fuel]; [lia|]. cbn [cidsFromTipSetKey_loop].
    assert (0 < length (Cid.Bytes c))%nat as Hlen
      by (destruct (Cid.Bytes c); [done | simpl; lia]).
    destruct (Nat.ltb_spec (length pre)
                (length (pre ++ Cid.Bytes c ++ concat (Cid.Bytes <$> cids))))
      as [_|Hge]; [|rewrite !length_app in Hge; lia].
    rewrite drop_app_length, Hread.
    rewrite (assoc_L (++) pre), <- (length_app pre).
    rewrite IH by (done || lia). by rewrite <- (assoc_L (++)).
Qed.

(** X6.  Splitting the key that [tipSetKeyFromCids] makes of a list of CIDs
    gives the list back: [cidsFromTipSetKey] ends, returns no error and
    returns those CIDs; for the empty key it returns no CID. *)
Theorem cidsFromTipSetKey_round_trip (cids : list Cid.t) :
  Forall valid cids →
  cidsFromTipSetKey (tipSetKeyFromCids cids).1 = Some (cids, None).
Proof.
  intros Hvalid. unfold cidsFromTipSetKey, tipSetKeyFromCids. cbn [fst].
  apply (cidsFromTipSetKey_loop_cids cids _ [] []); [done | lia].
Qed.

End tipset_key_cids.

Lemma cidsFromTipSetKey_round_trip_witness :
  @cidsFromTipSetKey harness.cid_reader
    (tipSetKeyFromCids [[2; 10; 11]; [0]; [1; 7]]).1
  = Some ([[2; 10; 11]; [0]; [1; 7]], None).
Proof.
  apply (@cidsFromTipSetKey_round_trip harness.cid_reader
           (λ c, ∃ n body, c = Z.of_nat n :: body ∧ length body = n)).
  - intros c rest (n & body & -> & <-). split; [done|].
    unfold Cid.Bytes. simpl. rewrite Nat2Z.id, length_app.
    destruct (Nat.leb_spec (length body) (length body + length rest)) as [_|?];
      [|lia].
    by rewrite take_app_length.
  - repeat constructor.
    + by exists 2%nat, [10; 11].
    + by exists 0%nat, [].
    + by exists 1%nat, [7].
Defined.

(** ** Quorums that exclude each other *)

Lemma IsStrongQuorum_nonneg p n :
  0 <= n → 2 * n <= Int64.max_int →
  IsStrongQuorum p n = true ↔ ceilDiv (2 * n) 3 <= p.
Proof.
  intros Hn Hmax. unfold IsStrongQuorum.
  rewrite Int64_mul_exact
    by (unfold Int64.in_range, Int64.min_int, Int64.max_int in *; lia).
  rewrite divCeil_3_nonneg by lia. apply Z.leb_le.
Qed.

Lemma hasWeakQuorum_nonneg p n :
  0 <= n → n <= Int64.max_int →
  hasWeakQuorum p n = true ↔ ceilDiv n 3 < p.
Proof.
  intros Hn Hmax. unfold hasWeakQuorum.
  rewrite divCeil_3_nonneg by lia. apply Z.ltb_lt.
Qed.

(** X7.  Two parts of a whole that do not overlap exclude each other: when
    one is a strong quorum the other is not a weak quorum, when one is a
    weak quorum the other is not a strong quorum, and, of a whole that is
    not zero, they are not both strong quorums.  The whole power is a strong
    quorum. *)
Theorem quorum_blocking (p p' n : Z) :
  0 <= p → 0 <= p' → p + p' <= n → 2 * n <= Int64.max_int →
  IsStrongQuorum n n = true
  ∧ (IsStrongQuorum p n = true → hasWeakQuorum p' n = false)
  ∧ (hasWeakQuorum p n = true → IsStrongQuorum p' n = false)
  ∧ (0 < n → IsStrongQuorum p n = true → IsStrongQuorum p' n = false).
Proof.
  intros Hp Hp' Hsum Hmax.
  assert (0 <= n) as Hn by lia.
  assert (n <= Int64.max_int) as Hn' by lia.
  pose proof (ceilDiv_spec (2 * n) 3 ltac:(lia)) as Hstrong.
  pose proof (ceilDiv_spec n 3 ltac:(lia)) as Hweak.
  split; [|split; [|split]].
  - apply IsStrongQuorum_nonneg; [done..|]. lia.
  - intros Hq%IsStrongQuorum_nonneg; [|done..].
    apply not_true_is_false. intros Hw%hasWeakQuorum_nonneg; [|done..]. lia.
  - intros Hw%hasWeakQuorum_nonneg; [|done..].
    apply not_true_is_false. intros Hq%IsStrongQuorum_nonneg; [|done..]. lia.
  - intros Hpos Hq%IsStrongQuorum_nonneg; [|done..].
    apply not_true_is_false. intros Hq'%IsStrongQuorum_nonneg; [|done..]. lia.
Qed.

Lemma quorum_blocking_witness :
  IsStrongQuorum 65535 65535 = true
  ∧ (IsStrongQuorum 43690 65535 = true → hasWeakQuorum 21845 65535 = false)
  ∧ (hasWeakQuorum 43690 65535 = true → IsStrongQuorum 21845 65535 = false)
  ∧ (0 < 65535 → IsStrongQuorum 43690 65535 = true
     → IsStrongQuorum 21845 65535 = false).
Proof. apply (quorum_blocking 43690 21845 65535); vm_compute; by intros [=]. Defined.

(** ** The books of the quorum accumulator *)

(** X8.  The books of a quorum accumulator are exact.  In every state
    reached by receiving, over a well-formed power table: the total is the
    power of the senders; the signers of a value are senders and its support
    is their power, so between zero and the total, which is at most the
    power of the table; a value has a strong quorum exactly when it is
    recorded and its support is at least two thirds of the power of the
    table, rounded up; and so for the senders as a whole. *)
Theorem quorum_bookkeeping (p : PowerTable.t) (q : quorumState.t) (key : list Z) :
  PowerTable_wf p → quorum_reachable p q →
  quorumState.sendersTotalPower q = power_of p (elements (quorumState.senders q))
  ∧ signers_of q key ⊆ quorumState.senders q
  ∧ support q key = power_of p (elements (signers_of q key))
  ∧ 0 <= support q key <= quorumState.sendersTotalPower q
  ∧ quorumState.sendersTotalPower q <= PowerTable.ScaledTotal p
  ∧ (quorumState.HasStrongQuorumFor q key = true
     ↔ is_Some (quorumState.chainSupport_ q !! key)
       ∧ ceilDiv (2 * PowerTable.ScaledTotal p) 3 <= support q key)
  ∧ (quorumState.ReceivedFromStrongQuorum q = true
     ↔ ceilDiv (2 * PowerTable.ScaledTotal p) 3 <= quorumState.sendersTotalPower q).
Proof.
  intros Hwf Hreach.
  pose proof (reachable_inv p q Hwf Hreach) as Hinv.
  pose proof (reachable_power_bounds p q key Hwf Hreach) as [Hsupport Htotal].
  destruct (reachable_signers p q Hreach) as [Htable Hsigners].
  split; [apply (inv_total p q Hinv)|].
  split; [apply Hsigners|].
  split; [by apply support_power_of|].
  split; [done|]. split; [done|]. split.
  - unfold quorumState.HasStrongQuorumFor, support.
    destruct (quorumState.chainSupport_ q !! key) as [cs|] eqn:Hkey.
    + rewrite (inv_quorum p q Hinv key cs Hkey), IsStrongQuorum_wf by done.
      split; [by intros ? | by intros [_ ?]].
    + split; [done | by intros [[? ?] _]].
  - unfold quorumState.ReceivedFromStrongQuorum. rewrite Htable.
    by apply IsStrongQuorum_wf.
Qed.

Lemma quorum_bookkeeping_witness :
  let key := ECChain.Key harness.chain2 in
  quorumState.sendersTotalPower harness.voted3
  = power_of harness.table3 (elements (quorumState.senders harness.voted3))
  ∧ signers_of harness.voted3 key ⊆ quorumState.senders harness.voted3
  ∧ support harness.voted3 key
    = power_of harness.table3 (elements (signers_of harness.voted3 key))
  ∧ 0 <= support harness.voted3 key <= quorumState.sendersTotalPower harness.voted3
  ∧ quorumState.sendersTotalPower harness.voted3
    <= PowerTable.ScaledTotal harness.table3
  ∧ (quorumState.HasStrongQuorumFor harness.voted3 key = true
     ↔ is_Some (quorumState.chainSupport_ harness.voted3 !! key)
       ∧ ceilDiv (2 * PowerTable.ScaledTotal harness.table3) 3
         <= support harness.voted3 key)
  ∧ (quorumState.ReceivedFromStrongQuorum harness.voted3 = true
     ↔ ceilDiv (2 * PowerTable.ScaledTotal harness.table3) 3
       <= quorumState.sendersTotalPower harness.voted3).
Proof.
  intros key. apply (quorum_bookkeeping harness.table3 harness.voted3 key).
  - exact table3_wf.
  - apply receive_all_reachable. constructor.
Defined.

(** ** Votes are never lost *)

#[local] Instance votes_grow_preorder : PreOrder votes_grow.
Proof.
  split.
  - intros q. split; [done|done| |done|done].
    intros key x Hx. apply elem_of_difference in Hx as [Hin Hout]. done.
  - intros q1 q2 q3 [Hs1 Hg1 Hn1 Hk1 Hj1] [Hs2 Hg2 Hn2 Hk2 Hj2]. split.
    + etrans; [exact Hs1 | exact Hs2].
    + intros key. etrans; [apply Hg1 | apply Hg2].
    + intros key x Hx. apply elem_of_difference in Hx as [Hin Hout].
      destruct (decide (x ∈ signers_of q2 key)) as [Hmid|Hmid].
      * assert (x ∈ quorumState.senders q2 ∖ quorumState.senders q1) as Hx
          by (apply (Hn1 key); apply elem_of_difference; done).
        apply elem_of_difference in Hx as [Hx2 Hx1].
        apply elem_of_difference. split; [by apply Hs2 | done].
      * assert (x ∈ quorumState.senders q3 ∖ quorumState.senders q2) as Hx
          by (apply (Hn2 key); apply elem_of_difference; done).
        apply elem_of_difference in Hx as [Hx3 Hx2].
        apply elem_of_difference. split; [done|]. intros Hx1. by apply Hx2, Hs1.
    + intros key Hkey. by apply Hk2, Hk1.
    + intros key j Hj. by apply Hj2, Hj1.
Qed.

Lemma new_signer_new_sender (signers senders : gset Z) sender :
  sender ∉ senders →
  ({[sender]} ∪ signers) ∖ signers ⊆ ({[sender]} ∪ senders) ∖ senders.
Proof.
  intros Hnew x [Hin Hout]%elem_of_difference.
  apply elem_of_union in Hin as [Hx|Hx]; [|done].
  apply elem_of_singleton in Hx as ->. apply elem_of_difference.
  split; [by apply elem_of_union_l, elem_of_singleton | done].
Qed.

Lemma signers_of_receiveSender q sender key :
  signers_of (quorumState.receiveSender q sender).1 key = signers_of q key.
Proof.
  unfold quorumState.receiveSender, signers_of. by destruct (bool_decide _).
Qed.

Lemma Receive_votes_grow q sender value signature q' :
  (∀ key, signers_of q key ⊆ quorumState.senders q) →
  quorumState.Receive q sender value signature = Return q' →
  votes_grow q q'.
Proof.
  intros Hsigners Hrun.
  destruct (decide (sender ∈ quorumState.senders q)) as [Hin|Hnew].
  { rewrite Receive_known in Hrun by done. injection Hrun as <-. reflexivity. }
  rewrite Receive_new in Hrun by done. cbv zeta in Hrun. injection Hrun as <-.
  rewrite receiveSender_new by done. cbn [fst].
  set (q1 := quorumState.mk _ _ _ _ _).
  assert (∀ key, signers_of q1 key = signers_of q key) as Hq1 by done.
  split.
  - simpl. apply union_subseteq_r.
  - intros key. rewrite signers_of_set_chainSupport.
    destruct (decide (ECChain.Key value = key)) as [<-|_]; [|by rewrite Hq1].
    rewrite record_support_signers, Hq1. apply union_subseteq_r.
  - intros key. rewrite signers_of_set_chainSupport.
    destruct (decide (ECChain.Key value = key)) as [<-|_].
    + rewrite record_support_signers, Hq1. simpl.
      by apply new_signer_new_sender.
    + rewrite Hq1. intros x [? ?]%elem_of_difference. done.
  - intros key [cs Hcs]. simpl.
    destruct (decide (ECChain.Key value = key)) as [<-|Hne].
    + rewrite lookup_insert_eq. by eexists.
    + rewrite lookup_insert_ne by done. by eexists.
  - done.
Qed.

Lemma ReceiveEachPrefix_votes_grow q sender values q' :
  (∀ key, signers_of q key ⊆ quorumState.senders q) →
  quorumState.ReceiveEachPrefix q sender values = Return q' →
  votes_grow q q'.
Proof.
  intros Hsigners Hrun.
  destruct (decide (sender ∈ quorumState.senders q)) as [Hin|Hnew].
  { rewrite ReceiveEachPrefix_known in Hrun by done. injection Hrun as <-.
    reflexivity. }
  destruct (ReceiveEachPrefix_new q sender values Hnew Hsigners)
    as (q'' & Hrun' & Hsenders & _ & _ & Hjust & Hkeys & Hother).
  cbv zeta in *. rewrite Hrun in Hrun'. injection Hrun' as <-.
  pose (keyof := λ j, ECChain.Key (ECChain.Prefix values (j + 1))).
  set (js := seq 0 (length (ECChain.Suffix values))) in *.
  assert (∀ key,
            signers_of q' key
            = if decide (key ∈ keyof <$> js) then {[sender]} ∪ signers_of q key
              else signers_of q key) as Hsig.
  { intros key. destruct (decide (key ∈ keyof <$> js)) as [Hk|Hk].
    - apply list_elem_of_fmap in Hk as (j & -> & Hj).
      unfold signers_of at 1, keyof. rewrite (Hkeys j Hj).
      apply record_support_signers.
    - unfold signers_of. by rewrite (Hother key Hk). }
  split.
  - rewrite Hsenders. apply union_subseteq_r.
  - intros key. rewrite Hsig. destruct (decide _); [apply union_subseteq_r | done].
  - intros key. rewrite Hsig, Hsenders.
    destruct (decide _); [by apply new_signer_new_sender|].
    intros x [? ?]%elem_of_difference. done.
  - intros key [cs Hcs]. destruct (decide (key ∈ keyof <$> js)) as [Hk|Hk].
    + apply list_elem_of_fmap in Hk as (j & -> & Hj). unfold keyof.
      rewrite (Hkeys j Hj). by eexists.
    + rewrite (Hother key Hk). by eexists.
  - intros key j. by rewrite Hjust.
Qed.

Lemma ReceiveJustification_votes_grow q value justification q' :
  quorumState.ReceiveJustification q value justification = Return q' →
  votes_grow q q'.
Proof.
  unfold quorumState.ReceiveJustification. destruct justification as [j|]; [|done].
  destruct (_ !! _) as [j'|] eqn:Hj; intros [= <-]; [reflexivity|].
  split; [done|done| |done|].
  { intros key x [? ?]%elem_of_difference. done. }
  simpl. intros key j0 Hkey.
  destruct (decide (ECChain.Key value = key)) as [<-|Hne]; [congruence|].
  by rewrite lookup_insert_ne.
Qed.

Lemma extends_reachable p q q' :
  quorum_reachable p q → quorum_extends q q' → quorum_reachable p q'.
Proof.
  intros Hq. induction 1 as [|q q1 sender value signature q' _ IH Hrun
                            |q q1 sender values q' _ IH Hrun
                            |q q1 value justification q' _ IH Hrun].
  - done.
  - by eapply reachable_Receive; [apply IH|].
  - by eapply reachable_ReceiveEachPrefix; [apply IH|].
  - by eapply reachable_ReceiveJustification; [apply IH|].
Qed.

Lemma extends_votes_grow p q q' :
  quorum_reachable p q → quorum_extends q q' → votes_grow q q'.
Proof.
  intros Hq. induction 1 as [|q q1 sender value signature q' Hext IH Hrun
                            |q q1 sender values q' Hext IH Hrun
                            |q q1 value justification q' Hext IH Hrun].
  - reflexivity.
  - etrans; [by apply IH|]. eapply Receive_votes_grow; [|done].
    by apply (reachable_signers p), (extends_reachable p q).
  - etrans; [by apply IH|]. eapply ReceiveEachPrefix_votes_grow; [|done].
    by apply (reachable_signers p), (extends_reachable p q).
  - etrans; [by apply IH|]. by eapply ReceiveJustification_votes_grow.
Qed.

Lemma power_of_subseteq p (A B : gset Z) :
  PowerTable_wf p → A ⊆ B →
  power_of p (elements B)
  = power_of p (elements A) + power_of p (elements (B ∖ A)).
Proof.
  intros Hwf Hsub. rewrite <- power_of_app. apply power_of_perm.
  rewrite <- elements_disj_union by (apply disjoint_difference_r1; done).
  by rewrite <- (union_difference_L A B).
Qed.

(** What the growth of the votes means for the powers on the books. *)
Lemma votes_grow_powers p q q' key :
  PowerTable_wf p → quorum_reachable p q → quorum_reachable p q' →
  votes_grow q q' →
  0 <= support q' key - support q key
    <= quorumState.sendersTotalPower q' - quorumState.sendersTotalPower q.
Proof.
  intros Hwf Hq Hq' [Hs Hg Hn _ _].
  pose proof (reachable_inv p q Hwf Hq) as Hinv.
  pose proof (reachable_inv p q' Hwf Hq') as Hinv'.
  rewrite (support_power_of p q key Hinv), (support_power_of p q' key Hinv').
  rewrite (inv_total p q Hinv), (inv_total p q' Hinv').
  rewrite (power_of_subseteq p _ _ Hwf (Hg key)), (power_of_subseteq p _ _ Hwf Hs).
  pose proof (power_of_nonneg p Hwf
                (elements (signers_of q' key ∖ signers_of q key))).
  assert (power_of p (elements (signers_of q' key ∖ signers_of q key))
          <= power_of p (elements (quorumState.senders q' ∖ quorumState.senders q))).
  { apply power_of_submseteq; [done|].
    apply NoDup_submseteq; [apply NoDup_elements|].
    intros x Hx%elem_of_elements. apply elem_of_elements. by apply (Hn key). }
  lia.
Qed.

(** X9.  A quorum accumulator never loses a vote.  From a reachable state
    to any later one, over a well-formed power table: the senders, and the
    signers and the support of every value, only grow; a strong quorum for a
    value, or of the senders, or a weak quorum of the senders, once there
    stays; and the justification kept for a value stays the first one. *)
Theorem votes_only_grow (p : PowerTable.t) (q q' : quorumState.t) (key : list Z) :
  PowerTable_wf p → quorum_reachable p q → quorum_extends q q' →
  quorumState.senders q ⊆ quorumState.senders q'
  ∧ signers_of q key ⊆ signers_of q' key
  ∧ support q key <= support q' key
  ∧ quorumState.sendersTotalPower q <= quorumState.sendersTotalPower q'
  ∧ (quorumState.HasStrongQuorumFor q key = true →
     quorumState.HasStrongQuorumFor q' key = true)
  ∧ (quorumState.ReceivedFromStrongQuorum q = true →
     quorumState.ReceivedFromStrongQuorum q' = true)
  ∧ (quorumState.ReceivedFromWeakQuorum q = true →
     quorumState.ReceivedFromWeakQuorum q' = true)
  ∧ (∀ j, quorumState.receivedJustification q !! key = Some j →
          quorumState.receivedJustification q' !! key = Some j).
Proof.
  intros Hwf Hq Hext.
  pose proof (extends_reachable p q q' Hq Hext) as Hq'.
  pose proof (extends_votes_grow p q q' Hq Hext) as Hgrow.
  pose proof (votes_grow_powers p q q' key Hwf Hq Hq' Hgrow) as Hpowers.
  pose proof (reachable_power_bounds p q key Hwf Hq) as [Hsupport Htotal].
  pose proof (reachable_inv p q Hwf Hq) as Hinv.
  pose proof (reachable_inv p q' Hwf Hq') as Hinv'.
  destruct (reachable_signers p q Hq) as [Htable _].
  destruct (reachable_signers p q' Hq') as [Htable' _].
  split; [apply (grow_senders q q' Hgrow)|].
  split; [apply (grow_signers q q' Hgrow)|].
  split; [lia|]. split; [lia|]. split; [|split; [|split]].
  - unfold quorumState.HasStrongQuorumFor.
    destruct (quorumState.chainSupport_ q !! key) as [cs|] eqn:Hcs; [|done].
    destruct (grow_keys q q' Hgrow key) as [cs' Hcs']; [by eexists|].
    rewrite Hcs', (inv_quorum p q Hinv key cs Hcs), (inv_quorum p q' Hinv' key cs' Hcs').
    apply IsStrongQuorum_mono. unfold support in Hpowers.
    rewrite Hcs, Hcs' in Hpowers. lia.
  - unfold quorumState.ReceivedFromStrongQuorum. rewrite Htable, Htable'.
    apply IsStrongQuorum_mono. lia.
  - unfold quorumState.ReceivedFromWeakQuorum, hasWeakQuorum.
    rewrite Htable, Htable', !Z.ltb_lt. lia.
  - apply (grow_justification q q' Hgrow).
Qed.

Lemma votes_only_grow_witness :
  let key := ECChain.Key harness.chain2 in
  let q := harness.receive_all (quorumState.newQuorumState harness.table3)
             [(9, harness.chain2); (4, harness.chain2)] in
  quorumState.senders q ⊆ quorumState.senders harness.voted3
  ∧ support q key <= support harness.voted3 key.
Proof.
  intros key q.
  assert (quorum_extends q harness.voted3) as Hext.
  { apply (extends_Receive q q 7 harness.chain2 (Some [7])); [constructor|].
    vm_compute. reflexivity. }
  destruct (votes_only_grow harness.table3 q harness.voted3 key table3_wf)
    as (Hsenders & _ & Hsupport & _).
  - apply receive_all_reachable. constructor.
  - exact Hext.
  - split; [exact Hsenders | exact Hsupport].
Defined.

(** ** Giving up on a value *)

(** In a reachable state none of the operations of
    [CouldReachStrongQuorumFor] wraps around. *)
Lemma CouldReachStrongQuorumFor_exact p q key withAdversary :
  PowerTable_wf p → quorum_reachable p q →
  quorumState.CouldReachStrongQuorumFor q key withAdversary = true
  ↔ ceilDiv (2 * PowerTable.ScaledTotal p) 3
    <= Z.min
         (support q key
          + (PowerTable.ScaledTotal p - quorumState.sendersTotalPower q)
          + (if withAdversary then PowerTable.ScaledTotal p / 3 else 0))
         (PowerTable.ScaledTotal p).
Proof.
  intros Hwf Hreach.
  destruct (reachable_signers p q Hreach) as [Hp _].
  destruct (reachable_power_bounds p q key Hwf Hreach) as [[Hs0 Hsp] Hpt].
  unfold quorumState.CouldReachStrongQuorumFor. cbv zeta.
  change (match quorumState.chainSupport_ q !! key with
          | Some supportForChain => chainSupport.power supportForChain
          | None => 0
          end) with (support q key).
  rewrite Hp. pose proof (wf_bound p Hwf) as Hb.
  pose proof (ScaledTotal_nonneg p Hwf) as H0.
  set (T := PowerTable.ScaledTotal p) in *.
  assert (0 <= T / 3 <= T) as Hthird.
  { split; [apply Z.div_pos; lia|]. apply Z.div_le_upper_bound; lia. }
  assert (∀ x, 0 <= x <= 2 * T → Int64.in_range x) as Hin.
  { intros x Hx. unfold Int64.in_range, Int64.min_int, Int64.max_int in *. lia. }
  rewrite (Int64_sub_exact T) by (apply Hin; lia).
  rewrite (Int64_add_exact (support q key)) by (apply Hin; lia).
  assert ((if withAdversary then Int64.quo T 3 else 0)
          = (if withAdversary then T / 3 else 0)) as ->.
  { destruct withAdversary; [|done].
    rewrite Int64_quo3_exact by (apply Hin; lia). apply Z.quot_div_nonneg; lia. }
  rewrite Int64_add_exact by (apply Hin; destruct withAdversary; lia).
  by apply IsStrongQuorum_wf.
Qed.

(** X10.  [CouldReachStrongQuorumFor] is a sound test for giving up on a
    value.  In a reachable state over a well-formed power table a value that
    has a strong quorum could reach one, and a value that could reach one
    could with the adversary counted; and when the test says that a value
    cannot reach a strong quorum, then in every later state of the
    accumulator the test still says so and the value has no strong quorum. *)
Theorem CouldReachStrongQuorumFor_sound (p : PowerTable.t) (q q' : quorumState.t)
    (key : list Z) (withAdversary : bool) :
  PowerTable_wf p → quorum_reachable p q → quorum_extends q q' →
  (quorumState.HasStrongQuorumFor q key = true →
   quorumState.CouldReachStrongQuorumFor q key withAdversary = true)
  ∧ (quorumState.CouldReachStrongQuorumFor q key false = true →
     quorumState.CouldReachStrongQuorumFor q key true = true)
  ∧ (quorumState.CouldReachStrongQuorumFor q key withAdversary = false →
     quorumState.CouldReachStrongQuorumFor q' key withAdversary = false
     ∧ quorumState.HasStrongQuorumFor q' key = false).
Proof.
  intros Hwf Hq Hext.
  pose proof (extends_reachable p q q' Hq Hext) as Hq'.
  pose proof (extends_votes_grow p q q' Hq Hext) as Hgrow.
  pose proof (votes_grow_powers p q q' key Hwf Hq Hq' Hgrow) as Hpowers.
  pose proof (reachable_power_bounds p q key Hwf Hq) as [Hsupport Htotal].
  pose proof (reachable_power_bounds p q' key Hwf Hq') as [Hsupport' Htotal'].
  pose proof (ScaledTotal_nonneg p Hwf) as H0.
  assert (0 <= PowerTable.ScaledTotal p / 3) as Hthird by (apply Z.div_pos; lia).
  assert (∀ q0, quorum_reachable p q0 →
            quorumState.HasStrongQuorumFor q0 key = true →
            quorumState.CouldReachStrongQuorumFor q0 key withAdversary = true)
    as Hhas.
  { intros q0 Hq0 Hquorum.
    pose proof (reachable_inv p q0 Hwf Hq0) as Hinv0.
    pose proof (reachable_power_bounds p q0 key Hwf Hq0) as [Hs0 Ht0].
    apply (CouldReachStrongQuorumFor_exact p); [done..|].
    unfold quorumState.HasStrongQuorumFor in Hquorum.
    destruct (quorumState.chainSupport_ q0 !! key) as [cs|] eqn:Hcs; [|done].
    rewrite (inv_quorum p q0 Hinv0 key cs Hcs), IsStrongQuorum_wf in Hquorum by done.
    unfold support in *. rewrite Hcs in *. destruct withAdversary; lia. }
  split; [by apply Hhas|]. split.
  - rewrite !(CouldReachStrongQuorumFor_exact p) by done. lia.
  - intros Hcannot.
    assert (quorumState.CouldReachStrongQuorumFor q' key withAdversary = false)
      as Hcannot'.
    { apply not_true_is_false. intros Hcan.
      apply (CouldReachStrongQuorumFor_exact p) in Hcan; [|done..].
      apply not_true_iff_false in Hcannot. apply Hcannot.
      apply (CouldReachStrongQuorumFor_exact p); [done..|].
      destruct withAdversary; lia. }
    split; [done|]. apply not_true_is_false. intros Hquorum.
    apply (Hhas q' Hq') in Hquorum. congruence.
Qed.

Lemma CouldReachStrongQuorumFor_sound_witness :
  let key := ECChain.Key harness.chain3 in
  let q := harness.receive_all (quorumState.newQuorumState harness.table3)
             [(7, harness.chain2); (4, harness.chain2)] in
  let q' := harness.receive_all q [(9, harness.chain3)] in
  quorumState.CouldReachStrongQuorumFor q' key false = false
  ∧ quorumState.HasStrongQuorumFor q' key = false.
Proof.
  intros key q q'.
  assert (quorum_extends q q') as Hext.
  { apply (extends_Receive q q 9 harness.chain3 (Some [9])); [constructor|].
    vm_compute. reflexivity. }
  destruct (CouldReachStrongQuorumFor_sound harness.table3 q q' key false table3_wf)
    as (_ & _ & Hcannot).
  - apply receive_all_reachable. constructor.
  - exact Hext.
  - apply Hcannot. vm_compute. reflexivity.
Defined.

(** ** One vote for each sender: at most one value has a strong quorum *)

Lemma single_vote_quorum_reachable p q :
  single_vote_reachable p q → quorum_reachable p q.
Proof.
  induction 1; [constructor| |].
  - by eapply reachable_Receive.
  - by eapply reachable_ReceiveJustification.
Qed.

Lemma ReceiveJustification_chainSupport q value justification q' :
  quorumState.ReceiveJustification q value justification = Return q' →
  quorumState.chainSupport_ q' = quorumState.chainSupport_ q
  ∧ quorumState.senders q' = quorumState.senders q.
Proof.
  unfold quorumState.ReceiveJustification. destruct justification as [j|]; [|done].
  by destruct (_ !! _); intros [= <-].
Qed.

(** No sender has voted for two values. *)
Lemma single_vote_disjoint p q k1 k2 :
  single_vote_reachable p q → k1 ≠ k2 → signers_of q k1 ## signers_of q k2.
Proof.
  intros Hq Hne. induction Hq as [|q sender value signature q' Hq IH Hrun
                                  |q value justification q' Hq IH Hrun].
  - unfold signers_of. simpl. rewrite !lookup_empty. apply disjoint_empty_l.
  - apply single_vote_quorum_reachable in Hq.
    destruct (reachable_signers p q Hq) as [_ Hsigners].
    destruct (decide (sender ∈ quorumState.senders q)) as [Hin|Hnew].
    { rewrite Receive_known in Hrun by done. by injection Hrun as <-. }
    rewrite Receive_new in Hrun by done. cbv zeta in Hrun. injection Hrun as <-.
    rewrite receiveSender_new by done. cbn [fst].
    set (q1 := quorumState.mk _ _ _ _ _).
    assert (∀ key, signers_of q1 key = signers_of q key) as Hq1 by done.
    rewrite !signers_of_set_chainSupport, record_support_signers, !Hq1.
    assert (∀ k, {[sender]} ## signers_of q k) as Hfresh.
    { intros k x Hx%elem_of_singleton Hk. subst x. by apply Hnew, (Hsigners k). }
    destruct (decide (ECChain.Key value = k1)) as [<-|H1];
      destruct (decide (ECChain.Key value = k2)) as [<-|H2]; try done.
    + apply disjoint_union_l. split; [apply Hfresh | done].
    + apply disjoint_union_r. split; [symmetry; apply Hfresh | done].
  - apply ReceiveJustification_chainSupport in Hrun as [Hsupport _].
    unfold signers_of in *. by rewrite Hsupport.
Qed.

(** The chain recorded under a key is a chain of that key. *)
Lemma recorded_chain_key p q key cs :
  quorum_reachable p q →
  quorumState.chainSupport_ q !! key = Some cs →
  ECChain.Key (chainSupport.chain cs) = key.
Proof.
  intros Hq. revert key cs.
  induction Hq as [|q sender value signature q' Hq IH Hrun
                  |q sender values q' Hq IH Hrun
                  |q value justification q' Hq IH Hrun]; intros key cs.
  - simpl. by rewrite lookup_empty.
  - destruct (reachable_signers p q Hq) as [_ Hsigners].
    destruct (decide (sender ∈ quorumState.senders q)) as [Hin|Hnew].
    { rewrite Receive_known in Hrun by done. injection Hrun as <-. apply IH. }
    rewrite Receive_new in Hrun by done. cbv zeta in Hrun. injection Hrun as <-.
    rewrite receiveSender_new by done. cbn [fst]. simpl.
    destruct (decide (ECChain.Key value = key)) as [<-|Hne].
    + rewrite lookup_insert_eq. intros [= <-]. unfold record_support. simpl.
      destruct (quorumState.chainSupport_ q !! ECChain.Key value) as [cs0|] eqn:Hcs0;
        [by apply IH | done].
    + rewrite lookup_insert_ne by done. apply IH.
  - destruct (reachable_signers p q Hq) as [_ Hsigners].
    destruct (decide (sender ∈ quorumState.senders q)) as [Hin|Hnew].
    { rewrite ReceiveEachPrefix_known in Hrun by done. injection Hrun as <-.
      apply IH. }
    destruct (ReceiveEachPrefix_new q sender values Hnew Hsigners)
      as (q'' & Hrun' & _ & _ & _ & _ & Hkeys & Hother).
    cbv zeta in *. rewrite Hrun in Hrun'. injection Hrun' as <-.
    pose (keyof := λ j, ECChain.Key (ECChain.Prefix values (j + 1))).
    destruct (decide (key ∈ keyof <$> seq 0 (length (ECChain.Suffix values))))
      as [Hk|Hk].
    + apply list_elem_of_fmap in Hk as (j & -> & Hj). unfold keyof.
      rewrite (Hkeys j Hj). intros [= <-]. unfold record_support. simpl.
      destruct (quorumState.chainSupport_ q
                  !! ECChain.Key (ECChain.Prefix values (j + 1))) as [cs0|] eqn:Hcs0;
        [by apply IH | done].
    + rewrite (Hother key Hk). apply IH.
  - apply ReceiveJustification_chainSupport in Hrun as [-> _]. apply IH.
Qed.

(** What the loop of [FindStrongQuorumValue] makes of the entries that have
    a strong quorum. *)
Lemma FindStrongQuorumValue_loop_flagged entries : ∀ quorumValue foundQuorum,
  quorumState.FindStrongQuorumValue_loop entries quorumValue foundQuorum
  = match filter (λ e, chainSupport.hasStrongQuorum e.2 = true) entries,
          foundQuorum with
    | [], _ => Return (quorumValue, foundQuorum)
    | [e], false => Return (chainSupport.chain e.2, true)
    | _, _ => Panic "multiple chains with strong quorum"
    end.
Proof.
  induction entries as [|[key cp] entries IH]; intros quorumValue foundQuorum;
    cbn [quorumState.FindStrongQuorumValue_loop]; [done|].
  rewrite filter_cons. cbn [snd].
  destruct (chainSupport.hasStrongQuorum cp) eqn:Hflag.
  - rewrite decide_True by done. destruct foundQuorum.
    + by destruct (filter _ entries).
    + rewrite IH. by destruct (filter _ entries) as [|? [|? ?]].
  - rewrite decide_False by done. apply IH.
Qed.

Section single_vote.
Context `{MapRange}.

(** X11.  An accumulator of single votes has at most one value with a
    strong quorum, and [FindStrongQuorumValue] never panics on it.  Over a
    well-formed power table whose power is not zero, in every state reached
    by [Receive] and [ReceiveJustification]: two keys that have a strong
    quorum are the same key; [FindStrongQuorumValue] returns; when it finds
    a value, the key of that value has a strong quorum; when it finds none,
    it returns the zero chain and no key has a strong quorum. *)
Theorem FindStrongQuorumValue_unique (p : PowerTable.t) (q : quorumState.t) :
  PowerTable_wf p → 0 < PowerTable.ScaledTotal p → single_vote_reachable p q →
  (∀ k1 k2,
     quorumState.HasStrongQuorumFor q k1 = true →
     quorumState.HasStrongQuorumFor q k2 = true → k1 = k2)
  ∧ ∃ value found,
      quorumState.FindStrongQuorumValue q = Return (value, found)
      ∧ (found = true → quorumState.HasStrongQuorumFor q (ECChain.Key value) = true)
      ∧ (found = false →
         value = [] ∧ ∀ key, quorumState.HasStrongQuorumFor q key = false).
Proof.
  intros Hwf Hpos Hsingle.
  pose proof (single_vote_quorum_reachable p q Hsingle) as Hq.
  pose proof (reachable_inv p q Hwf Hq) as Hinv.
  assert (∀ k1 k2,
            quorumState.HasStrongQuorumFor q k1 = true →
            quorumState.HasStrongQuorumFor q k2 = true → k1 = k2) as Hunique.
  { intros k1 k2 H1 H2. destruct (decide (k1 = k2)) as [|Hne]; [done|]. exfalso.
    pose proof (single_vote_disjoint p q k1 k2 Hsingle Hne) as Hdisj.
    unfold quorumState.HasStrongQuorumFor in H1, H2.
    destruct (quorumState.chainSupport_ q !! k1) as [cs1|] eqn:Hcs1; [|done].
    destruct (quorumState.chainSupport_ q !! k2) as [cs2|] eqn:Hcs2; [|done].
    rewrite (inv_quorum p q Hinv k1 cs1 Hcs1), IsStrongQuorum_wf in H1 by done.
    rewrite (inv_quorum p q Hinv k2 cs2 Hcs2), IsStrongQuorum_wf in H2 by done.
    rewrite (inv_power p q Hinv k1 cs1 Hcs1) in H1.
    rewrite (inv_power p q Hinv k2 cs2 Hcs2) in H2.
    unfold signers_of in Hdisj. rewrite Hcs1, Hcs2 in Hdisj.
    pose proof (power_of_set_range p
                  (dom (chainSupport.signatures cs1)
                   ∪ dom (chainSupport.signatures cs2)) Hwf) as [_ Hboth].
    rewrite (power_of_perm p _ _ (elements_disj_union _ _ Hdisj)) in Hboth.
    rewrite power_of_app in Hboth.
    pose proof (ceilDiv_spec (2 * PowerTable.ScaledTotal p) 3 ltac:(lia)). lia. }
  split; [exact Hunique|].
  unfold quorumState.FindStrongQuorumValue.
  rewrite FindStrongQuorumValue_loop_flagged.
  set (flagged := filter _ _).
  assert (∀ e, e ∈ flagged →
            quorumState.chainSupport_ q !! e.1 = Some e.2
            ∧ chainSupport.hasStrongQuorum e.2 = true) as Hflagged.
  { intros [key cs] [Hflag Hin]%list_elem_of_filter.
    rewrite map_range_perm in Hin. by apply elem_of_map_to_list in Hin. }
  assert (∀ key, quorumState.HasStrongQuorumFor q key = true →
            ∃ cs, (key, cs) ∈ flagged) as Hfound.
  { intros key Hkey. unfold quorumState.HasStrongQuorumFor in Hkey.
    destruct (quorumState.chainSupport_ q !! key) as [cs|] eqn:Hcs; [|done].
    exists cs. apply list_elem_of_filter. split; [done|].
    rewrite map_range_perm. by apply elem_of_map_to_list. }
  assert (NoDup flagged.*1) as Hnodup.
  { apply (sublist_NoDup _ (map_range (quorumState.chainSupport_ q)).*1).
    - rewrite map_range_perm. apply NoDup_fst_map_to_list.
    - apply fmap_sublist. unfold flagged. apply sublist_filter. }
  destruct flagged as [|[key1 cs1] [|[key2 cs2] rest]] eqn:Hlist.
  - exists [], false. split; [done|]. split; [done|]. intros _. split; [done|].
    intros key. apply not_true_is_false. intros [cs Hin]%Hfound.
    by apply elem_of_nil in Hin.
  - exists (chainSupport.chain cs1), true. split; [done|]. split; [|done].
    intros _. destruct (Hflagged (key1, cs1)) as [Hcs Hflag]; [left|].
    simpl in Hcs, Hflag. rewrite (recorded_chain_key p q key1 cs1 Hq Hcs).
    unfold quorumState.HasStrongQuorumFor. by rewrite Hcs.
  - exfalso. destruct (Hflagged (key1, cs1)) as [Hcs1 Hflag1]; [left|].
    destruct (Hflagged (key2, cs2)) as [Hcs2 Hflag2]; [right; left|].
    simpl in *. assert (key1 = key2) as ->.
    { apply Hunique; unfold quorumState.HasStrongQuorumFor.
      - by rewrite Hcs1.
      - by rewrite Hcs2. }
    apply NoDup_cons in Hnodup as [Hnotin _]. apply Hnotin. left.
Qed.

End single_vote.

Lemma FindStrongQuorumValue_unique_witness :
  ∃ value found,
    @quorumState.FindStrongQuorumValue harness.mapRange harness.voted3
    = Return (value, found)
    ∧ (found = true →
       quorumState.HasStrongQuorumFor harness.voted3 (ECChain.Key value) = true)
    ∧ (found = false →
       value = [] ∧ ∀ key, quorumState.HasStrongQuorumFor harness.voted3 key = false).
Proof.
  destruct (@FindStrongQuorumValue_unique harness.mapRange harness.table3
              harness.voted3) as [_ Hfind].
  - exact table3_wf.
  - vm_compute. reflexivity.
  - pose (q0 := quorumState.newQuorumState harness.table3).
    pose (q1 := harness.receive_all q0 [(9, harness.chain2)]).
    pose (q2 := harness.receive_all q1 [(4, harness.chain2)]).
    apply (single_Receive harness.table3 q2 7 harness.chain2 (Some [7]));
      [|vm_compute; reflexivity].
    apply (single_Receive harness.table3 q1 4 harness.chain2 (Some [4]));
      [|vm_compute; reflexivity].
    apply (single_Receive harness.table3 q0 9 harness.chain2 (Some [9]));
      [|vm_compute; reflexivity].
    apply single_new.
  - exact Hfind.
Defined.

(** ** The longest prefix with a strong quorum *)

Lemma find_rev_seq (P : nat → bool) (n : nat) :
  match List.find P (rev (seq 0 n)) with
  | Some i => (i < n)%nat ∧ P i = true ∧ ∀ j, (i < j < n)%nat → P j = false
  | None => ∀ j, (j < n)%nat → P j = false
  end.
Proof.
  induction n as [|n IH].
  - simpl. lia.
  - rewrite seq_S, rev_app_distr. simpl. destruct (P n) eqn:Hn.
    + split; [lia|]. split; [done | lia].
    + destruct (List.find P (rev (seq 0 n))) as [i|].
      * destruct IH as (Hi & HP & Hlater). split; [lia|]. split; [done|].
        intros j Hj. destruct (decide (j = n)) as [->|?]; [done|]. apply Hlater. lia.
      * intros j Hj. destruct (decide (j = n)) as [->|?]; [done|]. apply IH. lia.
Qed.

(** X12.  [FindStrongQuorumValueForLongestPrefixOf] returns a prefix of the
    preferred chain with the same base; it has a strong quorum or is the
    base chain; and no longer prefix of the preferred chain, the chain
    itself included, has a strong quorum. *)
Theorem FindStrongQuorumValueForLongestPrefixOf_longest (q : quorumState.t)
    (preferred : ECChain.t) :
  let found := quorumState.FindStrongQuorumValueForLongestPrefixOf q preferred in
  found `prefix_of` preferred
  ∧ ECChain.Base found = ECChain.Base preferred
  ∧ (quorumState.HasStrongQuorumFor q (ECChain.Key found) = true
     ∨ found = ECChain.BaseChain preferred)
  ∧ ∀ longer : ECChain.t,
      longer `prefix_of` preferred → (length found < length longer)%nat →
      quorumState.HasStrongQuorumFor q (ECChain.Key longer) = false.
Proof.
  intros found. unfold quorumState.FindStrongQuorumValueForLongestPrefixOf in found.
  assert (∀ longer : ECChain.t, longer `prefix_of` preferred →
            longer = take (length longer) preferred) as Htake.
  { intros longer [rest ->]. by rewrite take_app_length. }
  assert (∀ longer : ECChain.t, longer `prefix_of` preferred →
            (length longer ≤ length preferred)%nat) as Hlen.
  { intros longer Hpre. by apply prefix_length. }
  destruct (quorumState.HasStrongQuorumFor q (ECChain.Key preferred)) eqn:Hall.
  { subst found. split; [done|]. split; [done|]. split; [by left|].
    intros longer Hpre%Hlen Hlonger. lia. }
  pose proof (find_rev_seq
                (λ i, quorumState.HasStrongQuorumFor q
                        (ECChain.Key (ECChain.Prefix preferred i)))
                (ECChain.Len preferred)) as Hfind.
  unfold ECChain.Len in *.
  destruct (List.find _ (rev (seq 0 (length preferred)))) as [i|].
  - destruct Hfind as (Hi & Hquorum & Hlater). subst found.
    rewrite Prefix_take in *. split; [apply prefix_take|]. split.
    { destruct preferred as [|t c]; [simpl in Hi; lia|].
      by replace (i + 1)%nat with (S i) by lia. }
    split; [by left|]. intros longer Hpre Hlonger.
    rewrite length_take in Hlonger. pose proof (Hlen longer Hpre).
    rewrite (Htake longer Hpre).
    specialize (Hlater (length longer - 1)%nat ltac:(lia)).
    rewrite Prefix_take in Hlater.
    by replace (length longer - 1 + 1)%nat with (length longer) in Hlater by lia.
  - subst found. split.
    { destruct preferred as [|t c]; [done|]. apply prefix_cons, prefix_nil. }
    split; [by destruct preferred|]. split; [by right|].
    intros longer Hpre Hlonger. pose proof (Hlen longer Hpre).
    rewrite (Htake longer Hpre).
    assert (0 < length longer)%nat by lia.
    specialize (Hfind (length longer - 1)%nat ltac:(lia)). simpl in Hfind.
    rewrite Prefix_take in Hfind.
    by replace (length longer - 1 + 1)%nat with (length longer) in Hfind by lia.
Qed.

(** ** Keeping and finding justifications *)

Section justifications.
Context `{MapRange}.

(** X13.  [ReceiveJustification] panics on a nil justification.  Otherwise
    it returns, keeps the first justification received for the value and
    changes nothing else; [GetJustificationOf] for the key of a value that
    is not bottom then returns the justification kept if it is of the phase
    asked, and none otherwise; and a justification kept that votes for
    bottom answers [HasJustificationOf] for the zero key and its phase,
    whatever the order in which the map is visited. *)
Theorem ReceiveJustification_kept (q : quorumState.t) (value : ECChain.t)
    (justification : Justification.t) (phase : Phase) :
  let key := ECChain.Key value in
  let kept := default justification (quorumState.receivedJustification q !! key) in
  quorumState.ReceiveJustification q value None = Panic "nil justification"
  ∧ ∃ q',
      quorumState.ReceiveJustification q value (Some justification) = Return q'
      ∧ quorumState.receivedJustification q' !! key = Some kept
      ∧ (∀ other, other ≠ key →
           quorumState.receivedJustification q' !! other
           = quorumState.receivedJustification q !! other)
      ∧ quorumState.senders q' = quorumState.senders q
      ∧ quorumState.sendersTotalPower q' = quorumState.sendersTotalPower q
      ∧ quorumState.chainSupport_ q' = quorumState.chainSupport_ q
      ∧ (value ≠ [] →
         quorumState.GetJustificationOf q' phase key
         = if decide (Payload.Phase_ (Justification.Vote kept) = phase)
           then Some kept else None)
      ∧ (ECChain.IsZero (Payload.Value (Justification.Vote kept)) = true →
         Payload.Phase_ (Justification.Vote kept) = phase →
         quorumState.HasJustificationOf q' phase [] = true).
Proof.
  intros key kept. split; [done|].
  assert (∃ q',
            quorumState.ReceiveJustification q value (Some justification) = Return q'
            ∧ quorumState.receivedJustification q' !! key = Some kept
            ∧ (∀ other, other ≠ key →
                 quorumState.receivedJustification q' !! other
                 = quorumState.receivedJustification q !! other)
            ∧ quorumState.senders q' = quorumState.senders q
            ∧ quorumState.sendersTotalPower q' = quorumState.sendersTotalPower q
            ∧ quorumState.chainSupport_ q' = quorumState.chainSupport_ q)
    as (q' & Hrun & Hkept & Hother & Hsenders & Htotal & Hsupport).
  { unfold quorumState.ReceiveJustification, kept. fold key.
    destruct (quorumState.receivedJustification q !! key) as [j|] eqn:Hj.
    - by exists q.
    - eexists. split; [done|]. simpl. rewrite lookup_insert_eq.
      split; [done|]. split; [|done]. intros other Hne.
      by rewrite lookup_insert_ne. }
  exists q'. do 6 (split; [done|]). split.
  - intros Hvalue. unfold quorumState.GetJustificationOf, ChainKey_IsZero.
    rewrite bool_decide_eq_false_2 by (unfold key; by rewrite Key_nil_iff).
    rewrite Hkept. destruct (decide _) as [Hp|Hp].
    + by rewrite bool_decide_eq_true_2.
    + by rewrite bool_decide_eq_false_2.
  - intros Hzero Hphase.
    unfold quorumState.HasJustificationOf, quorumState.GetJustificationOf.
    assert (ChainKey_IsZero [] = true) as -> by done.
    apply bool_decide_eq_true_2.
    destruct (List.find _ _) as [j|] eqn:Hfind; [by eexists|].
    exfalso.
    assert (In kept (snd <$> map_range (quorumState.receivedJustification q')))
      as Hin.
    { apply list_elem_of_In, list_elem_of_fmap. exists (key, kept). split; [done|].
      rewrite map_range_perm. by apply elem_of_map_to_list. }
    pose proof (find_none _ _ Hfind kept Hin) as Hnone. simpl in Hnone.
    rewrite Hzero, bool_decide_eq_true_2 in Hnone by done. done.
Qed.

End justifications.

(** ** The values of the CONVERGE collector *)

Lemma ECChain_Eq_true c other : ECChain.Eq c other = true ↔ c = other.
Proof.
  unfold ECChain.Eq. destruct (Nat.eqb_spec (length c) (length other)) as [Hlen|Hlen];
    simpl.
  - by apply Eq_from_eq.
  - split; [done|]. intros ->. done.
Qed.

Section converge_values.
Context `{TicketRank} `{MapRange}.

(** What [SetSelfValue] and [Receive] do to the value stored for a key. *)
Lemma SetSelfValue_values c value justification key :
  convergeState.values (convergeState.SetSelfValue c value justification) !! key
  = match convergeState.values c !! key with
    | Some v => Some v
    | None =>
        if decide (ECChain.Key value = key)
        then Some (ConvergeValue.mk value justification f64_inf) else None
    end.
Proof.
  unfold convergeState.SetSelfValue.
  destruct (convergeState.values c !! ECChain.Key value) as [v0|] eqn:Hv0.
  - destruct (convergeState.values c !! key) as [v|] eqn:Hv; [done|].
    rewrite decide_False; [done | congruence].
  - simpl. destruct (decide (ECChain.Key value = key)) as [<-|Hne].
    + by rewrite lookup_insert_eq, Hv0.
    + rewrite lookup_insert_ne by done. by destruct (_ !! key).
Qed.

Lemma Receive_values c sender table value ticket justification key v :
  convergeState.values c !! key = Some v →
  ∃ v',
    convergeState.values
      (convergeState.Receive c sender table value ticket justification).1 !! key
    = Some v'
    ∧ ConvergeValue.Chain v' = ConvergeValue.Chain v
    ∧ ConvergeValue.Justification_ v' = ConvergeValue.Justification_ v
    ∧ (ConvergeValue.Rank v' = ConvergeValue.Rank v
       ∨ f64_lt (ConvergeValue.Rank v') (ConvergeValue.Rank v) = true).
Proof.
  intros Hv. unfold convergeState.Receive.
  destruct (ECChain.IsZero value); [by exists v; auto|].
  destruct (bool_decide (justification = None)); [by exists v; auto|].
  destruct (bool_decide (sender ∈ _)); [by exists v; auto|]. cbv zeta.
  destruct (decide (ECChain.Key value = key)) as [<-|Hne].
  - rewrite Hv. destruct (f64_lt _ _) eqn:Hlt; simpl.
    + rewrite lookup_insert_eq. eexists. split; [done|]. simpl. auto.
    + exists v. auto.
  - destruct (convergeState.values c !! ECChain.Key value) as [v0|]; simpl.
    + destruct (f64_lt _ _); simpl.
      * rewrite lookup_insert_ne by done. exists v. auto.
      * exists v. auto.
    + rewrite lookup_insert_ne by done. exists v. auto.
Qed.

Lemma Receive_values_new c sender table value ticket justification key v' :
  convergeState.values c !! key = None →
  convergeState.values
    (convergeState.Receive c sender table value ticket justification).1 !! key
  = Some v' →
  ECChain.Key (ConvergeValue.Chain v') = key.
Proof.
  intros Hnone. unfold convergeState.Receive.
  destruct (ECChain.IsZero value); [simpl; by rewrite Hnone|].
  destruct (bool_decide (justification = None)); [simpl; by rewrite Hnone|].
  destruct (bool_decide (sender ∈ _)); [simpl; by rewrite Hnone|]. cbv zeta.
  destruct (decide (ECChain.Key value = key)) as [<-|Hne].
  - rewrite Hnone. simpl. rewrite lookup_insert_eq. by intros [= <-].
  - destruct (convergeState.values c !! ECChain.Key value) as [v0|]; simpl.
    + destruct (f64_lt _ _); simpl;
        [rewrite lookup_insert_ne by done|]; by rewrite Hnone.
    + rewrite lookup_insert_ne by done. by rewrite Hnone.
Qed.

Lemma converge_values_keyed c key v :
  converge_reachable c →
  convergeState.values c !! key = Some v →
  ECChain.Key (ConvergeValue.Chain v) = key.
Proof.
  intros Hc. revert key v.
  induction Hc as [|c value justification Hc IH
                  |c sender table value ticket justification Hc IH]; intros key v.
  - simpl. by rewrite lookup_empty.
  - rewrite SetSelfValue_values.
    destruct (convergeState.values c !! key) as [v0|] eqn:Hv0.
    + intros [= <-]. by apply IH.
    + destruct (decide _) as [<-|]; [|done]. by intros [= <-].
  - destruct (convergeState.values c !! key) as [v0|] eqn:Hv0.
    + destruct (Receive_values c sender table value ticket justification key v0 Hv0)
        as (v' & -> & Hchain & _). intros [= <-]. rewrite Hchain. by apply IH.
    + by apply Receive_values_new.
Qed.

(** X14.  The values of a CONVERGE collector.  In every state built by
    [SetSelfValue] and [Receive], a value is stored under the key of its own
    chain; [SetSelfValue] never replaces a value stored; [Receive] keeps the
    chain and the justification first stored for a key and at most lowers
    the rank; and [FindProposalFor] returns the value stored under the key of
    the chain when that is a value for the chain, and the zero value
    otherwise, whatever the order in which the map is visited. *)
Theorem converge_values_kept (c : convergeState.t) (chain : ECChain.t)
    (key : list Z) (v : ConvergeValue.t) :
  converge_reachable c →
  (convergeState.values c !! key = Some v →
   ECChain.Key (ConvergeValue.Chain v) = key
   ∧ (∀ value justification,
        convergeState.values (convergeState.SetSelfValue c value justification) !! key
        = Some v)
   ∧ (∀ sender table value ticket justification,
        ∃ v',
          convergeState.values
            (convergeState.Receive c sender table value ticket justification).1 !! key
          = Some v'
          ∧ ConvergeValue.Chain v' = ConvergeValue.Chain v
          ∧ ConvergeValue.Justification_ v' = ConvergeValue.Justification_ v
          ∧ (ConvergeValue.Rank v' = ConvergeValue.Rank v
             ∨ f64_lt (ConvergeValue.Rank v') (ConvergeValue.Rank v) = true)))
  ∧ convergeState.FindProposalFor c chain
    = match convergeState.values c !! ECChain.Key chain with
      | Some stored =>
          if ECChain.Eq (ConvergeValue.Chain stored) chain
          then stored else ConvergeValue.zero
      | None => ConvergeValue.zero
      end.
Proof.
  intros Hc. split.
  - intros Hv. split; [by apply (converge_values_keyed c)|]. split.
    + intros value justification. by rewrite SetSelfValue_values, Hv.
    + intros sender table value ticket justification. by apply Receive_values.
  - unfold convergeState.FindProposalFor.
    set (matches := λ value : ConvergeValue.t,
                      ECChain.Eq (ConvergeValue.Chain value) chain).
    assert (∀ found, In found (snd <$> map_range (convergeState.values c)) →
              matches found = true →
              convergeState.values c !! ECChain.Key chain = Some found) as Hstored.
    { intros found Hin Hmatch. apply ECChain_Eq_true in Hmatch.
      apply list_elem_of_In, list_elem_of_fmap in Hin as ([key' found'] & -> & Hin).
      rewrite map_range_perm in Hin. apply elem_of_map_to_list in Hin.
      simpl in *. by rewrite <- Hmatch, (converge_values_keyed c key' found' Hc Hin). }
    destruct (List.find matches _) as [found|] eqn:Hfind.
    + apply find_some in Hfind as [Hin Hmatch].
      rewrite (Hstored found Hin Hmatch). unfold matches in Hmatch.
      by rewrite Hmatch.
    + simpl.
      destruct (convergeState.values c !! ECChain.Key chain) as [stored|] eqn:Hkey;
        [|done].
      destruct (ECChain.Eq (ConvergeValue.Chain stored) chain) eqn:Hmatch; [|done].
      exfalso. assert (In stored (snd <$> map_range (convergeState.values c))) as Hin.
      { apply list_elem_of_In, list_elem_of_fmap.
        exists (ECChain.Key chain, stored). split; [done|].
        rewrite map_range_perm. by apply elem_of_map_to_list. }
      pose proof (find_none _ _ Hfind stored Hin) as Hnone. unfold matches in Hnone.
      congruence.
Qed.

End converge_values.

(** ** The best ticket *)

Section best_ticket.
Context `{TicketRank} `{MapRange}.

(** The order of the ranks: [<] on [float64] is irreflexive and transitive. *)
Hypothesis f64_lt_irrefl : ∀ x, f64_lt x x = false.
Hypothesis f64_lt_trans :
  ∀ x y z, f64_lt x y = true → f64_lt y z = true → f64_lt x z = true.

Variable accepts : ConvergeValue.t → bool.

(** The loop of [FindBestTicketProposal] over valid values, with a filter
    that returns. *)
Lemma FindBestTicketProposal_loop_best vs : ∀ bestValue,
  Forall (λ v, ConvergeValue.IsValid v = true) vs →
  ∃ best,
    convergeState.FindBestTicketProposal_loop (Some (λ v, Return (accepts v)))
      vs bestValue = Return best
    ∧ (best = bestValue
       ∨ (best ∈ vs ∧ accepts best = true
          ∧ (ConvergeValue.IsValid bestValue = true →
             f64_lt (ConvergeValue.Rank best) (ConvergeValue.Rank bestValue) = true)))
    ∧ (∀ v, v ∈ vs → accepts v = true →
         ConvergeValue.IsValid best = true
         ∧ f64_lt (ConvergeValue.Rank v) (ConvergeValue.Rank best) = false)
    ∧ (ConvergeValue.IsValid bestValue = true → ConvergeValue.IsValid best = true).
Proof.
  induction vs as [|v vs IH]; intros bestValue Hvalid.
  - exists bestValue. simpl. split; [done|]. split; [by left|].
    split; [|done]. intros v Hv. by apply elem_of_nil in Hv.
  - apply Forall_cons in Hvalid as [Hv Hvalid].
    cbn [convergeState.FindBestTicketProposal_loop].
    assert (∀ x y, f64_lt x y = true → f64_lt y x = false) as Hasym.
    { intros x y Hxy. destruct (f64_lt y x) eqn:Hyx; [|done].
      by rewrite <- (f64_lt_irrefl x), (f64_lt_trans x y x Hxy Hyx). }
    destruct (ConvergeValue.IsOtherBetter bestValue v && accepts v) eqn:Htake.
    + apply andb_true_iff in Htake as [Hbetter Haccept].
      rewrite Hbetter. cbn [outcome_bind mbind]. rewrite Haccept.
      destruct (IH v Hvalid) as (best & Hrun & Hbest & Hleast & Hkeeps).
      specialize (Hkeeps Hv).
      exists best. split; [exact Hrun|].
      assert (ConvergeValue.IsValid bestValue = true →
              f64_lt (ConvergeValue.Rank v) (ConvergeValue.Rank bestValue) = true)
        as Hlower.
      { intros Hb. unfold ConvergeValue.IsOtherBetter in Hbetter.
        by rewrite Hb in Hbetter. }
      assert (best ∈ v :: vs ∧ accepts best = true
              ∧ (ConvergeValue.IsValid bestValue = true →
                 f64_lt (ConvergeValue.Rank best) (ConvergeValue.Rank bestValue)
                 = true)) as Hnew.
      { destruct Hbest as [->|(Hin & Hacc & Hlt)].
        - split; [by left|]. by split.
        - split; [by right|]. split; [done|]. intros Hb.
          apply (f64_lt_trans _ (ConvergeValue.Rank v)); [by apply Hlt | by apply Hlower]. }
      split; [by right|]. split; [|done].
      intros v' Hv' Hacc'. split; [done|].
      apply elem_of_cons in Hv' as [->|Hv']; [|by apply Hleast].
      destruct Hbest as [->|(_ & _ & Hlt)]; [apply f64_lt_irrefl|].
      by apply Hasym, Hlt.
    + assert (convergeState.FindBestTicketProposal_loop
                (Some (λ v, Return (accepts v))) (v :: vs) bestValue
              = convergeState.FindBestTicketProposal_loop
                  (Some (λ v, Return (accepts v))) vs bestValue) as Hskip.
      { cbn [convergeState.FindBestTicketProposal_loop].
        destruct (ConvergeValue.IsOtherBetter bestValue v); [|done].
        cbn [outcome_bind mbind]. simpl in Htake. by rewrite Htake. }
      cbn [convergeState.FindBestTicketProposal_loop] in Hskip. rewrite Hskip.
      destruct (IH bestValue Hvalid) as (best & Hrun & Hbest & Hleast & Hkeeps).
      exists best. split; [exact Hrun|]. split.
      { destruct Hbest as [->|(Hin & Hacc & Hlt)]; [by left|].
        right. split; [by right|]. by split. }
      split; [|done].
      intros v' Hv' Hacc'.
      apply elem_of_cons in Hv' as [->|Hv']; [|by apply Hleast].
      rewrite Hacc', andb_true_r in Htake.
      unfold ConvergeValue.IsOtherBetter in Htake.
      apply orb_false_iff in Htake as [Hb Hnot]. apply negb_false_iff in Hb.
      split; [by apply Hkeeps|].
      destruct Hbest as [->|(_ & _ & Hlt)]; [done|].
      destruct (f64_lt (ConvergeValue.Rank v) (ConvergeValue.Rank best)) eqn:Hvb;
        [|done].
      by rewrite (f64_lt_trans _ _ _ Hvb (Hlt Hb)) in Hnot.
Qed.

End best_ticket.

(** A nil filter accepts every value. *)
Lemma FindBestTicketProposal_loop_nil `{Float64} vs : ∀ bestValue,
  convergeState.FindBestTicketProposal_loop None vs bestValue
  = convergeState.FindBestTicketProposal_loop (Some (λ _, Return true)) vs bestValue.
Proof.
  induction vs as [|v vs IH]; intros bestValue; [done|].
  cbn [convergeState.FindBestTicketProposal_loop].
  destruct (ConvergeValue.IsOtherBetter bestValue v); [|apply IH].
  cbn [outcome_bind mbind]. apply IH.
Qed.

(** X15.  The best ticket.  With ranks ordered by an irreflexive and
    transitive [<], a collector whose stored values are all valid, and a
    filter that returns (a nil filter accepts every value),
    [FindBestTicketProposal] returns, in whatever order the map is visited:
    the zero value when the filter accepts no stored value; and otherwise a
    stored value the filter accepts such that no stored value the filter
    accepts has a strictly lower rank. *)
Theorem FindBestTicketProposal_best `{Float64} `{MapRange}
    (c : convergeState.t) (filter : option (ConvergeValue.t → bool)) :
  (∀ x, f64_lt x x = false) →
  (∀ x y z, f64_lt x y = true → f64_lt y z = true → f64_lt x z = true) →
  (∀ key v, convergeState.values c !! key = Some v → ConvergeValue.IsValid v = true) →
  let accepts := default (λ _, true) filter in
  ∃ best,
    convergeState.FindBestTicketProposal c ((λ f v, Return (f v)) <$> filter)
    = Return best
    ∧ ((∀ key v, convergeState.values c !! key = Some v → accepts v = false) →
       best = ConvergeValue.zero)
    ∧ ((∃ key v, convergeState.values c !! key = Some v ∧ accepts v = true) →
       (∃ key, convergeState.values c !! key = Some best)
       ∧ accepts best = true
       ∧ ∀ key v, convergeState.values c !! key = Some v → accepts v = true →
           f64_lt (ConvergeValue.Rank v) (ConvergeValue.Rank best) = false).
Proof.
  intros Hirrefl Htrans Hvalid accepts. unfold convergeState.FindBestTicketProposal.
  assert (∀ v, v ∈ snd <$> map_range (convergeState.values c)
               ↔ ∃ key, convergeState.values c !! key = Some v) as Hstored.
  { intros v. rewrite list_elem_of_fmap. split.
    - intros ([key v'] & -> & Hin). rewrite map_range_perm in Hin.
      apply elem_of_map_to_list in Hin. by exists key.
    - intros [key Hkey]. exists (key, v). split; [done|].
      rewrite map_range_perm. by apply elem_of_map_to_list. }
  assert (convergeState.FindBestTicketProposal_loop
            ((λ f v, Return (f v)) <$> filter)
            (snd <$> map_range (convergeState.values c)) ConvergeValue.zero
          = convergeState.FindBestTicketProposal_loop
              (Some (λ v, Return (accepts v)))
              (snd <$> map_range (convergeState.values c)) ConvergeValue.zero) as ->.
  { destruct filter as [f|]; [done|]. apply FindBestTicketProposal_loop_nil. }
  destruct (FindBestTicketProposal_loop_best Hirrefl Htrans accepts
              (snd <$> map_range (convergeState.values c)) ConvergeValue.zero)
    as (best & Hrun & Hbest & Hleast & _).
  { apply Forall_forall. intros v Hv. apply Hstored in Hv as [key Hkey].
    by apply (Hvalid key). }
  exists best. split; [exact Hrun|]. split.
  - intros Hnone. destruct Hbest as [->|(Hin & Hacc & _)]; [done|].
    apply Hstored in Hin as [key Hkey]. by rewrite (Hnone key best Hkey) in Hacc.
  - intros (key & v & Hkey & Hacc).
    assert (v ∈ snd <$> map_range (convergeState.values c)) as Hin
      by (apply Hstored; by exists key).
    destruct (Hleast v Hin Hacc) as [Hbvalid _].
    destruct Hbest as [->|(Hbin & Hbacc & _)]; [done|].
    split; [by apply Hstored|]. split; [done|].
    intros key' v' Hkey' Hacc'. apply Hleast; [|done].
    apply Hstored. by exists key'.
Qed.

Lemma harness_converged_values :
  convergeState.values harness_converged
  = {[ ECChain.Key harness.chain2 :=
         @ConvergeValue.mk harness.float harness.chain2
           (Some (harness.justification PREPARE_PHASE harness.chain2)) 2 ]}.
Proof. reflexivity. Qed.

Lemma FindBestTicketProposal_best_witness :
  ∃ best,
    @convergeState.FindBestTicketProposal _ harness.mapRange
      harness_converged None = Return best
    ∧ ((∀ key v, convergeState.values harness_converged !! key = Some v →
          true = false) →
       best = ConvergeValue.zero)
    ∧ ((∃ key v, convergeState.values harness_converged !! key = Some v
                 ∧ true = true) →
       (∃ key, convergeState.values harness_converged !! key = Some best)
       ∧ true = true
       ∧ ∀ key v, convergeState.values harness_converged !! key = Some v →
           true = true →
           f64_lt (ConvergeValue.Rank v) (ConvergeValue.Rank best) = false).
Proof.
  apply (@FindBestTicketProposal_best _ harness.mapRange harness_converged None).
  - intros x. apply Z.ltb_irrefl.
  - intros x y z Hxy Hyz. apply Z.ltb_lt. apply Z.ltb_lt in Hxy, Hyz. lia.
  - intros key v. rewrite harness_converged_values.
    intros [_ <-]%lookup_singleton_Some. reflexivity.
Defined.

Lemma converge_values_kept_witness :
  (convergeState.values harness_converged !! ECChain.Key harness.chain2
   = Some (@ConvergeValue.mk harness.float harness.chain2
             (Some (harness.justification PREPARE_PHASE harness.chain2)) 2) →
   ECChain.Key harness.chain2 = ECChain.Key harness.chain2
   ∧ (∀ value justification,
        convergeState.values
          (convergeState.SetSelfValue harness_converged value justification)
          !! ECChain.Key harness.chain2
        = Some (@ConvergeValue.mk harness.float harness.chain2
                  (Some (harness.justification PREPARE_PHASE harness.chain2)) 2)))
  ∧ @convergeState.FindProposalFor _ harness.mapRange
      harness_converged harness.chain2
    = @ConvergeValue.mk harness.float harness.chain2
        (Some (harness.justification PREPARE_PHASE harness.chain2)) 2.
Proof.
  destruct (@converge_values_kept _ harness.ticketRank harness.mapRange
              harness_converged harness.chain2 (ECChain.Key harness.chain2)
              (@ConvergeValue.mk harness.float harness.chain2
                 (Some (harness.justification PREPARE_PHASE harness.chain2)) 2))
    as [Hstored Hfind].
  - apply converge_Receive, converge_new.
  - split.
    + intros Hv. destruct (Hstored Hv) as (Hkey & Hself & _). by split.
    + rewrite Hfind. reflexivity.
Defined.

(** ** What a step of the instance keeps, and what it asks of its host *)

Create HintDb steps discriminated.

Section steps.
Context `{TicketRank} `{MapRange} `{Aggregate}.
#[local] Existing Instances instance.M_ret instance.M_bind.

Lemma requested_by_given i i' e :
  given i' = given i → requested_by i e → requested_by i' e.
Proof.
  unfold given. intros [= Hp Hin Hpt Hb Hsd Hid Hci].
  destruct e as [at_|mb|instant|progress]; simpl; [done|..].
  - by rewrite Hp, Hpt, Hb, Hsd, Hid.
  - by rewrite Hid.
  - by rewrite Hid, Hci.
Qed.

#[local] Instance instance_steps_preorder : PreOrder instance_steps.
Proof.
  split.
  - intros s. unfold instance_steps. do 5 (split; [done|]). by exists [].
  - intros s1 s2 s3 (Hg1 & Hr1 & Ht1 & Hp1 & Hc1 & reqs1 & He1 & Hq1)
      (Hg2 & Hr2 & Ht2 & Hp2 & Hc2 & reqs2 & He2 & Hq2).
    split; [congruence|]. split; [by etrans|]. split; [auto|]. split; [auto|].
    split; [congruence|]. exists (reqs2 ++ reqs1).
    split; [by rewrite He2, He1, app_assoc|].
    apply Forall_app. split; [|done].
    eapply Forall_impl; [exact Hq2|]. intros e. by apply requested_by_given.
Qed.

(** An assignment to the instance that keeps what was given, the rounds and
    a decision reached. *)
Lemma steps_modify f :
  (∀ i, given (f i) = given i
        ∧ dom (instance.rounds i) ⊆ dom (instance.rounds (f i))
        ∧ (is_Some (instance.terminationValue i) →
           is_Some (instance.terminationValue (f i)))
        ∧ (instance.Phase_ i ≠ INITIAL_PHASE →
           instance.Phase_ (f i) ≠ INITIAL_PHASE)) →
  preserves instance_steps (instance.modify f).
Proof.
  intros Hf s. destruct (Hf (instance.self s)) as (Hg & Hr & Ht & Hp).
  unfold instance_steps. simpl. do 5 (split; [done|]). by exists [].
Qed.

(** A request to the host that is made on behalf of the instance whatever
    its state. *)
Lemma steps_emit e :
  (∀ i, requested_by i e) → preserves instance_steps (instance.emit e).
Proof.
  intros He s. unfold instance_steps. simpl. do 5 (split; [done|]).
  exists [e]. split; [done|]. by apply Forall_singleton.
Qed.

(** A request computed from the state of the instance. *)
Lemma steps_get_emit (e : instance.t → HostEvent) :
  (∀ i, requested_by i (e i)) →
  preserves instance_steps (i ← instance.get; instance.emit (e i)).
Proof.
  intros He s. unfold instance_steps. simpl. do 5 (split; [done|]).
  exists [e (instance.self s)]. split; [done|]. by apply Forall_singleton.
Qed.

Lemma broadcast_steps round phase value createTicket justification :
  broadcast_shape round phase createTicket justification →
  preserves instance_steps
    (instance.broadcast round phase value createTicket justification).
Proof.
  intros Hshape. unfold instance.broadcast. cbv zeta.
  apply (steps_get_emit (λ i, RequestBroadcast _)). intros i. simpl.
  do 4 (split; [done|]).
  destruct phase; simpl in *;
    try (by rewrite Hshape); try (destruct Hshape as [-> ?]; done).
Qed.

Lemma notifyProgress_steps : preserves instance_steps instance.notifyProgress.
Proof.
  unfold instance.notifyProgress.
  apply (steps_get_emit (λ i, NotifyProgress _)). intros i. by simpl.
Qed.
#[local] Hint Resolve notifyProgress_steps : steps.

Lemma rebroadcastQuietly_steps round phase :
  preserves instance_steps (instance.rebroadcastQuietly round phase).
Proof.
  unfold instance.rebroadcastQuietly.
  apply (steps_get_emit (λ i, RequestRebroadcast _)). intros i. by simpl.
Qed.
#[local] Hint Resolve rebroadcastQuietly_steps : steps.

Lemma addCandidate_steps c : preserves instance_steps (instance.addCandidate c).
Proof.
  intros s. unfold instance.addCandidate, instance.get, instance.modify.
  unfold mbind, instance.M_bind, mret, instance.M_ret.
  destruct (negb _); simpl; [|reflexivity].
  unfold instance_steps. simpl. do 5 (split; [done|]). by exists [].
Qed.
#[local] Hint Resolve addCandidate_steps : steps.

Ltac steps_step :=
  match goal with
  | |- preserves _ _ => assumption
  | |- preserves _ _ => solve [auto with steps]
  | |- preserves _ (mret _) => apply (preserves_ret instance_steps)
  | |- preserves _ (mbind _ _) => apply (preserves_bind instance_steps); [|intros]
  | |- preserves _ instance.get => apply (preserves_get instance_steps)
  | |- preserves _ (instance.panic _) => apply (preserves_panic instance_steps)
  | |- preserves _ (instance.lift _) => apply (preserves_lift instance_steps)
  | |- preserves _ instance.host_Time => apply (preserves_host_Time instance_steps)
  | |- preserves _ (instance.emit (SetAlarm _)) => apply steps_emit; done
  | |- preserves _ instance.skip => apply (preserves_skip instance_steps)
  | |- preserves _ (instance.modify _) =>
      apply steps_modify; intros;
      (split; [reflexivity|]); (split; [simpl; try done; set_solver|]);
      (split; [simpl; try done; intros _; by eexists|]); simpl; done
  | |- preserves _ (instance.broadcast _ _ _ _ _) =>
      apply broadcast_steps; simpl; done
  | |- preserves _ (instance.arbitrate_alarm _) => unfold instance.arbitrate_alarm
  | |- preserves _ (match ?x with _ => _ end) => destruct x
  | |- preserves _ (let _ := _ in _) => cbv zeta
  end.

Ltac steps := repeat steps_step.

Lemma getRound_steps r :
  preserves instance_steps (instance.getRound r).
Proof. unfold instance.getRound. steps. Qed.
#[local] Hint Resolve getRound_steps : steps.

Lemma store_round_steps r round :
  preserves instance_steps (instance.store_round r round).
Proof. unfold instance.store_round. steps. Qed.
#[local] Hint Resolve store_round_steps : steps.

Lemma terminated_steps :
  preserves instance_steps (instance.terminated).
Proof. unfold instance.terminated. steps. Qed.
#[local] Hint Resolve terminated_steps : steps.

Lemma isCandidate_steps c :
  preserves instance_steps (instance.isCandidate c).
Proof. unfold instance.isCandidate. steps. Qed.
#[local] Hint Resolve isCandidate_steps : steps.

Lemma addCandidatePrefixes_from_steps c l :
  preserves instance_steps (instance.addCandidatePrefixes_from c l).
Proof.
  induction l as [|l IH]; cbn [instance.addCandidatePrefixes_from]; steps.
Qed.
#[local] Hint Resolve addCandidatePrefixes_from_steps : steps.

Lemma addCandidatePrefixes_steps c :
  preserves instance_steps (instance.addCandidatePrefixes c).
Proof. unfold instance.addCandidatePrefixes. steps. Qed.
#[local] Hint Resolve addCandidatePrefixes_steps : steps.

Lemma resetRebroadcastParams_steps :
  preserves instance_steps (instance.resetRebroadcastParams).
Proof. unfold instance.resetRebroadcastParams. steps. Qed.
#[local] Hint Resolve resetRebroadcastParams_steps : steps.

Lemma phaseTimeoutElapsed_steps :
  preserves instance_steps (instance.phaseTimeoutElapsed).
Proof. unfold instance.phaseTimeoutElapsed. steps. Qed.
#[local] Hint Resolve phaseTimeoutElapsed_steps : steps.

Lemma rebroadcastTimeoutElapsed_steps :
  preserves instance_steps (instance.rebroadcastTimeoutElapsed).
Proof. unfold instance.rebroadcastTimeoutElapsed. steps. Qed.
#[local] Hint Resolve rebroadcastTimeoutElapsed_steps : steps.

Lemma shouldRebroadcast_steps :
  preserves instance_steps (instance.shouldRebroadcast).
Proof. unfold instance.shouldRebroadcast. steps. Qed.
#[local] Hint Resolve shouldRebroadcast_steps : steps.

Lemma alarmAfterSynchronyWithMulti_steps multi :
  preserves instance_steps (instance.alarmAfterSynchronyWithMulti multi).
Proof. unfold instance.alarmAfterSynchronyWithMulti. steps. Qed.
#[local] Hint Resolve alarmAfterSynchronyWithMulti_steps : steps.

Lemma alarmAfterSynchrony_steps :
  preserves instance_steps (instance.alarmAfterSynchrony).
Proof. unfold instance.alarmAfterSynchrony. steps. Qed.
#[local] Hint Resolve alarmAfterSynchrony_steps : steps.

Lemma rebroadcast_steps :
  preserves instance_steps (instance.rebroadcast).
Proof. unfold instance.rebroadcast. steps. Qed.
#[local] Hint Resolve rebroadcast_steps : steps.

Lemma arbitrate_alarm_steps otherwise :
  preserves instance_steps otherwise →
  preserves instance_steps (instance.arbitrate_alarm otherwise).
Proof. intros Hother. unfold instance.arbitrate_alarm. steps. Qed.
#[local] Hint Resolve arbitrate_alarm_steps : steps.

Lemma tryRebroadcast_steps :
  preserves instance_steps (instance.tryRebroadcast).
Proof. unfold instance.tryRebroadcast. steps. Qed.
#[local] Hint Resolve tryRebroadcast_steps : steps.

Lemma buildJustification_steps quorum round phase value :
  preserves instance_steps (instance.buildJustification quorum round phase value).
Proof. unfold instance.buildJustification. steps. Qed.
#[local] Hint Resolve buildJustification_steps : steps.

Lemma beginQuality_steps :
  preserves instance_steps (instance.beginQuality).
Proof. unfold instance.beginQuality. steps. Qed.
#[local] Hint Resolve beginQuality_steps : steps.

Lemma beginPrepare_steps justification :
  preserves instance_steps (instance.beginPrepare justification).
Proof. unfold instance.beginPrepare. steps. Qed.
#[local] Hint Resolve beginPrepare_steps : steps.

Lemma tryQuality_steps :
  preserves instance_steps (instance.tryQuality).
Proof. unfold instance.tryQuality. steps. Qed.
#[local] Hint Resolve tryQuality_steps : steps.

Lemma updateCandidatesFromQuality_steps :
  preserves instance_steps (instance.updateCandidatesFromQuality).
Proof. unfold instance.updateCandidatesFromQuality. steps. Qed.
#[local] Hint Resolve updateCandidatesFromQuality_steps : steps.

(** [beginConverge] checks the round of the justification against the
    round of the instance, and broadcasts for that round. *)
Lemma beginConverge_steps justification :
  preserves instance_steps (instance.beginConverge justification).
Proof.
  unfold instance.beginConverge. intros s. rewrite run_bind.
  cbn [instance.get fst snd].
  destruct justification as [j|]; [|reflexivity].
  destruct (negb _) eqn:Hround; [reflexivity|].
  apply negb_false_iff, Z.eqb_eq in Hround.
  set (s1 := instance.mkState (instance.set_Phase CONVERGE_PHASE (instance.self s))
               (instance.host s)).
  assert (instance_steps s s1) as Hs1.
  { unfold instance_steps. simpl. do 5 (split; [done|]). by exists []. }
  assert (instance.Round (instance.self s1) = instance.Round (instance.self s))
    as Hr1 by done.
  rewrite run_bind. change (instance.modify _ s) with (Return tt, s1).
  cbn iota.
  etrans; [exact Hs1|]. clearbody s1. clear Hs1. rewrite <- Hr1 in Hround. clear Hr1 s.
  revert Hround. generalize s1. clear s1. intros s Hround.
  unfold instance.notifyProgress, instance.alarmAfterSynchrony,
    instance.alarmAfterSynchronyWithMulti, instance.resetRebroadcastParams,
    instance.broadcast.
  cbv zeta.
  repeat (rewrite run_bind;
          cbn [instance.get instance.modify instance.emit instance.host_Time
               mret instance.M_ret fst snd instance.self instance.host]).
  rewrite getRound_run.
  repeat (rewrite run_bind;
          cbn [instance.get instance.modify instance.emit instance.host_Time
               mret instance.M_ret fst snd instance.self instance.host]).
  rewrite store_round_run.
  repeat (rewrite run_bind;
          cbn [instance.get instance.modify instance.emit instance.host_Time
               mret instance.M_ret fst snd instance.self instance.host]).
  unfold instance_steps, with_round. cbn [snd instance.self instance.host].
  split; [reflexivity|]. split; [simpl; set_solver|]. split; [done|].
  split; [done|]. split; [done|].
  eexists [_; _; _]. split; [reflexivity|].
  repeat apply Forall_cons_2; [|done|done|done].
  simpl. do 4 (split; [done|]). split; [done|]. by exists j.
Qed.
#[local] Hint Resolve beginConverge_steps : steps.

Lemma tryConverge_steps :
  preserves instance_steps (instance.tryConverge).
Proof. unfold instance.tryConverge. steps. Qed.
#[local] Hint Resolve tryConverge_steps : steps.

Lemma beginCommit_steps :
  preserves instance_steps (instance.beginCommit).
Proof. unfold instance.beginCommit. steps. Qed.
#[local] Hint Resolve beginCommit_steps : steps.

Lemma tryPrepare_steps :
  preserves instance_steps (instance.tryPrepare).
Proof. unfold instance.tryPrepare. steps. Qed.
#[local] Hint Resolve tryPrepare_steps : steps.

Lemma beginDecide_steps round :
  preserves instance_steps (instance.beginDecide round).
Proof. unfold instance.beginDecide. steps. Qed.
#[local] Hint Resolve beginDecide_steps : steps.

Lemma skipToDecide_steps value justification :
  preserves instance_steps (instance.skipToDecide value justification).
Proof. unfold instance.skipToDecide. steps. Qed.
#[local] Hint Resolve skipToDecide_steps : steps.

Lemma terminate_steps decision :
  preserves instance_steps (instance.terminate decision).
Proof. unfold instance.terminate. steps. Qed.
#[local] Hint Resolve terminate_steps : steps.

Lemma tryDecide_steps :
  preserves instance_steps (instance.tryDecide).
Proof. unfold instance.tryDecide. steps. Qed.
#[local] Hint Resolve tryDecide_steps : steps.

Lemma beginNextRound_steps :
  preserves instance_steps (instance.beginNextRound).
Proof. unfold instance.beginNextRound. steps. Qed.
#[local] Hint Resolve beginNextRound_steps : steps.

Lemma skipToRound_steps round chain justification :
  preserves instance_steps (instance.skipToRound round chain justification).
Proof. unfold instance.skipToRound. steps. Qed.
#[local] Hint Resolve skipToRound_steps : steps.

Lemma sway_to_committed_steps values :
  preserves instance_steps (instance.sway_to_committed values).
Proof. unfold instance.sway_to_committed. steps. Qed.
#[local] Hint Resolve sway_to_committed_steps : steps.

Lemma tryCommit_steps round :
  preserves instance_steps (instance.tryCommit round).
Proof. unfold instance.tryCommit. steps. Qed.
#[local] Hint Resolve tryCommit_steps : steps.

Lemma tryCurrentPhase_steps :
  preserves instance_steps (instance.tryCurrentPhase).
Proof. unfold instance.tryCurrentPhase. steps. Qed.
#[local] Hint Resolve tryCurrentPhase_steps : steps.

Lemma shouldSkipToRound_steps round :
  preserves instance_steps (instance.shouldSkipToRound round).
Proof. unfold instance.shouldSkipToRound. steps. Qed.
#[local] Hint Resolve shouldSkipToRound_steps : steps.

Lemma postReceive_loop_steps roundsReceived :
  preserves instance_steps (instance.postReceive_loop roundsReceived).
Proof.
  induction roundsReceived as [|r rest IH]; cbn [instance.postReceive_loop]; steps.
Qed.
#[local] Hint Resolve postReceive_loop_steps : steps.

Lemma postReceive_steps roundsReceived :
  preserves instance_steps (instance.postReceive roundsReceived).
Proof. unfold instance.postReceive. steps. Qed.
#[local] Hint Resolve postReceive_steps : steps.

Lemma receiveOne_steps msg :
  preserves instance_steps (instance.receiveOne msg).
Proof. unfold instance.receiveOne. steps. Qed.
#[local] Hint Resolve receiveOne_steps : steps.

Lemma Start_steps :
  preserves instance_steps (instance.Start).
Proof. unfold instance.Start. steps. Qed.
#[local] Hint Resolve Start_steps : steps.

Lemma Receive_steps msg :
  preserves instance_steps (instance.Receive msg).
Proof. unfold instance.Receive. steps. Qed.
#[local] Hint Resolve Receive_steps : steps.

Lemma ReceiveMany_loop_steps msgs : ∀ roundsReceived,
  preserves instance_steps (instance.ReceiveMany_loop msgs roundsReceived).
Proof.
  induction msgs as [|msg msgs IH]; intros roundsReceived;
    cbn [instance.ReceiveMany_loop]; steps.
Qed.
#[local] Hint Resolve ReceiveMany_loop_steps : steps.

Lemma ReceiveMany_steps msgs :
  preserves instance_steps (instance.ReceiveMany msgs).
Proof. unfold instance.ReceiveMany. steps. Qed.
#[local] Hint Resolve ReceiveMany_steps : steps.

Lemma ReceiveAlarm_steps :
  preserves instance_steps (instance.ReceiveAlarm).
Proof. unfold instance.ReceiveAlarm. steps. Qed.
#[local] Hint Resolve ReceiveAlarm_steps : steps.

(** X16.  A step of the instance.  [Start], [Receive], [ReceiveMany] and
    [ReceiveAlarm], with every phase transition they trigger and also when
    they return an error or panic: keep the participant, the input, the power
    table, the beacon, the supplemental data and the instance number; forget
    no round; do not withdraw a decision; do not return to the initial phase;
    do not touch the clock; and only add requests to the host, each made on
    behalf of this instance: a message to broadcast is for its network, power
    table, instance number and supplemental data, carries a ticket beacon
    exactly when it is a CONVERGE message, which is justified from the round
    before its own, and is for round 0 when it is a DECIDE message.  So
    [Start] is refused, without any change, in every state after a state
    that has left the initial phase. *)
Theorem instance_steps_always (s : instance.state) :
  instance_steps s (instance.Start s).2
  ∧ (∀ msg, instance_steps s (instance.Receive msg s).2)
  ∧ (∀ msgs, instance_steps s (instance.ReceiveMany msgs s).2)
  ∧ instance_steps s (instance.ReceiveAlarm s).2
  ∧ (∀ s', instance_steps s s' →
       instance.Phase_ (instance.self s) ≠ INITIAL_PHASE →
       ∃ err, instance.Start s' = (Return (Some err), s')).
Proof.
  split; [apply Start_steps|]. split; [intros msg; apply Receive_steps|].
  split; [intros msgs; apply ReceiveMany_steps|]. split; [apply ReceiveAlarm_steps|].
  intros s' (_ & _ & _ & Hphase & _) Hstarted. specialize (Hphase Hstarted).
  unfold instance.Start, instance.beginQuality. rewrite run_bind.
  cbn [instance.get]. rewrite bool_decide_eq_false_2 by done. simpl. by eexists.
Qed.

(** What runs after a first part keeps what its first part left. *)
Lemma steps_bind_after {A B} (m : instance.M A) (f : A → instance.M B) s :
  (∀ a, preserves instance_steps (f a)) →
  instance_steps (m s).2 ((m ≫= f) s).2.
Proof.
  intros Hf. rewrite run_bind. destruct (m s) as [[a|msg] s']; simpl;
    [apply Hf | reflexivity].
Qed.

(** X17.  The guards of [Receive].  On an instance that has not terminated:
    a message for another instance, with other supplemental data, or with a
    value that is not bottom and not on the base of the input, is refused
    with the error for it, in this order, and nothing changes; a CONVERGE or
    PREPARE message for a round before the current one, and a message
    without justification for a round after round 0 and beyond the lookahead,
    is dropped without error and nothing changes, not even a round is
    allocated; every other message gets the state of its round allocated,
    whatever happens next. *)
Theorem Receive_guards (s : instance.state) (msg : GMessage.t) :
  instance.Phase_ (instance.self s) ≠ TERMINATED_PHASE →
  let i := instance.self s in
  let vote := GMessage.Vote msg in
  let stale :=
    Payload.Round vote < instance.Round i
    ∧ (Payload.Phase_ vote = CONVERGE_PHASE ∨ Payload.Phase_ vote = PREPARE_PHASE) in
  let spam :=
    Uint64.add (instance.Round i)
      (Participant.maxLookaheadRounds (instance.participant i))
    < Payload.Round vote
    ∧ GMessage.Justification_ msg = None
    ∧ 0 < Payload.Round vote in
  (Payload.Instance_ vote ≠ instance.ID i →
   ∃ err, instance.Receive msg s = (Return (Some err), s)
          ∧ errors_Is err ErrReceivedWrongInstance = true)
  ∧ (Payload.Instance_ vote = instance.ID i →
     Payload.SupplementalData_ vote ≠ instance.supplementalData i →
     ∃ err, instance.Receive msg s = (Return (Some err), s)
            ∧ errors_Is err ErrValidationWrongSupplement = true)
  ∧ (Payload.Instance_ vote = instance.ID i →
     Payload.SupplementalData_ vote = instance.supplementalData i →
     ECChain.IsZero (Payload.Value vote)
     || ECChain.HasBase (Payload.Value vote) (ECChain.Base (instance.input i))
     = false →
     ∃ err, instance.Receive msg s = (Return (Some err), s)
            ∧ errors_Is err ErrValidationWrongBase = true)
  ∧ (Payload.Instance_ vote = instance.ID i →
     Payload.SupplementalData_ vote = instance.supplementalData i →
     ECChain.IsZero (Payload.Value vote)
     || ECChain.HasBase (Payload.Value vote) (ECChain.Base (instance.input i))
     = true →
     (stale ∨ spam → instance.Receive msg s = (Return None, s))
     ∧ (¬ stale → ¬ spam →
        Payload.Round vote
        ∈ dom (instance.rounds (instance.self (instance.Receive msg s).2)))).
Proof.
  intros Hphase i vote stale spam.
  assert (instance.Receive msg s
            = (instance.receiveOne msg
               ≫= λ '(stateChanged, err),
                    match err with
                    | Some err => mret (Some err)
                    | None =>
                        (if stateChanged : bool
                         then instance.postReceive [Payload.Round (GMessage.Vote msg)]
                         else instance.skip);;
                        mret None
                    end) s) as Hrun.
  { unfold instance.Receive, instance.terminated.
    rewrite run_bind. rewrite run_bind. cbn [instance.get mret instance.M_ret].
    rewrite bool_decide_eq_false_2 by done. reflexivity. }
  split; [|split; [|split]].
  - intros Hid. apply Z.eqb_neq in Hid. eexists.
    rewrite Hrun. unfold instance.receiveOne. cbv zeta.
    rewrite run_bind. rewrite run_bind. cbn [instance.get].
    fold i vote. rewrite Hid. simpl. split; [done|]. done.
  - intros Hid Hsupp. apply Z.eqb_eq in Hid. eexists.
    rewrite Hrun. unfold instance.receiveOne. cbv zeta.
    rewrite run_bind. rewrite run_bind. cbn [instance.get].
    fold i vote. rewrite Hid. unfold SupplementalData.Eq.
    rewrite bool_decide_eq_false_2 by done. simpl. split; [done|]. done.
  - intros Hid Hsupp Hbase. apply Z.eqb_eq in Hid. eexists.
    rewrite Hrun. unfold instance.receiveOne. cbv zeta.
    rewrite run_bind. rewrite run_bind. cbn [instance.get].
    fold i vote. rewrite Hid. unfold SupplementalData.Eq.
    rewrite bool_decide_eq_true_2 by done. rewrite Hbase. simpl.
    split; [done|]. done.
  - intros Hid Hsupp Hbase. apply Z.eqb_eq in Hid.
    assert (instance.isSpammable msg
            = bool_decide (GMessage.Justification_ msg = None)
              && (0 <? Payload.Round vote)) as Hspammable by done.
    split.
    + intros Hdrop. rewrite Hrun. unfold instance.receiveOne. cbv zeta.
      rewrite run_bind. rewrite run_bind. cbn [instance.get].
      fold i vote. rewrite Hid. unfold SupplementalData.Eq.
      rewrite bool_decide_eq_true_2 by done. rewrite Hbase.
      rewrite bool_decide_eq_false_2 by done. cbn [negb].
      destruct ((_ && bool_decide (Payload.Phase_ vote = CONVERGE_PHASE)) || _)
        eqn:Hstale; [done|].
      destruct Hdrop as [[Hprior Hwhich]|(Hbeyond & Hnone & Hlater)].
      { exfalso. apply Z.ltb_lt in Hprior. rewrite Hprior in Hstale.
        destruct Hwhich as [Hc|Hp].
        - by rewrite (bool_decide_eq_true_2 _ Hc) in Hstale.
        - rewrite (bool_decide_eq_true_2 _ Hp) in Hstale.
          by rewrite orb_true_r in Hstale. }
      apply Z.ltb_lt in Hbeyond, Hlater.
      rewrite Hbeyond, Hspammable, Hlater, (bool_decide_eq_true_2 _ Hnone). done.
    + intros Hfresh Hwanted.
      assert (instance_steps (instance.receiveOne msg s).2 (instance.Receive msg s).2)
        as (_ & Hrounds & _).
      { rewrite Hrun. apply steps_bind_after. intros [stateChanged [err|]]; steps. }
      apply Hrounds. clear Hrounds Hrun.
      unfold instance.receiveOne. cbv zeta. rewrite run_bind. cbn [instance.get].
      fold i vote. rewrite Hid. unfold SupplementalData.Eq.
      rewrite bool_decide_eq_true_2 by done. rewrite Hbase.
      rewrite bool_decide_eq_false_2 by done. cbn [negb].
      destruct ((_ && bool_decide (Payload.Phase_ vote = CONVERGE_PHASE)) || _)
        eqn:Hstale.
      { exfalso. apply Hfresh.
        apply orb_true_iff in Hstale as [Hstale|Hstale];
          apply andb_true_iff in Hstale as [Hprior Hwhich];
          apply Z.ltb_lt in Hprior; apply bool_decide_eq_true in Hwhich;
          split; auto. }
      destruct (_ && instance.isSpammable msg) eqn:Hspam.
      { exfalso. apply Hwanted. rewrite Hspammable in Hspam.
        apply andb_true_iff in Hspam as [Hbeyond Hspam].
        apply andb_true_iff in Hspam as [Hnone Hlater].
        apply Z.ltb_lt in Hbeyond, Hlater. apply bool_decide_eq_true in Hnone.
        by split. }
      match goal with
      | |- _ ∈ dom (instance.rounds (instance.self ((instance.getRound ?r ≫= ?K) s).2)) =>
          assert (instance_steps (instance.getRound r s).2
                    ((instance.getRound r ≫= K) s).2) as (_ & Hrounds & _)
      end.
      { apply steps_bind_after. intros msgRound. steps. }
      apply Hrounds. rewrite getRound_run. unfold with_round. simpl.
      set_solver.
Qed.

End steps.

Section guards_examples.
#[local] Existing Instances harness.float harness.ticketRank harness.mapRange
  harness.aggregate.

Lemma Receive_guards_witness :
  let other := GMessage.mk 1 (Payload.mk 7 0 PREPARE_PHASE harness.supplement
                                harness.chain3) (Some [1]) [] None in
  let late := harness.message 1 PREPARE_PHASE harness.chain3 None in
  (∃ err, instance.Receive other harness.started
          = (Return (Some err), harness.started)
          ∧ errors_Is err ErrReceivedWrongInstance = true)
  ∧ Payload.Round (GMessage.Vote late)
    ∈ dom (instance.rounds
             (instance.self (instance.Receive late harness.started).2)).
Proof.
  intros other late. split.
  - destruct (Receive_guards harness.started other) as (Hwrong & _).
    + vm_compute. discriminate.
    + apply Hwrong. vm_compute. discriminate.
  - destruct (Receive_guards harness.started late) as (_ & _ & _ & Hvalid).
    + vm_compute. discriminate.
    + destruct Hvalid as [_ Hallocates]; [reflexivity | reflexivity | reflexivity |].
      apply Hallocates.
      * intros [Hprior _]. vm_compute in Hprior. discriminate.
      * intros (_ & _ & Hlater). vm_compute in Hlater. discriminate.
Defined.

End guards_examples.

(** ** The candidates added for a chain *)

Section candidate_prefixes.
Context `{TicketRank} `{MapRange} `{Aggregate}.
#[local] Existing Instances instance.M_ret instance.M_bind.

Lemma addCandidate_run c s :
  instance.addCandidate c s
  = if bool_decide (ECChain.Key c ∈ instance.candidates (instance.self s))
    then (Return false, s)
    else (Return true,
          instance.mkState
            (instance.set_candidates
               ({[ECChain.Key c]} ∪ instance.candidates (instance.self s))
               (instance.self s))
            (instance.host s)).
Proof.
  unfold instance.addCandidate. rewrite run_bind. cbn [instance.get]. cbv zeta.
  by destruct (bool_decide _).
Qed.

Lemma addCandidatePrefixes_from_run c n s :
  ((∀ l, (1 ≤ l ≤ n)%nat →
      ECChain.Key (ECChain.Prefix c l) ∈ instance.candidates (instance.self s))
   ∧ instance.addCandidatePrefixes_from c n s = (Return false, s))
  ∨ (∃ l, ((1 ≤ l ≤ n)%nat)
          ∧ (ECChain.Key (ECChain.Prefix c l) ∉ instance.candidates (instance.self s))
          ∧ (∀ l', (l < l' ≤ n)%nat →
               ECChain.Key (ECChain.Prefix c l')
               ∈ instance.candidates (instance.self s))
          ∧ instance.addCandidatePrefixes_from c n s
            = (Return true,
               instance.mkState
                 (instance.set_candidates
                    ({[ECChain.Key (ECChain.Prefix c l)]}
                     ∪ instance.candidates (instance.self s))
                    (instance.self s))
                 (instance.host s))).
Proof.
  induction n as [|n IH].
  - left. split; [intros l Hl; lia | done].
  - cbn [instance.addCandidatePrefixes_from]. rewrite run_bind, addCandidate_run.
    destruct (bool_decide _) eqn:Hknown.
    + apply bool_decide_eq_true in Hknown.
      destruct IH as [[Hall Hrun]|(l & Hl & Hnew & Hlonger & Hrun)].
      * left. split; [|exact Hrun]. intros l Hl.
        destruct (decide (l = S n)) as [->|]; [done|]. apply Hall. lia.
      * right. exists l. split; [lia|]. split; [done|]. split; [|exact Hrun].
        intros l' Hl'. destruct (decide (l' = S n)) as [->|]; [done|].
        apply Hlonger. lia.
    + apply bool_decide_eq_false in Hknown. right. exists (S n).
      split; [lia|]. split; [done|]. split; [intros l' Hl'; lia | done].
Qed.

(** X18.  The candidates added for a chain.  [addCandidatePrefixes] never
    panics and changes at most the candidates, by at most one key: it adds
    the key of the longest prefix of the chain, the chain itself first and
    the base chain excluded, that is not yet a candidate, and returns true;
    when every such prefix is a candidate already it returns false and
    nothing changes. *)
Theorem addCandidatePrefixes_longest (c : ECChain.t) (s : instance.state) :
  ((∀ l, (1 ≤ l ≤ ECChain.Len c - 1)%nat →
      ECChain.Key (ECChain.Prefix c l) ∈ instance.candidates (instance.self s))
   ∧ instance.addCandidatePrefixes c s = (Return false, s))
  ∨ (∃ l, ((1 ≤ l ≤ ECChain.Len c - 1)%nat)
          ∧ (ECChain.Key (ECChain.Prefix c l) ∉ instance.candidates (instance.self s))
          ∧ (∀ l', (l < l' ≤ ECChain.Len c - 1)%nat →
               ECChain.Key (ECChain.Prefix c l')
               ∈ instance.candidates (instance.self s))
          ∧ instance.addCandidatePrefixes c s
            = (Return true,
               instance.mkState
                 (instance.set_candidates
                    ({[ECChain.Key (ECChain.Prefix c l)]}
                     ∪ instance.candidates (instance.self s))
                    (instance.self s))
                 (instance.host s))).
Proof. apply addCandidatePrefixes_from_run. Qed.

End candidate_prefixes.

(** ** The justifications of the CONVERGE collector *)

Section converge_justifications.
Context `{TicketRank} `{MapRange}.

Lemma Receive_values_new_valid c sender table value ticket justification key v' :
  convergeState.values c !! key = None →
  convergeState.values
    (convergeState.Receive c sender table value ticket justification).1 !! key
  = Some v' →
  ConvergeValue.IsValid v' = true.
Proof.
  intros Hnone. unfold convergeState.Receive.
  destruct (ECChain.IsZero value) eqn:Hzero; [simpl; by rewrite Hnone|].
  destruct (bool_decide (justification = None)) eqn:Hnil;
    [simpl; by rewrite Hnone|].
  destruct (bool_decide (sender ∈ _)); [simpl; by rewrite Hnone|]. cbv zeta.
  apply bool_decide_eq_false in Hnil.
  destruct (decide (ECChain.Key value = key)) as [<-|Hne].
  - rewrite Hnone. simpl. rewrite lookup_insert_eq. intros [= <-].
    unfold ConvergeValue.IsValid. simpl. rewrite Hzero. simpl.
    apply bool_decide_eq_true. by destruct justification.
  - destruct (convergeState.values c !! ECChain.Key value) as [v0|]; simpl.
    + destruct (f64_lt _ _); simpl;
        [rewrite lookup_insert_ne by done|]; by rewrite Hnone.
    + rewrite lookup_insert_ne by done. by rewrite Hnone.
Qed.

Lemma converge_justified_stored c key v :
  converge_justified c →
  convergeState.values c !! key = Some v →
  is_Some (ConvergeValue.Justification_ v).
Proof.
  intros Hc. revert key v.
  induction Hc as [|c value j Hc IH
                  |c sender table value ticket justification Hc IH]; intros key v.
  - simpl. by rewrite lookup_empty.
  - rewrite SetSelfValue_values.
    destruct (convergeState.values c !! key) as [v0|] eqn:Hv0.
    + intros [= <-]. by apply (IH key).
    + destruct (decide _) as [<-|]; [|done]. intros [= <-]. by eexists.
  - destruct (convergeState.values c !! key) as [v0|] eqn:Hv0.
    + destruct (Receive_values c sender table value ticket justification key v0 Hv0)
        as (v' & -> & _ & Hjust & _). intros [= <-]. rewrite Hjust. by apply (IH key).
    + intros Hv. apply Receive_values_new_valid in Hv; [|done].
      unfold ConvergeValue.IsValid in Hv. apply andb_true_iff in Hv as [_ Hv].
      by apply bool_decide_eq_true in Hv.
Qed.

(** The search for a justification of bottom, over values that all carry a
    justification. *)
Lemma GetJustificationOf_loop_found phase vs :
  Forall (λ v, is_Some (ConvergeValue.Justification_ v)) vs →
  ∃ found,
    convergeState.GetJustificationOf_loop phase vs = Return found
    ∧ match found with
      | Some j =>
          Payload.Phase_ (Justification.Vote j) = phase
          ∧ ECChain.IsZero (Payload.Value (Justification.Vote j)) = true
          ∧ ∃ v, v ∈ vs ∧ ConvergeValue.Justification_ v = Some j
      | None =>
          ∀ v j, v ∈ vs → ConvergeValue.Justification_ v = Some j →
                 Payload.Phase_ (Justification.Vote j) = phase →
                 ECChain.IsZero (Payload.Value (Justification.Vote j)) = false
      end.
Proof.
  induction vs as [|v vs IH]; intros Hall.
  - exists None. split; [done|]. intros v j Hv. by apply elem_of_nil in Hv.
  - apply Forall_cons in Hall as [[j Hj] Hall].
    cbn [convergeState.GetJustificationOf_loop]. rewrite Hj.
    destruct (ECChain.IsZero _ && bool_decide _) eqn:Htake.
    + exists (Some j). split; [done|].
      apply andb_true_iff in Htake as [Hzero Hphase].
      apply bool_decide_eq_true in Hphase. split; [done|]. split; [done|].
      exists v. split; [by left | done].
    + destruct (IH Hall) as (found & Hrun & Hfound). exists found.
      split; [exact Hrun|]. destruct found as [j'|].
      * destruct Hfound as (Hphase & Hzero & v' & Hv' & Hj').
        split; [done|]. split; [done|]. exists v'. split; [by right | done].
      * intros v' j' Hv' Hj' Hphase.
        apply elem_of_cons in Hv' as [->|Hv']; [|by eapply Hfound].
        rewrite Hj in Hj'. injection Hj' as <-.
        rewrite (bool_decide_eq_true_2 _ Hphase), andb_true_r in Htake. done.
Qed.

(** X19.  The justifications of a CONVERGE collector.  In every collector
    built by [Receive] and by [SetSelfValue] with a justification, every
    value stored carries a justification, and a value stored for a chain
    that is not bottom is valid; so [GetJustificationOf] and
    [HasJustificationOf] return, in whatever order the map is visited.  For a
    key that is not zero the answer is the justification of the value stored
    under the key when it votes in the phase asked, and none otherwise.  For
    the zero key an answer is the justification of some value stored that
    votes for bottom in the phase asked, and there is none only when no
    value stored has such a justification. *)
Theorem converge_justifications (c : convergeState.t) (phase : Phase)
    (key : ChainKey) :
  converge_justified c →
  (∀ k v, convergeState.values c !! k = Some v →
     is_Some (ConvergeValue.Justification_ v)
     ∧ ConvergeValue.IsValid v = negb (ECChain.IsZero (ConvergeValue.Chain v)))
  ∧ ∃ found,
      convergeState.GetJustificationOf c phase key = Return found
      ∧ convergeState.HasJustificationOf c phase key
        = Return (bool_decide (is_Some found))
      ∧ (key ≠ [] →
         found
         = (v ← convergeState.values c !! key;
            j ← ConvergeValue.Justification_ v;
            if decide (Payload.Phase_ (Justification.Vote j) = phase)
            then Some j else None))
      ∧ (key = [] →
         match found with
         | Some j =>
             Payload.Phase_ (Justification.Vote j) = phase
             ∧ ECChain.IsZero (Payload.Value (Justification.Vote j)) = true
             ∧ ∃ k v, convergeState.values c !! k = Some v
                      ∧ ConvergeValue.Justification_ v = Some j
         | None =>
             ∀ k v j, convergeState.values c !! k = Some v →
                      ConvergeValue.Justification_ v = Some j →
                      Payload.Phase_ (Justification.Vote j) = phase →
                      ECChain.IsZero (Payload.Value (Justification.Vote j)) = false
         end).
Proof.
  intros Hc.
  pose proof (λ k v, converge_justified_stored c k v Hc) as Hstored.
  split.
  { intros k v Hv. split; [by apply (Hstored k)|].
    destruct (Hstored k v Hv) as [j Hj]. unfold ConvergeValue.IsValid.
    rewrite Hj. rewrite bool_decide_eq_true_2 by by eexists. apply andb_true_r. }
  assert (∀ v, v ∈ snd <$> map_range (convergeState.values c)
               ↔ ∃ k, convergeState.values c !! k = Some v) as Hin.
  { intros v. rewrite list_elem_of_fmap. split.
    - intros ([k v'] & -> & Hkv). rewrite map_range_perm in Hkv.
      apply elem_of_map_to_list in Hkv. by exists k.
    - intros [k Hk]. exists (k, v). split; [done|].
      rewrite map_range_perm. by apply elem_of_map_to_list. }
  assert (∃ found,
            convergeState.GetJustificationOf c phase key = Return found
            ∧ (key ≠ [] →
               found
               = (v ← convergeState.values c !! key;
                  j ← ConvergeValue.Justification_ v;
                  if decide (Payload.Phase_ (Justification.Vote j) = phase)
                  then Some j else None))
            ∧ (key = [] →
               match found with
               | Some j =>
                   Payload.Phase_ (Justification.Vote j) = phase
                   ∧ ECChain.IsZero (Payload.Value (Justification.Vote j)) = true
                   ∧ ∃ k v, convergeState.values c !! k = Some v
                            ∧ ConvergeValue.Justification_ v = Some j
               | None =>
                   ∀ k v j, convergeState.values c !! k = Some v →
                            ConvergeValue.Justification_ v = Some j →
                            Payload.Phase_ (Justification.Vote j) = phase →
                            ECChain.IsZero (Payload.Value (Justification.Vote j))
                            = false
               end)) as (found & Hget & Hkey & Hzero).
  { unfold convergeState.GetJustificationOf, ChainKey_IsZero.
    destruct (decide (key = [])) as [->|Hne].
    - rewrite bool_decide_eq_true_2 by done.
      destruct (GetJustificationOf_loop_found phase
                  (snd <$> map_range (convergeState.values c)))
        as (found & Hrun & Hfound).
      { apply Forall_forall. intros v Hv. apply Hin in Hv as [k Hk].
        by apply (Hstored k). }
      exists found. split; [exact Hrun|]. split; [done|]. intros _.
      destruct found as [j|].
      + destruct Hfound as (Hphase & Hbottom & v & Hv & Hj).
        split; [done|]. split; [done|]. apply Hin in Hv as [k Hk]. by exists k, v.
      + intros k v j Hk Hj. apply (Hfound v j); [|done]. apply Hin. by exists k.
    - rewrite bool_decide_eq_false_2 by done.
      destruct (convergeState.values c !! key) as [v|] eqn:Hv.
      + destruct (Hstored key v Hv) as [j Hj]. rewrite Hj. simpl. rewrite Hj. simpl.
        destruct (decide _) as [Hp|Hp].
        * rewrite bool_decide_eq_true_2 by done. by eexists.
        * rewrite bool_decide_eq_false_2 by done. by eexists.
      + by exists None. }
  exists found. split; [exact Hget|]. split; [|by split].
  unfold convergeState.HasJustificationOf. by rewrite Hget.
Qed.

End converge_justifications.

Lemma converge_justifications_witness :
  ∃ found,
    @convergeState.GetJustificationOf _ harness.mapRange harness_converged
      PREPARE_PHASE (ECChain.Key harness.chain2) = Return found
    ∧ found = Some (harness.justification PREPARE_PHASE harness.chain2).
Proof.
  destruct (@converge_justifications _ harness.ticketRank harness.mapRange
              harness_converged PREPARE_PHASE (ECChain.Key harness.chain2))
    as [_ (found & Hget & _ & Hkey & _)].
  - apply justified_Receive, justified_new.
  - exists found. split; [exact Hget|]. rewrite Hkey; [reflexivity|].
    vm_compute. discriminate.
Defined.

(** ** A batch of one message *)

Section batches.
Context `{TicketRank} `{MapRange} `{Aggregate}.
#[local] Existing Instances instance.M_ret instance.M_bind.

(** X20.  Batches.  On an instance that has not terminated the empty batch
    returns nil and changes nothing; and [ReceiveMany] of a single message
    does what [Receive] of the message does, the same result and the same
    state, whenever [Receive] does not return an error. *)
Theorem ReceiveMany_single (s : instance.state) :
  (instance.Phase_ (instance.self s) ≠ TERMINATED_PHASE →
   instance.ReceiveMany [] s = (Return None, s))
  ∧ (∀ msg,
       (∀ err, (instance.Receive msg s).1 ≠ Return (Some err)) →
       instance.ReceiveMany [msg] s = instance.Receive msg s).
Proof.
  assert (merge_sort Z.le (elements (∅ : gset Z)) = []) as Hempty
    by (by rewrite elements_empty).
  assert (∀ r : Z, merge_sort Z.le (elements ({[r]} ∪ ∅ : gset Z)) = [r]) as Hone.
  { intros r. by rewrite (right_id_L ∅ (∪)), elements_singleton. }
  split.
  - intros Hphase. unfold instance.ReceiveMany, instance.terminated.
    rewrite run_bind. rewrite run_bind. cbn [instance.get mret instance.M_ret].
    rewrite bool_decide_eq_false_2 by done.
    cbn [instance.ReceiveMany_loop]. rewrite run_bind.
    cbn [mret instance.M_ret]. rewrite Hempty. reflexivity.
  - intros msg Hok. revert Hok.
    unfold instance.ReceiveMany, instance.Receive, instance.terminated.
    rewrite !run_bind. cbn [instance.get mret instance.M_ret].
    destruct (bool_decide _); [done|].
    cbn [instance.ReceiveMany_loop]. rewrite !run_bind.
    destruct (instance.receiveOne msg s) as [[[stateChanged [err|]]|panic] s'].
    + intros Hok. by destruct (Hok err).
    + intros _. cbn [mret instance.M_ret]. rewrite run_bind.
      destruct stateChanged.
      * by rewrite Hone.
      * by rewrite Hempty.
    + done.
Qed.

End batches.

Section batches_examples.
#[local] Existing Instances harness.float harness.ticketRank harness.mapRange
  harness.aggregate.

Lemma ReceiveMany_single_witness :
  instance.ReceiveMany [harness.message 1 QUALITY_PHASE harness.chain3 None]
    harness.started
  = instance.Receive (harness.message 1 QUALITY_PHASE harness.chain3 None)
      harness.started.
Proof.
  destruct (ReceiveMany_single harness.started) as [_ Hsingle].
  apply Hsingle. intros err. vm_compute. discriminate.
Defined.

End batches_examples.
